(** * NLAP core: ActionRegistry and DAGExecutor

    A shallow embedding of the two classes of packages/core that schedule
    and run action plans,
      - [ActionRegistry] (imported as registry/ActionRegistry), and
      - [DAGExecutor] (executor/DAGExecutor.ts),
    together with the properties of registration, batching, retry and
    compensation that the specification states about them.

    Conventions of the embedding.
      - A JS [Map<string, V>] that is only read by key is a [gmap string V];
        the map of batch results, which [execute] iterates, keeps its
        insertion order (module [OrdMap]).
      - A JS [Set<string>] whose iteration order is observable (the
        [remaining] set of the scheduler, the per-tag identifier sets) is an
        insertion-ordered duplicate-free list, module [OrdSet]; a set that is
        only asked for membership and size is a [gset string].
      - A [throw] is the [Threw] constructor of [Completion].
      - JS numbers that the code uses as counters and attempt bounds, and
        the base delay of a retry policy, are integers [Z].  A computed
        delay is a double: the product of two integers rounded as IEEE 754
        rounds it (module [JsNumber]).
      - Handlers are closures over mutable application state: they are
        functions on an explicit world [W], and they terminate.  A handler
        resolves with a value or rejects with any value whatever.  Of a
        rejection value the executor reads nothing but its truthiness, so
        the embedding tells an error object (truthy) from [undefined],
        which also stands for [null], [0] and the other falsy values
        (type [Thrown]).
      - What the executor does to the outside (handler invocations, sleeps,
        compensations, [console.error]) is logged, in order, in the
        [trace] of the world, so that theorems can speak about it.
      - The calls of a batch run concurrently, as tasks that take turns
        whenever one of them waits for a handler or a timer.  The executor
        does not choose whose turn it is: [run_calls] reads it from an
        interleaving [sched], and every theorem about an execution holds
        for every interleaving.  One invocation of a handler is one turn:
        handlers interleave between invocations, not inside one.  The
        executor writes the shared results map only between batches, so
        every invocation of a batch is given the same map. *)

From stdpp Require Import base option list strings gmap sets fin_maps.
From Stdlib Require Import ZArith Lia.

Set Default Proof Using "Type".
Set Warnings "-clear-no-such-hyp".
Local Open Scope Z_scope.

(** ** Completion of a JS call: normal return or throw *)

Inductive Completion (E A : Type) : Type :=
  | Returned (a : A)
  | Threw (e : E).
Arguments Returned {E A} a.
Arguments Threw {E A} e.

(** ** Error objects

    [new Error(message)] and [new CircularDependencyError(cycle)] of
    errors/index.ts. *)

Inductive JsError : Type :=
  | Error (message : string)
  | CircularDependencyError (cycle : list string).

Definition dquote : string :=
  Eval cbv in String (Ascii.ascii_of_nat 34) EmptyString.

Definition quoted (s : string) : string := dquote +:+ s +:+ dquote.

(** ** What a [throw] or a rejection carries

    An error object, or [undefined]: the [throw lastError!] after a retry
    loop that never ran, and a handler that rejects with a falsy value. *)
Inductive Thrown : Type :=
  | ThrownError (e : JsError)
  | ThrownUndefined.

(** [error: error as Error] stores the thrown value; [undefined] is falsy. *)
Definition error_of_thrown (t : Thrown) : option JsError :=
  match t with
  | ThrownError e => Some e
  | ThrownUndefined => None
  end.

(** ** JS numbers that hold the product of two integers

    A JS number is an IEEE 754 double.  The integers of absolute value
    below [2^53] are doubles, and their sums and products are exact as long
    as they stay in that range.  Beyond it a product is rounded to the
    nearest double, ties to the even significand, and a product whose
    rounding reaches [2^1024] is an infinity. *)

Module JsNumber.

Inductive t : Type :=
  | Finite (z : Z)
  | PosInfinity
  | NegInfinity
  | NaN.

(** The double nearest to an integer. *)
Definition round (z : Z) : t :=
  let a := Z.abs z in
  if bool_decide (a < 2 ^ 53) then Finite z
  else
    let e := Z.log2 a - 52 in
    let q := a / 2 ^ e in
    let r := a mod 2 ^ e in
    let half := 2 ^ (e - 1) in
    let q' :=
      if bool_decide (half < r) || (bool_decide (r = half) && Z.odd q)
      then q + 1 else q in
    let m := q' * 2 ^ e in
    if bool_decide (2 ^ 1024 ≤ m)
    then (if bool_decide (0 < z) then PosInfinity else NegInfinity)
    else Finite (Z.sgn z * m).

(** [x * y] *)
Definition mul (x y : t) : t :=
  match x, y with
  | Finite a, Finite b => round (a * b)
  | NaN, _ | _, NaN => NaN
  | Finite a, PosInfinity | PosInfinity, Finite a =>
    if bool_decide (a = 0) then NaN
    else if bool_decide (0 < a) then PosInfinity else NegInfinity
  | Finite a, NegInfinity | NegInfinity, Finite a =>
    if bool_decide (a = 0) then NaN
    else if bool_decide (0 < a) then NegInfinity else PosInfinity
  | PosInfinity, PosInfinity | NegInfinity, NegInfinity => PosInfinity
  | PosInfinity, NegInfinity | NegInfinity, PosInfinity => NegInfinity
  end.

(** [Math.pow(2, n)] for an integer [0 ≤ n]. *)
Definition pow2 (n : Z) : t :=
  if bool_decide (n ≤ 1023) then Finite (2 ^ n) else PosInfinity.

(** The integers that are exact in every double computation below. *)
Definition safe (z : Z) : Prop := Z.abs z < 2 ^ 53.

End JsNumber.

(** ** Insertion-ordered string sets (JS [Set<string>]) *)

Module OrdSet.
Abbreviation t := (list string).
Definition empty : t := [].
Definition has (x : string) (s : t) : bool := bool_decide (x ∈ s).
Definition add (x : string) (s : t) : t := if has x s then s else s ++ [x].
Definition delete (x : string) (s : t) : t := filter (λ y, y ≠ x) s.
Definition of_list (l : list string) : t := foldl (λ s x, add x s) empty l.
Definition size (s : t) : Z := Z.of_nat (length s).
End OrdSet.

(** ** Insertion-ordered maps (a JS [Map<string, V>] that is iterated)

    [set] on a present key replaces the value and keeps the position of the
    key; on a new key it appends. *)

Module OrdMap.
Abbreviation t V := (list (string * V)).
Definition empty {V} : t V := [].
Fixpoint set {V} (k : string) (v : V) (m : t V) : t V :=
  match m with
  | [] => [(k, v)]
  | (k', v') :: m' =>
    if bool_decide (k' = k) then (k, v) :: m' else (k', v') :: set k v m'
  end.
Definition entries {V} (m : t V) : list (string * V) := m.
Definition keys {V} (m : t V) : list string := fst <$> m.
End OrdMap.

(** ** Data model (types/actions.ts, types/base.ts, types/pipeline.ts) *)

Inductive Backoff : Type := linear | exponential.

(** [RetryConfig]; [maxAttempts] and [delayMs] are integer-valued
    numbers. *)
Record RetryConfig : Type := {
  maxAttempts : Z;
  backoff : Backoff;
  delayMs : Z
}.

(** The Zod schema of an action is opaque to the registry and the executor:
    only its presence is tested. *)
Inductive ArgsSchema : Type := ZodSchema.

Section Model.

Context {W Val AppCtx : Type}.

(** One entry of the results map: [{ result: unknown; error?: Error }].
    [result = None] is [undefined]; [error = None] is an absent or
    [undefined] (falsy) error field. *)
Record ResultEntry : Type := {
  result : option Val;
  error : option JsError
}.

Record ExecutionContext : Type := {
  appContext : AppCtx;
  previousResults : gmap string ResultEntry;
  conversationId : string;
  turnNumber : Z
}.

(** A handler either resolves with a value or rejects, with an error
    object or with a falsy value; it may read and update the world. *)
Definition Handler : Type :=
  Val → ExecutionContext → W → (Val + Thrown) * W.

(** A compensation handler resolves ([None]) or rejects ([Some e]). *)
Definition CompensationHandler : Type :=
  Val → option Val → ExecutionContext → W → option Thrown * W.

(** [ActionDefinition]; the fields [priority], [searchableFields], [risk]
    and [examples] are read by neither the registry nor the executor. *)
Record ActionDefinition : Type := {
  id : string;
  description : string;
  argsSchema : option ArgsSchema;
  handler : option Handler;
  tags : option (list string);
  dependencies : option (list string);
  compensate : option CompensationHandler;
  retry : option RetryConfig
}.

(** [ActionCall]; [confidence] is not read by the executor. *)
Record ActionCall : Type := {
  callId : string;
  actionId : string;
  args : Val;
  dependsOn : option (list string)
}.

(** ** ActionRegistry *)

Record ActionRegistry : Type := {
  actions : gmap string ActionDefinition;
  actionsByTag : gmap string OrdSet.t;
  dependencyGraph : gmap string OrdSet.t;
  locked : bool
}.

Definition new_ActionRegistry : ActionRegistry :=
  {| actions := ∅; actionsByTag := ∅; dependencyGraph := ∅; locked := false |}.

(** Methods of the registry run in a state-and-exception monad over the
    registry object. *)
Definition RegM (A : Type) : Type :=
  ActionRegistry → Completion JsError A * ActionRegistry.

Definition ret {A} (a : A) : RegM A := λ r, (Returned a, r).
Definition throw {A} (e : JsError) : RegM A := λ r, (Threw e, r).
Definition bind {A B} (m : RegM A) (k : A → RegM B) : RegM B :=
  λ r, match m r with
       | (Returned a, r') => k a r'
       | (Threw e, r') => (Threw e, r')
       end.
Definition this : RegM ActionRegistry := λ r, (Returned r, r).
Definition modify (f : ActionRegistry → ActionRegistry) : RegM unit :=
  λ r, (Returned tt, f r).

Notation "m ;;; k" := (bind m (λ _, k))
  (at level 90, right associativity).

(** for (const x of l) body(x) *)
Fixpoint for_of {A} (l : list A) (body : A → RegM unit) : RegM unit :=
  match l with
  | [] => ret tt
  | x :: l' => body x ;;; for_of l' body
  end.

Definition get (actionId : string) (r : ActionRegistry)
  : option ActionDefinition := actions r !! actionId.

Definition lock (r : ActionRegistry) : ActionRegistry :=
  {| actions := actions r; actionsByTag := actionsByTag r;
     dependencyGraph := dependencyGraph r; locked := true |}.

Definition isLocked (r : ActionRegistry) : bool := locked r.

Definition lockedMessage : string :=
  "Registry is locked; cannot register new actions".

Definition validateLockState : RegM unit :=
  λ r, if locked r then throw (Error lockedMessage) r else ret tt r.

Definition noIdMessage : string := "Action must have a string ID".
Definition alreadyRegisteredMessage (i : string) : string :=
  "Action " +:+ quoted i +:+ " already registered".
Definition noDescriptionMessage (i : string) : string :=
  "Action " +:+ quoted i +:+ " must have a description".
Definition noArgsSchemaMessage (i : string) : string :=
  "Action " +:+ quoted i +:+ " must have an argsSchema".

Definition validateActionDefinition (action : ActionDefinition) : RegM unit :=
  λ r,
    if bool_decide (id action = EmptyString) then
      throw (Error noIdMessage) r
    else if bool_decide (is_Some (actions r !! id action)) then
      throw (Error (alreadyRegisteredMessage (id action))) r
    else if bool_decide (description action = EmptyString) then
      throw (Error (noDescriptionMessage (id action))) r
    else if bool_decide (argsSchema action = None) then
      throw (Error (noArgsSchemaMessage (id action))) r
    else ret tt r.

Definition unknownDependencyMessage (i dep : string) : string :=
  "Action " +:+ quoted i +:+ " depends on " +:+ quoted dep +:+
  " which is not registered. Register dependencies before dependents.".

Definition validateDependencies (action : ActionDefinition) : RegM unit :=
  for_of (default [] (dependencies action)) (λ dep r,
    if bool_decide (is_Some (actions r !! dep)) then ret tt r
    else throw (Error (unknownDependencyMessage (id action) dep)) r).

(** [detectCircularDependencies]: depth-first walk with a copy of
    [visited] and [path] handed to every recursive call.  The recursion
    descends only into registered actions and stops at an identifier
    already on the path, so its depth is at most the number of registered
    actions plus one; [fuel] bounds the depth and [None] means it ran out
    (lemma [detectCircularDependencies_total]: it does not). *)
Fixpoint detectCircularDependencies_rec (fuel : nat)
    (acts : gmap string ActionDefinition)
    (actionId : string) (deps : list string)
    (visited : gset string) (path : list string)
  : option (Completion JsError unit) :=
  match fuel with
  | O => None
  | S fuel' =>
    if bool_decide (actionId ∈ visited) then
      Some (Threw (CircularDependencyError (path ++ [actionId])))
    else
      let visited' := visited ∪ {[ actionId ]} in
      let path' := path ++ [actionId] in
      (fix loop (ds : list string) : option (Completion JsError unit) :=
         match ds with
         | [] => Some (Returned tt)
         | dep :: ds' =>
           match acts !! dep with
           | Some depAction =>
             match dependencies depAction with
             | Some depDeps =>
               match detectCircularDependencies_rec fuel' acts dep depDeps
                       visited' path' with
               | Some (Returned _) => loop ds'
               | other => other
               end
             | None => loop ds'
             end
           | None => loop ds'
           end
         end) deps
  end.

Definition detectCircularDependencies (actionId : string)
    (deps : list string) : RegM unit :=
  λ r,
    match detectCircularDependencies_rec (2 + size (actions r)) (actions r)
            actionId deps ∅ [] with
    | Some (Returned _) => ret tt r
    | Some (Threw e) => throw e r
    | None => throw (Error "unreachable: traversal depth exceeded") r
    end.

Definition set_action (action : ActionDefinition) : RegM unit :=
  modify (λ r,
    {| actions := <[ id action := action ]> (actions r);
       actionsByTag := actionsByTag r;
       dependencyGraph := dependencyGraph r;
       locked := locked r |}).

Definition index_tag (action : ActionDefinition) (tag : string)
    (r : ActionRegistry) : ActionRegistry :=
  {| actions := actions r;
     actionsByTag :=
       <[ tag := OrdSet.add (id action)
                   (default OrdSet.empty (actionsByTag r !! tag)) ]>
         (actionsByTag r);
     dependencyGraph := dependencyGraph r;
     locked := locked r |}.

Definition indexByTags (action : ActionDefinition) : RegM unit :=
  for_of (default [] (tags action)) (λ tag, modify (index_tag action tag)).

Definition link_dependent (action : ActionDefinition) (dep : string)
    (r : ActionRegistry) : ActionRegistry :=
  {| actions := actions r;
     actionsByTag := actionsByTag r;
     dependencyGraph :=
       <[ dep := OrdSet.add (id action)
                   (default OrdSet.empty (dependencyGraph r !! dep)) ]>
         (dependencyGraph r);
     locked := locked r |}.

Definition buildDependencyGraph (action : ActionDefinition) : RegM unit :=
  for_of (default [] (dependencies action))
         (λ dep, modify (link_dependent action dep)).

Definition register (action : ActionDefinition) : RegM unit :=
  validateLockState ;;;
  validateActionDefinition action ;;;
  validateDependencies action ;;;
  detectCircularDependencies (id action) (default [] (dependencies action)) ;;;
  set_action action ;;;
  indexByTags action ;;;
  buildDependencyGraph action.

Definition getByTag (tag : string) (r : ActionRegistry)
  : list (option ActionDefinition) :=
  match actionsByTag r !! tag with
  | Some ids => (λ i, actions r !! i) <$> ids
  | None => []
  end.

(** [sets.reduce(f)] without an initial value starts from [sets[0]]. *)
Definition getByTags (tags : list string) (r : ActionRegistry)
  : list (option ActionDefinition) :=
  match (λ tag, default OrdSet.empty (actionsByTag r !! tag)) <$> tags with
  | [] => []
  | s0 :: sets =>
    let intersection :=
      foldl (λ acc s, OrdSet.of_list (filter (λ x, OrdSet.has x s = true) acc))
            s0 sets in
    (λ i, actions r !! i) <$> intersection
  end.

Definition getDependents (actionId : string) (r : ActionRegistry)
  : list string :=
  default [] (dependencyGraph r !! actionId).

(** A computation that may throw but never writes to the registry. *)
Definition read_only {A} (m : RegM A) : Prop :=
  ∀ r, snd (m r) = r.

(** The registry after the three writes of a successful [register]. *)
Definition registered (action : ActionDefinition) (r : ActionRegistry)
  : ActionRegistry :=
  snd (buildDependencyGraph action
         (snd (indexByTags action (snd (set_action action r))))).

(** What the tag index of a registry built by [register] satisfies. *)
Definition registry_inv (r : ActionRegistry) : Prop :=
  (∀ i a, actions r !! i = Some a → id a = i) ∧
  (∀ tag i,
     (∃ s, actionsByTag r !! tag = Some s ∧ i ∈ s) ↔
     (∃ a, actions r !! i = Some a ∧ tag ∈ default [] (tags a))) ∧
  (∀ tag s, actionsByTag r !! tag = Some s → NoDup s).

End Model.

(** ** DAGExecutor *)

(** The configuration object as the caller passes it; every field optional. *)
Record DAGExecutorConfig : Type := {
  enableCompensation : option bool;
  enableRetry : option bool;
  defaultRetry : option RetryConfig
}.

(** JS truthiness of an optional boolean. *)
Definition truthy (b : option bool) : bool := default false b.

Module DAGExecutor.

Section Executor.

Context {W Val AppCtx : Type}.

Local Abbreviation ActionDefinition := (@ActionDefinition W Val AppCtx).
Local Abbreviation ActionRegistry := (@ActionRegistry W Val AppCtx).
Local Abbreviation ActionCall := (@ActionCall Val).
Local Abbreviation ResultEntry := (@ResultEntry Val).
Local Abbreviation ExecutionContext := (@ExecutionContext Val AppCtx).
Local Abbreviation CompensationHandler := (@CompensationHandler W Val AppCtx).
Local Abbreviation Handler := (@Handler W Val AppCtx).

Record Plan : Type := {
  planId : string;
  calls : list ActionCall;
  conversationId : string;
  turnNumber : Z
}.

Record ExecutionResult : Type := {
  succeeded : Z;
  failed : Z;
  results : gmap string ResultEntry
}.

(** Instrumentation: what the executor does to the outside, in order.
    [HandlerInvoked] carries the context the handler is called with, hence
    the state of the shared results map at that moment. *)
Inductive Event : Type :=
  | HandlerInvoked (call : ActionCall) (ctx : ExecutionContext)
  | Slept (ms : JsNumber.t)
  | CompensateInvoked (call : ActionCall) (res : option Val)
                      (ctx : ExecutionContext)
  | ConsoleError (actionId : string) (e : Thrown).

Record World : Type := {
  app : W;
  trace : list Event
}.

Definition log (ev : Event) (w : World) : World :=
  {| app := app w; trace := trace w ++ [ev] |}.

Record t : Type := {
  registry : ActionRegistry;
  config : DAGExecutorConfig
}.

(** constructor *)
Definition new (reg : ActionRegistry) (cfg : DAGExecutorConfig) : t :=
  {| registry := reg;
     config :=
       {| enableCompensation := Some (default true (enableCompensation cfg));
          enableRetry := Some (default true (enableRetry cfg));
          defaultRetry := defaultRetry cfg |} |}.

(** *** buildExecutionOrder *)

Definition cycleMessage : string := "Cycle detected in action dependencies".

Definition build_actionIdToCallIds (calls : list ActionCall)
  : gmap string (list string) :=
  foldl (λ m call,
           <[ actionId call := default [] (m !! actionId call) ++ [callId call] ]> m)
        ∅ calls.

(** The call-level dependencies of one call: its [dependsOn] plus the
    identifiers of all calls to the actions its action depends on. *)
Definition callDeps (this : t) (actionIdToCallIds : gmap string (list string))
    (call : ActionCall) : gset string :=
  let actionDeps :=
    default [] (get (actionId call) (registry this) ≫= dependencies) in
  foldl (λ deps actionDep,
           foldl (λ deps' depCallId, deps' ∪ {[ depCallId ]}) deps
                 (default [] (actionIdToCallIds !! actionDep)))
        (list_to_set (default [] (dependsOn call))) actionDeps.

Record Graph : Type := {
  callMap : gmap string ActionCall;
  graph : gmap string (gset string);
  inDegree0 : gmap string Z
}.

Definition build_graph (this : t) (calls : list ActionCall) : Graph :=
  let actionIdToCallIds := build_actionIdToCallIds calls in
  foldl (λ g call,
           let deps := callDeps this actionIdToCallIds call in
           {| callMap := <[ callId call := call ]> (callMap g);
              graph := <[ callId call := deps ]> (graph g);
              inDegree0 := <[ callId call := Z.of_nat (size deps) ]> (inDegree0 g) |})
        {| callMap := ∅; graph := ∅; inDegree0 := ∅ |} calls.

(** The calls of [remaining] whose in-degree is zero, in iteration order.
    [callMap.get(callId)!] is defined for every identifier of [remaining]
    (lemma [select_batch_callIds]). *)
Definition select_batch (g : Graph) (remaining : OrdSet.t)
    (inDegree : gmap string Z) : list ActionCall :=
  omap (λ cid, if bool_decide (inDegree !! cid = Some 0)
               then callMap g !! cid else None) remaining.

Definition update_inDegrees (g : Graph) (processed : string)
    (remaining : OrdSet.t) (inDegree : gmap string Z) : gmap string Z :=
  foldl (λ deg other,
           if bool_decide (processed ∈ default ∅ (graph g !! other))
           then <[ other := default 0 (deg !! other) - 1 ]> deg
           else deg)
        inDegree remaining.

Definition remove_processed (g : Graph) (batch : list ActionCall)
    (st : OrdSet.t * gmap string Z) : OrdSet.t * gmap string Z :=
  foldl (λ st call,
           let remaining' := OrdSet.delete (callId call) (fst st) in
           (remaining', update_inDegrees g (callId call) remaining' (snd st)))
        st batch.

(** The [while (remaining.size > 0)] loop.  Every round removes a non-empty
    batch from [remaining], so [length remaining] rounds are enough;
    [None] means the fuel ran out (lemma [kahn_loop_fuel]: it does not). *)
Fixpoint kahn_loop (fuel : nat) (g : Graph) (remaining : OrdSet.t)
    (inDegree : gmap string Z)
  : option (Completion Thrown (list (list ActionCall))) :=
  match remaining with
  | [] => Some (Returned [])
  | _ :: _ =>
    match fuel with
    | O => None
    | S fuel' =>
      match select_batch g remaining inDegree with
      | [] => Some (Threw (ThrownError (Error cycleMessage)))
      | (_ :: _) as batch =>
        let st := remove_processed g batch (remaining, inDegree) in
        match kahn_loop fuel' g (fst st) (snd st) with
        | Some (Returned batches) => Some (Returned (batch :: batches))
        | other => other
        end
      end
    end
  end.

Definition buildExecutionOrder_opt (this : t) (calls : list ActionCall)
  : option (Completion Thrown (list (list ActionCall))) :=
  match calls with
  | [] => Some (Returned [])
  | _ :: _ =>
    let g := build_graph this calls in
    let remaining := OrdSet.of_list (callId <$> calls) in
    kahn_loop (length remaining) g remaining (inDegree0 g)
  end.

Definition buildExecutionOrder (this : t) (calls : list ActionCall)
  : Completion Thrown (list (list ActionCall)) :=
  match buildExecutionOrder_opt this calls with
  | Some c => c
  | None => Threw (ThrownError (Error "unreachable: scheduler out of fuel"))
  end.

(** *** calculateBackoff, sleep *)

(** [attempt] is the index of the loop of [executeWithRetry]: an
    integer, [0 ≤ attempt]. *)
Definition calculateBackoff (attempt : Z) (cfg : RetryConfig) : JsNumber.t :=
  match backoff cfg with
  | exponential =>
    JsNumber.mul (JsNumber.Finite (delayMs cfg)) (JsNumber.pow2 attempt)
  | linear =>
    JsNumber.mul (JsNumber.Finite (delayMs cfg)) (JsNumber.Finite (attempt + 1))
  end.

Definition sleep (ms : JsNumber.t) (w : World) : World := log (Slept ms) w.

(** *** executeWithRetry *)

Definition invoke (h : Handler) (call : ActionCall) (ctx : ExecutionContext)
    (w : World) : (Val + Thrown) * World :=
  let w1 := log (HandlerInvoked call ctx) w in
  let '(r, a) := h (args call) ctx (app w1) in
  (r, {| app := a; trace := trace w1 |}).

(** [for (let attempt = 0; attempt < maxAttempts; attempt++)], with
    [n] the number of rounds still allowed by the loop condition. *)
Fixpoint retry_loop (n : nat) (attempt : Z) (cfg : RetryConfig) (h : Handler)
    (call : ActionCall) (ctx : ExecutionContext) (lastError : Thrown)
    (w : World) : Completion Thrown Val * World :=
  match n with
  | O => (Threw lastError, w)
  | S n' =>
    match invoke h call ctx w with
    | (inl v, w') => (Returned v, w')
    | (inr e, w') =>
      if bool_decide (attempt = maxAttempts cfg - 1) then
        (Threw e, w')
      else
        let delay := calculateBackoff attempt cfg in
        retry_loop n' (attempt + 1) cfg h call ctx e (sleep delay w')
    end
  end.

Definition executeWithRetry (this : t) (call : ActionCall)
    (action : ActionDefinition) (ctx : ExecutionContext) (w : World)
  : Completion Thrown Val * World :=
  match handler action with
  | None => (Threw (ThrownError (Error "action.handler is not a function")), w)
  | Some h =>
    let retryConfig :=
      if truthy (enableRetry (config this))
      then match retry action with
           | Some rc => Some rc
           | None => defaultRetry (config this)
           end
      else None in
    match retryConfig with
    | None =>
      match invoke h call ctx w with
      | (inl v, w') => (Returned v, w')
      | (inr e, w') => (Threw e, w')
      end
    | Some rc =>
      retry_loop (Z.to_nat (maxAttempts rc)) 0 rc h call ctx ThrownUndefined w
    end
  end.

(** *** executeBatch: one call

    What the body of [batch.map(async (call) => ...)] does for one call
    when nothing else runs in between; a batch of one call runs in this
    way under every interleaving (lemma [run_calls_single]). *)

Definition notFoundMessage (actionId : string) : string :=
  "Action " +:+ actionId +:+ " not found in registry".
Definition noHandlerMessage (actionId : string) : string :=
  "Action " +:+ actionId +:+ " has no handler".

Definition run_call (this : t) (ctx : ExecutionContext) (call : ActionCall)
    (w : World) : (string * ResultEntry) * World :=
  match get (actionId call) (registry this) with
  | None =>
    ((callId call,
      {| result := None; error := Some (Error (notFoundMessage (actionId call))) |}),
     w)
  | Some action =>
    match handler action with
    | None =>
      ((callId call,
        {| result := None;
           error := Some (Error (noHandlerMessage (actionId call))) |}),
       w)
    | Some _ =>
      match executeWithRetry this call action ctx w with
      | (Returned v, w') =>
        ((callId call, {| result := Some v; error := None |}), w')
      | (Threw t, w') =>
        ((callId call, {| result := None; error := error_of_thrown t |}), w')
      end
    end
  end.

(** *** executeBatch: the calls of a batch as concurrent tasks

    [batch.map(async (call) => ...)] starts one task per call and
    [Promise.all] waits for all of them.  A task is suspended while its
    handler or its backoff timer is pending, and meanwhile the other tasks
    go on; [run_call] above is a task that runs alone.  The state of a task
    says where its [executeWithRetry] stands. *)
Inductive Task : Type :=
  | Once (h : Handler)
      (* no retry policy: about to invoke the handler *)
  | Attempt (h : Handler) (rc : RetryConfig) (n : nat) (attempt : Z)
            (lastError : Thrown)
      (* at the head of the retry loop, [n] rounds still allowed *)
  | Rejected (h : Handler) (rc : RetryConfig) (n : nat) (attempt : Z)
             (e : Thrown)
      (* the attempt was rejected and was not the last: about to sleep *)
  | Settled (entry : ResultEntry).
      (* the promise of the task is resolved with this entry *)

(** The entry that [executeBatch] makes of a completed [executeWithRetry]. *)
Definition entry_of_completion (c : Completion Thrown Val) : ResultEntry :=
  match c with
  | Returned v => {| result := Some v; error := None |}
  | Threw e => {| result := None; error := error_of_thrown e |}
  end.

(** The task of a call when the batch starts. *)
Definition init_task (this : t) (call : ActionCall) : Task :=
  match get (actionId call) (registry this) with
  | None =>
    Settled {| result := None;
               error := Some (Error (notFoundMessage (actionId call))) |}
  | Some action =>
    match handler action with
    | None =>
      Settled {| result := None;
                 error := Some (Error (noHandlerMessage (actionId call))) |}
    | Some h =>
      let retryConfig :=
        if truthy (enableRetry (config this))
        then match retry action with
             | Some rc => Some rc
             | None => defaultRetry (config this)
             end
        else None in
      match retryConfig with
      | None => Once h
      | Some rc => Attempt h rc (Z.to_nat (maxAttempts rc)) 0 ThrownUndefined
      end
    end
  end.

(** One turn of a task: up to the next point where it waits or settles. *)
Definition step (ctx : ExecutionContext) (call : ActionCall) (task : Task)
    (w : World) : Task * World :=
  match task with
  | Once h =>
    let '(r, w') := invoke h call ctx w in
    (Settled (entry_of_completion
                match r with inl v => Returned v | inr e => Threw e end), w')
  | Attempt h rc O attempt lastError =>
    (Settled (entry_of_completion (Threw lastError)), w)
  | Attempt h rc (S n') attempt lastError =>
    match invoke h call ctx w with
    | (inl v, w') => (Settled (entry_of_completion (Returned v)), w')
    | (inr e, w') =>
      if bool_decide (attempt = maxAttempts rc - 1) then
        (Settled (entry_of_completion (Threw e)), w')
      else (Rejected h rc n' attempt e, w')
    end
  | Rejected h rc n' attempt e =>
    let delay := calculateBackoff attempt rc in
    (Attempt h rc n' (attempt + 1) e, sleep delay w)
  | Settled entry => (task, w)
  end.

(** A task that runs to its end with no other task in between. *)
Definition finish (ctx : ExecutionContext) (call : ActionCall) (task : Task)
    (w : World) : ResultEntry * World :=
  match task with
  | Once h =>
    let '(r, w') := invoke h call ctx w in
    (entry_of_completion
       match r with inl v => Returned v | inr e => Threw e end, w')
  | Attempt h rc n attempt lastError =>
    let '(c, w') := retry_loop n attempt rc h call ctx lastError w in
    (entry_of_completion c, w')
  | Rejected h rc n' attempt e =>
    let delay := calculateBackoff attempt rc in
    let '(c, w') :=
      retry_loop n' (attempt + 1) rc h call ctx e (sleep delay w) in
    (entry_of_completion c, w')
  | Settled entry => (entry, w)
  end.

(** The tasks of a batch, in batch order, and an interleaving of their
    turns: the positions in the batch of the tasks that take a turn, in
    order.  A turn given to a settled task or to a position outside the
    batch does nothing. *)
Local Abbreviation Pool := (list (ActionCall * Task)).

Fixpoint interleave (ctx : ExecutionContext) (turns : list nat) (pool : Pool)
    (w : World) : Pool * World :=
  match turns with
  | [] => (pool, w)
  | i :: turns' =>
    match pool !! i with
    | Some (call, task) =>
      let '(task', w') := step ctx call task w in
      interleave ctx turns' (<[ i := (call, task') ]> pool) w'
    | None => interleave ctx turns' pool w
    end
  end.

(** When the turns are used up, the tasks still pending run to their end
    one after the other, in batch order.  The entries are in batch order,
    which is the order of the [Promise.all] result. *)
Fixpoint finish_all (ctx : ExecutionContext) (pool : Pool) (w : World)
  : list (string * ResultEntry) * World :=
  match pool with
  | [] => ([], w)
  | (call, task) :: pool' =>
    let '(entry, w1) := finish ctx call task w in
    let '(rs, w2) := finish_all ctx pool' w1 in
    ((callId call, entry) :: rs, w2)
  end.

(** The interleaving of a batch is decided by the timing of handlers and
    timers, outside the executor: it is a parameter of the execution.
    The executor starts the first attempts in batch order, but a handler
    takes effect when its promise settles, so no order of turns is ruled
    out. *)
Definition Interleaving : Type :=
  list ActionCall → ExecutionContext → World → list nat.

(** The interleaving in which every call of the batch runs to its end
    before the next one starts.  It is the order of events of a batch none
    of whose calls is retried; the sample executions use it. *)
Definition in_batch_order : Interleaving := λ _ _ _, [].

Definition run_calls (sched : Interleaving) (this : t)
    (ctx : ExecutionContext) (batch : list ActionCall) (w : World)
  : list (string * ResultEntry) * World :=
  let pool := (λ call, (call, init_task this call)) <$> batch in
  let '(pool', w') := interleave ctx (sched batch ctx w) pool w in
  finish_all ctx pool' w'.

Definition executeBatch (sched : Interleaving) (this : t)
    (batch : list ActionCall) (ctx : ExecutionContext) (w : World)
  : OrdMap.t ResultEntry * World :=
  let '(batchResults, w') := run_calls sched this ctx batch w in
  (foldl (λ results r, OrdMap.set (fst r) (snd r) results) OrdMap.empty
         batchResults,
   w').

(** *** compensate *)

(** [action?.compensate] for the action of a call. *)
Definition compensation_handler (this : t) (call : ActionCall)
  : option CompensationHandler :=
  get (actionId call) (registry this) ≫= compensate.

Definition compensate_one (this : t) (results : gmap string ResultEntry)
    (ctx : ExecutionContext) (w : World) (call : ActionCall) : World :=
  match compensation_handler this call with
  | None => w
  | Some comp =>
    match results !! callId call with
    | None => w
    | Some callResult =>
      match error callResult with
      | Some _ => w
      | None =>
        let w1 := log (CompensateInvoked call (result callResult) ctx) w in
        match comp (args call) (result callResult) ctx (app w1) with
        | (None, a) => {| app := a; trace := trace w1 |}
        | (Some e, a) =>
          log (ConsoleError (actionId call) e) {| app := a; trace := trace w1 |}
        end
      end
    end
  end.

Definition compensate (this : t) (executedCalls : list ActionCall)
    (results : gmap string ResultEntry) (ctx : ExecutionContext) (w : World)
  : World :=
  foldl (compensate_one this results ctx) w (reverse executedCalls).

(** *** execute *)

Record State : Type := {
  st_results : gmap string ResultEntry;
  st_executedCalls : list ActionCall;
  st_succeeded : Z;
  st_failed : Z
}.

Definition mk_ctx (plan : Plan) (context : AppCtx)
    (results : gmap string ResultEntry) : ExecutionContext :=
  Build_ExecutionContext context results (conversationId plan)
                         (turnNumber plan).

(** The merge loop over [batchResults.entries()]: [inr] is the [return]
    from inside the loop, [inl] the state after the last entry.
    [batch.find(...)!] is defined for every key of the batch results
    (lemmas [executeBatch_spec] and [find_call]). *)
Fixpoint merge (this : t) (plan : Plan) (context : AppCtx)
    (batch : list ActionCall) (entries : list (string * ResultEntry))
    (st : State) (w : World) : (State + ExecutionResult) * World :=
  match entries with
  | [] => (inl st, w)
  | (cid, res) :: entries' =>
    let results' := <[ cid := res ]> (st_results st) in
    let executed' :=
      st_executedCalls st ++
      option_list (find (λ c, bool_decide (callId c = cid)) batch) in
    match error res with
    | Some _ =>
      let failed' := st_failed st + 1 in
      let w' :=
        if truthy (enableCompensation (config this))
        then compensate this executed' results'
                        (mk_ctx plan context results') w
        else w in
      (inr {| succeeded := st_succeeded st; failed := failed';
              results := results' |}, w')
    | None =>
      merge this plan context batch entries'
            {| st_results := results'; st_executedCalls := executed';
               st_succeeded := st_succeeded st + 1;
               st_failed := st_failed st |} w
    end
  end.

Fixpoint run_batches (sched : Interleaving) (this : t) (plan : Plan)
    (context : AppCtx)
    (batches : list (list ActionCall)) (st : State) (w : World)
  : ExecutionResult * World :=
  match batches with
  | [] =>
    ({| succeeded := st_succeeded st; failed := st_failed st;
        results := st_results st |}, w)
  | batch :: batches' =>
    let '(batchResults, w1) :=
      executeBatch sched this batch (mk_ctx plan context (st_results st)) w in
    match merge this plan context batch (OrdMap.entries batchResults) st w1 with
    | (inr res, w2) => (res, w2)
    | (inl st', w2) => run_batches sched this plan context batches' st' w2
    end
  end.

Definition initial_state : State :=
  {| st_results := ∅; st_executedCalls := []; st_succeeded := 0;
     st_failed := 0 |}.

(** Inside the [try], only [buildExecutionOrder] throws: handler errors are
    caught in [executeBatch] and compensation errors in [compensate].  The
    [catch] block therefore runs with [executedCalls] still empty. *)
Definition execute (sched : Interleaving) (this : t) (plan : Plan)
    (context : AppCtx) (w : World)
  : Completion Thrown ExecutionResult * World :=
  match buildExecutionOrder this (calls plan) with
  | Returned batches =>
    let '(res, w') :=
      run_batches sched this plan context batches initial_state w in
    (Returned res, w')
  | Threw error =>
    let executedCalls : list ActionCall := [] in
    let w' :=
      if truthy (enableCompensation (config this))
         && bool_decide (0 < length executedCalls)%nat
      then compensate this executedCalls ∅ (mk_ctx plan context ∅) w
      else w in
    (Threw error, w')
  end.

(** *** The call-level dependency graph and what a schedule respects *)

(** [depends_on g x y]: the dependency set that [buildExecutionOrder]
    computed for the call identifier [x] contains [y]. *)
Definition depends_on (g : Graph) (x y : string) : Prop :=
  ∃ deps, graph g !! x = Some deps ∧ y ∈ deps.

(** The dependencies as the plan and the registry state them.
    [needs this calls c d]: the call [c] names the identifier [d] in its
    [dependsOn] list, or [d] identifies a call of the plan to an action
    that the registry lists among the [dependencies] of the action of
    [c]. *)
Definition needs (this : t) (calls : list ActionCall) (c : ActionCall)
    (d : string) : Prop :=
  d ∈ default [] (dependsOn c) ∨
  ∃ a c', get (actionId c) (registry this) = Some a ∧
          actionId c' ∈ default [] (dependencies a) ∧
          c' ∈ calls ∧ callId c' = d.

(** The call that an identifier of the plan stands for.  Identifiers are
    meant to be distinct; of several calls that carry the same identifier
    the scheduler keeps the last ([callMap.set] overwrites). *)
Definition call_of (calls : list ActionCall) (cid : string)
  : option ActionCall :=
  last (filter (λ c, callId c = cid) calls).

(** One step of dependency between the identifiers of a plan. *)
Definition plan_depends (this : t) (calls : list ActionCall) (x y : string)
  : Prop :=
  ∃ c, call_of calls x = Some c ∧ needs this calls c y.

(** A walk: each element is related to the next one. *)
Fixpoint chain (R : relation string) (walk : list string) : Prop :=
  match walk with
  | x :: ((y :: _) as walk') => R x y ∧ chain R walk'
  | _ => True
  end.

(** A plan is schedulable when its graph has no cycle and every call
    depends only on calls of the plan. *)
Definition acyclic (g : Graph) : Prop :=
  ∀ x, ¬ tc (depends_on g) x x.

Definition deps_in_plan (g : Graph) (calls : list ActionCall) : Prop :=
  ∀ x y, depends_on g x y → y ∈ callId <$> calls.

(** A set of identifiers that contains the dependencies of its members. *)
Definition deps_closed (g : Graph) (P : gset string) : Prop :=
  ∀ x y, x ∈ P → depends_on g x y → y ∈ P.

(** [scheduled g P batches]: starting with the identifiers [P] already
    processed, every call of every batch is the call registered under its
    identifier, is not yet processed, and has all its dependencies
    among the identifiers processed by earlier batches. *)
Fixpoint scheduled (g : Graph) (P : gset string)
    (batches : list (list ActionCall)) : Prop :=
  match batches with
  | [] => True
  | batch :: batches' =>
    NoDup (callId <$> batch) ∧
    (∀ c, c ∈ batch →
          callMap g !! callId c = Some c ∧ (callId c ∉ P) ∧
          ∃ deps, graph g !! callId c = Some deps ∧ deps ⊆ P) ∧
    scheduled g (P ∪ list_to_set (callId <$> batch)) batches'
  end.

(** The loop invariant of the scheduler: [P] are the identifiers already
    removed, and the in-degree of a remaining identifier counts its
    dependencies outside [P]. *)
Definition kahn_inv (g : Graph) (P : gset string) (remaining : OrdSet.t)
    (inDegree : gmap string Z) : Prop :=
  NoDup remaining ∧
  ∀ cid, cid ∈ remaining →
    (cid ∉ P) ∧
    ∃ c deps,
      callMap g !! cid = Some c ∧ callId c = cid ∧
      graph g !! cid = Some deps ∧
      inDegree !! cid = Some (Z.of_nat (size (deps ∖ P))).

(** *** What an execution records *)

(** The entries that a batch yields: one per call, in batch order. *)
Definition entries_of (batch : list ActionCall) (rs : list ResultEntry)
  : list (string * ResultEntry) :=
  zip_with (λ c r, (callId c, r)) batch rs.

(** [results.set] of a list of entries, in order. *)
Definition record_all (es : list (string * ResultEntry))
    (results : gmap string ResultEntry) : gmap string ResultEntry :=
  foldl (λ m e, <[ e.1 := e.2 ]> m) results es.

(** The state after merging a batch all of whose calls succeeded. *)
Definition advance (st : State) (batch : list ActionCall)
    (rs : list ResultEntry) : State :=
  {| st_results := record_all (entries_of batch rs) (st_results st);
     st_executedCalls := st_executedCalls st ++ batch;
     st_succeeded := st_succeeded st + Z.of_nat (length batch);
     st_failed := st_failed st |}.

(** The result returned when the last of the merged calls [cs] failed. *)
Definition fail_result (st : State) (cs : list ActionCall)
    (rs : list ResultEntry) : ExecutionResult :=
  {| succeeded := st_succeeded st + Z.of_nat (length cs) - 1;
     failed := st_failed st + 1;
     results := record_all (entries_of cs rs) (st_results st) |}.

(** Entries of a results map with and without an error. *)
Definition count_failed (m : gmap string ResultEntry) : nat :=
  size (filter (λ kv, is_Some (error kv.2)) m).
Definition count_succeeded (m : gmap string ResultEntry) : nat :=
  size (filter (λ kv, error kv.2 = None) m).

Definition counts_ok (succeeded failed : Z)
    (results : gmap string ResultEntry) : Prop :=
  succeeded = Z.of_nat (count_succeeded results) ∧
  failed = Z.of_nat (count_failed results) ∧
  succeeded + failed = Z.of_nat (size results).

(** Every recorded outcome is a success. *)
Definition all_succeeded (results : gmap string ResultEntry) : Prop :=
  ∀ cid e, results !! cid = Some e → error e = None.

(** A call has a recorded success outcome and its action declares a
    compensating handler. *)
Definition compensable (this : t) (results : gmap string ResultEntry)
    (c : ActionCall) : bool :=
  bool_decide (is_Some (compensation_handler this c)) &&
  match results !! callId c with
  | Some e => bool_decide (error e = None)
  | None => false
  end.

(** The compensations that a rollback of [executed] owes, in order. *)
Definition owed_compensations (this : t) (results : gmap string ResultEntry)
    (executed : list ActionCall) : list (ActionCall * option Val) :=
  (λ c, (c, results !! callId c ≫= result)) <$>
  filter (λ c, compensable this results c = true) (reverse executed).

(** An event of running a batch under a context. *)
Definition batch_event (batch : list ActionCall) (ctx : ExecutionContext)
    (ev : Event) : Prop :=
  (∃ c, c ∈ batch ∧ ev = HandlerInvoked c ctx) ∨ (∃ ms, ev = Slept ms).

(** A rollback as the specification words it: each owed compensation in
    turn invokes the compensating handler of its call on the arguments of
    the call and on the recorded result, keeps what the handler does to
    the application state, and logs the error of a handler that rejects
    before it goes on with the next one. *)
Fixpoint roll_back (this : t) (ctx : ExecutionContext)
    (owed : list (ActionCall * option Val)) (w : World) : World :=
  match owed with
  | [] => w
  | (c, v) :: owed' =>
    match compensation_handler this c with
    | None => roll_back this ctx owed' w
    | Some comp =>
      let '(r, a) := comp (args c) v ctx (app w) in
      let invoked := trace w ++ [CompensateInvoked c v ctx] in
      roll_back this ctx owed'
        {| app := a;
           trace := match r with
                    | None => invoked
                    | Some e => invoked ++ [ConsoleError (actionId c) e]
                    end |}
    end
  end.

(** The executor with compensation switched off. *)
Definition without_compensation (this : t) : t :=
  {| registry := registry this;
     config := {| enableCompensation := Some false;
                  enableRetry := enableRetry (config this);
                  defaultRetry := defaultRetry (config this) |} |}.

(** An event of a rollback. *)
Definition compensation_event (ev : Event) : Prop :=
  match ev with
  | CompensateInvoked _ _ _ | ConsoleError _ _ => True
  | _ => False
  end.

(** The ordering invariant on one event: the call whose handler is
    invoked is the one that the scheduler keeps under its identifier, and
    every call identifier it transitively depends on has a recorded
    success outcome in the shared results map that the handler is given. *)
Definition ordering_respected (g : Graph) (ev : Event) : Prop :=
  match ev with
  | HandlerInvoked c ctx =>
    callMap g !! callId c = Some c ∧
    ∀ d, tc (depends_on g) (callId c) d →
         ∃ e, previousResults ctx !! d = Some e ∧ error e = None
  | _ => True
  end.

(** *** Observations on the instrumentation *)

(** The calls whose handler was invoked, in order of invocation. *)
Definition invocations (tr : list Event) : list ActionCall :=
  omap (λ ev, match ev with HandlerInvoked c _ => Some c | _ => None end) tr.

(** The delays slept, in order. *)
Definition sleeps (tr : list Event) : list JsNumber.t :=
  omap (λ ev, match ev with Slept ms => Some ms | _ => None end) tr.

(** The compensating handlers invoked, in order, each with the recorded
    result it was given. *)
Definition compensations (tr : list Event) : list (ActionCall * option Val) :=
  omap (λ ev, match ev with
              | CompensateInvoked c res _ => Some (c, res)
              | _ => None
              end) tr.

(** The events of one call's attempts: [m] failed attempts, each followed
    by its backoff sleep, then one more attempt. *)
Definition attempts_trace (cfg : RetryConfig) (call : ActionCall)
    (ctx : ExecutionContext) (first : Z) (m : nat) : list Event :=
  (seqZ first (Z.of_nat m) ≫=
     λ k, [HandlerInvoked call ctx; Slept (calculateBackoff k cfg)]) ++
  [HandlerInvoked call ctx].

(** The retry policy in effect for an action under a configuration. *)
Definition retry_in_effect (this : t) (action : ActionDefinition)
  : option RetryConfig :=
  if truthy (enableRetry (config this))
  then match retry action with
       | Some rc => Some rc
       | None => defaultRetry (config this)
       end
  else None.

(** The backoff formulas as the specification words them. *)
Definition spec_linear_delay (base attemptIndex : Z) : Z :=
  base * attemptIndex.
Definition spec_exponential_delay (base attemptIndex : Z) : Z :=
  base * 2 ^ attemptIndex.

End Executor.

End DAGExecutor.

(** ** Registries that can be built

    A registry object starts empty and changes only through [register]
    and [lock]. *)

Inductive reachable {W Val AppCtx : Type}
  : @ActionRegistry W Val AppCtx → Prop :=
  | reachable_new : reachable new_ActionRegistry
  | reachable_register r action r' :
      reachable r →
      register action r = (Returned tt, r') →
      reachable r'
  | reachable_lock r : reachable r → reachable (lock r).

(** The structural conditions of [validateActionDefinition]. *)
Definition valid_definition {W Val AppCtx : Type}
    (action : @ActionDefinition W Val AppCtx)
    (r : @ActionRegistry W Val AppCtx) : Prop :=
  id action ≠ EmptyString ∧
  actions r !! id action = None ∧
  description action ≠ EmptyString ∧
  argsSchema action ≠ None.

(** The registered actions form a DAG: they can be ranked so that every
    dependency of a registered action is registered, with a smaller rank. *)
Definition dag_inv {W Val AppCtx : Type}
    (acts : gmap string (@ActionDefinition W Val AppCtx)) : Prop :=
  ∃ (rank : string → nat) (bound : nat),
    ∀ i a, acts !! i = Some a →
      (rank i < bound)%nat ∧
      ∀ d, d ∈ default [] (dependencies a) →
           is_Some (acts !! d) ∧ (rank d < rank i)%nat.

(** An [Error] whose message is the one of [validateDependencies]. *)
Definition is_unknown_dependency_error (e : JsError) : Prop :=
  ∃ i dep, e = Error (unknownDependencyMessage i dep).

Definition is_CircularDependencyError (e : JsError) : Prop :=
  ∃ cycle, e = CircularDependencyError cycle.

(** ** Sample registries, plans and handlers

    The world of the samples is a counter of handler invocations; values
    are strings. *)

Module Samples.

Definition plainAction (i : string) (deps : option (list string))
    (ts : option (list string)) : @ActionDefinition nat string unit :=
  {| id := i; description := "sample"; argsSchema := Some ZodSchema;
     handler := None; tags := ts; dependencies := deps;
     compensate := None; retry := None |}.

Definition base : @ActionDefinition nat string unit :=
  plainAction "base" None None.

Definition loop : @ActionDefinition nat string unit :=
  plainAction "loop" (Some ["loop"]) None.

Definition broken : @ActionDefinition nat string unit :=
  plainAction "broken" (Some ["nonexistent"]) None.

Definition registry_of (l : list (@ActionDefinition nat string unit))
  : @ActionRegistry nat string unit :=
  foldl (λ r a, snd (register a r)) new_ActionRegistry l.

Definition with_base : @ActionRegistry nat string unit := registry_of [base].

Definition tagged : @ActionRegistry nat string unit :=
  registry_of [plainAction "action1" None (Some ["tag1"; "tag2"]);
               plainAction "action2" None (Some ["tag1"])].

(** Handlers over the invocation counter. *)
Definition succeed_with (v : string) : @Handler nat string unit :=
  λ _ _ n, (inl v, S n).

Definition always_fail (message : string) : @Handler nat string unit :=
  λ _ _ n, (inr (ThrownError (Error message)), S n).

(** Fails on the first two invocations, then succeeds. *)
Definition flaky_handler : @Handler nat string unit :=
  λ _ _ n,
    if bool_decide (n < 2)%nat
    then (inr (ThrownError (Error "Temporary failure")), S n)
    else (inl "done", S n).

Definition quiet_compensation : @CompensationHandler nat string unit :=
  λ _ _ _ n, (None, n).

Definition throwing_compensation : @CompensationHandler nat string unit :=
  λ _ _ _ n, (Some (ThrownError (Error "compensation failed")), n).

Definition action (i : string) (deps : option (list string))
    (h : @Handler nat string unit)
    (comp : option (@CompensationHandler nat string unit))
    (rc : option RetryConfig) : @ActionDefinition nat string unit :=
  {| id := i; description := "sample"; argsSchema := Some ZodSchema;
     handler := Some h; tags := None; dependencies := deps;
     compensate := comp; retry := rc |}.

Definition call (cid aid : string) (deps : option (list string))
  : @ActionCall string :=
  {| callId := cid; actionId := aid; args := "args"; dependsOn := deps |}.

Definition plan_of (cs : list (@ActionCall string)) : @DAGExecutor.Plan string :=
  {| DAGExecutor.planId := "plan1"; DAGExecutor.calls := cs;
     DAGExecutor.conversationId := "conv1"; DAGExecutor.turnNumber := 1 |}.

Definition default_config : DAGExecutorConfig :=
  {| enableCompensation := None; enableRetry := None; defaultRetry := None |}.

Definition world0 : @DAGExecutor.World nat string unit :=
  {| DAGExecutor.app := 0%nat; DAGExecutor.trace := [] |}.

(** [reserve] succeeds, [charge] depends on it and always fails; both
    declare compensating handlers, the one of [reserve] throws. *)
Definition saga : @DAGExecutor.t nat string unit :=
  DAGExecutor.new
    (registry_of
       [action "reserve" None (succeed_with "reserved")
               (Some throwing_compensation) None;
        action "charge" (Some ["reserve"]) (always_fail "card declined")
               (Some quiet_compensation) None])
    default_config.

Definition saga_plan : @DAGExecutor.Plan string :=
  plan_of [call "call1" "reserve" None; call "call2" "charge" None].

(** Two independent actions: [a] always fails, [b] succeeds. *)
Definition siblings : @DAGExecutor.t nat string unit :=
  DAGExecutor.new
    (registry_of
       [action "a" None (always_fail "boom") None None;
        action "b" None (succeed_with "B") (Some quiet_compensation) None])
    default_config.

Definition siblings_plan : @DAGExecutor.Plan string :=
  plan_of [call "ca" "a" None; call "cb" "b" None].

Definition exponential3 : RetryConfig :=
  {| maxAttempts := 3; backoff := exponential; delayMs := 10 |}.

Definition linear3 : RetryConfig :=
  {| maxAttempts := 3; backoff := linear; delayMs := 10 |}.

Definition flaky_action : @ActionDefinition nat string unit :=
  action "flaky" None flaky_handler None (Some exponential3).

Definition failing_action : @ActionDefinition nat string unit :=
  action "failing" None (always_fail "Permanent failure") None (Some linear3).

Definition retrying : @DAGExecutor.t nat string unit :=
  DAGExecutor.new (registry_of [flaky_action; failing_action]) default_config.

Definition flaky_call : @ActionCall string := call "call1" "flaky" None.
Definition failing_call : @ActionCall string := call "call1" "failing" None.

Definition ctx0 : @ExecutionContext string unit :=
  DAGExecutor.mk_ctx (plan_of [flaky_call]) tt ∅.


End Samples.

(** ** Further notions about registries *)

(** [action_depends r i d]: the action registered under [i] declares
    the dependency [d]. *)
Definition action_depends {W Val AppCtx : Type}
    (r : @ActionRegistry W Val AppCtx) (i d : string) : Prop :=
  ∃ a, actions r !! i = Some a ∧ d ∈ default [] (dependencies a).

(** What the reverse-dependency index of a registry built by [register]
    satisfies. *)
Definition dependents_inv {W Val AppCtx : Type}
    (r : @ActionRegistry W Val AppCtx) : Prop :=
  (∀ dep j,
     (∃ s, dependencyGraph r !! dep = Some s ∧ j ∈ s) ↔
     (∃ a, actions r !! j = Some a ∧ dep ∈ default [] (dependencies a))) ∧
  (∀ dep s, dependencyGraph r !! dep = Some s → NoDup s).

(** A client of a registry object: a sequence of [register] and [lock]
    calls, with what each [register] call completed with. *)
Inductive RegistryOp {W Val AppCtx : Type} : Type :=
  | DoRegister (action : @ActionDefinition W Val AppCtx)
  | DoLock.

Fixpoint run_ops {W Val AppCtx : Type}
    (ops : list (@RegistryOp W Val AppCtx))
    (r : @ActionRegistry W Val AppCtx)
  : list (Completion JsError unit) * @ActionRegistry W Val AppCtx :=
  match ops with
  | [] => ([], r)
  | DoRegister action :: ops' =>
    let '(c, r1) := register action r in
    let '(cs, r2) := run_ops ops' r1 in
    (c :: cs, r2)
  | DoLock :: ops' => run_ops ops' (lock r)
  end.

(** ** Further notions about schedules and executions *)

Section ExecutorNotions.

Context {W Val AppCtx : Type}.

Local Abbreviation ActionCall := (@ActionCall Val).
Local Abbreviation ResultEntry := (@ResultEntry Val).
Local Abbreviation ExecutionContext := (@ExecutionContext Val AppCtx).
Local Abbreviation Executor := (@DAGExecutor.t W Val AppCtx).
Local Abbreviation Graph := (@DAGExecutor.Graph Val).
Local Abbreviation Event := (@DAGExecutor.Event Val AppCtx).
Local Abbreviation Plan := (@DAGExecutor.Plan Val).

(** Every call of a batch has a dependency in the batch before it: no call
    could have been scheduled one batch earlier. *)
Fixpoint earliest (g : Graph) (prev : list ActionCall)
    (batches : list (list ActionCall)) : Prop :=
  match batches with
  | [] => True
  | batch :: batches' =>
    (∀ c, c ∈ batch →
          ∃ d, DAGExecutor.depends_on g (callId c) d ∧ d ∈ callId <$> prev) ∧
    earliest g batch batches'
  end.

(** A handler invocation that belongs to one of the given batches and is
    handed the application context and plan data unchanged, together with
    a results map that holds exactly the outcomes of the batches before
    its own, all of them successes. *)
Definition invoked_within (plan : Plan) (context : AppCtx)
    (batches : list (list ActionCall)) (ev : Event) : Prop :=
  match ev with
  | DAGExecutor.HandlerInvoked c ctx =>
    ∃ pre batch post,
      batches = pre ++ batch :: post ∧ c ∈ batch ∧
      appContext ctx = context ∧
      conversationId ctx = DAGExecutor.conversationId plan ∧
      turnNumber ctx = DAGExecutor.turnNumber plan ∧
      dom (previousResults ctx) = list_to_set (callId <$> concat pre) ∧
      DAGExecutor.all_succeeded (previousResults ctx)
  | _ => True
  end.

(** The entries recorded for a call whose action is missing or has no
    handler. *)
Definition not_found_entry (c : ActionCall) : ResultEntry :=
  {| result := None;
     error := Some (Error (DAGExecutor.notFoundMessage (actionId c))) |}.

Definition no_handler_entry (c : ActionCall) : ResultEntry :=
  {| result := None;
     error := Some (Error (DAGExecutor.noHandlerMessage (actionId c))) |}.

(** The entry that records the outcome of one handler invocation: the
    value the handler resolved with, or the value it rejected with, which
    is an error only if it is truthy. *)
Definition entry_of_outcome (o : Val + Thrown) : ResultEntry :=
  match o with
  | inl v => {| result := Some v; error := None |}
  | inr e => {| result := None; error := error_of_thrown e |}
  end.

(** An entry that running a call can record, whatever runs beside it: the
    error of an unknown action or of a missing handler, the outcome of one
    invocation of its handler, or, under a retry policy that allows no
    attempt, the entry of the [undefined] that the empty retry loop
    throws. *)
Definition outcome_of (this : Executor) (c : ActionCall) (e : ResultEntry)
  : Prop :=
  match get (actionId c) (DAGExecutor.registry this) with
  | None => e = not_found_entry c
  | Some a =>
    match handler a with
    | None => e = no_handler_entry c
    | Some h =>
      (∃ ctx s, e = entry_of_outcome (fst (h (args c) ctx s))) ∨
      (e = entry_of_outcome (inr ThrownUndefined) ∧
       ∃ rc, DAGExecutor.retry_in_effect this a = Some rc ∧
             maxAttempts rc ≤ 0)
    end
  end.

(** A value that the handler rejects with in some state. *)
Definition rejection_of (h : @Handler W Val AppCtx) (c : ActionCall)
    (e : Thrown) : Prop :=
  ∃ ctx s, fst (h (args c) ctx s) = inr e.

(** The states that the task of a call goes through while its batch runs:
    the handler and the retry policy are those of the call's action, the
    error kept from the last attempt is one the handler rejected with, and
    the task settles with an entry that [outcome_of] admits. *)
Definition task_ok (this : Executor) (c : ActionCall)
    (task : @DAGExecutor.Task W Val AppCtx) : Prop :=
  match task with
  | DAGExecutor.Settled e => outcome_of this c e
  | DAGExecutor.Once h =>
    ∃ a, get (actionId c) (DAGExecutor.registry this) = Some a ∧
         handler a = Some h
  | DAGExecutor.Attempt h rc n _ last =>
    ∃ a, get (actionId c) (DAGExecutor.registry this) = Some a ∧
         handler a = Some h ∧
         DAGExecutor.retry_in_effect this a = Some rc ∧
         (rejection_of h c last ∨
          last = ThrownUndefined ∧ (n = 0%nat → maxAttempts rc ≤ 0))
  | DAGExecutor.Rejected h rc _ _ e =>
    ∃ a, get (actionId c) (DAGExecutor.registry this) = Some a ∧
         handler a = Some h ∧
         DAGExecutor.retry_in_effect this a = Some rc ∧
         rejection_of h c e
  end.

(** The action of a call is registered with a handler that resolves in
    every state, and a retry policy in effect allows an attempt. *)
Definition always_succeeds (this : Executor) (c : ActionCall) : Prop :=
  ∃ a h,
    get (actionId c) (DAGExecutor.registry this) = Some a ∧
    handler a = Some h ∧
    (∀ ctx s, ∃ v s', h (args c) ctx s = (inl v, s')) ∧
    (∀ rc, DAGExecutor.retry_in_effect this a = Some rc → 1 ≤ maxAttempts rc).

End ExecutorNotions.

(** ** Further sample registries and plans *)

Module Scenarios.

(** Depends on the sample action [base]. *)
Definition dependent : @ActionDefinition nat string unit :=
  Samples.plainAction "dependent" (Some ["base"]) None.

(** [fetch] succeeds, [parse] depends on it and always fails, [store]
    depends on [parse]. *)
Definition chain3 : @DAGExecutor.t nat string unit :=
  DAGExecutor.new
    (Samples.registry_of
       [Samples.action "fetch" None (Samples.succeed_with "page") None None;
        Samples.action "parse" (Some ["fetch"])
                       (Samples.always_fail "bad markup") None None;
        Samples.action "store" (Some ["parse"])
                       (Samples.succeed_with "stored") None None])
    Samples.default_config.

Definition chain3_plan : @DAGExecutor.Plan string :=
  Samples.plan_of [Samples.call "c1" "fetch" None;
                   Samples.call "c2" "parse" None;
                   Samples.call "c3" "store" None].

(** [reserve] succeeds and [ship], which depends on it, succeeds too. *)
Definition reserve : @ActionDefinition nat string unit :=
  Samples.action "reserve" None (Samples.succeed_with "reserved")
                 (Some Samples.quiet_compensation) None.

Definition ship : @ActionDefinition nat string unit :=
  Samples.action "ship" (Some ["reserve"]) (Samples.succeed_with "shipped")
                 None None.

Definition happy : @DAGExecutor.t nat string unit :=
  DAGExecutor.new (Samples.registry_of [reserve; ship]) Samples.default_config.

Definition happy_plan : @DAGExecutor.Plan string :=
  Samples.plan_of [Samples.call "call1" "reserve" None;
                   Samples.call "call2" "ship" None].

(** A call of an action that is not registered. *)
Definition ghost_plan : @DAGExecutor.Plan string :=
  Samples.plan_of [Samples.call "c1" "ghost" None].

(** A retry policy that allows no attempt at all. *)
Definition no_attempts : RetryConfig :=
  {| maxAttempts := 0; backoff := linear; delayMs := 10 |}.

Definition untried_action : @ActionDefinition nat string unit :=
  Samples.action "failing" None (Samples.always_fail "Permanent failure")
                 None (Some no_attempts).

Definition untried : @DAGExecutor.t nat string unit :=
  DAGExecutor.new (Samples.registry_of [untried_action])
                  Samples.default_config.

(** A handler that rejects with [undefined], as the promise
    [new Promise((_, reject) => setTimeout(reject, ms))] does. *)
Definition reject_undefined : @Handler nat string unit :=
  λ _ _ n, (inr ThrownUndefined, S n).

(** A compensating handler that leaves a mark on the application state. *)
Definition marking_compensation : @CompensationHandler nat string unit :=
  λ _ _ _ n, (None, (n + 100)%nat).

(** One action whose handler always rejects with [undefined], under a
    policy of three attempts. *)
Definition silent : @DAGExecutor.t nat string unit :=
  DAGExecutor.new
    (Samples.registry_of
       [Samples.action "silent" None reject_undefined None
                       (Some Samples.linear3)])
    Samples.default_config.

Definition silent_plan : @DAGExecutor.Plan string :=
  Samples.plan_of [Samples.call "call1" "silent" None].

(** The saga with a [reserve] that rejects with [undefined]: [charge]
    depends on it and always fails. *)
Definition undone : @DAGExecutor.t nat string unit :=
  DAGExecutor.new
    (Samples.registry_of
       [Samples.action "reserve" None reject_undefined
                       (Some marking_compensation) None;
        Samples.action "charge" (Some ["reserve"])
                       (Samples.always_fail "card declined") None None])
    Samples.default_config.

(** The saga with a [reserve] whose retry policy allows no attempt. *)
Definition unstarted : @DAGExecutor.t nat string unit :=
  DAGExecutor.new
    (Samples.registry_of
       [Samples.action "reserve" None (Samples.succeed_with "reserved")
                       (Some marking_compensation) (Some no_attempts);
        Samples.action "charge" (Some ["reserve"])
                       (Samples.always_fail "card declined") None None])
    Samples.default_config.

(** Two independent actions, [slow] that succeeds at its second attempt
    and [quick] that succeeds at once, and [last], which depends on both
    and fails. *)
Definition race : @DAGExecutor.t nat string unit :=
  DAGExecutor.new
    (Samples.registry_of
       [Samples.action "slow" None
                       (λ _ _ n, if bool_decide (n < 1)%nat
                                 then (inr (ThrownError (Error "busy")), S n)
                                 else (inl "slow done", S n))
                       (Some marking_compensation)
                       (Some Samples.exponential3);
        Samples.action "quick" None (Samples.succeed_with "quick done")
                       (Some Samples.quiet_compensation) None;
        Samples.action "last" (Some ["slow"; "quick"])
                       (Samples.always_fail "boom") None None])
    Samples.default_config.

Definition race_plan : @DAGExecutor.Plan string :=
  Samples.plan_of [Samples.call "c1" "slow" None;
                   Samples.call "c2" "quick" None;
                   Samples.call "c3" "last" None].

(** The interleaving of a batch of two in which both calls make their
    first attempt, in batch order, before the first one goes on: the task
    at position 0, then the one at position 1, then again the first. *)
Definition staggered : @DAGExecutor.Interleaving nat string unit :=
  λ _ _ _, [0; 1; 0; 0]%nat.

End Scenarios.

(** ** ThreeTierMemory (memory/ThreeTierMemory.ts)

    The conversations are a map read by key.  [new Date()] is read three
    times by an [addMessage] whose effect depends on it: for [createdAt]
    of a new conversation, for the timestamp of a message without one, and
    for [updatedAt]; the three readings are handed in as a [Clock].
    [workingMemoryTurns] is taken to be an integer, and callers not to
    mutate the arrays that the getters hand them. *)

Module ThreeTierMemory.

Inductive Role : Type := user | assistant | system.

#[global] Instance Role_eq_dec : EqDecision Role.
Proof. solve_decision. Defined.

Record Message : Type := {
  role : Role;
  content : string;
  timestamp : option Z
}.

Record ConversationState : Type := {
  id : string;
  turnCount : Z;
  workingMemory : list Message;
  archivalMemory : list Message;
  createdAt : Z;
  updatedAt : Z
}.

Record ThreeTierMemoryConfig : Type := {
  workingMemoryTurns : option Z
}.

Record t : Type := {
  conversations : gmap string ConversationState;
  config : Z
}.

Record Clock : Type := {
  at_creation : Z;
  at_timestamp : Z;
  at_update : Z
}.

(** constructor: [workingMemoryTurns: config.workingMemoryTurns ?? 5] *)
Definition new (cfg : ThreeTierMemoryConfig) : t :=
  {| conversations := ∅; config := default 5 (workingMemoryTurns cfg) |}.

(** [Array.prototype.slice(start)] for an integer [start]: a negative
    [start] counts from the end, and both ends are clamped. *)
Definition slice {A} (start : Z) (l : list A) : list A :=
  let len := Z.of_nat (length l) in
  let k := if bool_decide (start < 0) then Z.max (len + start) 0
           else Z.min start len in
  drop (Z.to_nat k) l.

Definition getMessagesForLLM (conversationId : string) (this : t)
  : list Message :=
  match conversations this !! conversationId with
  | None => []
  | Some conversation => workingMemory conversation
  end.

Definition addMessage (conversationId : string) (message : Message)
    (now : Clock) (this : t) : t :=
  let conversation :=
    match conversations this !! conversationId with
    | Some conversation => conversation
    | None =>
      {| id := conversationId; turnCount := 0; workingMemory := [];
         archivalMemory := []; createdAt := at_creation now;
         updatedAt := at_creation now |}
    end in
  let messageWithTimestamp :=
    {| role := role message; content := content message;
       timestamp := Some (default (at_timestamp now) (timestamp message)) |} in
  let archival := archivalMemory conversation ++ [messageWithTimestamp] in
  let working := workingMemory conversation ++ [messageWithTimestamp] in
  let maxWorkingMessages := config this * 2 in
  let working' :=
    if bool_decide (maxWorkingMessages < Z.of_nat (length working))
    then slice (- maxWorkingMessages) working
    else working in
  let turnCount' :=
    if bool_decide (role message = user)
    then turnCount conversation + 1 else turnCount conversation in
  {| conversations :=
       <[ conversationId :=
            {| id := id conversation; turnCount := turnCount';
               workingMemory := working'; archivalMemory := archival;
               createdAt := createdAt conversation;
               updatedAt := at_update now |} ]> (conversations this);
     config := config this |}.

(** [{ turnCount: number } | undefined] *)
Definition getState (conversationId : string) (this : t) : option Z :=
  turnCount <$> conversations this !! conversationId.

Definition getArchivalMessages (conversationId : string) (this : t)
  : list Message :=
  match conversations this !! conversationId with
  | None => []
  | Some conversation => archivalMemory conversation
  end.

Definition clearConversation (conversationId : string) (this : t) : t :=
  {| conversations := delete conversationId (conversations this);
     config := config this |}.

Record ConversationMetadata : Type := {
  meta_id : string;
  meta_turnCount : Z;
  messageCount : Z;
  meta_createdAt : Z;
  meta_updatedAt : Z
}.

Definition getConversationMetadata (conversationId : string) (this : t)
  : option ConversationMetadata :=
  (λ conversation,
     {| meta_id := id conversation;
        meta_turnCount := turnCount conversation;
        messageCount := Z.of_nat (length (archivalMemory conversation));
        meta_createdAt := createdAt conversation;
        meta_updatedAt := updatedAt conversation |})
  <$> conversations this !! conversationId.

(** *** Histories of a memory *)

Inductive Op : Type :=
  | AddMessage (conversationId : string) (message : Message) (now : Clock)
  | ClearConversation (conversationId : string).

Definition step (this : t) (op : Op) : t :=
  match op with
  | AddMessage conversationId message now =>
    addMessage conversationId message now this
  | ClearConversation conversationId => clearConversation conversationId this
  end.

Definition run (ops : list Op) (this : t) : t := foldl step this ops.

(** The last [n] elements of a list, all of it if it is shorter. *)
Definition last_n {A} (n : nat) (l : list A) : list A :=
  drop (length l - n) l.

(** The working memory that goes with an archival memory: its last
    [2 * turns] messages for a positive number of turns. *)
Definition window (turns : Z) (archival : list Message) : list Message :=
  if bool_decide (0 < turns) then last_n (Z.to_nat (turns * 2)) archival
  else if bool_decide (turns = 0) then archival
  else [].

(** A stored message records a given one: same role and content, and the
    given timestamp if there is one, else some clock reading. *)
Definition records (stored given : Message) : Prop :=
  role stored = role given ∧ content stored = content given ∧
  is_Some (timestamp stored) ∧
  (∀ ts, timestamp given = Some ts → timestamp stored = Some ts).

Definition user_messages (l : list Message) : nat :=
  length (filter (λ m, role m = user) l).

(** The messages of a history that are stored for a conversation: those
    added since the conversation was last cleared, as given. *)
Fixpoint added_since_clear (conversationId : string) (ops : list Op)
    (acc : list Message) : list Message :=
  match ops with
  | [] => acc
  | AddMessage cid message _ :: ops' =>
    added_since_clear conversationId ops'
      (if bool_decide (cid = conversationId) then acc ++ [message] else acc)
  | ClearConversation cid :: ops' =>
    added_since_clear conversationId ops'
      (if bool_decide (cid = conversationId) then [] else acc)
  end.

(** The state of one conversation against the messages added to it. *)
Definition logged (cid : string) (s : t) (acc : list Message) : Prop :=
  match conversations s !! cid with
  | None => acc = []
  | Some c =>
    acc ≠ [] ∧ id c = cid ∧
    Forall2 records (archivalMemory c) acc ∧
    turnCount c = Z.of_nat (user_messages acc)
  end.

End ThreeTierMemory.

(** ** Validator (Validator.validate)

    Zod is outside the code: resolving the schema of an action under a
    context and parsing arguments with it is a function [check] of the
    action, the context and the arguments, whose outcome is the parsed
    value, a [ZodError] with its issues, or another error with its
    message. *)

Inductive ErrorCode : Type :=
  | INVALID_ARGS | ACTION_NOT_FOUND | DEPENDENCY_FAILED | SCHEMA_ERROR.

Inductive PathSegment : Type := Key (k : string) | Index (i : Z).

Record ZodIssue : Type := {
  path : list PathSegment;
  issue_message : string
}.

Record ValidationError : Type := {
  error_actionId : string;
  error_callId : string;
  code : ErrorCode;
  message : string;
  zodErrors : option (list ZodIssue)
}.

Inductive SchemaOutcome (Val : Type) : Type :=
  | Parsed (validatedArgs : Val)
  | ZodError (issues : list ZodIssue)
  | OtherError (message : string).
Arguments Parsed {Val} validatedArgs.
Arguments ZodError {Val} issues.
Arguments OtherError {Val} message.

Module Validator.

Section Validator.

Context {W Val AppCtx : Type}.

Local Abbreviation ActionDefinition := (@ActionDefinition W Val AppCtx).
Local Abbreviation ActionRegistry := (@ActionRegistry W Val AppCtx).
Local Abbreviation ActionCall := (@ActionCall Val).
Local Abbreviation Plan := (@DAGExecutor.Plan Val).

Variable check : ActionDefinition → AppCtx → Val → SchemaOutcome Val.

Record ValidationResult : Type := {
  valid : bool;
  errors : list ValidationError;
  validatedCalls : option (list ActionCall)
}.

Definition notFoundMessage (actionId : string) : string :=
  "Action " +:+ quoted actionId +:+ " not found in registry".
Definition invalidArgsMessage (actionId : string) : string :=
  "Validation failed for action " +:+ quoted actionId.
Definition schemaErrorMessage (message : string) : string :=
  "Schema resolution failed: " +:+ message.

(** The error pushed for a call, if any: the body of the loop. *)
Definition call_error (context : AppCtx) (registry : ActionRegistry)
    (call : ActionCall) : option ValidationError :=
  match get (actionId call) registry with
  | None =>
    Some {| error_actionId := actionId call; error_callId := callId call;
            code := ACTION_NOT_FOUND;
            message := notFoundMessage (actionId call);
            zodErrors := None |}
  | Some action =>
    match check action context (args call) with
    | Parsed _ => None
    | ZodError issues =>
      Some {| error_actionId := actionId call; error_callId := callId call;
              code := INVALID_ARGS;
              message := invalidArgsMessage (actionId call);
              zodErrors := Some issues |}
    | OtherError msg =>
      Some {| error_actionId := actionId call; error_callId := callId call;
              code := SCHEMA_ERROR;
              message := schemaErrorMessage msg;
              zodErrors := None |}
    end
  end.

(** The call pushed to [validatedCalls], if any: [{ ...call, args }]. *)
Definition validated_call (context : AppCtx) (registry : ActionRegistry)
    (call : ActionCall) : option ActionCall :=
  match get (actionId call) registry with
  | None => None
  | Some action =>
    match check action context (args call) with
    | Parsed validatedArgs =>
      Some {| callId := callId call; actionId := actionId call;
              args := validatedArgs; dependsOn := dependsOn call |}
    | _ => None
    end
  end.

Definition validate_call (context : AppCtx) (registry : ActionRegistry)
    (st : list ValidationError * list ActionCall) (call : ActionCall)
  : list ValidationError * list ActionCall :=
  (st.1 ++ option_list (call_error context registry call),
   st.2 ++ option_list (validated_call context registry call)).

Definition validate (plan : Plan) (context : AppCtx)
    (registry : ActionRegistry) : ValidationResult :=
  let '(errors, validatedCalls) :=
    foldl (validate_call context registry) ([], []) (DAGExecutor.calls plan) in
  {| valid := bool_decide (length errors = 0%nat);
     errors := errors;
     validatedCalls :=
       if bool_decide (length errors = 0%nat) then Some validatedCalls
       else None |}.

(** A call that passes: its action is registered and accepts its
    arguments. *)
Definition accepted (context : AppCtx) (registry : ActionRegistry)
    (call : ActionCall) : Prop :=
  ∃ action validatedArgs,
    get (actionId call) registry = Some action ∧
    check action context (args call) = Parsed validatedArgs.

End Validator.

End Validator.

(** ** Pipeline (pipeline/Pipeline.ts)

    The interpreter is outside the code: [interpreter.repair], together
    with the [prepareActionsForLLM] call that computes its last argument
    from the registered actions of the current plan, is a function
    [repair] on a state of its own that returns a plan or throws.  The
    validator is the library's [Validator] and the memory a
    [ThreeTierMemory].  Of [recordEvent], the event appended to the trace
    is kept, without its timestamp; the telemetry span is left out.  A
    string is read as its sequence of code units, all below 256. *)

Module Pipeline.

Section Pipeline.

Context {W Val AppCtx S : Type}.

Local Abbreviation ActionDefinition := (@ActionDefinition W Val AppCtx).
Local Abbreviation ActionRegistry := (@ActionRegistry W Val AppCtx).
Local Abbreviation ActionCall := (@ActionCall Val).

Record NormalizedInput : Type := {
  raw : string;
  normalized : string;
  context : AppCtx;
  input_conversationId : string;
  input_turnNumber : Z
}.

Record ClarificationRequest : Type := {
  question : string;
  actionIds : list string;
  suggestions : option (list string)
}.

(** [Plan]; the fields [confidence] and [createdAt] are not read. *)
Record Plan : Type := {
  planId : string;
  input : NormalizedInput;
  calls : list ActionCall;
  clarification : option ClarificationRequest;
  conversationId : string;
  turnNumber : Z
}.

(** The plan as the validator and the executor read it. *)
Definition executor_plan (plan : Plan) : @DAGExecutor.Plan Val :=
  {| DAGExecutor.planId := planId plan;
     DAGExecutor.calls := calls plan;
     DAGExecutor.conversationId := conversationId plan;
     DAGExecutor.turnNumber := turnNumber plan |}.

Record TraceEvent : Type := {
  stage : string;
  status : string;
  data_attempt : option Z
}.

Record World : Type := {
  llm : S;
  trace : list TraceEvent
}.

(** The configuration, of which the registry, the memory and the two
    repair settings are read here. *)
Record t : Type := {
  registry : ActionRegistry;
  memory : option ThreeTierMemory.t;
  repairMaxRetries : option Z;
  enableAutoRepair : option bool
}.

(** constructor *)
Definition new (config : t) : t :=
  {| registry := registry config;
     memory := memory config;
     repairMaxRetries := Some (default 2 (repairMaxRetries config));
     enableAutoRepair := Some (default true (enableAutoRepair config)) |}.

Variable check : ActionDefinition → AppCtx → Val → SchemaOutcome Val.

Variable repair :
  string → AppCtx → Plan → list ValidationError → list ActionDefinition →
  S → Completion JsError Plan * S.

Definition recordEvent (event : TraceEvent) (w : World) : World :=
  {| llm := llm w; trace := trace w ++ [event] |}.

Definition newline : string :=
  Eval cbv in String (Ascii.ascii_of_nat 10) EmptyString.

(** [Array.prototype.join] *)
Fixpoint join (sep : string) (l : list string) : string :=
  match l with
  | [] => EmptyString
  | [x] => x
  | x :: l' => x +:+ sep +:+ join sep l'
  end.

Definition buildClarificationFromErrors (errors : list ValidationError)
  : string :=
  let messages :=
    (λ e, "- " +:+ error_actionId e +:+ ": " +:+ message e) <$> errors in
  "I need clarification on the following:" +:+ newline +:+
  join newline messages.

(** The plan returned when validation fails for good. *)
Definition clarification_plan (currentPlan : Plan)
    (errors : list ValidationError) : Plan :=
  {| planId := planId currentPlan;
     input := input currentPlan;
     calls := [];
     clarification :=
       Some {| question := buildClarificationFromErrors errors;
               actionIds := error_actionId <$> errors;
               suggestions := None |};
     conversationId := conversationId currentPlan;
     turnNumber := turnNumber currentPlan |}.

(** The [for (let attempt = 0; attempt < repairMaxRetries; attempt++)]
    loop of [validateWithRepair], with [remaining] the number of rounds
    that the loop condition still allows. *)
Fixpoint repair_loop (this : t) (remaining : nat) (attempt : Z)
    (plan currentPlan : Plan) (ctx : AppCtx) (w : World)
  : Completion JsError Plan * World :=
  match remaining with
  | O => (Returned currentPlan, w)
  | Datatypes.S remaining' =>
    let validation :=
      Validator.validate check (executor_plan currentPlan) ctx
                         (registry this) in
    if Validator.valid validation then (Returned currentPlan, w)
    else if negb (truthy (enableAutoRepair this))
            || bool_decide (attempt = default 2 (repairMaxRetries this) - 1)
    then
      (Returned (clarification_plan currentPlan (Validator.errors validation)),
       w)
    else
      let w1 :=
        recordEvent {| stage := "repair"; status := "start";
                       data_attempt := Some (attempt + 1) |} w in
      match repair (normalized (input plan)) ctx currentPlan
                   (Validator.errors validation)
                   (omap (λ c, get (actionId c) (registry this))
                         (calls currentPlan))
                   (llm w1) with
      | (Threw e, s) => (Threw e, {| llm := s; trace := trace w1 |})
      | (Returned repaired, s) =>
        let w2 :=
          recordEvent {| stage := "repair"; status := "complete";
                         data_attempt := None |}
                      {| llm := s; trace := trace w1 |} in
        repair_loop this remaining' (attempt + 1) plan repaired ctx w2
      end
  end.

Definition validateWithRepair (this : t) (plan : Plan) (ctx : AppCtx)
    (w : World) : Completion JsError Plan * World :=
  repair_loop this (Z.to_nat (default 2 (repairMaxRetries this))) 0
              plan plan ctx w.

(** [getConversationHistory] *)
Definition getConversationHistory (this : t) (conversationId : string)
  : list ThreeTierMemory.Message :=
  match memory this with
  | Some m => ThreeTierMemory.getMessagesForLLM conversationId m
  | None => []
  end.

(** [updateMemory]: the memory after the call; [now1] and [now2] are the
    clock readings of the two [addMessage] calls. *)
Definition updateMemory (this : t) (conversationId : string) (input : string)
    (plan : Plan) (now1 now2 : ThreeTierMemory.Clock) : t :=
  match memory this with
  | None => this
  | Some m =>
    let m1 :=
      ThreeTierMemory.addMessage conversationId
        {| ThreeTierMemory.role := ThreeTierMemory.user;
           ThreeTierMemory.content := input;
           ThreeTierMemory.timestamp := None |} now1 m in
    let m2 :=
      match clarification plan with
      | Some c =>
        ThreeTierMemory.addMessage conversationId
          {| ThreeTierMemory.role := ThreeTierMemory.assistant;
             ThreeTierMemory.content := question c;
             ThreeTierMemory.timestamp := None |} now2 m1
      | None => m1
      end in
    {| registry := registry this; memory := Some m2;
       repairMaxRetries := repairMaxRetries this;
       enableAutoRepair := enableAutoRepair this |}
  end.

(** *** normalize *)

(** [\s] and the characters that [trim] strips, among the code units
    below 256: tab, line feed, vertical tab, form feed, carriage return,
    space and no-break space. *)
Definition is_whitespace (c : Ascii.ascii) : bool :=
  bool_decide (Ascii.nat_of_ascii c ∈ [9; 10; 11; 12; 13; 32; 160]%nat).

Fixpoint trimStart (s : string) : string :=
  match s with
  | EmptyString => EmptyString
  | String c s' => if is_whitespace c then trimStart s' else s
  end.

Fixpoint trimEnd (s : string) : string :=
  match s with
  | EmptyString => EmptyString
  | String c s' =>
    match trimEnd s' with
    | EmptyString => if is_whitespace c then EmptyString
                     else String c EmptyString
    | rest => String c rest
    end
  end.

(** [String.prototype.trim] *)
Definition trim (s : string) : string := trimEnd (trimStart s).

Definition space : Ascii.ascii := Eval cbv in Ascii.ascii_of_nat 32.

(** [s.replace(/\s+/g, ' ')]: every maximal run of whitespace becomes one
    space; [in_run] tells that the previous character was whitespace. *)
Fixpoint collapse (in_run : bool) (s : string) : string :=
  match s with
  | EmptyString => EmptyString
  | String c s' =>
    if is_whitespace c then
      if in_run then collapse true s' else String space (collapse true s')
    else String c (collapse false s')
  end.

Definition normalize_text (input : string) : string :=
  collapse false (trim input).

Definition normalize (this : t) (input : string) (ctx : AppCtx)
    (conversationId : string) : NormalizedInput :=
  {| raw := input;
     normalized := normalize_text input;
     context := ctx;
     input_conversationId := conversationId;
     input_turnNumber :=
       default 0 (memory this ≫= ThreeTierMemory.getState conversationId) + 1 |}.

(** *** Notions for the theorems *)

(** One completed turn of a conversation: the request text, whether the
    plan asks for clarification and with which question, and the clock
    readings. *)
Record Turn : Type := {
  turn_input : string;
  turn_plan : Plan;
  turn_now1 : ThreeTierMemory.Clock;
  turn_now2 : ThreeTierMemory.Clock
}.

Definition run_turns (conversationId : string) (turns : list Turn) (this : t)
  : t :=
  foldl (λ p turn,
           updateMemory p conversationId (turn_input turn) (turn_plan turn)
                        (turn_now1 turn) (turn_now2 turn))
        this turns.

(** The words of a text: its maximal runs of characters that are not
    whitespace, in order. *)
Fixpoint words_from (current : string) (s : string) : list string :=
  match s with
  | EmptyString =>
    match current with EmptyString => [] | _ => [current] end
  | String c s' =>
    if is_whitespace c then
      match current with
      | EmptyString => words_from EmptyString s'
      | _ => current :: words_from EmptyString s'
      end
    else words_from (current +:+ String c EmptyString) s'
  end.

Definition words (s : string) : list string := words_from EmptyString s.

(** A text without any whitespace character. *)
Fixpoint no_whitespace (s : string) : Prop :=
  match s with
  | EmptyString => True
  | String c s' => is_whitespace c = false ∧ no_whitespace s'
  end.

(** The events of the trace that start a repair. *)
Definition repairs_started (tr : list TraceEvent) : nat :=
  length (filter (λ ev, stage ev = "repair" ∧ status ev = "start") tr).

End Pipeline.

End Pipeline.

(** ** Sample memories and pipelines *)

Module PipelineSamples.

Definition message (r : ThreeTierMemory.Role) (text : string)
  : ThreeTierMemory.Message :=
  {| ThreeTierMemory.role := r; ThreeTierMemory.content := text;
     ThreeTierMemory.timestamp := None |}.

Definition clock (now : Z) : ThreeTierMemory.Clock :=
  {| ThreeTierMemory.at_creation := now; ThreeTierMemory.at_timestamp := now;
     ThreeTierMemory.at_update := now |}.

(** Three messages of one conversation. *)
Definition history : list ThreeTierMemory.Op :=
  [ThreeTierMemory.AddMessage "conv1"
     (message ThreeTierMemory.user "create a task") (clock 1);
   ThreeTierMemory.AddMessage "conv1"
     (message ThreeTierMemory.assistant "for which day?") (clock 2);
   ThreeTierMemory.AddMessage "conv1"
     (message ThreeTierMemory.user "tomorrow") (clock 3)].

Definition one_turn : ThreeTierMemory.ThreeTierMemoryConfig :=
  {| ThreeTierMemory.workingMemoryTurns := Some 1 |}.

(** A schema check that accepts every argument as it is. *)
Definition accept_all
  : @ActionDefinition nat string unit → unit → string → SchemaOutcome string :=
  λ _ _ v, Parsed v.

Definition input0 : @Pipeline.NormalizedInput unit :=
  {| Pipeline.raw := " run  base "; Pipeline.normalized := "run base";
     Pipeline.context := tt; Pipeline.input_conversationId := "conv1";
     Pipeline.input_turnNumber := 1 |}.

(** A plan whose only call names an action that is not registered. *)
Definition draft : @Pipeline.Plan string unit :=
  {| Pipeline.planId := "plan1"; Pipeline.input := input0;
     Pipeline.calls := [Samples.call "call1" "ghost" None];
     Pipeline.clarification := None;
     Pipeline.conversationId := "conv1"; Pipeline.turnNumber := 1 |}.

(** An interpreter that repairs every plan into one call of [base]; its
    state counts the repairs. *)
Definition repair_to_base
  : string → unit → @Pipeline.Plan string unit → list ValidationError →
    list (@ActionDefinition nat string unit) → nat →
    Completion JsError (@Pipeline.Plan string unit) * nat :=
  λ _ _ failedPlan _ _ n,
    (Returned
       {| Pipeline.planId := Pipeline.planId failedPlan;
          Pipeline.input := Pipeline.input failedPlan;
          Pipeline.calls := [Samples.call "call_repair_0" "base" None];
          Pipeline.clarification := None;
          Pipeline.conversationId := Pipeline.conversationId failedPlan;
          Pipeline.turnNumber := Pipeline.turnNumber failedPlan |},
     S n).

Definition pipeline : @Pipeline.t nat string unit :=
  Pipeline.new
    {| Pipeline.registry := Samples.with_base;
       Pipeline.memory :=
         Some (ThreeTierMemory.new
                 {| ThreeTierMemory.workingMemoryTurns := None |});
       Pipeline.repairMaxRetries := None;
       Pipeline.enableAutoRepair := None |}.

Definition world0 : @Pipeline.World nat :=
  {| Pipeline.llm := 0%nat; Pipeline.trace := [] |}.

End PipelineSamples.
(** * Properties *)

(** ** Ordered sets *)

Lemma OrdSet_elem_of_add x y s : y ∈ OrdSet.add x s ↔ y = x ∨ y ∈ s.
Proof.
  unfold OrdSet.add, OrdSet.has.
  case_bool_decide; [|rewrite elem_of_app, list_elem_of_singleton];
    naive_solver.
Qed.

Lemma OrdSet_NoDup_add x s : NoDup s → NoDup (OrdSet.add x s).
Proof.
  unfold OrdSet.add, OrdSet.has. case_bool_decide; [done|]. intros Hs.
  apply NoDup_app. split_and!; [done| |apply NoDup_singleton].
  intros y Hy ->%list_elem_of_singleton. done.
Qed.

Lemma OrdSet_elem_of_delete x y s : y ∈ OrdSet.delete x s ↔ y ≠ x ∧ y ∈ s.
Proof. unfold OrdSet.delete. by rewrite list_elem_of_filter. Qed.

Lemma OrdSet_NoDup_delete x s : NoDup s → NoDup (OrdSet.delete x s).
Proof. apply NoDup_filter. Qed.

Lemma OrdSet_of_list_aux l s0 :
  NoDup s0 →
  NoDup (foldl (λ s x, OrdSet.add x s) s0 l) ∧
  ∀ y, y ∈ foldl (λ s x, OrdSet.add x s) s0 l ↔ y ∈ s0 ∨ y ∈ l.
Proof.
  revert s0. induction l as [|x l IH]; intros s0 Hs0; simpl.
  - split; [done|]. intros y. rewrite elem_of_nil. naive_solver.
  - destruct (IH _ (OrdSet_NoDup_add x s0 Hs0)) as [Hnd Hin].
    split; [done|]. intros y.
    rewrite Hin, OrdSet_elem_of_add, elem_of_cons. naive_solver.
Qed.

Lemma OrdSet_NoDup_of_list l : NoDup (OrdSet.of_list l).
Proof. apply OrdSet_of_list_aux, NoDup_nil_2. Qed.

Lemma OrdSet_elem_of_of_list l y : y ∈ OrdSet.of_list l ↔ y ∈ l.
Proof.
  unfold OrdSet.of_list.
  destruct (OrdSet_of_list_aux l OrdSet.empty (NoDup_nil_2)) as [_ ->].
  unfold OrdSet.empty. rewrite elem_of_nil. naive_solver.
Qed.

Lemma OrdSet_has_true x s : OrdSet.has x s = true ↔ x ∈ s.
Proof. unfold OrdSet.has. by rewrite bool_decide_eq_true. Qed.

(** ** ActionRegistry *)

Section RegistryFacts.

Context {W Val AppCtx : Type}.

Local Abbreviation ActionDefinition := (@ActionDefinition W Val AppCtx).
Local Abbreviation ActionRegistry := (@ActionRegistry W Val AppCtx).
Local Abbreviation RegM := (@RegM W Val AppCtx).

Implicit Types (r : ActionRegistry) (action : ActionDefinition).

Lemma read_only_for_of {A} (l : list A) (body : A → RegM unit) :
  (∀ x, read_only (body x)) → read_only (for_of l body).
Proof.
  intros Hbody. induction l as [|x l IH]; intros r; simpl; [done|].
  unfold bind. specialize (Hbody x r).
  destruct (body x r) as [[[]|e] r1]; simpl in *; subst; [apply IH|done].
Qed.

Lemma read_only_validateLockState : read_only (validateLockState (W:=W) (Val:=Val) (AppCtx:=AppCtx)).
Proof. intros r. unfold validateLockState. by destruct (locked r). Qed.

Lemma read_only_validateActionDefinition action :
  read_only (validateActionDefinition action).
Proof.
  intros r. unfold validateActionDefinition.
  repeat case_bool_decide; done.
Qed.

Lemma read_only_validateDependencies action :
  read_only (validateDependencies action).
Proof.
  apply read_only_for_of. intros dep r. by case_bool_decide.
Qed.

Lemma read_only_detectCircularDependencies i deps :
  read_only (detectCircularDependencies (W:=W) (Val:=Val) (AppCtx:=AppCtx) i deps).
Proof.
  intros r. unfold detectCircularDependencies.
  by destruct (detectCircularDependencies_rec _ _ _ _ _ _) as [[[]|]|].
Qed.

Lemma for_of_modify {A} (l : list A) (f : A → ActionRegistry → ActionRegistry) r :
  for_of l (λ x, modify (f x)) r = (Returned tt, foldl (λ r x, f x r) r l).
Proof.
  revert r. induction l as [|x l IH]; intros r; simpl; [done|].
  unfold bind, modify at 1. apply IH.
Qed.

(** [register] is its four checks followed by the three writes. *)
Lemma register_unfold action r :
  register action r =
    match validateLockState r with
    | (Threw e, _) => (Threw e, r)
    | (Returned _, _) =>
      match validateActionDefinition action r with
      | (Threw e, _) => (Threw e, r)
      | (Returned _, _) =>
        match validateDependencies action r with
        | (Threw e, _) => (Threw e, r)
        | (Returned _, _) =>
          match detectCircularDependencies (id action)
                  (default [] (dependencies action)) r with
          | (Threw e, _) => (Threw e, r)
          | (Returned _, _) => (Returned tt, registered action r)
          end
        end
      end
    end.
Proof.
  unfold register, bind, registered.
  pose proof (read_only_validateLockState r) as H1.
  destruct (validateLockState r) as [[[]|e] r1]; simpl in H1; subst; [|done].
  pose proof (read_only_validateActionDefinition action r) as H2.
  destruct (validateActionDefinition action r) as [[[]|e] r2];
    simpl in H2; subst; [|done].
  pose proof (read_only_validateDependencies action r) as H3.
  destruct (validateDependencies action r) as [[[]|e] r3];
    simpl in H3; subst; [|done].
  pose proof (read_only_detectCircularDependencies (id action)
                (default [] (dependencies action)) r) as H4.
  destruct (detectCircularDependencies _ _ r) as [[[]|e] r4];
    simpl in H4; subst; [|done].
  unfold set_action, modify at 1. simpl.
  unfold indexByTags, buildDependencyGraph. by rewrite !for_of_modify.
Qed.

Lemma register_failure_unchanged action r e r' :
  register action r = (Threw e, r') → r' = r.
Proof.
  rewrite register_unfold.
  repeat match goal with
         | |- context [match ?m with _ => _ end] =>
             destruct m as [[[]|?] ?]
         end; naive_solver.
Qed.

(** [validateDependencies] throws for the first dependency that is not
    registered. *)
Lemma validateDependencies_first_missing action r pre dep post :
  default [] (dependencies action) = pre ++ dep :: post →
  (∀ d, d ∈ pre → is_Some (actions r !! d)) →
  actions r !! dep = None →
  validateDependencies action r =
    (Threw (Error (unknownDependencyMessage (id action) dep)), r).
Proof.
  unfold validateDependencies. intros -> Hpre Hdep.
  induction pre as [|d pre IH]; simpl.
  - unfold bind. rewrite bool_decide_eq_false_2; [done|].
    rewrite Hdep. by intros [? ?].
  - unfold bind. rewrite bool_decide_eq_true_2 by (apply Hpre; left).
    simpl. apply IH. intros d' Hd'. apply Hpre. by right.
Qed.

Lemma first_missing (acts : gmap string ActionDefinition) (deps : list string) dep :
  dep ∈ deps → acts !! dep = None →
  ∃ pre dep' post,
    deps = pre ++ dep' :: post ∧
    (∀ d, d ∈ pre → is_Some (acts !! d)) ∧
    acts !! dep' = None.
Proof.
  induction deps as [|d deps IH]; [by intros ?%elem_of_nil|].
  intros Hin Hnone. destruct (acts !! d) as [a|] eqn:Hd.
  - apply elem_of_cons in Hin as [->|Hin]; [congruence|].
    destruct (IH Hin Hnone) as (pre & dep' & post & -> & Hpre & Hdep').
    exists (d :: pre), dep', post. split_and!; [done| |done].
    intros d' [->|?]%elem_of_cons; [by rewrite Hd|by apply Hpre].
  - exists [], d, deps. split_and!; [done| |done].
    by intros ? ?%elem_of_nil.
Qed.

Lemma validateActionDefinition_valid action r :
  valid_definition action r →
  validateActionDefinition action r = (Returned tt, r).
Proof.
  intros (Hid & Hfresh & Hdesc & Hargs). unfold validateActionDefinition.
  rewrite (bool_decide_eq_false_2 _ Hid).
  rewrite bool_decide_eq_false_2 by (rewrite Hfresh; by intros [? ?]).
  rewrite (bool_decide_eq_false_2 _ Hdesc).
  by rewrite (bool_decide_eq_false_2 _ Hargs).
Qed.

Lemma register_never_succeeds_with_missing_dep action r dep :
  dep ∈ default [] (dependencies action) →
  actions r !! dep = None →
  ∃ e, register action r = (Threw e, r).
Proof.
  intros Hin Hnone. rewrite register_unfold.
  destruct (first_missing _ _ _ Hin Hnone) as (pre & dep' & post & Hd & Hp & Hn).
  rewrite (validateDependencies_first_missing _ _ _ _ _ Hd Hp Hn).
  destruct (validateLockState r) as [[[]|e] r1]; [|by eexists].
  destruct (validateActionDefinition action r) as [[[]|e] r2]; by eexists.
Qed.

Lemma validateActionDefinition_returns action r r' :
  validateActionDefinition action r = (Returned tt, r') →
  valid_definition action r.
Proof.
  unfold validateActionDefinition, valid_definition.
  repeat case_bool_decide; try done. intros _.
  split_and!; try done.
  by apply eq_None_not_Some.
Qed.

Lemma register_returns action r r' :
  register action r = (Returned tt, r') →
  valid_definition action r ∧ locked r = false ∧ r' = registered action r.
Proof.
  rewrite register_unfold. unfold validateLockState.
  destruct (locked r); [done|]. simpl.
  destruct (validateActionDefinition action r) as [[[]|e] r2] eqn:Hv; [|done].
  apply validateActionDefinition_returns in Hv.
  destruct (validateDependencies action r) as [[[]|e] r3]; [|done].
  destruct (detectCircularDependencies _ _ r) as [[[]|e] r4]; [|done].
  naive_solver.
Qed.

(** *** The traversal depth of the cycle check is bounded *)

Lemma detectCircularDependencies_rec_fuel (acts : gmap string ActionDefinition)
    (root : string) fuel i deps (visited : gset string) path :
  visited ⊆ dom acts ∪ {[ root ]} →
  i ∈ dom acts ∪ {[ root ]} →
  (size acts + 2 ≤ size visited + fuel)%nat →
  detectCircularDependencies_rec fuel acts i deps visited path ≠ None.
Proof.
  revert i deps visited path.
  induction fuel as [|fuel IH]; intros i deps visited path Hsub Hi Hfuel.
  - apply subseteq_size in Hsub.
    assert (size (dom acts ∪ {[root]}) ≤ size acts + 1)%nat.
    { rewrite size_union_alt, size_dom.
      assert (size (({[root]} : gset string) ∖ dom acts) ≤ 1)%nat; [|lia].
      rewrite <-(size_singleton (C:=gset string) root).
      apply subseteq_size. set_solver. }
    lia.
  - simpl. case_bool_decide as Hvis; [done|].
    assert (size (visited ∪ {[i]}) = S (size visited)) as Hsz.
    { rewrite size_union by set_solver. rewrite size_singleton. lia. }
    induction deps as [|dep deps IHdeps]; [done|].
    destruct (acts !! dep) as [depAction|] eqn:Hdep; [|done].
    destruct (dependencies depAction) as [depDeps|]; [|done].
    assert (detectCircularDependencies_rec fuel acts dep depDeps
              (visited ∪ {[i]}) (path ++ [i]) ≠ None) as Hrec.
    { apply IH; [set_solver| |lia].
      apply elem_of_union_l, elem_of_dom. by rewrite Hdep. }
    destruct (detectCircularDependencies_rec fuel acts dep depDeps _ _)
      as [[[]|e]|]; done.
Qed.

Lemma detectCircularDependencies_total i deps r :
  detectCircularDependencies_rec (2 + size (actions r)) (actions r) i deps ∅ []
    ≠ None.
Proof.
  apply (detectCircularDependencies_rec_fuel _ i); [set_solver|set_solver|].
  rewrite size_empty. lia.
Qed.

(** *** The tag index *)

Lemma foldl_index_tag_actions action l r :
  actions (foldl (λ r x, index_tag action x r) r l) = actions r.
Proof. revert r. induction l as [|x l IH]; intros r; simpl; [done|]. by rewrite IH. Qed.

Lemma foldl_link_dependent_fields action l r :
  actions (foldl (λ r x, link_dependent action x r) r l) = actions r ∧
  actionsByTag (foldl (λ r x, link_dependent action x r) r l) = actionsByTag r.
Proof.
  revert r. induction l as [|x l IH]; intros r; simpl; [done|].
  destruct (IH (link_dependent action x r)) as [-> ->]. done.
Qed.

Lemma foldl_index_tag_mem action l r tag i :
  (∃ s, actionsByTag (foldl (λ r x, index_tag action x r) r l) !! tag = Some s
        ∧ i ∈ s) ↔
  (∃ s, actionsByTag r !! tag = Some s ∧ i ∈ s) ∨ (tag ∈ l ∧ i = id action).
Proof.
  revert r. induction l as [|x l IH]; intros r; simpl.
  - rewrite elem_of_nil. naive_solver.
  - rewrite IH, elem_of_cons. simpl.
    destruct (decide (tag = x)) as [->|Hne].
    + rewrite lookup_insert_eq.
      split.
      * intros [(s & [= <-] & Hi)|[? ?]]; [|by auto].
        apply OrdSet_elem_of_add in Hi as [->|Hi]; [by auto|].
        left. destruct (actionsByTag r !! x) as [s|]; simpl in *;
          [by eauto|by apply elem_of_nil in Hi].
      * intros [(s & Hs & Hi)|[[_|?] ->]].
        -- left. eexists; split; [done|]. apply OrdSet_elem_of_add.
           right. by rewrite Hs.
        -- left. eexists; split; [done|]. apply OrdSet_elem_of_add. by left.
        -- by right.
    + rewrite lookup_insert_ne by done. naive_solver.
Qed.

Lemma foldl_index_tag_NoDup action l r :
  (∀ tag s, actionsByTag r !! tag = Some s → NoDup s) →
  ∀ tag s,
    actionsByTag (foldl (λ r x, index_tag action x r) r l) !! tag = Some s →
    NoDup s.
Proof.
  revert r. induction l as [|x l IH]; intros r Hr; simpl; [done|].
  apply IH. intros tag s. simpl.
  destruct (decide (tag = x)) as [->|Hne].
  - rewrite lookup_insert_eq. intros [= <-]. apply OrdSet_NoDup_add.
    destruct (actionsByTag r !! x) as [s'|] eqn:Hx; simpl;
      [by eapply Hr|apply NoDup_nil_2].
  - rewrite lookup_insert_ne by done. apply Hr.
Qed.

Lemma foldl_locked (f : string → ActionRegistry → ActionRegistry) l r :
  (∀ x r, locked (f x r) = locked r) →
  locked (foldl (λ r x, f x r) r l) = locked r.
Proof.
  intros Hf. revert r. induction l as [|x l IH]; intros r; simpl; [done|].
  by rewrite IH.
Qed.

Lemma registered_fields action r :
  actions (registered action r) = <[ id action := action ]> (actions r) ∧
  actionsByTag (registered action r) =
    actionsByTag (foldl (λ r x, index_tag action x r)
                        (snd (set_action action r))
                        (default [] (tags action))) ∧
  locked (registered action r) = locked r.
Proof.
  unfold registered, indexByTags, buildDependencyGraph.
  rewrite !for_of_modify. cbn [snd].
  destruct (foldl_link_dependent_fields action
              (default [] (dependencies action))
              (foldl (λ r x, index_tag action x r) (snd (set_action action r))
                     (default [] (tags action)))) as [-> ->].
  rewrite foldl_index_tag_actions. split_and!; [done|done|].
  by rewrite !foldl_locked.
Qed.

Lemma registry_inv_new : registry_inv (new_ActionRegistry : ActionRegistry).
Proof.
  split_and!; simpl.
  - intros i a. by rewrite lookup_empty.
  - intros tag i. rewrite lookup_empty.
    split; [intros (s & Hs & _)|intros (a & Ha & _)];
      by rewrite lookup_empty in *.
  - intros tag s. by rewrite lookup_empty.
Qed.

Lemma registry_inv_registered action r :
  actions r !! id action = None →
  registry_inv r → registry_inv (registered action r).
Proof.
  intros Hfresh (Hid & Htag & Hnd).
  destruct (registered_fields action r) as (Ha & Ht & _).
  split_and!.
  - intros i a. rewrite Ha.
    destruct (decide (i = id action)) as [->|Hne].
    + rewrite lookup_insert_eq. by intros [= <-].
    + rewrite lookup_insert_ne by done. apply Hid.
  - intros tag i. rewrite Ht, Ha, foldl_index_tag_mem. simpl. rewrite Htag.
    split.
    + intros [(a & Hai & Hta)|[Hin ->]].
      * exists a. split; [|done]. rewrite lookup_insert_ne; [done|].
        intros <-. congruence.
      * exists action. by rewrite lookup_insert_eq.
    + intros (a & Hai & Hta).
      destruct (decide (i = id action)) as [->|Hne].
      * rewrite lookup_insert_eq in Hai. injection Hai as <-. by right.
      * rewrite lookup_insert_ne in Hai by done. left. by exists a.
  - rewrite Ht. apply foldl_index_tag_NoDup. apply Hnd.
Qed.

Lemma reachable_registry_inv r : reachable r → registry_inv r.
Proof.
  induction 1 as [|r action r' _ IH Hreg|r _ IH].
  - apply registry_inv_new.
  - apply register_returns in Hreg as ((_ & Hfresh & _) & _ & ->).
    by apply registry_inv_registered.
  - done.
Qed.

(** The fold of [sets.reduce]: what survives is what every set contains. *)
Lemma intersection_spec (sets : list OrdSet.t) (s0 : OrdSet.t) x :
  x ∈ foldl (λ acc s, OrdSet.of_list (filter (λ x, OrdSet.has x s = true) acc))
            s0 sets ↔
  x ∈ s0 ∧ ∀ s, s ∈ sets → x ∈ s.
Proof.
  revert s0. induction sets as [|s sets IH]; intros s0; simpl.
  - split; [intros ?; split; [done|by intros ? ?%elem_of_nil]|by intros []].
  - rewrite IH, OrdSet_elem_of_of_list, list_elem_of_filter, OrdSet_has_true.
    split.
    + intros [[Hs H0] Hall]. split; [done|].
      intros s' [->|?]%elem_of_cons; auto.
    + intros [H0 Hall]. split_and!; [apply Hall; left|done|].
      intros s' ?. apply Hall. by right.
Qed.

Lemma intersection_NoDup (sets : list OrdSet.t) (s0 : OrdSet.t) :
  NoDup s0 →
  NoDup (foldl (λ acc s, OrdSet.of_list (filter (λ x, OrdSet.has x s = true) acc))
               s0 sets).
Proof.
  revert s0. induction sets as [|s sets IH]; intros s0 Hs0; simpl; [done|].
  apply IH, OrdSet_NoDup_of_list.
Qed.

(** *** The cycle check never fires

    Dependencies must be registered before their dependents, so the
    registered actions always form a DAG and the new identifier is not
    part of it: the traversal of [detectCircularDependencies] never meets
    an identifier twice. *)

Lemma validateDependencies_returns action r r' :
  validateDependencies action r = (Returned tt, r') →
  ∀ d, d ∈ default [] (dependencies action) → is_Some (actions r !! d).
Proof.
  unfold validateDependencies.
  induction (default [] (dependencies action)) as [|dep deps IH];
    [by intros _ ? ?%elem_of_nil|].
  cbn [for_of]. unfold bind at 1. case_bool_decide as Hdep; [|done].
  cbn. intros Hrest d [->|Hd]%elem_of_cons; [done|]. by apply IH.
Qed.

Lemma detectCircularDependencies_rec_dag
    (acts : gmap string ActionDefinition) (rank : string → nat) fuel e :
  (∀ i a d, acts !! i = Some a → d ∈ default [] (dependencies a) →
            (rank d < rank i)%nat) →
  ∀ i deps (visited : gset string) path,
    i ∉ visited →
    (∀ d, d ∈ deps → is_Some (acts !! d) →
          ∀ v, v ∈ visited ∪ {[ i ]} → acts !! v = None ∨ (rank d < rank v)%nat) →
    detectCircularDependencies_rec fuel acts i deps visited path
      ≠ Some (Threw e).
Proof.
  intros Hrank.
  induction fuel as [|fuel IH]; intros i deps visited path Hi Hdeps; [done|].
  cbn [detectCircularDependencies_rec].
  rewrite bool_decide_eq_false_2 by done.
  induction deps as [|dep deps IHdeps]; [done|].
  assert (∀ d, d ∈ deps → is_Some (acts !! d) →
               ∀ v, v ∈ visited ∪ {[ i ]} →
                    acts !! v = None ∨ (rank d < rank v)%nat) as Hdeps'.
  { intros d Hd. apply Hdeps. by right. }
  destruct (acts !! dep) as [depAction|] eqn:Hdep; [|by apply IHdeps].
  destruct (dependencies depAction) as [depDeps|] eqn:HdepDeps;
    [|by apply IHdeps].
  assert (detectCircularDependencies_rec fuel acts dep depDeps
            (visited ∪ {[i]}) (path ++ [i]) ≠ Some (Threw e)) as Hrec.
  { apply IH.
    - intros Hin.
      destruct (Hdeps dep) with (v := dep) as [Hn|Hlt];
        [left|by rewrite Hdep|done|congruence|lia].
    - intros d Hd _ v [Hv| ->%elem_of_singleton]%elem_of_union.
      + destruct (Hdeps dep) with (v := v) as [Hn|Hlt];
          [left|by rewrite Hdep|done|by left|right].
        assert (rank d < rank dep)%nat; [|lia].
        eapply Hrank; [done|]. by rewrite HdepDeps.
      + right. eapply Hrank; [done|]. by rewrite HdepDeps. }
  destruct (detectCircularDependencies_rec fuel acts dep depDeps _ _)
    as [[[]|e']|]; [by apply IHdeps| |done].
  intros [= ->]. done.
Qed.

Lemma dag_inv_registered action r :
  actions r !! id action = None →
  (∀ d, d ∈ default [] (dependencies action) → is_Some (actions r !! d)) →
  dag_inv (actions r) → dag_inv (actions (registered action r)).
Proof.
  intros Hfresh Hdeps (rank & bound & Hinv).
  destruct (registered_fields action r) as (-> & _ & _).
  exists (λ x, if decide (x = id action) then bound else rank x), (S bound).
  intros i a Hia.
  destruct (decide (i = id action)) as [->|Hne].
  - rewrite lookup_insert_eq in Hia. injection Hia as <-.
    split; [lia|]. intros d Hd.
    destruct (Hdeps _ Hd) as [a' Ha'].
    assert (d ≠ id action) by congruence.
    rewrite decide_False by done. rewrite lookup_insert_ne by done.
    split; [by eexists|]. by apply (Hinv _ _ Ha').
  - rewrite lookup_insert_ne in Hia by done.
    destruct (Hinv _ _ Hia) as [Hb Hd]. split; [lia|].
    intros d Hdin. destruct (Hd _ Hdin) as [[a' Ha'] Hlt].
    assert (d ≠ id action) by congruence.
    rewrite decide_False by done. rewrite lookup_insert_ne by done.
    split; [by eexists|done].
Qed.

Lemma reachable_dag_inv r : reachable r → dag_inv (actions r).
Proof.
  induction 1 as [|r action r' _ IH Hreg|r _ IH].
  - exists (λ _, 0%nat), 0%nat. intros i a. cbn. by rewrite lookup_empty.
  - pose proof Hreg as ((_ & Hfresh & _) & _ & ->)%register_returns.
    apply dag_inv_registered; [done| |done].
    rewrite register_unfold in Hreg.
    destruct (validateLockState r) as [[[]|?] ?]; [|done].
    destruct (validateActionDefinition action r) as [[[]|?] ?]; [|done].
    destruct (validateDependencies action r) as [[[]|?] ?] eqn:Hv; [|done].
    by eapply validateDependencies_returns.
  - done.
Qed.

(** On a registry built by [register] and [lock], [register] never fails
    with a [CircularDependencyError]. *)
Lemma register_never_circular r action e r' :
  reachable r →
  register action r = (Threw e, r') →
  ¬ is_CircularDependencyError e.
Proof.
  intros (rank & bound & Hinv)%reachable_dag_inv. rewrite register_unfold.
  unfold validateLockState. destruct (locked r).
  { intros [= <- _] [? ?]. done. }
  cbn. destruct (validateActionDefinition action r) as [[[]|e1] r1] eqn:Hv1.
  2:{ intros [= <- _] [cycle ->]. unfold validateActionDefinition in Hv1.
      by repeat case_bool_decide. }
  apply validateActionDefinition_returns in Hv1 as (_ & Hfresh & _).
  destruct (validateDependencies action r) as [[[]|e2] r2] eqn:Hv2.
  2:{ intros [= <- _] [cycle ->]. unfold validateDependencies in Hv2.
      induction (default [] (dependencies action)) as [|dep deps IH];
        [done|].
      cbn [for_of] in Hv2. unfold bind in Hv2 at 1.
      case_bool_decide; [by apply IH|done]. }
  unfold detectCircularDependencies.
  destruct (detectCircularDependencies_rec _ _ _ _ _ _) as [[[]|e3]|] eqn:Hd;
    [done| |by intros [= <- _] [? ?]].
  exfalso. revert Hd.
  apply (detectCircularDependencies_rec_dag _ rank).
  - intros i a d Hia Hdin. by apply (Hinv _ _ Hia).
  - set_solver.
  - intros d _ _ v Hv. left.
    assert (v = id action) as -> by set_solver. done.
Qed.

(** C5 (amended).  After [base] (no dependencies) has been registered in a
    new registry, registering a structurally valid [loop] whose dependencies
    are ["loop"] fails, the registry is left as it was, and the error is the
    plain [Error] of [validateDependencies] saying that "loop" is not
    registered: the dependency check runs before the cycle check. *)
Theorem register_self_reference_is_unknown_dependency
    (base loop : ActionDefinition) r1 :
  id base = "base" →
  default [] (dependencies base) = [] →
  register base new_ActionRegistry = (Returned tt, r1) →
  id loop = "loop" →
  dependencies loop = Some ["loop"] →
  description loop ≠ EmptyString →
  argsSchema loop ≠ None →
  register loop r1 =
    (Threw (Error (unknownDependencyMessage "loop" "loop")), r1).
Proof.
  intros Hb _ Hreg Hl Hdeps Hdesc Hargs.
  apply register_returns in Hreg as (_ & _ & ->).
  destruct (registered_fields base new_ActionRegistry) as (Ha & _ & Hlock).
  rewrite register_unfold. unfold validateLockState. rewrite Hlock. simpl.
  assert (actions (registered base new_ActionRegistry) !! "loop" = None)
    as Hfresh.
  { rewrite Ha, Hb. simpl. by rewrite lookup_insert_ne, lookup_empty. }
  rewrite validateActionDefinition_valid; last first.
  { split_and!; rewrite ?Hl; done. }
  rewrite (validateDependencies_first_missing loop _ [] "loop" []);
    [by rewrite Hl| by rewrite Hdeps| by intros ? ?%elem_of_nil | done].
Qed.

(** C6 (amended).  Whenever [register] fails the registry is left exactly
    as it was.  A definition that declares a dependency which is not
    registered is never registered; when the registry is unlocked and the
    definition is structurally valid, the failure is the unknown-dependency
    error naming the first declared dependency that is not registered. *)
Theorem register_unknown_dependency_fails action r dep :
  dep ∈ default [] (dependencies action) →
  actions r !! dep = None →
  (∃ e, register action r = (Threw e, r)) ∧
  (locked r = false → valid_definition action r →
   ∃ pre dep' post,
     default [] (dependencies action) = pre ++ dep' :: post ∧
     (∀ d, d ∈ pre → is_Some (actions r !! d)) ∧
     actions r !! dep' = None ∧
     register action r =
       (Threw (Error (unknownDependencyMessage (id action) dep')), r)) ∧
  (∀ action' r0 e r', register action' r0 = (Threw e, r') → r' = r0).
Proof.
  intros Hin Hnone. split_and!.
  - by eapply register_never_succeeds_with_missing_dep.
  - intros Hlock Hvalid.
    destruct (first_missing _ _ _ Hin Hnone)
      as (pre & dep' & post & Hd & Hp & Hn).
    exists pre, dep', post. split_and!; try done.
    rewrite register_unfold. unfold validateLockState. rewrite Hlock. simpl.
    rewrite (validateActionDefinition_valid _ _ Hvalid).
    by rewrite (validateDependencies_first_missing _ _ _ _ _ Hd Hp Hn).
  - intros action' r0 e r'. apply register_failure_unchanged.
Qed.

(** C10.  On a registry built by [register] and [lock], [getByTags] of the
    empty tag list is the empty array, and for a non-empty tag list it
    returns, without repetition, exactly the registered actions whose tags
    include every listed tag. *)
Theorem getByTags_spec r :
  reachable r →
  getByTags [] r = [] ∧
  ∀ ts, ts ≠ [] →
    NoDup (getByTags ts r) ∧
    ∀ oa, oa ∈ getByTags ts r ↔
          ∃ a, oa = Some a ∧ actions r !! id a = Some a ∧
               ∀ t, t ∈ ts → t ∈ default [] (tags a).
Proof.
  intros (Hid & Htag & Hnd)%reachable_registry_inv. split; [done|].
  intros [|t0 ts] Hne; [done|]. clear Hne. unfold getByTags.
  rewrite fmap_cons.
  set (sets := (λ tag, default OrdSet.empty (actionsByTag r !! tag)) <$> ts).
  set (s0 := default OrdSet.empty (actionsByTag r !! t0)).
  assert (∀ t i, i ∈ default OrdSet.empty (actionsByTag r !! t) ↔
                 ∃ a, actions r !! i = Some a ∧ t ∈ default [] (tags a))
    as Hmem.
  { intros t i. rewrite <-Htag.
    destruct (actionsByTag r !! t) as [s|]; simpl.
    - naive_solver.
    - unfold OrdSet.empty. rewrite elem_of_nil. naive_solver. }
  assert (∀ i, i ∈ foldl (λ acc s, OrdSet.of_list
                                      (filter (λ x, OrdSet.has x s = true) acc))
                          s0 sets ↔
               ∃ a, actions r !! i = Some a ∧
                    ∀ t, t ∈ t0 :: ts → t ∈ default [] (tags a)) as Hinter.
  { intros i. rewrite intersection_spec. unfold s0, sets. split.
    - intros [(a & Ha & Ht0)%Hmem Hall]. exists a. split; [done|].
      intros t [->|Ht]%elem_of_cons; [done|].
      destruct (proj1 (Hmem t i)) as (a' & Ha' & Ht').
      { apply Hall, list_elem_of_fmap. by exists t. }
      congruence.
    - intros (a & Ha & Hall). split.
      + apply Hmem. exists a. split; [done|]. apply Hall. by left.
      + intros s (t & -> & Ht)%list_elem_of_fmap. apply Hmem.
        exists a. split; [done|]. apply Hall. by right. }
  split.
  - apply NoDup_fmap_2_strong.
    + intros i j (a & Ha & _)%Hinter (b & Hb & _)%Hinter Heq.
      rewrite Ha, Hb in Heq. injection Heq as ->.
      by rewrite <-(Hid _ _ Ha), <-(Hid _ _ Hb).
    + apply intersection_NoDup. unfold s0.
      destruct (actionsByTag r !! t0) as [s|] eqn:Hs; simpl;
        [by eapply Hnd|apply NoDup_nil_2].
  - intros oa. rewrite list_elem_of_fmap. split.
    + intros (i & -> & (a & Ha & Hall)%Hinter). exists a.
      by rewrite (Hid _ _ Ha).
    + intros (a & -> & Ha & Hall). exists (id a). split; [done|].
      apply Hinter. by exists a.
Qed.

End RegistryFacts.

(** Witness of [register_self_reference_is_unknown_dependency]. *)
Lemma register_self_reference_witness :
  register Samples.loop Samples.with_base =
    (Threw (Error (unknownDependencyMessage "loop" "loop")), Samples.with_base).
Proof.
  apply (register_self_reference_is_unknown_dependency Samples.base Samples.loop);
    [reflexivity|reflexivity|vm_compute; reflexivity|reflexivity|reflexivity
    |discriminate|discriminate].
Defined.

(** C5 as stated fails: the error for the self-referencing [loop] is not a
    [CircularDependencyError]. *)
Lemma register_self_reference_not_circular :
  register Samples.base new_ActionRegistry = (Returned tt, Samples.with_base) ∧
  ¬ ∃ e, fst (register Samples.loop Samples.with_base) = Threw e ∧
         is_CircularDependencyError e.
Proof.
  split; [vm_compute; reflexivity|].
  intros (e & He & cycle & ->). vm_compute in He. discriminate.
Qed.

(** Witness of [register_unknown_dependency_fails]. *)
Lemma register_unknown_dependency_witness :
  (∃ e, register Samples.broken Samples.with_base = (Threw e, Samples.with_base)) ∧
  (locked Samples.with_base = false →
   valid_definition Samples.broken Samples.with_base →
   ∃ pre dep' post,
     default [] (dependencies Samples.broken) = pre ++ dep' :: post ∧
     (∀ d, d ∈ pre → is_Some (actions Samples.with_base !! d)) ∧
     actions Samples.with_base !! dep' = None ∧
     register Samples.broken Samples.with_base =
       (Threw (Error (unknownDependencyMessage (id Samples.broken) dep')),
        Samples.with_base)) ∧
  (∀ (action' : @ActionDefinition nat string unit) r0 e r',
     register action' r0 = (Threw e, r') → r' = r0).
Proof.
  apply (register_unknown_dependency_fails Samples.broken Samples.with_base
           "nonexistent").
  - vm_compute. left.
  - vm_compute. reflexivity.
Defined.

(** C6 as stated fails: on a locked registry the failure for a definition
    with an unregistered dependency is the lock error. *)
Lemma register_locked_is_not_unknown_dependency :
  "nonexistent" ∈ default [] (dependencies Samples.broken) ∧
  actions (lock Samples.with_base) !! "nonexistent" = None ∧
  ¬ ∃ e, fst (register Samples.broken (lock Samples.with_base)) = Threw e ∧
         is_unknown_dependency_error e.
Proof.
  split_and!; [vm_compute; left|vm_compute; reflexivity|].
  intros (e & He & i & dep & ->). vm_compute in He.
  discriminate.
Qed.

Lemma reachable_tagged : reachable Samples.tagged.
Proof.
  apply (reachable_register
           (Samples.registry_of
              [Samples.plainAction "action1" None (Some ["tag1"; "tag2"])])
           (Samples.plainAction "action2" None (Some ["tag1"]))).
  - apply (reachable_register new_ActionRegistry
             (Samples.plainAction "action1" None (Some ["tag1"; "tag2"])));
      [apply reachable_new|vm_compute; reflexivity].
  - vm_compute. reflexivity.
Defined.

(** Witness of [getByTags_spec]. *)
Lemma getByTags_spec_witness :
  getByTags [] Samples.tagged = [] ∧
  ∀ ts, ts ≠ [] →
    NoDup (getByTags ts Samples.tagged) ∧
    ∀ oa, oa ∈ getByTags ts Samples.tagged ↔
          ∃ a, oa = Some a ∧ actions Samples.tagged !! id a = Some a ∧
               ∀ t, t ∈ ts → t ∈ default [] (tags a).
Proof. apply (getByTags_spec Samples.tagged), reachable_tagged. Defined.

Example getByTags_tag1_tag2 :
  getByTags ["tag1"; "tag2"] Samples.tagged =
    [Some (Samples.plainAction "action1" None (Some ["tag1"; "tag2"]))].
Proof. vm_compute. reflexivity. Qed.

Example getByTags_tag1 :
  id <$> omap (λ x, x) (getByTags ["tag1"] Samples.tagged) =
    ["action1"; "action2"].
Proof. vm_compute. reflexivity. Qed.

(** ** DAGExecutor: the scheduler *)

Section SchedulerFacts.

Context {W Val AppCtx : Type}.

Local Abbreviation ActionDefinition := (@ActionDefinition W Val AppCtx).
Local Abbreviation ActionCall := (@ActionCall Val).
Local Abbreviation Executor := (@DAGExecutor.t W Val AppCtx).
Local Abbreviation Graph := (@DAGExecutor.Graph Val).

Implicit Types (this : Executor) (g : Graph) (P : gset string)
  (remaining : OrdSet.t) (inDegree : gmap string Z)
  (batch : list ActionCall) (batches : list (list ActionCall)).

(** The in-degree update touches each remaining identifier once. *)
Lemma update_inDegrees_lookup g x remaining inDegree cid :
  NoDup remaining →
  DAGExecutor.update_inDegrees g x remaining inDegree !! cid =
    if decide (cid ∈ remaining ∧ x ∈ default ∅ (DAGExecutor.graph g !! cid))
    then Some (default 0 (inDegree !! cid) - 1)
    else inDegree !! cid.
Proof.
  unfold DAGExecutor.update_inDegrees.
  revert inDegree. induction remaining as [|other rem IH]; intros inDegree Hnd.
  - cbn [foldl]. case_decide as H; [|done].
    by destruct H as [?%elem_of_nil _].
  - apply NoDup_cons in Hnd as [Hother Hnd]. cbn [foldl]. rewrite (IH _ Hnd).
    destruct (decide (cid = other)) as [->|Hne].
    + case_decide as H1; [tauto|].
      case_bool_decide as Hx.
      * rewrite lookup_insert_eq. case_decide as H2; [done|].
        exfalso. apply H2. split; [left|done].
      * case_decide as H2; [tauto|done].
    + assert ((if bool_decide (x ∈ default ∅ (DAGExecutor.graph g !! other))
               then <[other:=default 0 (inDegree !! other) - 1]> inDegree
               else inDegree) !! cid = inDegree !! cid) as ->.
      { case_bool_decide; [by rewrite lookup_insert_ne|done]. }
      case_decide as H1; case_decide as H2; try done.
      * exfalso. apply H2. split; [right|]; tauto.
      * exfalso. apply H1. destruct H2 as [[?|?]%elem_of_cons ?]; done.
Qed.

Lemma size_difference_step (deps P : gset string) x :
  x ∉ P →
  Z.of_nat (size (deps ∖ (P ∪ {[x]}))) =
    if decide (x ∈ deps) then Z.of_nat (size (deps ∖ P)) - 1
    else Z.of_nat (size (deps ∖ P)).
Proof.
  intros HxP. case_decide as Hx.
  - assert (deps ∖ P = (deps ∖ (P ∪ {[x]})) ∪ {[x]}) as ->.
    { apply set_eq. intros y. destruct (decide (y = x)); set_solver. }
    rewrite (size_union (deps ∖ (P ∪ {[x]})) {[x]}) by set_solver.
    rewrite size_singleton. lia.
  - by replace (deps ∖ (P ∪ {[x]})) with (deps ∖ P) by set_solver.
Qed.

Lemma kahn_inv_remove g P remaining inDegree x :
  DAGExecutor.kahn_inv g P remaining inDegree →
  x ∈ remaining →
  DAGExecutor.kahn_inv g (P ∪ {[ x ]}) (OrdSet.delete x remaining)
    (DAGExecutor.update_inDegrees g x (OrdSet.delete x remaining) inDegree).
Proof.
  intros [Hnd Hinv] Hx. split; [by apply OrdSet_NoDup_delete|].
  intros cid [Hne Hcid]%OrdSet_elem_of_delete.
  destruct (Hinv _ Hcid) as (HcP & c & deps & Hc & Hcc & Hdeps & Hdeg).
  destruct (Hinv _ Hx) as (HxP & _).
  split; [set_solver|]. exists c, deps. split_and!; try done.
  rewrite update_inDegrees_lookup by by apply OrdSet_NoDup_delete.
  rewrite Hdeps, Hdeg. simpl. rewrite (size_difference_step _ _ _ HxP).
  destruct (decide (x ∈ deps)).
  - rewrite decide_True; [done|]. by rewrite OrdSet_elem_of_delete.
  - rewrite decide_False; [done|]. tauto.
Qed.

Lemma delete_as_filter x remaining :
  OrdSet.delete x remaining = filter (λ y, y ≠ x) remaining.
Proof. done. Qed.

(** Removing the calls of a list from [remaining], one after the other. *)
Lemma remove_processed_spec g batch P remaining inDegree :
  DAGExecutor.kahn_inv g P remaining inDegree →
  NoDup (callId <$> batch) →
  (∀ c, c ∈ batch → callId c ∈ remaining) →
  fst (DAGExecutor.remove_processed g batch (remaining, inDegree)) =
    filter (λ y, y ∉ callId <$> batch) remaining ∧
  DAGExecutor.kahn_inv g (P ∪ list_to_set (callId <$> batch))
    (fst (DAGExecutor.remove_processed g batch (remaining, inDegree)))
    (snd (DAGExecutor.remove_processed g batch (remaining, inDegree))).
Proof.
  unfold DAGExecutor.remove_processed.
  revert P remaining inDegree.
  induction batch as [|c batch IH]; intros P remaining inDegree Hinv Hnd Hin.
  - cbn [foldl fst snd]. rewrite fmap_nil. split.
    + clear. induction remaining as [|y rem IHr]; [done|].
      rewrite filter_cons_True by apply not_elem_of_nil.
      by rewrite <-IHr.
    + by rewrite list_to_set_nil, union_empty_r_L.
  - rewrite fmap_cons in Hnd. apply NoDup_cons in Hnd as [Hc Hnd].
    assert (c ∈ c :: batch) as Hcin by left.
    pose proof (kahn_inv_remove _ _ _ _ _ Hinv (Hin _ Hcin)) as Hinv'.
    cbn [foldl fst snd].
    destruct (IH _ _ _ Hinv' Hnd) as [Hfst Hkinv].
    { intros c' Hc'. apply OrdSet_elem_of_delete. split; [|apply Hin; by right].
      intros Heq. apply Hc. rewrite <-Heq. apply list_elem_of_fmap. eauto. }
    split.
    + rewrite Hfst, delete_as_filter, list_filter_filter.
      apply list_filter_iff. intros y. rewrite fmap_cons, not_elem_of_cons.
      tauto.
    + rewrite fmap_cons, list_to_set_cons.
      by replace (P ∪ ({[callId c]} ∪ list_to_set (callId <$> batch)))
        with (P ∪ {[callId c]} ∪ list_to_set (callId <$> batch)) by set_solver.
Qed.

(** The batch of a round: the remaining identifiers of in-degree zero. *)
Lemma select_batch_spec g P remaining inDegree c :
  DAGExecutor.kahn_inv g P remaining inDegree →
  c ∈ DAGExecutor.select_batch g remaining inDegree ↔
  callId c ∈ remaining ∧ DAGExecutor.callMap g !! callId c = Some c ∧
  inDegree !! callId c = Some 0.
Proof.
  intros [_ Hinv]. unfold DAGExecutor.select_batch.
  rewrite list_elem_of_omap. split.
  - intros (cid & Hcid & Hsel). case_bool_decide as Hz; [|done].
    destruct (Hinv _ Hcid) as (_ & c' & deps & Hc' & <- & _).
    rewrite Hc' in Hsel. injection Hsel as ->. done.
  - intros (Hrem & Hc & Hz). exists (callId c). split; [done|].
    by rewrite bool_decide_eq_true_2.
Qed.

Lemma select_batch_callIds g P remaining inDegree :
  DAGExecutor.kahn_inv g P remaining inDegree →
  callId <$> DAGExecutor.select_batch g remaining inDegree =
    filter (λ cid, inDegree !! cid = Some 0) remaining.
Proof.
  intros [_ Hinv]. unfold DAGExecutor.select_batch.
  induction remaining as [|cid rem IH]; [done|].
  destruct (Hinv cid) as (_ & c & deps & Hc & Hcc & _); [left|].
  rewrite filter_cons. simpl.
  rewrite <-IH by (intros ? ?; apply Hinv; by right).
  case_bool_decide as Hz.
  - rewrite decide_True by done. rewrite Hc. simpl. by rewrite Hcc.
  - by rewrite decide_False by done.
Qed.

Lemma select_batch_deps g P remaining inDegree c :
  DAGExecutor.kahn_inv g P remaining inDegree →
  c ∈ DAGExecutor.select_batch g remaining inDegree →
  DAGExecutor.callMap g !! callId c = Some c ∧ (callId c ∉ P) ∧
  ∃ deps, DAGExecutor.graph g !! callId c = Some deps ∧ deps ⊆ P.
Proof.
  intros Hinv Hc.
  apply (select_batch_spec _ _ _ _ _ Hinv) in Hc as (Hrem & Hc & Hz).
  destruct Hinv as [_ Hinv].
  destruct (Hinv _ Hrem) as (HP & c' & deps & _ & _ & Hdeps & Hdeg).
  split_and!; [done|done|]. exists deps. split; [done|].
  rewrite Hz in Hdeg. injection Hdeg as Hsz.
  assert (size (deps ∖ P) = 0%nat) as Hempty%size_empty_iff by lia.
  set_solver.
Qed.

Lemma select_batch_NoDup g P remaining inDegree :
  DAGExecutor.kahn_inv g P remaining inDegree →
  NoDup (callId <$> DAGExecutor.select_batch g remaining inDegree).
Proof.
  intros Hinv. rewrite (select_batch_callIds _ _ _ _ Hinv).
  apply NoDup_filter, Hinv.
Qed.

(** One round of the loop. *)
Lemma kahn_round g P remaining inDegree :
  DAGExecutor.kahn_inv g P remaining inDegree →
  let batch := DAGExecutor.select_batch g remaining inDegree in
  let st := DAGExecutor.remove_processed g batch (remaining, inDegree) in
  fst st = filter (λ y, y ∉ callId <$> batch) remaining ∧
  DAGExecutor.kahn_inv g (P ∪ list_to_set (callId <$> batch)) (fst st) (snd st).
Proof.
  intros Hinv batch st.
  apply remove_processed_spec; [done|by eapply select_batch_NoDup|].
  intros c Hc. by apply (select_batch_spec _ _ _ _ _ Hinv) in Hc as (? & _).
Qed.

(** The loop terminates: a non-empty batch shrinks [remaining]. *)
Lemma kahn_loop_fuel g fuel P remaining inDegree :
  DAGExecutor.kahn_inv g P remaining inDegree →
  (length remaining ≤ fuel)%nat →
  DAGExecutor.kahn_loop fuel g remaining inDegree ≠ None.
Proof.
  revert P remaining inDegree.
  induction fuel as [|fuel IH]; intros P remaining inDegree Hinv Hlen.
  - destruct remaining; [done|simpl in Hlen; lia].
  - destruct remaining as [|cid0 rem] eqn:Hrem; [done|]. rewrite <-Hrem in *.
    cbn [DAGExecutor.kahn_loop]. rewrite Hrem at 1.
    destruct (DAGExecutor.select_batch g remaining inDegree)
      as [|c batch] eqn:Hb; [done|].
    destruct (kahn_round _ _ _ _ Hinv) as [Hfst Hinv'].
    rewrite Hb in Hfst, Hinv'.
    assert (DAGExecutor.kahn_loop fuel g
              (fst (DAGExecutor.remove_processed g (c :: batch)
                      (remaining, inDegree)))
              (snd (DAGExecutor.remove_processed g (c :: batch)
                      (remaining, inDegree))) ≠ None) as Hrec.
    { eapply IH; [done|]. rewrite Hfst.
      assert (callId c ∈ remaining) as Hc.
      { eapply (select_batch_spec _ _ _ _ c Hinv). rewrite Hb. left. }
      assert (length (filter (λ y, y ∉ callId <$> c :: batch) remaining)
              < length remaining)%nat; [|lia].
      apply (length_filter_lt _ _ (callId c)); [done|].
      intros Hn. apply Hn. rewrite fmap_cons. left. }
    destruct (DAGExecutor.kahn_loop fuel g _ _) as [[]|]; done.
Qed.

(** What the loop returns respects the dependencies and covers
    [remaining]. *)
Lemma kahn_loop_scheduled g fuel P remaining inDegree batches :
  DAGExecutor.kahn_inv g P remaining inDegree →
  DAGExecutor.kahn_loop fuel g remaining inDegree = Some (Returned batches) →
  DAGExecutor.scheduled g P batches ∧
  (∀ cid, cid ∈ remaining ↔ cid ∈ callId <$> concat batches).
Proof.
  revert P remaining inDegree batches.
  induction fuel as [|fuel IH]; intros P remaining inDegree batches Hinv.
  - destruct remaining; [|done]. intros [= <-]. done.
  - destruct remaining as [|cid0 rem] eqn:Hrem.
    { intros [= <-]. done. }
    rewrite <-Hrem in *.
    cbn [DAGExecutor.kahn_loop]. rewrite Hrem at 1.
    destruct (DAGExecutor.select_batch g remaining inDegree)
      as [|c batch] eqn:Hb; [done|].
    destruct (kahn_round _ _ _ _ Hinv) as [Hfst Hinv'].
    rewrite Hb in Hfst, Hinv'.
    destruct (DAGExecutor.kahn_loop fuel g _ _) as [[rest|]|] eqn:Hloop;
      [|done|done].
    intros [= <-].
    destruct (IH _ _ _ _ Hinv' Hloop) as [Hsched Hcover].
    split.
    + cbn [DAGExecutor.scheduled]. split_and!; [|intros c' Hc'|done].
      * rewrite <-Hb. by eapply select_batch_NoDup.
      * apply (select_batch_deps _ _ _ _ _ Hinv). by rewrite Hb.
    + intros cid. rewrite concat_cons, fmap_app, elem_of_app, <-Hcover, Hfst.
      rewrite list_elem_of_filter.
      destruct (decide (cid ∈ callId <$> c :: batch)) as [Hin|Hnin].
      * split; [by left|intros _].
        apply list_elem_of_fmap in Hin as (c' & -> & Hc').
        rewrite <-Hb in Hc'.
        by apply (select_batch_spec _ _ _ _ _ Hinv) in Hc' as (? & _).
      * tauto.
Qed.

(** A set of identifiers each of which depends on a member of the set is
    never scheduled: the loop cannot empty [remaining]. *)
Lemma kahn_loop_trap g (S : string → Prop) fuel P remaining inDegree batches x :
  DAGExecutor.kahn_inv g P remaining inDegree →
  (∀ y, S y → y ∈ remaining ∧ ∃ z, DAGExecutor.depends_on g y z ∧ S z) →
  S x →
  DAGExecutor.kahn_loop fuel g remaining inDegree ≠ Some (Returned batches).
Proof.
  revert P remaining inDegree batches.
  induction fuel as [|fuel IH]; intros P remaining inDegree batches Hinv HS Hx.
  - destruct remaining; [|done].
    destruct (HS _ Hx) as [[]%elem_of_nil _].
  - destruct remaining as [|cid0 rem] eqn:Hrem.
    { destruct (HS _ Hx) as [[]%elem_of_nil _]. }
    rewrite <-Hrem in *.
    cbn [DAGExecutor.kahn_loop]. rewrite Hrem at 1.
    destruct (DAGExecutor.select_batch g remaining inDegree)
      as [|c batch] eqn:Hb; [done|].
    destruct (kahn_round _ _ _ _ Hinv) as [Hfst Hinv'].
    rewrite Hb in Hfst, Hinv'.
    destruct (DAGExecutor.kahn_loop fuel g _ _) as [[rest|]|] eqn:Hloop;
      [|done|done].
    exfalso. eapply (IH _ _ _ rest Hinv'); [|done|done].
    intros y Hy. destruct (HS _ Hy) as (Hyrem & z & Hyz & Hz).
    split; [|by eauto]. rewrite Hfst. apply list_elem_of_filter.
    split; [|done].
    intros (c' & Hcid & Hc')%list_elem_of_fmap. rewrite <-Hb in Hc'.
    destruct (select_batch_deps _ _ _ _ _ Hinv Hc') as (_ & _ & deps & Hd & Hsub).
    destruct Hyz as (deps' & Hd' & Hzin). rewrite Hcid, Hd in Hd'.
    injection Hd' as <-.
    destruct (HS _ Hz) as (Hzrem & _).
    destruct Hinv as [_ Hinv]. destruct (Hinv _ Hzrem) as [HzP _].
    set_solver.
Qed.

(** *** The graph built from a plan *)

Lemma build_actionIdToCallIds_spec (calls : list ActionCall) a y :
  y ∈ default [] (DAGExecutor.build_actionIdToCallIds calls !! a) ↔
  ∃ c, c ∈ calls ∧ actionId c = a ∧ callId c = y.
Proof.
  unfold DAGExecutor.build_actionIdToCallIds.
  assert (∀ (m : gmap string (list string)),
            y ∈ default []
                  (foldl (λ m call,
                            <[actionId call :=
                                default [] (m !! actionId call) ++ [callId call]]> m)
                         m calls !! a) ↔
            y ∈ default [] (m !! a) ∨
            ∃ c, c ∈ calls ∧ actionId c = a ∧ callId c = y) as Hgen.
  { induction calls as [|c calls IH]; intros m.
    - simpl. split; [by left|]. intros [?|(c & ?%elem_of_nil & _)]; done.
    - cbn [foldl]. rewrite IH.
      destruct (decide (actionId c = a)) as [<-|Hne].
      + rewrite lookup_insert_eq. simpl. rewrite elem_of_app.
        rewrite list_elem_of_singleton. split.
        * intros [[?| ->]|(c' & ? & ? & ?)]; [by left|right|right].
          -- exists c. split; [left|done].
          -- exists c'. split; [by right|done].
        * intros [?|(c' & [->|?]%elem_of_cons & ? & ?)];
            [by left; left|left; right; by symmetry|right; by exists c'].
      + rewrite lookup_insert_ne by done. split.
        * intros [?|(c' & ? & ? & ?)]; [by left|right].
          exists c'. split; [by right|done].
        * intros [?|(c' & [->|?]%elem_of_cons & ? & ?)];
            [by left|done|right; by exists c']. }
  rewrite Hgen, lookup_empty. simpl. rewrite elem_of_nil.
  split; [by intros [[]|?]|by right].
Qed.

Lemma callDeps_spec this (a2c : gmap string (list string)) (call : ActionCall) y :
  y ∈ DAGExecutor.callDeps this a2c call ↔
  y ∈ default [] (dependsOn call) ∨
  ∃ actionDep,
    actionDep ∈ default []
      (get (actionId call) (DAGExecutor.registry this) ≫= dependencies) ∧
    y ∈ default [] (a2c !! actionDep).
Proof.
  assert (∀ (l : list string) (s : gset string),
            y ∈ foldl (λ deps' depCallId, deps' ∪ {[depCallId]}) s l ↔
            y ∈ s ∨ y ∈ l) as Hinner.
  { induction l as [|x l IH]; intros s; cbn [foldl].
    - rewrite elem_of_nil. tauto.
    - rewrite IH, elem_of_cons. set_solver. }
  assert (∀ (actionDeps : list string) (s0 : gset string),
    y ∈ foldl (λ deps actionDep,
                 foldl (λ deps' depCallId, deps' ∪ {[depCallId]}) deps
                       (default [] (a2c !! actionDep))) s0 actionDeps ↔
    y ∈ s0 ∨ ∃ actionDep, actionDep ∈ actionDeps ∧
                          y ∈ default [] (a2c !! actionDep)) as Hgen.
  { induction actionDeps as [|d ds IH]; intros s0; cbn [foldl].
    - split; [by left|]. intros [?|(? & ?%elem_of_nil & _)]; done.
    - rewrite IH, Hinner. split.
      + intros [[?|?]|(d' & ? & ?)]; [by left|right|right].
        * exists d. split; [left|done].
        * exists d'. split; [by right|done].
      + intros [?|(d' & [->|?]%elem_of_cons & ?)];
          [by left; left|by left; right|right; by exists d']. }
  unfold DAGExecutor.callDeps. rewrite Hgen, elem_of_list_to_set. done.
Qed.

(** The three maps of the graph agree: under each call identifier of the
    plan they hold a call with that identifier, its dependency set and the
    size of that set; no other identifier has an entry. *)
Lemma build_graph_lookup this (calls : list ActionCall) cid :
  let g := DAGExecutor.build_graph this calls in
  let a2c := DAGExecutor.build_actionIdToCallIds calls in
  (cid ∈ callId <$> calls →
   ∃ c, c ∈ calls ∧ callId c = cid ∧
        DAGExecutor.callMap g !! cid = Some c ∧
        DAGExecutor.graph g !! cid = Some (DAGExecutor.callDeps this a2c c) ∧
        DAGExecutor.inDegree0 g !! cid =
          Some (Z.of_nat (size (DAGExecutor.callDeps this a2c c)))) ∧
  (cid ∉ callId <$> calls → DAGExecutor.graph g !! cid = None).
Proof.
  intros g a2c. unfold g, DAGExecutor.build_graph. fold a2c.
  generalize a2c. clear g a2c. intros a2c.
  set (step := λ (g : Graph) (call : ActionCall),
         {| DAGExecutor.callMap := <[callId call:=call]> (DAGExecutor.callMap g);
            DAGExecutor.graph :=
              <[callId call:=DAGExecutor.callDeps this a2c call]>
                (DAGExecutor.graph g);
            DAGExecutor.inDegree0 :=
              <[callId call:=Z.of_nat (size (DAGExecutor.callDeps this a2c call))]>
                (DAGExecutor.inDegree0 g) |}).
  assert (∀ (l : list ActionCall) (g0 : Graph),
    (cid ∈ callId <$> l →
     ∃ c, c ∈ l ∧ callId c = cid ∧
          DAGExecutor.callMap (foldl step g0 l) !! cid = Some c ∧
          DAGExecutor.graph (foldl step g0 l) !! cid =
            Some (DAGExecutor.callDeps this a2c c) ∧
          DAGExecutor.inDegree0 (foldl step g0 l) !! cid =
            Some (Z.of_nat (size (DAGExecutor.callDeps this a2c c)))) ∧
    (cid ∉ callId <$> l →
     DAGExecutor.callMap (foldl step g0 l) !! cid = DAGExecutor.callMap g0 !! cid ∧
     DAGExecutor.graph (foldl step g0 l) !! cid = DAGExecutor.graph g0 !! cid ∧
     DAGExecutor.inDegree0 (foldl step g0 l) !! cid =
       DAGExecutor.inDegree0 g0 !! cid)) as Hgen.
  { induction l as [|c l IH]; intros g0.
    - split; [by intros ?%elem_of_nil|done].
    - cbn [foldl]. destruct (IH (step g0 c)) as [IHin IHout].
      destruct (decide (cid ∈ callId <$> l)) as [Hin|Hnin].
      + split; [intros _|intros Hn; exfalso; apply Hn; rewrite fmap_cons; by right].
        destruct (IHin Hin) as (c' & ? & ?). exists c'. split; [by right|done].
      + destruct (IHout Hnin) as (-> & -> & ->). split.
        * rewrite fmap_cons. intros [Heq|?]%elem_of_cons; [|done].
          exists c. rewrite Heq. unfold step. simpl. rewrite !lookup_insert_eq.
          split; [left|done].
        * rewrite fmap_cons. intros [Hne _]%not_elem_of_cons.
          unfold step. simpl. by rewrite !lookup_insert_ne. }
  destruct (Hgen calls {| DAGExecutor.callMap := ∅; DAGExecutor.graph := ∅;
                          DAGExecutor.inDegree0 := ∅ |}) as [Hin Hout].
  split; [done|]. intros Hn. destruct (Hout Hn) as (_ & -> & _). done.
Qed.

Lemma build_graph_NoDup this (calls : list ActionCall) c :
  NoDup (callId <$> calls) → c ∈ calls →
  DAGExecutor.graph (DAGExecutor.build_graph this calls) !! callId c =
    Some (DAGExecutor.callDeps this
            (DAGExecutor.build_actionIdToCallIds calls) c).
Proof.
  intros Hnd Hc.
  destruct (build_graph_lookup this calls (callId c)) as [Hin _].
  destruct Hin as (c' & Hc' & Hid & _ & Hg & _).
  { apply list_elem_of_fmap. eauto. }
  assert (c' = c) as ->; [|done].
  apply list_elem_of_lookup in Hc as [i Hi], Hc' as [j Hj].
  assert (i = j) as ->.
  { eapply NoDup_lookup; [done| |]; rewrite list_lookup_fmap.
    - by rewrite Hi.
    - rewrite Hj. simpl. by rewrite Hid. }
  congruence.
Qed.

(** X12. In a plan with distinct call identifiers, the graph has exactly the
    edges that the specification describes: the explicit [dependsOn]
    references and, for each dependency of the call's action, every call
    of the plan that invokes that action. *)
Lemma depends_on_spec this (calls : list ActionCall) c y :
  NoDup (callId <$> calls) → c ∈ calls →
  DAGExecutor.depends_on (DAGExecutor.build_graph this calls) (callId c) y ↔
  y ∈ default [] (dependsOn c) ∨
  ∃ c', c' ∈ calls ∧ callId c' = y ∧
        actionId c' ∈ default []
          (get (actionId c) (DAGExecutor.registry this) ≫= dependencies).
Proof.
  intros Hnd Hc. unfold DAGExecutor.depends_on.
  rewrite (build_graph_NoDup _ _ _ Hnd Hc). split.
  - intros (deps & [= <-] & [?|(d & Hd & Hy)]%callDeps_spec); [by left|right].
    apply build_actionIdToCallIds_spec in Hy as (c' & ? & <- & ?). eauto.
  - intros Hy. eexists; split; [done|]. apply callDeps_spec.
    destruct Hy as [?|(c' & ? & ? & ?)]; [by left|right].
    exists (actionId c'). split; [done|].
    apply build_actionIdToCallIds_spec. eauto.
Qed.

Lemma kahn_inv_initial this (calls : list ActionCall) :
  let g := DAGExecutor.build_graph this calls in
  DAGExecutor.kahn_inv g ∅ (OrdSet.of_list (callId <$> calls))
    (DAGExecutor.inDegree0 g).
Proof.
  intros g. split; [apply OrdSet_NoDup_of_list|].
  intros cid Hcid. rewrite OrdSet_elem_of_of_list in Hcid.
  split; [set_solver|].
  destruct (build_graph_lookup this calls cid) as [Hin _].
  destruct (Hin Hcid) as (c & _ & Hid & Hc & Hg & Hd).
  exists c, (DAGExecutor.callDeps this
               (DAGExecutor.build_actionIdToCallIds calls) c).
  split_and!; try done. by rewrite difference_empty_L.
Qed.

(** *** buildExecutionOrder *)

Lemma kahn_loop_threw g fuel remaining inDegree e :
  DAGExecutor.kahn_loop fuel g remaining inDegree = Some (Threw e) →
  e = ThrownError (Error DAGExecutor.cycleMessage).
Proof.
  revert remaining inDegree.
  induction fuel as [|fuel IH]; intros remaining inDegree.
  - by destruct remaining.
  - destruct remaining as [|cid0 rem] eqn:Hrem; [done|]. rewrite <-Hrem.
    cbn [DAGExecutor.kahn_loop]. rewrite Hrem at 1.
    destruct (DAGExecutor.select_batch g remaining inDegree)
      as [|c batch] eqn:Hb; [by intros [= <-]|].
    destruct (DAGExecutor.kahn_loop fuel g _ _) as [[rest|e']|] eqn:Hloop;
      [done| |done].
    intros [= ->]. by eapply IH.
Qed.

(** The scheduler never runs out of fuel. *)
Lemma buildExecutionOrder_total this (calls : list ActionCall) :
  DAGExecutor.buildExecutionOrder_opt this calls =
    Some (DAGExecutor.buildExecutionOrder this calls).
Proof.
  unfold DAGExecutor.buildExecutionOrder.
  destruct (DAGExecutor.buildExecutionOrder_opt this calls) eqn:Hopt; [done|].
  exfalso. unfold DAGExecutor.buildExecutionOrder_opt in Hopt.
  destruct calls as [|c calls]; [done|].
  by eapply kahn_loop_fuel in Hopt; [|apply kahn_inv_initial|].
Qed.

Lemma buildExecutionOrder_scheduled this (calls : list ActionCall) batches :
  DAGExecutor.buildExecutionOrder this calls = Returned batches →
  DAGExecutor.scheduled (DAGExecutor.build_graph this calls) ∅ batches ∧
  (∀ cid, cid ∈ callId <$> calls ↔ cid ∈ callId <$> concat batches).
Proof.
  intros Hret. pose proof (buildExecutionOrder_total this calls) as Hopt.
  rewrite Hret in Hopt. unfold DAGExecutor.buildExecutionOrder_opt in Hopt.
  destruct calls as [|c calls]; [by injection Hopt as <-|].
  apply (kahn_loop_scheduled _ _ ∅) in Hopt as [Hs Hc];
    [|apply kahn_inv_initial].
  split; [done|]. intros cid. by rewrite <-Hc, OrdSet_elem_of_of_list.
Qed.

(** A cycle of the call-level graph makes the scheduler throw. *)
Lemma buildExecutionOrder_cycle this (calls : list ActionCall) x :
  tc (DAGExecutor.depends_on (DAGExecutor.build_graph this calls)) x x →
  DAGExecutor.buildExecutionOrder this calls =
    Threw (ThrownError (Error DAGExecutor.cycleMessage)).
Proof.
  intros Hcyc. set (g := DAGExecutor.build_graph this calls) in *.
  pose proof (buildExecutionOrder_total this calls) as Hopt.
  unfold DAGExecutor.buildExecutionOrder_opt in Hopt.
  assert (∀ y z, DAGExecutor.depends_on g y z → y ∈ callId <$> calls) as Hdom.
  { intros y z (deps & Hy & _).
    destruct (decide (y ∈ callId <$> calls)) as [?|Hn]; [done|].
    destruct (build_graph_lookup this calls y) as [_ Hout].
    fold g in Hout. rewrite (Hout Hn) in Hy. done. }
  destruct calls as [|c calls].
  { inversion Hcyc as [? ? Hstep|? z ? Hstep _]; subst;
      apply Hdom in Hstep; by apply elem_of_nil in Hstep. }
  destruct (DAGExecutor.buildExecutionOrder this (c :: calls))
    as [batches|e] eqn:Hres.
  - exfalso.
    eapply (kahn_loop_trap g
              (λ y, rtc (DAGExecutor.depends_on g) x y ∧
                    tc (DAGExecutor.depends_on g) y x)); [| |split; [done|exact Hcyc]|exact Hopt].
    + apply kahn_inv_initial.
    + intros y [Hxy Hyx]. inversion Hyx as [? ? Hstep|? z ? Hstep Hrest]; subst.
      * split; [eapply OrdSet_elem_of_of_list, Hdom, Hstep|].
        exists x. split; [done|]. split; [done|exact Hcyc].
      * split; [eapply OrdSet_elem_of_of_list, Hdom, Hstep|].
        exists z. split; [done|]. split; [|done].
        eapply rtc_r; done.
  - apply kahn_loop_threw in Hopt. by rewrite Hopt.
Qed.

(** *** Progress: an acyclic plan is scheduled *)

Lemma chain_tc (R : relation string) y walk z :
  DAGExecutor.chain R (y :: walk) → z ∈ walk → tc R y z.
Proof.
  revert y. induction walk as [|a walk IH]; intros y Hch Hz.
  - by apply elem_of_nil in Hz.
  - destruct Hch as [Hya Hch].
    apply elem_of_cons in Hz as [->|Hz]; [by apply tc_once|].
    eapply tc_l; [done|]. by apply IH.
Qed.

Lemma chain_tail (R : relation string) y walk :
  DAGExecutor.chain R (y :: walk) → DAGExecutor.chain R walk.
Proof. destruct walk as [|a walk]; [done|]. by intros [_ ?]. Qed.

(** A walk that visits an identifier twice closes a cycle. *)
Lemma chain_repeats (R : relation string) walk :
  DAGExecutor.chain R walk → ¬ NoDup walk → ∃ x, tc R x x.
Proof.
  induction walk as [|y walk IH]; intros Hch Hdup.
  - destruct Hdup. apply NoDup_nil_2.
  - destruct (decide (y ∈ walk)) as [Hy|Hy].
    + exists y. by eapply chain_tc.
    + apply IH; [by eapply chain_tail|].
      intros Hnd. apply Hdup. by apply NoDup_cons.
Qed.

Lemma walk_exists (R : relation string) (l : list string) n x :
  (∀ x, x ∈ l → ∃ y, y ∈ l ∧ R x y) →
  x ∈ l →
  ∃ walk, length walk = n ∧ (∀ y, y ∈ walk → y ∈ l) ∧
          DAGExecutor.chain R (x :: walk).
Proof.
  intros Hsucc. revert x. induction n as [|n IH]; intros x Hx.
  - exists []. split_and!; [done|by intros ? ?%elem_of_nil|done].
  - destruct (Hsucc _ Hx) as (y & Hy & Hxy).
    destruct (IH _ Hy) as (walk & Hlen & Hin & Hch).
    exists (y :: walk). split_and!; [simpl; lia| |done].
    intros z [->|?]%elem_of_cons; auto.
Qed.

(** In a finite set of identifiers each of which has a successor in the
    set, some identifier lies on a cycle. *)
Lemma no_sink_cycle (R : relation string) (l : list string) x :
  x ∈ l →
  (∀ x, x ∈ l → ∃ y, y ∈ l ∧ R x y) →
  ∃ z, tc R z z.
Proof.
  intros Hx Hsucc.
  destruct (walk_exists R l (length l) x Hsucc Hx) as (walk & Hlen & Hin & Hch).
  apply (chain_repeats R (x :: walk) Hch). intros Hnd.
  assert (x :: walk ⊆+ l) as Hsub%submseteq_length.
  { apply NoDup_submseteq; [done|]. intros y [->|?]%elem_of_cons; auto. }
  simpl in Hsub. lia.
Qed.

(** With no cycle and no dependency outside the plan, a round of the loop
    always finds a call of in-degree zero. *)
Lemma select_batch_progress g P remaining inDegree cid :
  DAGExecutor.kahn_inv g P remaining inDegree →
  DAGExecutor.acyclic g →
  (∀ x y, x ∈ remaining → DAGExecutor.depends_on g x y →
          y ∈ P ∨ y ∈ remaining) →
  cid ∈ remaining →
  DAGExecutor.select_batch g remaining inDegree ≠ [].
Proof.
  intros Hinv Hacyc Hclosed Hcid Hempty.
  destruct (no_sink_cycle (DAGExecutor.depends_on g) remaining cid Hcid)
    as [z Hz]; [|by apply Hacyc in Hz].
  intros x Hx.
  pose proof (select_batch_callIds _ _ _ _ Hinv) as Hids.
  rewrite Hempty in Hids. symmetry in Hids. rewrite fmap_nil in Hids.
  destruct Hinv as [_ Hinv].
  destruct (Hinv _ Hx) as (_ & c & deps & _ & _ & Hdeps & Hdeg).
  destruct (decide (size (deps ∖ P) = 0%nat)) as [Hz|Hnz].
  - exfalso. eapply (filter_nil_not_elem_of _ _ x Hids); [|done].
    cbn. by rewrite Hdeg, Hz.
  - assert (0 < size (deps ∖ P))%nat as [y Hy]%size_pos_elem_of by lia.
    assert (DAGExecutor.depends_on g x y) as Hxy.
    { exists deps. split; [done|set_solver]. }
    exists y. split; [|done].
    destruct (Hclosed _ _ Hx Hxy) as [?|?]; [set_solver|done].
Qed.

Lemma kahn_loop_acyclic g fuel P remaining inDegree e :
  DAGExecutor.kahn_inv g P remaining inDegree →
  DAGExecutor.acyclic g →
  (∀ x y, x ∈ remaining → DAGExecutor.depends_on g x y →
          y ∈ P ∨ y ∈ remaining) →
  DAGExecutor.kahn_loop fuel g remaining inDegree ≠ Some (Threw e).
Proof.
  revert P remaining inDegree e.
  induction fuel as [|fuel IH]; intros P remaining inDegree e Hinv Hacyc Hclosed.
  - by destruct remaining.
  - destruct remaining as [|cid0 rem] eqn:Hrem; [done|]. rewrite <-Hrem in *.
    cbn [DAGExecutor.kahn_loop]. rewrite Hrem at 1.
    pose proof (select_batch_progress _ _ _ _ cid0 Hinv Hacyc Hclosed) as Hprog.
    destruct (DAGExecutor.select_batch g remaining inDegree)
      as [|c batch] eqn:Hb; [exfalso; apply Hprog; [rewrite Hrem; left|done]|].
    destruct (kahn_round _ _ _ _ Hinv) as [Hfst Hinv'].
    rewrite Hb in Hfst, Hinv'.
    destruct (DAGExecutor.kahn_loop fuel g _ _) as [[rest|e']|] eqn:Hloop;
      [done| |done].
    exfalso. eapply (IH _ _ _ e' Hinv' Hacyc); [|exact Hloop].
    intros x y Hx Hxy. rewrite Hfst in Hx.
    apply list_elem_of_filter in Hx as [Hxb Hx].
    destruct (Hclosed _ _ Hx Hxy) as [?|Hy]; [left; set_solver|].
    destruct (decide (y ∈ callId <$> c :: batch)) as [Hyb|Hyb].
    + left. apply elem_of_union_r. by apply elem_of_list_to_set.
    + right. rewrite Hfst. by apply list_elem_of_filter.
Qed.

(** An acyclic plan whose dependencies are calls of the plan is split into
    batches that cover all its call identifiers. *)
Lemma buildExecutionOrder_acyclic this (calls : list ActionCall) :
  DAGExecutor.acyclic (DAGExecutor.build_graph this calls) →
  DAGExecutor.deps_in_plan (DAGExecutor.build_graph this calls) calls →
  ∃ batches,
    DAGExecutor.buildExecutionOrder this calls = Returned batches ∧
    DAGExecutor.scheduled (DAGExecutor.build_graph this calls) ∅ batches ∧
    ∀ cid, cid ∈ callId <$> calls ↔ cid ∈ callId <$> concat batches.
Proof.
  intros Hacyc Hin.
  destruct (DAGExecutor.buildExecutionOrder this calls) as [batches|e] eqn:Hres.
  { exists batches. split; [done|]. by apply buildExecutionOrder_scheduled. }
  exfalso. pose proof (buildExecutionOrder_total this calls) as Hopt.
  rewrite Hres in Hopt. unfold DAGExecutor.buildExecutionOrder_opt in Hopt.
  destruct calls as [|c calls]; [done|].
  eapply (kahn_loop_acyclic _ _ ∅); [apply kahn_inv_initial|done| |exact Hopt].
  intros x y _ Hxy. right. apply OrdSet_elem_of_of_list. by eapply Hin.
Qed.

End SchedulerFacts.

(** ** DAGExecutor: retry and backoff *)

Section RetryFacts.

Context {W Val AppCtx : Type}.

Local Abbreviation ActionDefinition := (@ActionDefinition W Val AppCtx).
Local Abbreviation ActionCall := (@ActionCall Val).
Local Abbreviation ResultEntry := (@ResultEntry Val).
Local Abbreviation ExecutionContext := (@ExecutionContext Val AppCtx).
Local Abbreviation Executor := (@DAGExecutor.t W Val AppCtx).
Local Abbreviation World := (@DAGExecutor.World W Val AppCtx).
Local Abbreviation Event := (@DAGExecutor.Event Val AppCtx).

Implicit Types (this : Executor) (call : ActionCall) (ctx : ExecutionContext)
  (w : World) (h : @Handler W Val AppCtx) (cfg rc : RetryConfig).

Lemma invoke_spec h call ctx w :
  DAGExecutor.invoke h call ctx w =
    (fst (h (args call) ctx (DAGExecutor.app w)),
     {| DAGExecutor.app := snd (h (args call) ctx (DAGExecutor.app w));
        DAGExecutor.trace :=
          DAGExecutor.trace w ++ [DAGExecutor.HandlerInvoked call ctx] |}).
Proof.
  unfold DAGExecutor.invoke. simpl.
  by destruct (h (args call) ctx (DAGExecutor.app w)).
Qed.

Lemma attempts_trace_0 cfg call ctx first :
  DAGExecutor.attempts_trace cfg call ctx first 0 =
    [DAGExecutor.HandlerInvoked call ctx].
Proof. done. Qed.

Lemma attempts_trace_S cfg call ctx first m :
  DAGExecutor.attempts_trace cfg call ctx first (S m) =
    DAGExecutor.HandlerInvoked call ctx
      :: DAGExecutor.Slept (DAGExecutor.calculateBackoff first cfg)
      :: DAGExecutor.attempts_trace cfg call ctx (first + 1) m.
Proof.
  unfold DAGExecutor.attempts_trace.
  rewrite seqZ_cons by lia. simpl.
  replace (Z.pred (Z.of_nat (S m))) with (Z.of_nat m) by lia.
  by replace (Z.succ first) with (first + 1) by lia.
Qed.

(** The events of a retry loop: attempts separated by backoff sleeps. *)
Lemma retry_loop_trace cfg h call ctx n attempt last w :
  Z.of_nat n = maxAttempts cfg - attempt →
  (0 < n)%nat →
  ∃ m, (m < n)%nat ∧
    DAGExecutor.trace
      (snd (DAGExecutor.retry_loop n attempt cfg h call ctx last w)) =
    DAGExecutor.trace w ++ DAGExecutor.attempts_trace cfg call ctx attempt m.
Proof.
  revert attempt last w.
  induction n as [|n IH]; intros attempt last w Hn Hpos; [lia|].
  simpl. rewrite invoke_spec.
  destruct (h (args call) ctx (DAGExecutor.app w)) as [[v|e] a]; simpl.
  - exists 0%nat. split; [lia|done].
  - case_bool_decide as Hlast; simpl.
    + exists 0%nat. split; [lia|done].
    + destruct (IH (attempt + 1) e
                  (DAGExecutor.sleep (DAGExecutor.calculateBackoff attempt cfg)
                     {| DAGExecutor.app := a;
                        DAGExecutor.trace :=
                          DAGExecutor.trace w ++
                          [DAGExecutor.HandlerInvoked call ctx] |}))
        as (m & Hm & Htr); [lia|lia|].
      exists (S m). split; [lia|]. rewrite Htr. simpl.
      rewrite attempts_trace_S, <-!app_assoc. done.
Qed.

Lemma sleeps_app (tr1 tr2 : list Event) :
  DAGExecutor.sleeps (tr1 ++ tr2) =
    DAGExecutor.sleeps tr1 ++ DAGExecutor.sleeps tr2.
Proof. apply omap_app. Qed.

Lemma invocations_app (tr1 tr2 : list Event) :
  DAGExecutor.invocations (tr1 ++ tr2) =
    DAGExecutor.invocations tr1 ++ DAGExecutor.invocations tr2.
Proof. apply omap_app. Qed.

Lemma compensations_app (tr1 tr2 : list Event) :
  DAGExecutor.compensations (tr1 ++ tr2) =
    DAGExecutor.compensations tr1 ++ DAGExecutor.compensations tr2.
Proof. apply omap_app. Qed.

Lemma sleeps_attempts_trace cfg call ctx first m :
  DAGExecutor.sleeps (DAGExecutor.attempts_trace cfg call ctx first m) =
    (λ k, DAGExecutor.calculateBackoff k cfg) <$> seqZ first (Z.of_nat m).
Proof.
  revert first. induction m as [|m IH]; intros first; [done|].
  rewrite attempts_trace_S.
  change (DAGExecutor.sleeps (?a :: ?b :: ?tr))
    with (DAGExecutor.calculateBackoff first cfg :: DAGExecutor.sleeps tr).
  rewrite IH, (seqZ_cons first) by lia. rewrite fmap_cons.
  replace (Z.pred (Z.of_nat (S m))) with (Z.of_nat m) by lia.
  by replace (Z.succ first) with (first + 1) by lia.
Qed.

Lemma invocations_attempts_trace cfg call ctx first m :
  DAGExecutor.invocations (DAGExecutor.attempts_trace cfg call ctx first m) =
    replicate (S m) call.
Proof.
  revert first. induction m as [|m IH]; intros first; [done|].
  rewrite attempts_trace_S.
  change (DAGExecutor.invocations (?a :: ?b :: ?tr))
    with (call :: DAGExecutor.invocations tr).
  by rewrite IH.
Qed.

Lemma executeWithRetry_retrying this call action ctx w h rc :
  handler action = Some h →
  DAGExecutor.retry_in_effect this action = Some rc →
  DAGExecutor.executeWithRetry this call action ctx w =
    DAGExecutor.retry_loop (Z.to_nat (maxAttempts rc)) 0 rc h call ctx
      ThrownUndefined w.
Proof.
  unfold DAGExecutor.executeWithRetry, DAGExecutor.retry_in_effect.
  intros -> Hrc.
  destruct (truthy _); [|done].
  destruct (retry action) as [rc'|]; [by injection Hrc as ->|].
  by rewrite Hrc.
Qed.

(** Products of safe integers are exact. *)
Lemma round_safe z : JsNumber.safe z → JsNumber.round z = JsNumber.Finite z.
Proof.
  unfold JsNumber.safe, JsNumber.round. intros Hz.
  by rewrite bool_decide_eq_true_2.
Qed.

Lemma calculateBackoff_linear k rc :
  backoff rc = linear →
  JsNumber.safe (delayMs rc * (k + 1)) →
  DAGExecutor.calculateBackoff k rc = JsNumber.Finite (delayMs rc * (k + 1)).
Proof.
  intros Hb Hsafe. unfold DAGExecutor.calculateBackoff. rewrite Hb.
  by apply round_safe.
Qed.

Lemma calculateBackoff_exponential k rc :
  backoff rc = exponential →
  k ≤ 1023 →
  JsNumber.safe (delayMs rc * 2 ^ k) →
  DAGExecutor.calculateBackoff k rc = JsNumber.Finite (delayMs rc * 2 ^ k).
Proof.
  intros Hb Hk Hsafe. unfold DAGExecutor.calculateBackoff, JsNumber.pow2.
  rewrite Hb, bool_decide_eq_true_2 by done. by apply round_safe.
Qed.

(** C8 (amended).  With a retry policy [rc] in effect that allows at least
    one attempt, the executor invokes the handler [m + 1] times for some
    [m < maxAttempts]; after the failed attempt of index [k] (from 0), for
    each [k < m], it computes the delay [calculateBackoff k rc] and sleeps
    for it before the retry.  That delay is [delayMs * (k + 1)] for linear
    backoff and [delayMs * 2 ^ k] for exponential backoff whenever the
    product is a safe integer (and [k ≤ 1023], the largest exponent of a
    double); beyond that range the product is rounded as a double. *)
Theorem retry_backoff_delays this call action ctx w h rc :
  handler action = Some h →
  DAGExecutor.retry_in_effect this action = Some rc →
  1 ≤ maxAttempts rc →
  (∃ m : nat,
    Z.of_nat m < maxAttempts rc ∧
    DAGExecutor.trace (snd (DAGExecutor.executeWithRetry this call action ctx w))
      = DAGExecutor.trace w ++ DAGExecutor.attempts_trace rc call ctx 0 m ∧
    DAGExecutor.invocations
      (DAGExecutor.trace (snd (DAGExecutor.executeWithRetry this call action ctx w)))
      = DAGExecutor.invocations (DAGExecutor.trace w) ++ replicate (S m) call ∧
    DAGExecutor.sleeps
      (DAGExecutor.trace (snd (DAGExecutor.executeWithRetry this call action ctx w)))
      = DAGExecutor.sleeps (DAGExecutor.trace w) ++
        ((λ k, DAGExecutor.calculateBackoff k rc) <$> seqZ 0 (Z.of_nat m))) ∧
  ∀ k, 0 ≤ k →
    match backoff rc with
    | linear =>
      JsNumber.safe (delayMs rc * (k + 1)) →
      DAGExecutor.calculateBackoff k rc =
        JsNumber.Finite (delayMs rc * (k + 1))
    | exponential =>
      k ≤ 1023 → JsNumber.safe (delayMs rc * 2 ^ k) →
      DAGExecutor.calculateBackoff k rc =
        JsNumber.Finite (delayMs rc * 2 ^ k)
    end.
Proof.
  intros Hh Hrc Hmax. split.
  - rewrite (executeWithRetry_retrying _ _ _ _ _ _ _ Hh Hrc).
    destruct (retry_loop_trace rc h call ctx (Z.to_nat (maxAttempts rc)) 0
                ThrownUndefined w) as (m & Hm & Htr); [lia|lia|].
    exists m. rewrite Htr. split_and!; [lia|done| |].
    + by rewrite invocations_app, invocations_attempts_trace.
    + by rewrite sleeps_app, sleeps_attempts_trace.
  - intros k Hk. destruct (backoff rc) eqn:Hb.
    + by apply calculateBackoff_linear.
    + by apply calculateBackoff_exponential.
Qed.

(** What [run_call] records for a call whose action has a handler. *)
Lemma run_call_handler this ctx call w action h :
  get (actionId call) (DAGExecutor.registry this) = Some action →
  handler action = Some h →
  DAGExecutor.run_call this ctx call w =
    match DAGExecutor.executeWithRetry this call action ctx w with
    | (Returned v, w') =>
        ((callId call, {| result := Some v; error := None |}), w')
    | (Threw t, w') =>
        ((callId call,
          {| result := None; error := error_of_thrown t |}), w')
    end.
Proof. unfold DAGExecutor.run_call. by intros -> ->. Qed.

(** With retry enabled and a policy of [maxAttempts = 3] in effect, for a
    call that runs alone: a handler whose three successive invocations
    reject is invoked exactly three times and the recorded entry carries
    what the third invocation rejected with, an error only if that value
    is truthy; a handler whose first two invocations reject and whose
    third resolves is invoked exactly three times and the recorded outcome
    is the success value. *)
Lemma retry_three_attempts this ctx call w action h rc e1 a1 e2 a2 :
  get (actionId call) (DAGExecutor.registry this) = Some action →
  handler action = Some h →
  DAGExecutor.retry_in_effect this action = Some rc →
  maxAttempts rc = 3 →
  h (args call) ctx (DAGExecutor.app w) = (inr e1, a1) →
  h (args call) ctx a1 = (inr e2, a2) →
  (∀ e3 a3,
     h (args call) ctx a2 = (inr e3, a3) →
     let '(entry, w') := DAGExecutor.run_call this ctx call w in
     entry = (callId call, {| result := None; error := error_of_thrown e3 |}) ∧
     DAGExecutor.app w' = a3 ∧
     DAGExecutor.invocations (DAGExecutor.trace w') =
       DAGExecutor.invocations (DAGExecutor.trace w) ++ [call; call; call]) ∧
  (∀ v a3,
     h (args call) ctx a2 = (inl v, a3) →
     let '(entry, w') := DAGExecutor.run_call this ctx call w in
     entry = (callId call, {| result := Some v; error := None |}) ∧
     DAGExecutor.app w' = a3 ∧
     DAGExecutor.invocations (DAGExecutor.trace w') =
       DAGExecutor.invocations (DAGExecutor.trace w) ++ [call; call; call]).
Proof.
  intros Hget Hh Hrc Hmax H1 H2.
  rewrite (run_call_handler _ _ _ _ _ _ Hget Hh).
  rewrite (executeWithRetry_retrying _ _ _ _ _ _ _ Hh Hrc), Hmax.
  change (Z.to_nat 3) with 3%nat.
  split; intros r3 a3 H3; cbn [DAGExecutor.retry_loop];
    rewrite invoke_spec, H1; cbn [fst snd];
    rewrite Hmax, bool_decide_eq_false_2 by lia;
    rewrite invoke_spec; cbn [DAGExecutor.sleep DAGExecutor.log DAGExecutor.app];
    rewrite H2; cbn [fst snd];
    rewrite bool_decide_eq_false_2 by lia;
    rewrite invoke_spec; cbn [DAGExecutor.sleep DAGExecutor.log DAGExecutor.app];
    rewrite H3; cbn [fst snd]; rewrite ?bool_decide_eq_true_2 by lia;
    (split_and!; [done|done|]);
    unfold DAGExecutor.sleep, DAGExecutor.log; cbn [DAGExecutor.trace];
    rewrite !invocations_app; cbn; rewrite ?app_nil_r, <-!app_assoc; done.
Qed.

End RetryFacts.

(** ** DAGExecutor: running batches *)

Section ExecutionFacts.

Context {W Val AppCtx : Type}.

(** The interleaving of the calls of a batch is arbitrary. *)
Context (sched : @DAGExecutor.Interleaving W Val AppCtx).

Local Abbreviation ActionDefinition := (@ActionDefinition W Val AppCtx).
Local Abbreviation ActionCall := (@ActionCall Val).
Local Abbreviation ResultEntry := (@ResultEntry Val).
Local Abbreviation ExecutionContext := (@ExecutionContext Val AppCtx).
Local Abbreviation Executor := (@DAGExecutor.t W Val AppCtx).
Local Abbreviation World := (@DAGExecutor.World W Val AppCtx).
Local Abbreviation Event := (@DAGExecutor.Event Val AppCtx).
Local Abbreviation Plan := (@DAGExecutor.Plan Val).
Local Abbreviation State := (@DAGExecutor.State Val).
Local Abbreviation Graph := (@DAGExecutor.Graph Val).

Implicit Types (this : Executor) (call c : ActionCall) (ctx : ExecutionContext)
  (w : World) (h : @Handler W Val AppCtx) (cfg rc : RetryConfig)
  (batch cs : list ActionCall) (batches : list (list ActionCall))
  (rs : list ResultEntry) (results : gmap string ResultEntry)
  (st : State) (plan : Plan) (context : AppCtx) (g : Graph)
  (P : gset string) (evs : list Event).

(** *** Events of a batch *)

Lemma retry_loop_events cfg h call ctx n attempt last w :
  ∃ evs,
    DAGExecutor.trace
      (snd (DAGExecutor.retry_loop n attempt cfg h call ctx last w)) =
      DAGExecutor.trace w ++ evs ∧
    Forall (DAGExecutor.batch_event [call] ctx) evs.
Proof.
  revert attempt last w. induction n as [|n IH]; intros attempt last w.
  - exists []. by rewrite app_nil_r.
  - cbn [DAGExecutor.retry_loop]. rewrite invoke_spec.
    assert (DAGExecutor.batch_event [call] ctx
              (DAGExecutor.HandlerInvoked call ctx)) as Hev.
    { left. exists call. split; [left|done]. }
    destruct (h (args call) ctx (DAGExecutor.app w)) as [[v|e] a]; cbn [fst snd].
    + exists [DAGExecutor.HandlerInvoked call ctx]. split; [done|].
      by apply Forall_singleton.
    + case_bool_decide.
      * exists [DAGExecutor.HandlerInvoked call ctx]. split; [done|].
        by apply Forall_singleton.
      * edestruct IH as (evs & -> & Hevs). unfold DAGExecutor.sleep, DAGExecutor.log.
        cbn [DAGExecutor.trace]. 
        eexists (_ :: _ :: evs). split; [by rewrite <-!app_assoc|].
        repeat apply Forall_cons_2; [done|right; eauto|done].
Qed.

Lemma run_call_events this ctx call w :
  (fst (DAGExecutor.run_call this ctx call w)).1 = callId call ∧
  ∃ evs,
    DAGExecutor.trace (snd (DAGExecutor.run_call this ctx call w)) =
      DAGExecutor.trace w ++ evs ∧
    Forall (DAGExecutor.batch_event [call] ctx) evs.
Proof.
  unfold DAGExecutor.run_call.
  destruct (get (actionId call) (DAGExecutor.registry this)) as [action|];
    [|split; [done|exists []; by rewrite app_nil_r]].
  destruct (handler action) as [h|] eqn:Hh;
    [|split; [done|exists []; by rewrite app_nil_r]].
  assert (∃ evs,
    DAGExecutor.trace
      (snd (DAGExecutor.executeWithRetry this call action ctx w)) =
      DAGExecutor.trace w ++ evs ∧
    Forall (DAGExecutor.batch_event [call] ctx) evs) as (evs & Htr & Hevs).
  { unfold DAGExecutor.executeWithRetry. rewrite Hh.
    destruct (if truthy _ then _ else _) as [rc|].
    - apply retry_loop_events.
    - rewrite invoke_spec.
      exists [DAGExecutor.HandlerInvoked call ctx]. split.
      + by destruct (h _ _ _) as [[?|?] ?].
      + apply Forall_singleton. left. exists call. split; [left|done]. }
  destruct (DAGExecutor.executeWithRetry this call action ctx w) as [[v|t] w'];
    (split; [done|by exists evs]).
Qed.

Lemma batch_event_mono batch batch' ctx (ev : Event) :
  (∀ c, c ∈ batch → c ∈ batch') →
  DAGExecutor.batch_event batch ctx ev →
  DAGExecutor.batch_event batch' ctx ev.
Proof. intros Hsub [(c & ? & ?)|?]; [left|right]; eauto. Qed.

(** *** The tasks of a batch *)

Lemma batch_event_invoked call ctx :
  DAGExecutor.batch_event [call] ctx (DAGExecutor.HandlerInvoked call ctx).
Proof. left. exists call. split; [left|done]. Qed.

Lemma step_events ctx call (task : @DAGExecutor.Task W Val AppCtx) w :
  ∃ evs,
    DAGExecutor.trace (snd (DAGExecutor.step ctx call task w)) =
      DAGExecutor.trace w ++ evs ∧
    Forall (DAGExecutor.batch_event [call] ctx) evs.
Proof.
  destruct task as [h|h rc [|n] attempt last|h rc n attempt e|entry];
    cbn [DAGExecutor.step].
  - rewrite invoke_spec.
    destruct (h (args call) ctx (DAGExecutor.app w)) as [[v|e] a]; cbn;
      (eexists [_]; split; [done|apply Forall_singleton, batch_event_invoked]).
  - exists []. by rewrite app_nil_r.
  - rewrite invoke_spec.
    destruct (h (args call) ctx (DAGExecutor.app w)) as [[v|e] a]; cbn;
      [|case_bool_decide]; cbn;
      (eexists [_]; split; [done|apply Forall_singleton, batch_event_invoked]).
  - cbn. eexists [_]. split; [done|]. apply Forall_singleton. right. eauto.
  - exists []. by rewrite app_nil_r.
Qed.

Lemma finish_events ctx call (task : @DAGExecutor.Task W Val AppCtx) w :
  ∃ evs,
    DAGExecutor.trace (snd (DAGExecutor.finish ctx call task w)) =
      DAGExecutor.trace w ++ evs ∧
    Forall (DAGExecutor.batch_event [call] ctx) evs.
Proof.
  destruct task as [h|h rc n attempt last|h rc n attempt e|entry];
    cbn [DAGExecutor.finish].
  - rewrite invoke_spec.
    destruct (h (args call) ctx (DAGExecutor.app w)) as [[v|e] a]; cbn;
      (eexists [_]; split; [done|apply Forall_singleton, batch_event_invoked]).
  - destruct (retry_loop_events rc h call ctx n attempt last w)
      as (evs & Htr & Hevs).
    destruct (DAGExecutor.retry_loop n attempt rc h call ctx last w)
      as [c w']. by exists evs.
  - destruct (retry_loop_events rc h call ctx n (attempt + 1) e
                (DAGExecutor.sleep (DAGExecutor.calculateBackoff attempt rc) w))
      as (evs & Htr & Hevs).
    destruct (DAGExecutor.retry_loop n (attempt + 1) rc h call ctx e _)
      as [c w']. cbn [snd] in *.
    eexists (_ :: evs). split; [by rewrite Htr; cbn; rewrite <-app_assoc|].
    apply Forall_cons. split; [right; eauto|done].
  - exists []. by rewrite app_nil_r.
Qed.

(** What a retry loop completes with: a value the handler resolved with,
    a value it rejected with, or, if no round was allowed, the error it
    was entered with. *)
Lemma retry_loop_outcome rc h call ctx n attempt last w :
  match fst (DAGExecutor.retry_loop n attempt rc h call ctx last w) with
  | Returned v => ∃ s, fst (h (args call) ctx s) = inl v
  | Threw e => rejection_of h call e ∨ (n = 0%nat ∧ e = last)
  end.
Proof.
  revert attempt last w. induction n as [|n IH]; intros attempt last w.
  - right. done.
  - cbn [DAGExecutor.retry_loop]. rewrite invoke_spec.
    destruct (h (args call) ctx (DAGExecutor.app w)) as [[v|e] a] eqn:Hh;
      cbn [fst snd].
    + exists (DAGExecutor.app w). by rewrite Hh.
    + assert (rejection_of h call e) as Hrej.
      { exists ctx, (DAGExecutor.app w). by rewrite Hh. }
      case_bool_decide; [by left|].
      specialize (IH (attempt + 1) e
                    (DAGExecutor.sleep (DAGExecutor.calculateBackoff attempt rc)
                       {| DAGExecutor.app := a;
                          DAGExecutor.trace :=
                            DAGExecutor.trace w ++
                            [DAGExecutor.HandlerInvoked call ctx] |})).
      destruct (fst (DAGExecutor.retry_loop n _ _ _ _ _ _ _)) as [v|e'];
        [done|]. destruct IH as [?|[_ ->]]; by left.
Qed.

Lemma init_task_ok this call : task_ok this call (DAGExecutor.init_task this call).
Proof.
  unfold DAGExecutor.init_task, task_ok, outcome_of.
  destruct (get (actionId call) (DAGExecutor.registry this)) as [a|] eqn:Hget;
    [|done].
  destruct (handler a) as [h|] eqn:Hh; [|done].
  fold (DAGExecutor.retry_in_effect this a).
  destruct (DAGExecutor.retry_in_effect this a) as [rc|] eqn:Hrc.
  - exists a. split_and!; [done|done|done|]. right. split; [done|lia].
  - by exists a.
Qed.

Lemma step_ok this ctx call (task : @DAGExecutor.Task W Val AppCtx) w :
  task_ok this call task →
  task_ok this call (fst (DAGExecutor.step ctx call task w)).
Proof.
  destruct task as [h|h rc [|n] attempt last|h rc n attempt e|entry];
    cbn [DAGExecutor.step task_ok].
  - intros (a & Hget & Hh). rewrite invoke_spec.
    destruct (h (args call) ctx (DAGExecutor.app w)) as [[v|e] s'] eqn:Hrun;
      cbn [fst task_ok]; unfold outcome_of; rewrite Hget, Hh; left;
      exists ctx, (DAGExecutor.app w); by rewrite Hrun.
  - intros (a & Hget & Hh & Hrc & Hlast). cbn [fst task_ok].
    unfold outcome_of. rewrite Hget, Hh.
    destruct Hlast as [(ctx' & s & Hrej)|[-> Hmax]].
    + left. exists ctx', s. by rewrite Hrej.
    + right. split; [done|]. exists rc. split; [done|by apply Hmax].
  - intros (a & Hget & Hh & Hrc & _). rewrite invoke_spec.
    destruct (h (args call) ctx (DAGExecutor.app w)) as [[v|e] s'] eqn:Hrun;
      cbn [fst snd].
    + cbn [task_ok]. unfold outcome_of. rewrite Hget, Hh. left.
      exists ctx, (DAGExecutor.app w). by rewrite Hrun.
    + assert (rejection_of h call e) as Hrej.
      { exists ctx, (DAGExecutor.app w). by rewrite Hrun. }
      case_bool_decide; cbn [fst task_ok].
      * unfold outcome_of. rewrite Hget, Hh. left.
        exists ctx, (DAGExecutor.app w). by rewrite Hrun.
      * by exists a.
  - intros (a & Hget & Hh & Hrc & Hrej). cbn [fst task_ok].
    exists a. split_and!; [done|done|done|by left].
  - done.
Qed.

Lemma finish_ok this ctx call (task : @DAGExecutor.Task W Val AppCtx) w :
  task_ok this call task →
  outcome_of this call (fst (DAGExecutor.finish ctx call task w)).
Proof.
  destruct task as [h|h rc n attempt last|h rc n attempt e|entry];
    cbn [DAGExecutor.finish task_ok].
  - intros (a & Hget & Hh). rewrite invoke_spec.
    destruct (h (args call) ctx (DAGExecutor.app w)) as [[v|e] s'] eqn:Hrun;
      cbn [fst]; unfold outcome_of; rewrite Hget, Hh; left;
      exists ctx, (DAGExecutor.app w); by rewrite Hrun.
  - intros (a & Hget & Hh & Hrc & Hlast).
    pose proof (retry_loop_outcome rc h call ctx n attempt last w) as Hout.
    destruct (DAGExecutor.retry_loop n attempt rc h call ctx last w)
      as [[v|e] w']; cbn [fst DAGExecutor.entry_of_completion] in *;
      unfold outcome_of; rewrite Hget, Hh.
    + destruct Hout as [s Hs]. left. exists ctx, s. by rewrite Hs.
    + destruct Hout as [(ctx' & s & Hrej)|[-> ->]].
      * left. exists ctx', s. by rewrite Hrej.
      * destruct Hlast as [(ctx' & s & Hrej)|[-> Hmax]].
        -- left. exists ctx', s. by rewrite Hrej.
        -- right. split; [done|]. exists rc. split; [done|by apply Hmax].
  - intros (a & Hget & Hh & Hrc & Hlast).
    pose proof (retry_loop_outcome rc h call ctx n (attempt + 1) e
                  (DAGExecutor.sleep (DAGExecutor.calculateBackoff attempt rc) w))
      as Hout.
    destruct (DAGExecutor.retry_loop n (attempt + 1) rc h call ctx e _)
      as [[v|e'] w']; cbn [fst DAGExecutor.entry_of_completion] in *;
      unfold outcome_of; rewrite Hget, Hh.
    + destruct Hout as [s Hs]. left. exists ctx, s. by rewrite Hs.
    + left. destruct Hout as [(ctx' & s & Hrej)|[_ ->]].
      * exists ctx', s. by rewrite Hrej.
      * destruct Hlast as (ctx' & s & Hrej). exists ctx', s. by rewrite Hrej.
  - done.
Qed.

(** A pool whose tasks are all in a state that the tasks of their calls
    go through. *)
Lemma interleave_spec this ctx turns
    (pool : list (ActionCall * @DAGExecutor.Task W Val AppCtx)) w :
  Forall (λ ct, task_ok this ct.1 ct.2) pool →
  (fst (DAGExecutor.interleave ctx turns pool w)).*1 = pool.*1 ∧
  Forall (λ ct, task_ok this ct.1 ct.2)
         (fst (DAGExecutor.interleave ctx turns pool w)) ∧
  ∃ evs,
    DAGExecutor.trace (snd (DAGExecutor.interleave ctx turns pool w)) =
      DAGExecutor.trace w ++ evs ∧
    Forall (DAGExecutor.batch_event pool.*1 ctx) evs.
Proof.
  revert pool w. induction turns as [|i turns IH]; intros pool w Hok.
  - split_and!; [done|done|]. exists []. by rewrite app_nil_r.
  - cbn [DAGExecutor.interleave].
    destruct (pool !! i) as [[call task]|] eqn:Hi; [|by apply IH].
    destruct (step_events ctx call task w) as (evs1 & Htr1 & Hevs1).
    pose proof (step_ok this ctx call task w) as Hstep.
    destruct (DAGExecutor.step ctx call task w) as [task' w1].
    cbn [fst snd] in *.
    assert ((<[i:=(call, task')]> pool).*1 = pool.*1) as Hkeys.
    { rewrite list_fmap_insert. cbn [fst]. apply list_insert_id.
      by rewrite list_lookup_fmap, Hi. }
    destruct (IH (<[i:=(call, task')]> pool) w1) as (Hfst & Hok' & evs2 & Htr2 & Hevs2).
    { apply Forall_insert; [done|]. apply Hstep.
      by apply (proj1 (Forall_lookup _ _) Hok _ _ Hi). }
    split_and!; [by rewrite Hfst|done|].
    exists (evs1 ++ evs2). split; [by rewrite Htr2, Htr1, app_assoc|].
    apply Forall_app. split.
    + eapply Forall_impl; [done|]. intros ev.
      apply batch_event_mono. intros ? ->%list_elem_of_singleton.
      apply list_elem_of_fmap. exists (call, task). split; [done|].
      by eapply list_elem_of_lookup_2.
    + by rewrite <-Hkeys.
Qed.

Lemma finish_all_spec this ctx (pool : list (ActionCall * @DAGExecutor.Task W Val AppCtx)) w :
  Forall (λ ct, task_ok this ct.1 ct.2) pool →
  ∃ rs evs,
    length rs = length pool ∧
    fst (DAGExecutor.finish_all ctx pool w) =
      DAGExecutor.entries_of pool.*1 rs ∧
    DAGExecutor.trace (snd (DAGExecutor.finish_all ctx pool w)) =
      DAGExecutor.trace w ++ evs ∧
    Forall (DAGExecutor.batch_event pool.*1 ctx) evs ∧
    Forall2 (outcome_of this) pool.*1 rs.
Proof.
  revert w. induction pool as [|[c task] pool IH]; intros w Hok.
  - exists [], []. rewrite app_nil_r. by split_and!.
  - apply Forall_cons in Hok as [Hc Hok]. cbn [fst snd] in Hc.
    cbn [DAGExecutor.finish_all].
    destruct (finish_events ctx c task w) as (evs1 & Htr1 & Hevs1).
    pose proof (finish_ok this ctx c task w Hc) as Hout.
    destruct (DAGExecutor.finish ctx c task w) as [r w1].
    cbn [fst snd] in *.
    destruct (IH w1 Hok) as (rs & evs2 & Hlen & Hrs & Htr2 & Hevs2 & Hall).
    destruct (DAGExecutor.finish_all ctx pool w1) as [es w2].
    cbn [fst snd] in *. subst es.
    exists (r :: rs), (evs1 ++ evs2). split_and!.
    + simpl. by rewrite Hlen.
    + done.
    + by rewrite Htr2, Htr1, app_assoc.
    + apply Forall_app. split.
      * eapply Forall_impl; [done|]. intros ev.
        apply batch_event_mono. intros ? ->%list_elem_of_singleton. left.
      * eapply Forall_impl; [done|]. intros ev.
        apply batch_event_mono. intros ? ?. by right.
    + by constructor.
Qed.

(** Whatever the interleaving, a batch yields one entry per call, in batch
    order, each an entry that running its call can record, and the events
    of the batch are invocations of its calls and sleeps. *)
Lemma run_calls_outcomes this ctx batch w :
  ∃ rs evs,
    length rs = length batch ∧
    fst (DAGExecutor.run_calls sched this ctx batch w) =
      DAGExecutor.entries_of batch rs ∧
    DAGExecutor.trace (snd (DAGExecutor.run_calls sched this ctx batch w)) =
      DAGExecutor.trace w ++ evs ∧
    Forall (DAGExecutor.batch_event batch ctx) evs ∧
    Forall2 (outcome_of this) batch rs.
Proof.
  unfold DAGExecutor.run_calls.
  set (pool := (λ call, (call, DAGExecutor.init_task this call)) <$> batch).
  assert (pool.*1 = batch) as Hkeys.
  { subst pool. rewrite <-list_fmap_compose. apply list_fmap_id. }
  assert (Forall (λ ct, task_ok this ct.1 ct.2) pool) as Hok.
  { subst pool. apply Forall_fmap, Forall_forall. intros c _.
    apply init_task_ok. }
  destruct (interleave_spec this ctx (sched batch ctx w) pool w Hok)
    as (Hfst & Hok' & evs1 & Htr1 & Hevs1).
  destruct (DAGExecutor.interleave ctx (sched batch ctx w) pool w)
    as [pool' w1]. cbn [fst snd] in *.
  destruct (finish_all_spec this ctx pool' w1 Hok')
    as (rs & evs2 & Hlen & Hrs & Htr2 & Hevs2 & Hall).
  rewrite Hfst, Hkeys in *.
  exists rs, (evs1 ++ evs2). split_and!.
  - rewrite Hlen. by rewrite <-(length_fmap fst pool'), Hfst.
  - done.
  - by rewrite Htr2, Htr1, app_assoc.
  - by apply Forall_app.
  - done.
Qed.

Lemma run_calls_spec this ctx batch w :
  ∃ rs evs,
    length rs = length batch ∧
    fst (DAGExecutor.run_calls sched this ctx batch w) =
      DAGExecutor.entries_of batch rs ∧
    DAGExecutor.trace (snd (DAGExecutor.run_calls sched this ctx batch w)) =
      DAGExecutor.trace w ++ evs ∧
    Forall (DAGExecutor.batch_event batch ctx) evs.
Proof.
  destruct (run_calls_outcomes this ctx batch w)
    as (rs & evs & ? & ? & ? & ? & _). by exists rs, evs.
Qed.

Lemma OrdMap_set_fresh {V} (k : string) (v : V) (m : list (string * V)) :
  k ∉ m.*1 → OrdMap.set k v m = m ++ [(k, v)].
Proof.
  induction m as [|[k' v'] m IH]; [done|].
  rewrite fmap_cons. intros [Hne Hk]%not_elem_of_cons. simpl in Hne.
  cbn [OrdMap.set]. rewrite bool_decide_eq_false_2 by done.
  by rewrite IH.
Qed.

Lemma OrdMap_of_distinct {V} (l m : list (string * V)) :
  NoDup (m.*1 ++ l.*1) →
  foldl (λ acc r, OrdMap.set r.1 r.2 acc) m l = m ++ l.
Proof.
  revert m. induction l as [|[k v] l IH]; intros m Hnd.
  - by rewrite app_nil_r.
  - cbn [foldl fst snd]. rewrite fmap_cons in Hnd. cbn [fst] in Hnd.
    rewrite OrdMap_set_fresh.
    + rewrite IH; [by rewrite <-app_assoc|].
      rewrite fmap_app, <-app_assoc. done.
    + apply NoDup_app in Hnd as (_ & Hdis & _). intros Hk.
      apply (Hdis _ Hk). left.
Qed.

Lemma entries_of_keys batch rs :
  length rs = length batch →
  (DAGExecutor.entries_of batch rs).*1 = callId <$> batch.
Proof.
  revert rs. induction batch as [|c batch IH]; intros [|r rs] Hlen;
    try done. simpl in *. rewrite IH by lia. done.
Qed.

(** The entries of [executeBatch] are those of its calls, in batch order. *)
Lemma executeBatch_spec this ctx batch w :
  NoDup (callId <$> batch) →
  ∃ rs evs,
    length rs = length batch ∧
    OrdMap.entries (fst (DAGExecutor.executeBatch sched this batch ctx w)) =
      DAGExecutor.entries_of batch rs ∧
    DAGExecutor.trace (snd (DAGExecutor.executeBatch sched this batch ctx w)) =
      DAGExecutor.trace w ++ evs ∧
    Forall (DAGExecutor.batch_event batch ctx) evs.
Proof.
  intros Hnd. unfold DAGExecutor.executeBatch.
  destruct (run_calls_spec this ctx batch w) as (rs & evs & Hlen & Hrs & Htr & Hevs).
  destruct (DAGExecutor.run_calls sched this ctx batch w) as [es w'].
  cbn [fst snd] in *. subst es. exists rs, evs. split_and!; try done.
  unfold OrdMap.entries, OrdMap.empty.
  rewrite OrdMap_of_distinct; [done|].
  by rewrite entries_of_keys.
Qed.

(** *** Events of a rollback *)

Lemma compensate_one_spec this results ctx w c :
  ∃ evs,
    DAGExecutor.trace (DAGExecutor.compensate_one this results ctx w c) =
      DAGExecutor.trace w ++ evs ∧
    Forall DAGExecutor.compensation_event evs ∧
    DAGExecutor.compensations evs =
      if DAGExecutor.compensable this results c
      then [(c, results !! callId c ≫= result)] else [].
Proof.
  unfold DAGExecutor.compensate_one, DAGExecutor.compensable.
  destruct (DAGExecutor.compensation_handler this c) as [comp|];
    [|exists []; by rewrite app_nil_r].
  rewrite bool_decide_eq_true_2 by done. cbn [andb].
  destruct (results !! callId c) as [cr|]; [|exists []; by rewrite app_nil_r].
  destruct (error cr) as [e|] eqn:Herr.
  { rewrite bool_decide_eq_false_2 by done. exists []. by rewrite app_nil_r. }
  rewrite bool_decide_eq_true_2 by done. cbn [DAGExecutor.log DAGExecutor.app
    DAGExecutor.trace].
  destruct (comp _ _ _ _) as [[e|] a]; cbn [DAGExecutor.log DAGExecutor.trace].
  - eexists [_; _]. split; [by rewrite <-app_assoc|].
    split; [by repeat constructor|done].
  - eexists [_]. split; [done|]. split; [by repeat constructor|done].
Qed.

Lemma compensate_spec this executed results ctx w :
  ∃ evs,
    DAGExecutor.trace (DAGExecutor.compensate this executed results ctx w) =
      DAGExecutor.trace w ++ evs ∧
    Forall DAGExecutor.compensation_event evs ∧
    DAGExecutor.compensations evs =
      DAGExecutor.owed_compensations this results executed.
Proof.
  unfold DAGExecutor.compensate, DAGExecutor.owed_compensations.
  generalize (reverse executed) as l. intros l. revert w.
  induction l as [|c l IH]; intros w.
  - exists []. by rewrite app_nil_r.
  - cbn [foldl].
    destruct (compensate_one_spec this results ctx w c) as (evs1 & Htr1 & Hev1 & Hc1).
    destruct (IH (DAGExecutor.compensate_one this results ctx w c))
      as (evs2 & Htr2 & Hev2 & Hc2).
    exists (evs1 ++ evs2). split_and!.
    + by rewrite Htr2, Htr1, app_assoc.
    + by apply Forall_app.
    + rewrite compensations_app, Hc1, Hc2, filter_cons.
      destruct (DAGExecutor.compensable this results c).
      * by rewrite decide_True.
      * by rewrite decide_False.
Qed.

(** [compensate] is the rollback of the compensations owed. *)
Lemma compensate_roll_back this executed results ctx w :
  DAGExecutor.compensate this executed results ctx w =
    DAGExecutor.roll_back this ctx
      (DAGExecutor.owed_compensations this results executed) w.
Proof.
  unfold DAGExecutor.compensate, DAGExecutor.owed_compensations.
  generalize (reverse executed) as l. intros l. revert w.
  induction l as [|c l IH]; intros w; [done|].
  cbn [foldl]. rewrite IH, filter_cons. clear IH.
  unfold DAGExecutor.compensate_one, DAGExecutor.compensable.
  destruct (DAGExecutor.compensation_handler this c) as [comp|] eqn:Hcomp.
  - rewrite bool_decide_eq_true_2 by done. cbn [andb].
    destruct (results !! callId c) as [cr|] eqn:Hcr;
      [|by rewrite decide_False].
    destruct (error cr) as [e|] eqn:Herr.
    + rewrite bool_decide_eq_false_2 by done. by rewrite decide_False.
    + rewrite bool_decide_eq_true_2 by done. rewrite decide_True by done.
      rewrite fmap_cons. cbn [DAGExecutor.roll_back]. rewrite Hcomp, Hcr.
      cbn [mbind option_bind DAGExecutor.log DAGExecutor.app
             DAGExecutor.trace].
      by destruct (comp _ _ _ _) as [[e|] a].
  - rewrite bool_decide_eq_false_2 by (by intros [? ?]).
    by rewrite decide_False.
Qed.

(** *** Merging the results of a batch *)

Lemma find_call batch c :
  NoDup (callId <$> batch) → c ∈ batch →
  find (λ c', bool_decide (callId c' = callId c)) batch = Some c.
Proof.
  induction batch as [|c0 batch IH]; [by intros _ ?%elem_of_nil|].
  rewrite fmap_cons. intros [Hc0 Hnd]%NoDup_cons Hin. cbn [find].
  case_bool_decide as Heq.
  - apply elem_of_cons in Hin as [->|Hin]; [done|].
    exfalso. apply Hc0. rewrite Heq. apply list_elem_of_fmap. eauto.
  - apply elem_of_cons in Hin as [->|Hin]; [done|]. by apply IH.
Qed.

Lemma advance_cons st c cs r rs :
  DAGExecutor.advance
    {| DAGExecutor.st_results := <[callId c:=r]> (DAGExecutor.st_results st);
       DAGExecutor.st_executedCalls := DAGExecutor.st_executedCalls st ++ [c];
       DAGExecutor.st_succeeded := DAGExecutor.st_succeeded st + 1;
       DAGExecutor.st_failed := DAGExecutor.st_failed st |} cs rs =
  DAGExecutor.advance st (c :: cs) (r :: rs).
Proof.
  unfold DAGExecutor.advance. cbn. f_equal; [by rewrite <-app_assoc|lia].
Qed.

Lemma merge_all_succeeded this plan context batch cs rs st w :
  NoDup (callId <$> batch) →
  (∀ c, c ∈ cs → c ∈ batch) →
  length rs = length cs →
  Forall (λ r, error r = None) rs →
  DAGExecutor.merge this plan context batch (DAGExecutor.entries_of cs rs) st w
    = (inl (DAGExecutor.advance st cs rs), w).
Proof.
  intros Hnd. revert rs st.
  induction cs as [|c cs IH]; intros [|r rs] st Hin Hlen Hall; try done.
  - cbn. destruct st. unfold DAGExecutor.advance. cbn.
    rewrite app_nil_r. change (Z.of_nat 0) with 0. by rewrite Z.add_0_r.
  - apply Forall_cons in Hall as [Hr Hall].
    cbn [DAGExecutor.entries_of zip_with DAGExecutor.merge]. rewrite Hr.
    rewrite (find_call _ _ Hnd) by (apply Hin; left). cbn [option_list].
    fold (DAGExecutor.entries_of cs rs).
    rewrite IH; [by rewrite advance_cons| |simpl in Hlen; lia|done].
    intros c' ?. apply Hin. by right.
Qed.

Lemma fail_result_single st c r :
  DAGExecutor.fail_result st [c] [r] =
    {| DAGExecutor.succeeded := DAGExecutor.st_succeeded st;
       DAGExecutor.failed := DAGExecutor.st_failed st + 1;
       DAGExecutor.results := <[callId c:=r]> (DAGExecutor.st_results st) |}.
Proof. unfold DAGExecutor.fail_result. cbn. f_equal. lia. Qed.

Lemma fail_result_cons st c cs r rs :
  DAGExecutor.fail_result
    {| DAGExecutor.st_results := <[callId c:=r]> (DAGExecutor.st_results st);
       DAGExecutor.st_executedCalls := DAGExecutor.st_executedCalls st ++ [c];
       DAGExecutor.st_succeeded := DAGExecutor.st_succeeded st + 1;
       DAGExecutor.st_failed := DAGExecutor.st_failed st |} cs rs =
  DAGExecutor.fail_result st (c :: cs) (r :: rs).
Proof. unfold DAGExecutor.fail_result. cbn. f_equal. lia. Qed.

Lemma merge_first_failure this plan context batch cs1 c cs2 rs1 r rs2 st w :
  NoDup (callId <$> batch) →
  (∀ c', c' ∈ cs1 ++ c :: cs2 → c' ∈ batch) →
  length rs1 = length cs1 →
  Forall (λ r, error r = None) rs1 →
  is_Some (error r) →
  DAGExecutor.merge this plan context batch
    (DAGExecutor.entries_of (cs1 ++ c :: cs2) (rs1 ++ r :: rs2)) st w =
  (inr (DAGExecutor.fail_result st (cs1 ++ [c]) (rs1 ++ [r])),
   if truthy (enableCompensation (DAGExecutor.config this))
   then DAGExecutor.compensate this
          (DAGExecutor.st_executedCalls st ++ cs1 ++ [c])
          (DAGExecutor.results
             (DAGExecutor.fail_result st (cs1 ++ [c]) (rs1 ++ [r])))
          (DAGExecutor.mk_ctx plan context
             (DAGExecutor.results
                (DAGExecutor.fail_result st (cs1 ++ [c]) (rs1 ++ [r]))))
          w
   else w).
Proof.
  intros Hnd. revert rs1 st.
  induction cs1 as [|c1 cs1 IH]; intros [|r1 rs1] st Hin Hlen Hall [e He];
    try done.
  - cbn [app DAGExecutor.entries_of zip_with DAGExecutor.merge]. rewrite He.
    rewrite (find_call _ _ Hnd) by (apply Hin; left). cbn [option_list].
    by rewrite fail_result_single.
  - apply Forall_cons in Hall as [Hr Hall].
    cbn [app DAGExecutor.entries_of zip_with DAGExecutor.merge]. rewrite Hr.
    rewrite (find_call _ _ Hnd) by (apply Hin; left). cbn [option_list].
    fold (DAGExecutor.entries_of (cs1 ++ c :: cs2) (rs1 ++ r :: rs2)).
    rewrite IH; [| |simpl in Hlen; lia|done|by eexists].
    + rewrite fail_result_cons. cbn [DAGExecutor.st_executedCalls].
      by rewrite <-(app_assoc _ [c1]).
    + intros c' ?. apply Hin. by right.
Qed.

(** The outcomes of a batch either all succeeded or have a first failure. *)
Lemma first_failure cs rs :
  length rs = length cs →
  Forall (λ r : ResultEntry, error r = None) rs ∨
  ∃ cs1 c cs2 rs1 r rs2,
    cs = cs1 ++ c :: cs2 ∧ rs = rs1 ++ r :: rs2 ∧
    length rs1 = length cs1 ∧
    Forall (λ r : ResultEntry, error r = None) rs1 ∧ is_Some (error r).
Proof.
  revert rs. induction cs as [|c cs IH]; intros [|r rs] Hlen; try done.
  - by left.
  - destruct (error r) as [e|] eqn:He.
    + right. exists [], c, cs, [], r, rs. split_and!; rewrite ?He; done.
    + assert (length rs = length cs) as Hlen' by (simpl in Hlen; lia).
      destruct (IH rs Hlen')
        as [Hall|(cs1 & c' & cs2 & rs1 & r' & rs2 & -> & -> & Hl & Hall & Hr)].
      * left. by apply Forall_cons.
      * right. exists (c :: cs1), c', cs2, (r :: rs1), r', rs2.
        split_and!; try done; try (by apply Forall_cons). simpl; lia.
Qed.

(** One round of [execute]'s loop over the batches. *)
Lemma run_batches_cons this plan context batch batches st w :
  NoDup (callId <$> batch) →
  ∃ rs evs w1,
    length rs = length batch ∧
    DAGExecutor.trace w1 = DAGExecutor.trace w ++ evs ∧
    Forall (DAGExecutor.batch_event batch
              (DAGExecutor.mk_ctx plan context (DAGExecutor.st_results st)))
           evs ∧
    ((Forall (λ r, error r = None) rs ∧
      DAGExecutor.run_batches sched this plan context (batch :: batches) st w =
        DAGExecutor.run_batches sched this plan context batches
          (DAGExecutor.advance st batch rs) w1) ∨
     (∃ cs1 c cs2 rs1 r rs2,
        batch = cs1 ++ c :: cs2 ∧ rs = rs1 ++ r :: rs2 ∧
        length rs1 = length cs1 ∧
        Forall (λ r, error r = None) rs1 ∧ is_Some (error r) ∧
        DAGExecutor.run_batches sched this plan context (batch :: batches) st w =
          (DAGExecutor.fail_result st (cs1 ++ [c]) (rs1 ++ [r]),
           if truthy (enableCompensation (DAGExecutor.config this))
           then DAGExecutor.compensate this
                  (DAGExecutor.st_executedCalls st ++ cs1 ++ [c])
                  (DAGExecutor.results
                     (DAGExecutor.fail_result st (cs1 ++ [c]) (rs1 ++ [r])))
                  (DAGExecutor.mk_ctx plan context
                     (DAGExecutor.results
                        (DAGExecutor.fail_result st (cs1 ++ [c]) (rs1 ++ [r]))))
                  w1
           else w1))).
Proof.
  intros Hnd. cbn [DAGExecutor.run_batches].
  destruct (executeBatch_spec this
              (DAGExecutor.mk_ctx plan context (DAGExecutor.st_results st))
              batch w Hnd) as (rs & evs & Hlen & Hes & Htr & Hevs).
  destruct (DAGExecutor.executeBatch sched this batch _ w) as [batchResults w1].
  cbn [fst snd] in *. rewrite Hes.
  exists rs, evs, w1. split_and!; try done.
  destruct (first_failure batch rs Hlen)
    as [Hall|(cs1 & c & cs2 & rs1 & r & rs2 & -> & -> & Hl & Hall & Hr)].
  - left. split; [done|]. by rewrite merge_all_succeeded.
  - right. exists cs1, c, cs2, rs1, r, rs2. split_and!; try done.
    by rewrite merge_first_failure.
Qed.

(** The same round with compensation switched off: the batch runs in the
    same way and the same outcomes are merged, but a failure does not
    start a rollback. *)
Lemma run_batches_cons_rollback this plan context batch batches st w :
  NoDup (callId <$> batch) →
  let this0 := DAGExecutor.without_compensation this in
  ∃ rs evs w1,
    length rs = length batch ∧
    DAGExecutor.trace w1 = DAGExecutor.trace w ++ evs ∧
    Forall (DAGExecutor.batch_event batch
              (DAGExecutor.mk_ctx plan context (DAGExecutor.st_results st)))
           evs ∧
    ((Forall (λ r, error r = None) rs ∧
      DAGExecutor.run_batches sched this plan context (batch :: batches) st w =
        DAGExecutor.run_batches sched this plan context batches
          (DAGExecutor.advance st batch rs) w1 ∧
      DAGExecutor.run_batches sched this0 plan context (batch :: batches) st w =
        DAGExecutor.run_batches sched this0 plan context batches
          (DAGExecutor.advance st batch rs) w1) ∨
     (∃ cs1 c cs2 rs1 r rs2,
        batch = cs1 ++ c :: cs2 ∧ rs = rs1 ++ r :: rs2 ∧
        length rs1 = length cs1 ∧
        Forall (λ r, error r = None) rs1 ∧ is_Some (error r) ∧
        DAGExecutor.run_batches sched this plan context (batch :: batches) st w =
          (DAGExecutor.fail_result st (cs1 ++ [c]) (rs1 ++ [r]),
           if truthy (enableCompensation (DAGExecutor.config this))
           then DAGExecutor.compensate this
                  (DAGExecutor.st_executedCalls st ++ cs1 ++ [c])
                  (DAGExecutor.results
                     (DAGExecutor.fail_result st (cs1 ++ [c]) (rs1 ++ [r])))
                  (DAGExecutor.mk_ctx plan context
                     (DAGExecutor.results
                        (DAGExecutor.fail_result st (cs1 ++ [c]) (rs1 ++ [r]))))
                  w1
           else w1) ∧
        DAGExecutor.run_batches sched this0 plan context (batch :: batches) st w =
          (DAGExecutor.fail_result st (cs1 ++ [c]) (rs1 ++ [r]), w1))).
Proof.
  intros Hnd this0. cbn [DAGExecutor.run_batches].
  change (DAGExecutor.executeBatch sched this0 batch)
    with (DAGExecutor.executeBatch sched this batch).
  destruct (executeBatch_spec this
              (DAGExecutor.mk_ctx plan context (DAGExecutor.st_results st))
              batch w Hnd) as (rs & evs & Hlen & Hes & Htr & Hevs).
  destruct (DAGExecutor.executeBatch sched this batch _ w) as [batchResults w1].
  cbn [fst snd] in *. rewrite Hes.
  exists rs, evs, w1. split_and!; try done.
  destruct (first_failure batch rs Hlen)
    as [Hall|(cs1 & c & cs2 & rs1 & r & rs2 & -> & -> & Hl & Hall & Hr)].
  - left. split; [done|]. by rewrite !merge_all_succeeded.
  - right. exists cs1, c, cs2, rs1, r, rs2. split_and!; try done.
    + by rewrite merge_first_failure.
    + by rewrite merge_first_failure.
Qed.

End ExecutionFacts.

(** ** DAGExecutor: execute *)

Section ExecuteFacts.

Context {W Val AppCtx : Type}.

(** The interleaving of the calls of a batch is arbitrary. *)
Context (sched : @DAGExecutor.Interleaving W Val AppCtx).

Local Abbreviation ActionDefinition := (@ActionDefinition W Val AppCtx).
Local Abbreviation ActionCall := (@ActionCall Val).
Local Abbreviation ResultEntry := (@ResultEntry Val).
Local Abbreviation ExecutionContext := (@ExecutionContext Val AppCtx).
Local Abbreviation Executor := (@DAGExecutor.t W Val AppCtx).
Local Abbreviation World := (@DAGExecutor.World W Val AppCtx).
Local Abbreviation Event := (@DAGExecutor.Event Val AppCtx).
Local Abbreviation Plan := (@DAGExecutor.Plan Val).
Local Abbreviation State := (@DAGExecutor.State Val).
Local Abbreviation Graph := (@DAGExecutor.Graph Val).
Local Abbreviation ExecutionResult := (@DAGExecutor.ExecutionResult Val).

Implicit Types (this : Executor) (call c : ActionCall) (ctx : ExecutionContext)
  (w : World) (batch cs : list ActionCall) (batches : list (list ActionCall))
  (rs : list ResultEntry) (results : gmap string ResultEntry)
  (st : State) (plan : Plan) (context : AppCtx) (g : Graph)
  (P : gset string) (evs : list Event) (res : ExecutionResult).

(** *** Recording entries *)

Lemma record_all_snoc (es : list (string * ResultEntry)) e results :
  DAGExecutor.record_all (es ++ [e]) results =
    <[e.1 := e.2]> (DAGExecutor.record_all es results).
Proof. unfold DAGExecutor.record_all. by rewrite foldl_app. Qed.

Lemma dom_record_all (es : list (string * ResultEntry)) results :
  dom (DAGExecutor.record_all es results) = dom results ∪ list_to_set es.*1.
Proof.
  unfold DAGExecutor.record_all. revert results.
  induction es as [|[k v] es IH]; intros results; cbn [foldl].
  - set_solver.
  - rewrite IH, dom_insert_L, fmap_cons, list_to_set_cons. set_solver.
Qed.

Lemma record_all_lookup (es : list (string * ResultEntry)) results k e :
  DAGExecutor.record_all es results !! k = Some e →
  e ∈ es.*2 ∨ results !! k = Some e.
Proof.
  unfold DAGExecutor.record_all. revert results.
  induction es as [|[k' v] es IH]; intros results; cbn [foldl].
  - by right.
  - intros [?|Hl]%IH; [left; rewrite fmap_cons; by right|].
    destruct (decide (k' = k)) as [->|Hne]; cbn [fst snd] in Hl.
    + rewrite lookup_insert_eq in Hl. injection Hl as ->.
      left. rewrite fmap_cons. left.
    + rewrite lookup_insert_ne in Hl by done. by right.
Qed.

Lemma entries_of_app cs1 cs2 rs1 rs2 :
  length rs1 = length cs1 →
  DAGExecutor.entries_of (cs1 ++ cs2) (rs1 ++ rs2) =
    DAGExecutor.entries_of cs1 rs1 ++ DAGExecutor.entries_of cs2 rs2.
Proof. intros Hlen. unfold DAGExecutor.entries_of. by rewrite zip_with_app. Qed.

Lemma entries_of_snoc cs1 c rs1 r :
  length rs1 = length cs1 →
  DAGExecutor.entries_of (cs1 ++ [c]) (rs1 ++ [r]) =
    DAGExecutor.entries_of cs1 rs1 ++ [(callId c, r)].
Proof. intros Hlen. by rewrite entries_of_app. Qed.

Lemma entries_of_values cs rs :
  length rs = length cs → (DAGExecutor.entries_of cs rs).*2 = rs.
Proof.
  revert rs. induction cs as [|c cs IH]; intros [|r rs] Hlen; try done.
  simpl in *. rewrite IH by lia. done.
Qed.

Lemma all_succeeded_record cs rs results :
  length rs = length cs →
  Forall (λ r, error r = None) rs →
  DAGExecutor.all_succeeded results →
  DAGExecutor.all_succeeded
    (DAGExecutor.record_all (DAGExecutor.entries_of cs rs) results).
Proof.
  intros Hlen Hall Hres k e [He|He]%record_all_lookup; [|by eapply Hres].
  rewrite entries_of_values in He by done.
  by eapply Forall_forall in Hall.
Qed.

(** *** Counting outcomes *)

Lemma counts_ok_insert_success (s f : Z) results k (r : ResultEntry) :
  results !! k = None → error r = None →
  DAGExecutor.counts_ok s f results →
  DAGExecutor.counts_ok (s + 1) f (<[k:=r]> results).
Proof.
  unfold DAGExecutor.counts_ok, DAGExecutor.count_succeeded,
    DAGExecutor.count_failed.
  intros Hk Hr (Hs & Hf & Hsum).
  rewrite map_filter_insert_True by done.
  rewrite map_filter_insert_False by (cbn; rewrite Hr; by intros [? ?]).
  rewrite delete_id by done.
  rewrite !map_size_insert_None; [lia|done|].
  by rewrite map_lookup_filter_None_2; [|left].
Qed.

Lemma counts_ok_insert_failure (s f : Z) results k (r : ResultEntry) :
  results !! k = None → is_Some (error r) →
  DAGExecutor.counts_ok s f results →
  DAGExecutor.counts_ok s (f + 1) (<[k:=r]> results).
Proof.
  unfold DAGExecutor.counts_ok, DAGExecutor.count_succeeded,
    DAGExecutor.count_failed.
  intros Hk [e Hr] (Hs & Hf & Hsum).
  rewrite (map_filter_insert_True (λ kv, is_Some (error kv.2)))
    by (cbn; by rewrite Hr).
  rewrite map_filter_insert_False by (cbn; by rewrite Hr).
  rewrite delete_id by done.
  rewrite !map_size_insert_None; [lia|done|].
  by rewrite map_lookup_filter_None_2; [|left].
Qed.

Lemma counts_ok_record_successes (s f : Z) results cs rs :
  length rs = length cs →
  Forall (λ r, error r = None) rs →
  NoDup (callId <$> cs) →
  (∀ c, c ∈ cs → callId c ∉ dom results) →
  DAGExecutor.counts_ok s f results →
  DAGExecutor.counts_ok (s + Z.of_nat (length cs)) f
    (DAGExecutor.record_all (DAGExecutor.entries_of cs rs) results).
Proof.
  revert rs s results.
  induction cs as [|c cs IH]; intros [|r rs] s results Hlen Hall Hnd Hfresh Hok;
    try done.
  - cbn. by rewrite Z.add_0_r.
  - apply Forall_cons in Hall as [Hr Hall].
    rewrite fmap_cons in Hnd. apply NoDup_cons in Hnd as [Hc Hnd].
    cbn [DAGExecutor.entries_of zip_with DAGExecutor.record_all foldl fst snd].
    fold (DAGExecutor.entries_of cs rs).
    fold (DAGExecutor.record_all (DAGExecutor.entries_of cs rs)
            (<[callId c:=r]> results)).
    replace (s + Z.of_nat (length (c :: cs)))
      with (s + 1 + Z.of_nat (length cs)) by (simpl; lia).
    apply IH; [simpl in Hlen; lia|done|done| |].
    + intros c' Hc'. rewrite dom_insert_L.
      assert (callId c' ≠ callId c).
      { intros Heq. apply Hc. rewrite <-Heq. apply list_elem_of_fmap. eauto. }
      assert (callId c' ∉ dom results) by (apply Hfresh; by right).
      set_solver.
    + apply counts_ok_insert_success; [|done|done].
      apply not_elem_of_dom, Hfresh. left.
Qed.

(** *** Facts about a schedule *)

Lemma scheduled_cons_inv g P batch batches :
  DAGExecutor.scheduled g P (batch :: batches) →
  NoDup (callId <$> batch) ∧
  (∀ c, c ∈ batch → callId c ∉ P) ∧
  DAGExecutor.scheduled g (P ∪ list_to_set (callId <$> batch)) batches.
Proof. intros (? & Hb & ?). split_and!; [done| |done]. intros c Hc. by apply Hb. Qed.

Lemma scheduled_NoDup g P batches :
  DAGExecutor.scheduled g P batches →
  NoDup (callId <$> concat batches) ∧
  ∀ cid, cid ∈ callId <$> concat batches → cid ∉ P.
Proof.
  revert P. induction batches as [|batch batches IH]; intros P Hs.
  - split; [apply NoDup_nil_2|by intros ? ?%elem_of_nil].
  - apply scheduled_cons_inv in Hs as (Hnd & Hfresh & Hs).
    destruct (IH _ Hs) as [Hnd' Hfresh'].
    rewrite concat_cons, fmap_app. split.
    + apply NoDup_app. split_and!; [done| |done].
      intros cid Hin Hin'. apply Hfresh' in Hin'. set_solver.
    + intros cid [(c & -> & Hc)%list_elem_of_fmap|Hin]%elem_of_app.
      * by apply Hfresh.
      * apply Hfresh' in Hin. set_solver.
Qed.

(** When the scheduler throws, [execute] rethrows and nothing has run: the
    [catch] block finds [executedCalls] empty. *)
Lemma execute_threw this plan context w e :
  DAGExecutor.buildExecutionOrder this (DAGExecutor.calls plan) = Threw e →
  DAGExecutor.execute sched this plan context w = (Threw e, w).
Proof.
  intros Hb. unfold DAGExecutor.execute. rewrite Hb. cbn [length].
  rewrite bool_decide_eq_false_2 by lia. by rewrite andb_false_r.
Qed.

Lemma execute_returned this plan context w batches :
  DAGExecutor.buildExecutionOrder this (DAGExecutor.calls plan) =
    Returned batches →
  DAGExecutor.execute sched this plan context w =
    (Returned (fst (DAGExecutor.run_batches sched this plan context batches
                      DAGExecutor.initial_state w)),
     snd (DAGExecutor.run_batches sched this plan context batches
            DAGExecutor.initial_state w)).
Proof.
  intros Hb. unfold DAGExecutor.execute. rewrite Hb.
  by destruct (DAGExecutor.run_batches _ _ _ _ _ _ _).
Qed.

(** An acyclic plan whose dependencies are calls of the plan is run:
    [execute] returns a result. *)
Lemma execute_acyclic_returns this plan context w :
  DAGExecutor.acyclic (DAGExecutor.build_graph this (DAGExecutor.calls plan)) →
  DAGExecutor.deps_in_plan
    (DAGExecutor.build_graph this (DAGExecutor.calls plan))
    (DAGExecutor.calls plan) →
  ∃ res w', DAGExecutor.execute sched this plan context w = (Returned res, w').
Proof.
  intros Hacyc Hin.
  destruct (buildExecutionOrder_acyclic _ _ Hacyc Hin) as (batches & Hb & _).
  rewrite (execute_returned _ _ _ _ _ Hb). eauto.
Qed.

(** *** The counts of an execution *)

Lemma run_batches_counts this plan context g batches P st w :
  DAGExecutor.scheduled g P batches →
  dom (DAGExecutor.st_results st) = P →
  DAGExecutor.counts_ok (DAGExecutor.st_succeeded st) (DAGExecutor.st_failed st)
    (DAGExecutor.st_results st) →
  DAGExecutor.counts_ok
    (DAGExecutor.succeeded (fst (DAGExecutor.run_batches sched this plan context batches st w)))
    (DAGExecutor.failed (fst (DAGExecutor.run_batches sched this plan context batches st w)))
    (DAGExecutor.results (fst (DAGExecutor.run_batches sched this plan context batches st w))).
Proof.
  revert P st w. induction batches as [|batch batches IH]; intros P st w Hs Hdom Hok.
  - done.
  - apply scheduled_cons_inv in Hs as (Hnd & Hfresh & Hs).
    destruct (run_batches_cons sched this plan context batch batches st w Hnd)
      as (rs & evs & w1 & Hlen & _ & _ & Hcase).
    destruct Hcase as [[Hall ->]|(cs1 & c & cs2 & rs1 & r & rs2 & -> & -> & Hl & Hall & Hr & ->)].
    + eapply IH; [done| |].
      * cbn. rewrite dom_record_all, entries_of_keys, Hdom by done. done.
      * cbn. apply counts_ok_record_successes; try done.
        intros c Hc. rewrite Hdom. by apply Hfresh.
    + cbn [fst DAGExecutor.fail_result DAGExecutor.succeeded DAGExecutor.failed
             DAGExecutor.results].
      rewrite entries_of_snoc, record_all_snoc by done. cbn [fst snd].
      replace (DAGExecutor.st_succeeded st + Z.of_nat (length (cs1 ++ [c])) - 1)
        with (DAGExecutor.st_succeeded st + Z.of_nat (length cs1))
        by (rewrite length_app; simpl; lia).
      rewrite fmap_app, fmap_cons in Hnd.
      apply NoDup_app in Hnd as (Hnd1 & Hdis & _).
      apply counts_ok_insert_failure; [|done|].
      * apply not_elem_of_dom.
        rewrite dom_record_all, entries_of_keys, Hdom by done.
        assert (callId c ∉ P) by (apply Hfresh, elem_of_app; right; left).
        assert (callId c ∉ callId <$> cs1).
        { intros Hin. apply (Hdis _ Hin). left. }
        set_solver.
      * apply counts_ok_record_successes; try done.
        intros c' Hc'. rewrite Hdom. apply Hfresh, elem_of_app. by left.
Qed.

(** C9.  When [execute] returns, the succeeded count is the number of
    entries of the returned results map without an error, the failed count
    is the number of entries with an error, and the two counts add up to
    the number of entries. *)
Theorem execute_counts this plan context w res w' :
  DAGExecutor.execute sched this plan context w = (Returned res, w') →
  DAGExecutor.succeeded res =
    Z.of_nat (DAGExecutor.count_succeeded (DAGExecutor.results res)) ∧
  DAGExecutor.failed res =
    Z.of_nat (DAGExecutor.count_failed (DAGExecutor.results res)) ∧
  DAGExecutor.succeeded res + DAGExecutor.failed res =
    Z.of_nat (size (DAGExecutor.results res)).
Proof.
  destruct (DAGExecutor.buildExecutionOrder this (DAGExecutor.calls plan))
    as [batches|e] eqn:Hb; [|by rewrite (execute_threw _ _ _ _ _ Hb)].
  rewrite (execute_returned _ _ _ _ _ Hb).
  apply buildExecutionOrder_scheduled in Hb as [Hs _].
  pose proof (run_batches_counts this plan context _ batches ∅
                DAGExecutor.initial_state w Hs) as Hc.
  intros [= <- <-]. apply Hc; [apply dom_empty_L|].
  unfold DAGExecutor.counts_ok, DAGExecutor.count_succeeded,
    DAGExecutor.count_failed. cbn.
  by rewrite !map_filter_empty, !map_size_empty.
Qed.

(** *** The ordering invariant *)

Lemma deps_closed_advance g P batch :
  DAGExecutor.deps_closed g P →
  (∀ c, c ∈ batch →
        ∃ deps, DAGExecutor.graph g !! callId c = Some deps ∧ deps ⊆ P) →
  DAGExecutor.deps_closed g (P ∪ list_to_set (callId <$> batch)).
Proof.
  intros Hcl Hb x y [Hx|Hx]%elem_of_union Hxy.
  - apply elem_of_union_l. by eapply Hcl.
  - apply elem_of_list_to_set, list_elem_of_fmap in Hx as (c & -> & Hc).
    destruct (Hb _ Hc) as (deps & Hd & Hsub).
    destruct Hxy as (deps' & Hd' & Hy). rewrite Hd in Hd'. injection Hd' as <-.
    set_solver.
Qed.

Lemma deps_closed_tc g P x y :
  DAGExecutor.deps_closed g P → x ∈ P →
  tc (DAGExecutor.depends_on g) x y → y ∈ P.
Proof. intros Hcl Hx Hxy. induction Hxy; eauto. Qed.

Lemma run_batches_ordering this plan context g batches P st w :
  DAGExecutor.scheduled g P batches →
  DAGExecutor.deps_closed g P →
  dom (DAGExecutor.st_results st) = P →
  DAGExecutor.all_succeeded (DAGExecutor.st_results st) →
  ∃ evs,
    DAGExecutor.trace (snd (DAGExecutor.run_batches sched this plan context batches st w))
      = DAGExecutor.trace w ++ evs ∧
    Forall (DAGExecutor.ordering_respected g) evs.
Proof.
  revert P st w.
  induction batches as [|batch batches IH]; intros P st w Hs Hcl Hdom Hok.
  - exists []. by rewrite app_nil_r.
  - destruct Hs as (Hnd & Hb & Hs).
    destruct (run_batches_cons sched this plan context batch batches st w Hnd)
      as (rs & evs & w1 & Hlen & Htr & Hevs & Hcase).
    assert (Forall (DAGExecutor.ordering_respected g) evs) as Hord.
    { eapply Forall_impl; [exact Hevs|].
      intros ev [(c & Hc & ->)|[ms ->]]; [|done].
      destruct (Hb _ Hc) as (Hmap & _ & deps & Hdeps & Hsub).
      split; [done|]. intros d Hd. cbn.
      assert (d ∈ P) as HdP.
      { inversion Hd as [? ? Hstep|? z ? Hstep Hrest]; subst.
        - destruct Hstep as (deps' & Hd' & Hin). set_solver.
        - destruct Hstep as (deps' & Hd' & Hin).
          eapply deps_closed_tc; [done| |done]. set_solver. }
      rewrite <-Hdom in HdP. apply elem_of_dom in HdP as [e He].
      exists e. split; [done|]. by eapply Hok. }
    destruct Hcase as [[Hall ->]|(cs1 & c & cs2 & rs1 & r & rs2 & -> & -> & Hl & Hall & Hr & ->)].
    + destruct (IH (P ∪ list_to_set (callId <$> batch))
                  (DAGExecutor.advance st batch rs) w1) as (evs' & -> & Hord').
      * done.
      * apply deps_closed_advance; [done|]. intros c Hc.
        by destruct (Hb _ Hc) as (_ & _ & ?).
      * cbn. rewrite dom_record_all, entries_of_keys, Hdom by done. done.
      * cbn. by apply all_succeeded_record.
      * exists (evs ++ evs'). rewrite Htr, app_assoc. split; [done|].
        by apply Forall_app.
    + cbn [snd]. destruct (truthy _).
      * destruct (compensate_spec this
                    (DAGExecutor.st_executedCalls st ++ cs1 ++ [c])
                    (DAGExecutor.results
                       (DAGExecutor.fail_result st (cs1 ++ [c]) (rs1 ++ [r])))
                    (DAGExecutor.mk_ctx plan context
                       (DAGExecutor.results
                          (DAGExecutor.fail_result st (cs1 ++ [c]) (rs1 ++ [r]))))
                    w1) as (evs' & -> & Hcomp & _).
        exists (evs ++ evs'). rewrite Htr, app_assoc. split; [done|].
        apply Forall_app. split; [done|].
        eapply Forall_impl; [exact Hcomp|]. by intros [].
      * by exists evs.
Qed.

(** The graph that the scheduler builds has, under each identifier, the
    call that the identifier stands for and the dependencies that the plan
    and the registry state for that call. *)
Lemma build_graph_call_of this (calls : list ActionCall) cid :
  let g := DAGExecutor.build_graph this calls in
  DAGExecutor.callMap g !! cid = DAGExecutor.call_of calls cid ∧
  DAGExecutor.graph g !! cid =
    DAGExecutor.callDeps this (DAGExecutor.build_actionIdToCallIds calls) <$>
    DAGExecutor.call_of calls cid.
Proof.
  intros g. unfold g, DAGExecutor.build_graph, DAGExecutor.call_of.
  generalize (DAGExecutor.build_actionIdToCallIds calls). intros a2c.
  set (step := λ (g : Graph) (call : ActionCall),
         {| DAGExecutor.callMap := <[callId call:=call]> (DAGExecutor.callMap g);
            DAGExecutor.graph :=
              <[callId call:=DAGExecutor.callDeps this a2c call]>
                (DAGExecutor.graph g);
            DAGExecutor.inDegree0 :=
              <[callId call:=Z.of_nat (size (DAGExecutor.callDeps this a2c call))]>
                (DAGExecutor.inDegree0 g) |}).
  assert (∀ (l : list ActionCall) (g0 : Graph),
    DAGExecutor.callMap (foldl step g0 l) !! cid =
      match last (filter (λ c, callId c = cid) l) with
      | Some c => Some c
      | None => DAGExecutor.callMap g0 !! cid
      end ∧
    DAGExecutor.graph (foldl step g0 l) !! cid =
      match last (filter (λ c, callId c = cid) l) with
      | Some c => Some (DAGExecutor.callDeps this a2c c)
      | None => DAGExecutor.graph g0 !! cid
      end) as Hgen.
  { induction l as [|c l IH]; intros g0; [done|].
    cbn [foldl]. destruct (IH (step g0 c)) as [-> ->].
    rewrite filter_cons. destruct (decide (callId c = cid)) as [Heq|Hne].
    - rewrite last_cons.
      destruct (last (filter (λ c0, callId c0 = cid) l)); [done|].
      unfold step. cbn. by rewrite Heq, !lookup_insert_eq.
    - destruct (last (filter (λ c0, callId c0 = cid) l)); [done|].
      unfold step. cbn. by rewrite !lookup_insert_ne. }
  destruct (Hgen calls {| DAGExecutor.callMap := ∅; DAGExecutor.graph := ∅;
                          DAGExecutor.inDegree0 := ∅ |}) as [-> ->].
  destruct (last _); cbn; by rewrite ?lookup_empty.
Qed.

Lemma call_of_elem_of (calls : list ActionCall) cid c :
  DAGExecutor.call_of calls cid = Some c → c ∈ calls ∧ callId c = cid.
Proof.
  unfold DAGExecutor.call_of. intros Hl.
  apply last_Some in Hl as [l' Hl].
  assert (c ∈ filter (λ c0, callId c0 = cid) calls) as Hin.
  { rewrite Hl. apply elem_of_app. right. left. }
  by apply list_elem_of_filter in Hin as [? ?].
Qed.

(** The edges of the scheduler's graph are the dependencies that the plan
    and the registry state. *)
Lemma depends_on_plan_depends this (calls : list ActionCall) x y :
  DAGExecutor.depends_on (DAGExecutor.build_graph this calls) x y ↔
  DAGExecutor.plan_depends this calls x y.
Proof.
  unfold DAGExecutor.depends_on, DAGExecutor.plan_depends, DAGExecutor.needs.
  destruct (build_graph_call_of this calls x) as [_ ->].
  split.
  - intros (deps & Hdeps & Hy).
    destruct (DAGExecutor.call_of calls x) as [c|]; [|done].
    injection Hdeps as <-. exists c. split; [done|].
    apply callDeps_spec in Hy as [?|(d & Hd & Hy)]; [by left|right].
    apply build_actionIdToCallIds_spec in Hy as (c' & ? & <- & ?).
    destruct (get (actionId c) (DAGExecutor.registry this)) as [a|];
      [|by apply elem_of_nil in Hd].
    by exists a, c'.
  - intros (c & -> & Hy). eexists. split; [done|]. apply callDeps_spec.
    destruct Hy as [?|(a & c' & Hget & Hdep & ? & ?)]; [by left|right].
    exists (actionId c'). split; [by rewrite Hget|].
    apply build_actionIdToCallIds_spec. eauto.
Qed.

Lemma tc_impl (R R' : relation string) x y :
  (∀ a b, R a b → R' a b) → tc R x y → tc R' x y.
Proof.
  intros Himpl Hxy. induction Hxy as [x y Hstep|x z y Hstep _ IH].
  - apply tc_once. by apply Himpl.
  - eapply tc_l; [|exact IH]. by apply Himpl.
Qed.

(** C1.  In every execution, under every interleaving of the calls of a
    batch, whenever the handler of a call [c] is invoked, [c] is the call
    of the plan that its identifier stands for, and the shared results map
    handed to the handler holds an entry without error for
      - every identifier that [c] needs: those of its own [dependsOn]
        list, and those of the calls of the plan to the actions that the
        registry lists as [dependencies] of the action of [c];
      - every identifier that [c] transitively depends on through these
        two kinds of dependency.
    On a plan whose dependencies form a cycle no handler is invoked at
    all, so the statement needs no acyclicity assumption. *)
Theorem execute_ordering this plan context w :
  ∃ evs,
    DAGExecutor.trace (snd (DAGExecutor.execute sched this plan context w)) =
      DAGExecutor.trace w ++ evs ∧
    ∀ c ctx,
      DAGExecutor.HandlerInvoked c ctx ∈ evs →
      c ∈ DAGExecutor.calls plan ∧
      DAGExecutor.call_of (DAGExecutor.calls plan) (callId c) = Some c ∧
      (∀ d,
         DAGExecutor.needs this (DAGExecutor.calls plan) c d →
         ∃ e, previousResults ctx !! d = Some e ∧ error e = None) ∧
      (∀ d,
         tc (DAGExecutor.plan_depends this (DAGExecutor.calls plan))
            (callId c) d →
         ∃ e, previousResults ctx !! d = Some e ∧ error e = None).
Proof.
  destruct (DAGExecutor.buildExecutionOrder this (DAGExecutor.calls plan))
    as [batches|e] eqn:Hb.
  - pose proof Hb as [Hs _]%buildExecutionOrder_scheduled.
    destruct (run_batches_ordering this plan context _ batches ∅
                DAGExecutor.initial_state w Hs) as (evs & Htr & Hord).
    + by intros x y ?%elem_of_empty.
    + apply dom_empty_L.
    + intros cid e. cbn. by rewrite lookup_empty.
    + rewrite (execute_returned _ _ _ _ _ Hb). cbn [snd].
      exists evs. split; [done|]. intros c ctx Hin.
      apply (proj1 (Forall_forall _ _) Hord) in Hin as [Hmap Hdeps].
      destruct (build_graph_call_of this (DAGExecutor.calls plan) (callId c))
        as [Hcall _]. rewrite Hmap in Hcall. symmetry in Hcall.
      assert (∀ d,
        tc (DAGExecutor.plan_depends this (DAGExecutor.calls plan))
           (callId c) d →
        ∃ e, previousResults ctx !! d = Some e ∧ error e = None) as Htc.
      { intros d Hd. apply Hdeps. eapply tc_impl; [|exact Hd].
        intros a b. by apply depends_on_plan_depends. }
      split_and!; [by apply call_of_elem_of in Hcall as [? _]|done| |done].
      intros d Hd. apply Htc, tc_once. by exists c.
  - rewrite (execute_threw _ _ _ _ _ Hb).
    exists []. cbn. rewrite app_nil_r. split; [done|].
    by intros c ctx ?%elem_of_nil.
Qed.


(** *** Compensation *)

Lemma batch_events_no_compensation batch ctx evs :
  Forall (DAGExecutor.batch_event batch ctx) evs →
  DAGExecutor.compensations evs = [].
Proof.
  induction 1 as [|ev evs Hev _ IH]; [done|].
  change (ev :: evs) with ([ev] ++ evs). rewrite compensations_app, IH.
  by destruct Hev as [(c & _ & ->)|[ms ->]].
Qed.

Lemma run_batches_compensation this plan context batches st w :
  Forall (λ batch, NoDup (callId <$> batch)) batches →
  let out := DAGExecutor.run_batches sched this plan context batches st w in
  let out0 :=
    DAGExecutor.run_batches sched (DAGExecutor.without_compensation this)
      plan context batches st w in
  fst out0 = fst out ∧
  ((DAGExecutor.failed (fst out) = DAGExecutor.st_failed st ∧
    snd out = snd out0 ∧
    DAGExecutor.compensations (DAGExecutor.trace (snd out)) =
      DAGExecutor.compensations (DAGExecutor.trace w)) ∨
   (∃ executed rest,
      concat batches = executed ++ rest ∧
      DAGExecutor.failed (fst out) = DAGExecutor.st_failed st + 1 ∧
      dom (DAGExecutor.results (fst out)) =
        dom (DAGExecutor.st_results st) ∪ list_to_set (callId <$> executed) ∧
      snd out =
        (if truthy (enableCompensation (DAGExecutor.config this))
         then DAGExecutor.roll_back this
                (DAGExecutor.mk_ctx plan context
                   (DAGExecutor.results (fst out)))
                (DAGExecutor.owed_compensations this
                   (DAGExecutor.results (fst out))
                   (DAGExecutor.st_executedCalls st ++ executed))
                (snd out0)
         else snd out0) ∧
      DAGExecutor.compensations (DAGExecutor.trace (snd out)) =
        DAGExecutor.compensations (DAGExecutor.trace w) ++
        if truthy (enableCompensation (DAGExecutor.config this))
        then DAGExecutor.owed_compensations this
               (DAGExecutor.results (fst out))
               (DAGExecutor.st_executedCalls st ++ executed)
        else [])).
Proof.
  revert st w.
  induction batches as [|batch batches IH]; intros st w Hnds out out0.
  - split; [done|]. left. done.
  - apply Forall_cons in Hnds as [Hnd Hnds]. subst out out0.
    destruct (run_batches_cons_rollback sched this plan context batch batches
                st w Hnd)
      as (rs & evs & w1 & Hlen & Htr & Hevs & Hcase).
    pose proof (batch_events_no_compensation _ _ _ Hevs) as Hnone.
    assert (DAGExecutor.compensations (DAGExecutor.trace w1) =
            DAGExecutor.compensations (DAGExecutor.trace w)) as Hw1.
    { by rewrite Htr, compensations_app, Hnone, app_nil_r. }
    destruct Hcase as [(Hall & -> & ->)|
      (cs1 & c & cs2 & rs1 & r & rs2 & -> & -> & Hl & Hall & Hr & -> & ->)].
    + destruct (IH (DAGExecutor.advance st batch rs) w1 Hnds)
        as [Hfst [(Hf & Hsnd & Hc)|
                  (executed & rest & Hsplit & Hf & Hdom & Hsnd & Hc)]].
      * split; [done|]. left. by rewrite Hc, Hw1.
      * split; [done|]. right. exists (batch ++ executed), rest. split_and!.
        -- by rewrite concat_cons, Hsplit, app_assoc.
        -- done.
        -- rewrite Hdom. cbn.
           rewrite dom_record_all, entries_of_keys, fmap_app,
             list_to_set_app_L by done. set_solver.
        -- rewrite Hsnd.
           cbn [DAGExecutor.advance DAGExecutor.st_executedCalls].
           by rewrite <-app_assoc.
        -- rewrite Hc, Hw1. cbn [DAGExecutor.advance DAGExecutor.st_executedCalls].
           by rewrite <-app_assoc.
    + cbn [fst snd]. split; [done|].
      right. exists (cs1 ++ [c]), (cs2 ++ concat batches).
      split_and!.
      * rewrite concat_cons, <-!app_assoc. done.
      * done.
      * cbn. rewrite dom_record_all, entries_of_keys; [done|].
        rewrite !length_app. simpl. lia.
      * destruct (truthy _); [|done]. apply compensate_roll_back.
      * destruct (truthy _).
        -- destruct (compensate_spec this
                       (DAGExecutor.st_executedCalls st ++ cs1 ++ [c])
                       (DAGExecutor.results
                          (DAGExecutor.fail_result st (cs1 ++ [c]) (rs1 ++ [r])))
                       (DAGExecutor.mk_ctx plan context
                          (DAGExecutor.results
                             (DAGExecutor.fail_result st (cs1 ++ [c]) (rs1 ++ [r]))))
                       w1) as (evs' & -> & _ & Hc).
           by rewrite compensations_app, Hw1, Hc.
        -- by rewrite app_nil_r.
Qed.

Lemma scheduled_batches_NoDup g P batches :
  DAGExecutor.scheduled g P batches →
  Forall (λ batch, NoDup (callId <$> batch)) batches.
Proof.
  revert P. induction batches as [|batch batches IH]; intros P Hs; [done|].
  destruct Hs as (Hnd & _ & Hs). apply Forall_cons. split; [done|]. eauto.
Qed.

Lemma elem_of_owed_compensations this results executed c v :
  (c, v) ∈ DAGExecutor.owed_compensations this results executed ↔
  c ∈ executed ∧
  is_Some (DAGExecutor.compensation_handler this c) ∧
  ∃ e, results !! callId c = Some e ∧ error e = None ∧ v = result e.
Proof.
  unfold DAGExecutor.owed_compensations, DAGExecutor.compensable.
  rewrite list_elem_of_fmap. setoid_rewrite list_elem_of_filter.
  setoid_rewrite elem_of_reverse. setoid_rewrite andb_true_iff.
  setoid_rewrite bool_decide_eq_true. split.
  - intros (c' & [= <- ->] & [Hh Hr] & Hin). split_and!; [done|done|].
    destruct (results !! callId c) as [e|]; [|done].
    apply bool_decide_eq_true in Hr. by exists e.
  - intros (Hin & Hh & e & He & Herr & ->). exists c.
    rewrite He. split_and!; try done. by apply bool_decide_eq_true.
Qed.

(** X30. When [execute] returns with a failed call and compensation is
    enabled, the calls with a recorded outcome are a prefix [executed] of
    the schedule, in the order in which their outcomes were recorded:
    batch after batch and, inside a batch, by position in the batch.  The
    execution is the one that the executor without compensation performs,
    with the same result, followed by the rollback of the compensations
    owed: in reverse order of [executed], the compensating handler of each
    call of [executed] that has a recorded entry without error and whose
    action declares one is invoked on the arguments of the call and the
    recorded result, and its effect is kept; nothing else happens.  This
    holds whatever the compensating handlers do, in particular when some
    of them throw. *)
Theorem execute_compensation this plan context w res w' :
  DAGExecutor.execute sched this plan context w = (Returned res, w') →
  DAGExecutor.failed res ≠ 0 →
  truthy (enableCompensation (DAGExecutor.config this)) = true →
  ∃ batches executed rest w1,
    DAGExecutor.buildExecutionOrder this (DAGExecutor.calls plan) =
      Returned batches ∧
    concat batches = executed ++ rest ∧
    NoDup (callId <$> concat batches) ∧
    dom (DAGExecutor.results res) = list_to_set (callId <$> executed) ∧
    DAGExecutor.execute sched (DAGExecutor.without_compensation this)
      plan context w = (Returned res, w1) ∧
    w' = DAGExecutor.roll_back this
           (DAGExecutor.mk_ctx plan context (DAGExecutor.results res))
           (DAGExecutor.owed_compensations this (DAGExecutor.results res)
              executed)
           w1 ∧
    DAGExecutor.compensations (DAGExecutor.trace w') =
      DAGExecutor.compensations (DAGExecutor.trace w) ++
      DAGExecutor.owed_compensations this (DAGExecutor.results res) executed ∧
    ∀ c v,
      (c, v) ∈ DAGExecutor.owed_compensations this (DAGExecutor.results res)
                 executed ↔
      c ∈ executed ∧
      is_Some (DAGExecutor.compensation_handler this c) ∧
      ∃ e, DAGExecutor.results res !! callId c = Some e ∧ error e = None ∧
           v = result e.
Proof.
  destruct (DAGExecutor.buildExecutionOrder this (DAGExecutor.calls plan))
    as [batches|e] eqn:Hb; [|by rewrite (execute_threw _ _ _ _ _ Hb)].
  rewrite (execute_returned _ _ _ _ _ Hb).
  rewrite (execute_returned (DAGExecutor.without_compensation this) _ _ _ _ Hb).
  pose proof Hb as [Hs _]%buildExecutionOrder_scheduled.
  pose proof (run_batches_compensation this plan context batches
                DAGExecutor.initial_state w
                (scheduled_batches_NoDup _ _ _ Hs)) as Hc.
  intros [= <- <-] Hfailed Hcomp. cbn zeta in Hc.
  destruct Hc as [Hfst [[Hf _]|(executed & rest & Hsplit & _ & Hdom & Hsnd & Hcs)]];
    [done|].
  exists batches, executed, rest,
    (snd (DAGExecutor.run_batches sched (DAGExecutor.without_compensation this)
            plan context batches DAGExecutor.initial_state w)).
  split_and!; try done.
  - by apply scheduled_NoDup in Hs as [? _].
  - rewrite Hdom. cbn. rewrite dom_empty_L. set_solver.
  - rewrite <-Hfst. by destruct (DAGExecutor.run_batches _ _ _ _ _ _ _).
  - by rewrite Hsnd, Hcomp.
  - by rewrite Hcs, Hcomp.
  - intros c v. apply elem_of_owed_compensations.
Qed.

End ExecuteFacts.

(** ** The theorems at the sample inputs *)

(** Witness of [retry_three_attempts]: the flaky handler. *)
Lemma retry_three_attempts_witness :
  (∀ e3 a3,
     Samples.flaky_handler (args Samples.flaky_call) Samples.ctx0 2%nat
       = (inr e3, a3) →
     let '(entry, w') :=
       DAGExecutor.run_call Samples.retrying Samples.ctx0 Samples.flaky_call
         Samples.world0 in
     entry = (callId Samples.flaky_call,
              {| result := None; error := error_of_thrown e3 |}) ∧
     DAGExecutor.app w' = a3 ∧
     DAGExecutor.invocations (DAGExecutor.trace w') =
       DAGExecutor.invocations (DAGExecutor.trace Samples.world0) ++
       [Samples.flaky_call; Samples.flaky_call; Samples.flaky_call]) ∧
  (∀ v a3,
     Samples.flaky_handler (args Samples.flaky_call) Samples.ctx0 2%nat
       = (inl v, a3) →
     let '(entry, w') :=
       DAGExecutor.run_call Samples.retrying Samples.ctx0 Samples.flaky_call
         Samples.world0 in
     entry = (callId Samples.flaky_call, {| result := Some v; error := None |}) ∧
     DAGExecutor.app w' = a3 ∧
     DAGExecutor.invocations (DAGExecutor.trace w') =
       DAGExecutor.invocations (DAGExecutor.trace Samples.world0) ++
       [Samples.flaky_call; Samples.flaky_call; Samples.flaky_call]).
Proof.
  apply (retry_three_attempts Samples.retrying Samples.ctx0 Samples.flaky_call
           Samples.world0 Samples.flaky_action Samples.flaky_handler
           Samples.exponential3 (ThrownError (Error "Temporary failure")) 1%nat
           (ThrownError (Error "Temporary failure")) 2%nat);
    vm_compute; reflexivity.
Defined.

Example flaky_execution :
  let out := DAGExecutor.execute DAGExecutor.in_batch_order Samples.retrying
               (Samples.plan_of [Samples.flaky_call]) tt Samples.world0 in
  fst out =
    Returned {| DAGExecutor.succeeded := 1; DAGExecutor.failed := 0;
                DAGExecutor.results :=
                  {[ "call1" := {| result := Some "done"; error := None |} ]} |} ∧
  DAGExecutor.app (snd out) = 3%nat ∧
  DAGExecutor.sleeps (DAGExecutor.trace (snd out)) =
    [JsNumber.Finite 10; JsNumber.Finite 20].
Proof. vm_compute. done. Qed.

Example failing_execution :
  let out := DAGExecutor.execute DAGExecutor.in_batch_order Samples.retrying
               (Samples.plan_of [Samples.failing_call]) tt Samples.world0 in
  fst out =
    Returned {| DAGExecutor.succeeded := 0; DAGExecutor.failed := 1;
                DAGExecutor.results :=
                  {[ "call1" := {| result := None;
                                   error := Some (Error "Permanent failure") |} ]} |} ∧
  DAGExecutor.app (snd out) = 3%nat ∧
  DAGExecutor.sleeps (DAGExecutor.trace (snd out)) =
    [JsNumber.Finite 10; JsNumber.Finite 20].
Proof. vm_compute. done. Qed.

(** Witness of [retry_backoff_delays]. *)
Lemma retry_backoff_delays_witness :
  (∃ m : nat,
    Z.of_nat m < maxAttempts Samples.exponential3 ∧
    DAGExecutor.trace
      (snd (DAGExecutor.executeWithRetry Samples.retrying Samples.flaky_call
              Samples.flaky_action Samples.ctx0 Samples.world0))
      = DAGExecutor.trace Samples.world0 ++
        DAGExecutor.attempts_trace Samples.exponential3 Samples.flaky_call
          Samples.ctx0 0 m ∧
    DAGExecutor.invocations
      (DAGExecutor.trace
         (snd (DAGExecutor.executeWithRetry Samples.retrying Samples.flaky_call
                 Samples.flaky_action Samples.ctx0 Samples.world0)))
      = DAGExecutor.invocations (DAGExecutor.trace Samples.world0) ++
        replicate (S m) Samples.flaky_call ∧
    DAGExecutor.sleeps
      (DAGExecutor.trace
         (snd (DAGExecutor.executeWithRetry Samples.retrying Samples.flaky_call
                 Samples.flaky_action Samples.ctx0 Samples.world0)))
      = DAGExecutor.sleeps (DAGExecutor.trace Samples.world0) ++
        ((λ k, DAGExecutor.calculateBackoff k Samples.exponential3) <$>
         seqZ 0 (Z.of_nat m))) ∧
  ∀ k, 0 ≤ k →
    match backoff Samples.exponential3 with
    | linear =>
      JsNumber.safe (delayMs Samples.exponential3 * (k + 1)) →
      DAGExecutor.calculateBackoff k Samples.exponential3 =
        JsNumber.Finite (delayMs Samples.exponential3 * (k + 1))
    | exponential =>
      k ≤ 1023 → JsNumber.safe (delayMs Samples.exponential3 * 2 ^ k) →
      DAGExecutor.calculateBackoff k Samples.exponential3 =
        JsNumber.Finite (delayMs Samples.exponential3 * 2 ^ k)
    end.
Proof.
  apply (retry_backoff_delays Samples.retrying Samples.flaky_call
           Samples.flaky_action Samples.ctx0 Samples.world0
           Samples.flaky_handler Samples.exponential3);
    [reflexivity|vm_compute; reflexivity|vm_compute; discriminate].
Defined.

(** The delays of the two sample policies, as computed: 10, 20, 30 for the
    linear one and 10, 20, 40 for the exponential one. *)
Example sample_delays :
  (λ k, DAGExecutor.calculateBackoff k Samples.linear3) <$> [0; 1; 2] =
    [JsNumber.Finite 10; JsNumber.Finite 20; JsNumber.Finite 30] ∧
  (λ k, DAGExecutor.calculateBackoff k Samples.exponential3) <$> [0; 1; 2] =
    [JsNumber.Finite 10; JsNumber.Finite 20; JsNumber.Finite 40].
Proof. vm_compute. done. Qed.

(** C8 as stated fails: whether the first failed attempt is given index 0
    or index 1, one of the two stated formulas differs from the delay that
    is computed for it (10 ms for both sample policies).  And no formula
    over the integers holds for every policy: with a base delay of
    [2^53 - 1] the linear delay after the attempt of index 2 is not three
    times the base, but the double nearest to it. *)
Lemma backoff_is_not_as_stated :
  DAGExecutor.calculateBackoff 0 Samples.linear3 = JsNumber.Finite 10 ∧
  DAGExecutor.calculateBackoff 0 Samples.exponential3 = JsNumber.Finite 10 ∧
  DAGExecutor.calculateBackoff 0 Samples.linear3 ≠
    JsNumber.Finite
      (DAGExecutor.spec_linear_delay (delayMs Samples.linear3) 0) ∧
  DAGExecutor.calculateBackoff 0 Samples.exponential3 ≠
    JsNumber.Finite
      (DAGExecutor.spec_exponential_delay (delayMs Samples.exponential3) 1) ∧
  DAGExecutor.calculateBackoff 2
    {| maxAttempts := 5; backoff := linear; delayMs := 9007199254740991 |} =
    JsNumber.Finite 27021597764222972 ∧
  9007199254740991 * (2 + 1) = 27021597764222973.
Proof.
  vm_compute. split_and!; [done|done|discriminate|discriminate|done|done].
Qed.


(** Witness of [execute_counts]: the saga of the specification. *)
Lemma execute_counts_witness :
  ∃ res w',
    DAGExecutor.execute DAGExecutor.in_batch_order Samples.saga Samples.saga_plan tt Samples.world0 =
      (Returned res, w') ∧
    DAGExecutor.succeeded res = 1 ∧ DAGExecutor.failed res = 1 ∧
    DAGExecutor.succeeded res =
      Z.of_nat (DAGExecutor.count_succeeded (DAGExecutor.results res)) ∧
    DAGExecutor.failed res =
      Z.of_nat (DAGExecutor.count_failed (DAGExecutor.results res)) ∧
    DAGExecutor.succeeded res + DAGExecutor.failed res =
      Z.of_nat (size (DAGExecutor.results res)).
Proof.
  eexists _, _. split; [vm_compute; reflexivity|].
  split; [reflexivity|]. split; [reflexivity|].
  eapply (execute_counts DAGExecutor.in_batch_order Samples.saga Samples.saga_plan tt Samples.world0).
  vm_compute. reflexivity.
Defined.

(** Witness of [execute_compensation]: [reserve] is compensated, [charge]
    is not, although the compensating handler of [reserve] throws. *)
Lemma execute_compensation_witness :
  ∃ res w',
    DAGExecutor.execute DAGExecutor.in_batch_order Samples.saga
      Samples.saga_plan tt Samples.world0 = (Returned res, w') ∧
    fst <$> DAGExecutor.compensations (DAGExecutor.trace w') =
      [Samples.call "call1" "reserve" None] ∧
    ∃ batches executed rest w1,
      DAGExecutor.buildExecutionOrder Samples.saga
        (DAGExecutor.calls Samples.saga_plan) = Returned batches ∧
      concat batches = executed ++ rest ∧
      NoDup (callId <$> concat batches) ∧
      dom (DAGExecutor.results res) = list_to_set (callId <$> executed) ∧
      DAGExecutor.execute DAGExecutor.in_batch_order
        (DAGExecutor.without_compensation Samples.saga)
        Samples.saga_plan tt Samples.world0 = (Returned res, w1) ∧
      w' = DAGExecutor.roll_back Samples.saga
             (DAGExecutor.mk_ctx Samples.saga_plan tt (DAGExecutor.results res))
             (DAGExecutor.owed_compensations Samples.saga
                (DAGExecutor.results res) executed)
             w1 ∧
      DAGExecutor.compensations (DAGExecutor.trace w') =
        DAGExecutor.compensations (DAGExecutor.trace Samples.world0) ++
        DAGExecutor.owed_compensations Samples.saga (DAGExecutor.results res)
          executed ∧
      ∀ c v,
        (c, v) ∈ DAGExecutor.owed_compensations Samples.saga
                   (DAGExecutor.results res) executed ↔
        c ∈ executed ∧
        is_Some (DAGExecutor.compensation_handler Samples.saga c) ∧
        ∃ e, DAGExecutor.results res !! callId c = Some e ∧ error e = None ∧
             v = result e.
Proof.
  eexists _, _. split; [vm_compute; reflexivity|].
  split; [vm_compute; reflexivity|].
  apply (execute_compensation DAGExecutor.in_batch_order Samples.saga
           Samples.saga_plan tt Samples.world0);
    [vm_compute; reflexivity|vm_compute; discriminate|vm_compute; reflexivity].
Defined.

(** C4: the code at a handler that rejects with [undefined] at every
    invocation, under a policy of three attempts.  The handler is invoked
    exactly three times, with the two backoff sleeps in between, but what
    is recorded for the call is not a failure: the entry has no error,
    [execute] counts the call as succeeded and reports no failed call. *)
Theorem falsy_rejection_counts_as_success :
  let out := DAGExecutor.execute DAGExecutor.in_batch_order Scenarios.silent
               Scenarios.silent_plan tt Samples.world0 in
  (∀ ctx n, ∃ n', Scenarios.reject_undefined "args" ctx n =
                    (inr ThrownUndefined, n')) ∧
  DAGExecutor.invocations (DAGExecutor.trace (snd out)) =
    replicate 3 (Samples.call "call1" "silent" None) ∧
  DAGExecutor.sleeps (DAGExecutor.trace (snd out)) =
    [JsNumber.Finite 10; JsNumber.Finite 20] ∧
  fst out =
    Returned {| DAGExecutor.succeeded := 1; DAGExecutor.failed := 0;
                DAGExecutor.results :=
                  {[ "call1" := {| result := None; error := None |} ]} |}.
Proof.
  split; [intros ctx n; by eexists|]. vm_compute. done.
Qed.

(** With a handler that rejects with an error object the same execution
    records the failure. *)
Example truthy_rejection_counts_as_failure :
  fst (DAGExecutor.execute DAGExecutor.in_batch_order Samples.retrying
         (Samples.plan_of [Samples.failing_call]) tt Samples.world0) =
    Returned {| DAGExecutor.succeeded := 0; DAGExecutor.failed := 1;
                DAGExecutor.results :=
                  {[ "call1" :=
                       {| result := None;
                          error := Some (Error "Permanent failure") |} ]} |}.
Proof. vm_compute. done. Qed.

(** C2: the code at a saga whose first step fails by rejecting with
    [undefined].  The handler of [reserve] is invoked once and rejects;
    the entry recorded for it has no error, so [charge], which depends on
    it, is invoked all the same; [charge] fails, and the rollback invokes
    the compensating handler of [reserve], a call that failed, and keeps
    its effect on the application state (the mark of 100). *)
Theorem failed_call_is_compensated :
  let reserve := Samples.call "call1" "reserve" None in
  let charge := Samples.call "call2" "charge" None in
  let out := DAGExecutor.execute DAGExecutor.in_batch_order Scenarios.undone
               Samples.saga_plan tt Samples.world0 in
  (∀ ctx n, ∃ n', Scenarios.reject_undefined "args" ctx n =
                    (inr ThrownUndefined, n')) ∧
  DAGExecutor.invocations (DAGExecutor.trace (snd out)) = [reserve; charge] ∧
  fst out =
    Returned {| DAGExecutor.succeeded := 1; DAGExecutor.failed := 1;
                DAGExecutor.results :=
                  {[ "call1" := {| result := None; error := None |};
                     "call2" := {| result := None;
                                   error := Some (Error "card declined") |} ]} |} ∧
  DAGExecutor.compensations (DAGExecutor.trace (snd out)) = [(reserve, None)] ∧
  DAGExecutor.app (snd out) = 102%nat.
Proof.
  split; [intros ctx n; by eexists|]. vm_compute. done.
Qed.

(** A call that never ran is compensated as well: under a retry policy
    that allows no attempt the handler of [reserve] is not invoked, the
    entry recorded for it has no error, and after the failure of [charge]
    its compensating handler runs. *)
Example unstarted_call_is_compensated :
  let reserve := Samples.call "call1" "reserve" None in
  let charge := Samples.call "call2" "charge" None in
  let out := DAGExecutor.execute DAGExecutor.in_batch_order Scenarios.unstarted
               Samples.saga_plan tt Samples.world0 in
  DAGExecutor.invocations (DAGExecutor.trace (snd out)) = [charge] ∧
  DAGExecutor.compensations (DAGExecutor.trace (snd out)) = [(reserve, None)] ∧
  DAGExecutor.app (snd out) = 101%nat.
Proof. vm_compute. done. Qed.

(** The order of compensation is that of the positions in the batch, not
    that of completion.  [slow] and [quick] are in one batch; under the
    interleaving in which both make their first attempt before [slow]
    retries, [quick] is done before [slow] is, yet after the failure of
    [last] the compensating handler of [quick] runs before that of
    [slow]. *)
Example compensation_order_is_batch_position :
  let slow := Samples.call "c1" "slow" None in
  let quick := Samples.call "c2" "quick" None in
  let last := Samples.call "c3" "last" None in
  let out := DAGExecutor.execute Scenarios.staggered Scenarios.race
               Scenarios.race_plan tt Samples.world0 in
  DAGExecutor.buildExecutionOrder Scenarios.race
    (DAGExecutor.calls Scenarios.race_plan) =
    Returned [[slow; quick]; [last]] ∧
  DAGExecutor.invocations (DAGExecutor.trace (snd out)) =
    [slow; quick; slow; last] ∧
  fst <$> DAGExecutor.compensations (DAGExecutor.trace (snd out)) =
    [quick; slow].
Proof. vm_compute. done. Qed.

(** C3: the code at two independent calls [ca] (fails) and [cb] (succeeds)
    of one batch.  Both handlers run, but [execute] returns from inside
    the merge loop at the entry of [ca]: the outcome of [cb] is not in the
    returned map, the counts do not cover it, and its compensating handler
    is not invoked. *)
Theorem sibling_outcome_dropped :
  let out := DAGExecutor.execute DAGExecutor.in_batch_order Samples.siblings Samples.siblings_plan tt
               Samples.world0 in
  DAGExecutor.buildExecutionOrder Samples.siblings
    (DAGExecutor.calls Samples.siblings_plan) =
    Returned [[Samples.call "ca" "a" None; Samples.call "cb" "b" None]] ∧
  callId <$> DAGExecutor.invocations (DAGExecutor.trace (snd out)) =
    ["ca"; "cb"] ∧
  fst out =
    Returned {| DAGExecutor.succeeded := 0; DAGExecutor.failed := 1;
                DAGExecutor.results :=
                  {[ "ca" := {| result := None;
                                error := Some (Error "boom") |} ]} |} ∧
  DAGExecutor.compensations (DAGExecutor.trace (snd out)) = [].
Proof. vm_compute. done. Qed.

(** The same two calls in the other order: the outcome of [cb] is recorded
    before the failure of [ca] is met, and [cb] is compensated. *)
Example sibling_outcome_kept :
  let out := DAGExecutor.execute DAGExecutor.in_batch_order Samples.siblings
               (Samples.plan_of [Samples.call "cb" "b" None;
                                 Samples.call "ca" "a" None]) tt
               Samples.world0 in
  (match fst out with
   | Returned res =>
       (DAGExecutor.succeeded res, DAGExecutor.failed res,
        size (DAGExecutor.results res))
   | Threw _ => (0, 0, 0%nat)
   end) = (1, 1, 2%nat) ∧
  fst <$> DAGExecutor.compensations (DAGExecutor.trace (snd out)) =
    [Samples.call "cb" "b" None].
Proof. vm_compute. done. Qed.

(** A [dependsOn] reference to a call that is not in the plan is never
    resolved: the scheduler reports it as a cycle. *)
Example dangling_dependency_throws :
  DAGExecutor.execute DAGExecutor.in_batch_order Samples.retrying
    (Samples.plan_of [Samples.call "call1" "flaky" (Some ["missing"])]) tt
    Samples.world0 =
    (Threw (ThrownError (Error DAGExecutor.cycleMessage)), Samples.world0).
Proof. vm_compute. reflexivity. Qed.

(** The ordering invariant is not vacuous: in the saga both handlers are
    invoked, [charge] after the success of [reserve] was recorded. *)
Example saga_invocations :
  (λ ev, match ev with
         | DAGExecutor.HandlerInvoked c ctx =>
             Some (callId c, dom (previousResults ctx))
         | _ => None
         end) <$>
    DAGExecutor.trace
      (snd (DAGExecutor.execute DAGExecutor.in_batch_order Samples.saga Samples.saga_plan tt
              Samples.world0)) =
  [Some ("call1", ∅); Some ("call2", {[ "call1" ]}); None; None].
Proof. vm_compute. done. Qed.

(** * Further properties of the registry *)

Section RegistryExtras.

Context {W Val AppCtx : Type}.

Local Abbreviation ActionDefinition := (@ActionDefinition W Val AppCtx).
Local Abbreviation ActionRegistry := (@ActionRegistry W Val AppCtx).

Implicit Types (r : ActionRegistry) (action : ActionDefinition).

Lemma foldl_index_tag_dependencyGraph action l r :
  dependencyGraph (foldl (λ r x, index_tag action x r) r l) = dependencyGraph r.
Proof.
  revert r. induction l as [|x l IH]; intros r; simpl; [done|]. by rewrite IH.
Qed.

Lemma registered_dependencyGraph action r :
  dependencyGraph (registered action r) =
    dependencyGraph (foldl (λ r x, link_dependent action x r) r
                           (default [] (dependencies action))).
Proof.
  unfold registered, indexByTags, buildDependencyGraph.
  rewrite !for_of_modify. cbn [snd].
  assert (∀ l r1 r2, dependencyGraph r1 = dependencyGraph r2 →
            dependencyGraph (foldl (λ r x, link_dependent action x r) r1 l) =
            dependencyGraph (foldl (λ r x, link_dependent action x r) r2 l))
    as Hcongr.
  { induction l as [|x l IH]; intros r1 r2 Heq; simpl; [done|].
    apply IH. simpl. by rewrite Heq. }
  apply Hcongr. by rewrite foldl_index_tag_dependencyGraph.
Qed.

Lemma foldl_link_dependent_mem action l r dep j :
  (∃ s, dependencyGraph (foldl (λ r x, link_dependent action x r) r l) !! dep
          = Some s ∧ j ∈ s) ↔
  (∃ s, dependencyGraph r !! dep = Some s ∧ j ∈ s) ∨ (dep ∈ l ∧ j = id action).
Proof.
  revert r. induction l as [|x l IH]; intros r; simpl.
  - rewrite elem_of_nil. naive_solver.
  - rewrite IH, elem_of_cons. simpl.
    destruct (decide (dep = x)) as [->|Hne].
    + rewrite lookup_insert_eq. split.
      * intros [(s & [= <-] & Hj)|[? ?]]; [|by auto].
        apply OrdSet_elem_of_add in Hj as [->|Hj]; [by auto|].
        left. destruct (dependencyGraph r !! x) as [s|]; simpl in *;
          [by eauto|by apply elem_of_nil in Hj].
      * intros [(s & Hs & Hj)|[[_|?] ->]].
        -- left. eexists; split; [done|]. apply OrdSet_elem_of_add.
           right. by rewrite Hs.
        -- left. eexists; split; [done|]. apply OrdSet_elem_of_add. by left.
        -- by right.
    + rewrite lookup_insert_ne by done. naive_solver.
Qed.

Lemma foldl_link_dependent_NoDup action l r :
  (∀ dep s, dependencyGraph r !! dep = Some s → NoDup s) →
  ∀ dep s,
    dependencyGraph (foldl (λ r x, link_dependent action x r) r l) !! dep
      = Some s →
    NoDup s.
Proof.
  revert r. induction l as [|x l IH]; intros r Hr; simpl; [done|].
  apply IH. intros dep s. simpl.
  destruct (decide (dep = x)) as [->|Hne].
  - rewrite lookup_insert_eq. intros [= <-]. apply OrdSet_NoDup_add.
    destruct (dependencyGraph r !! x) as [s'|] eqn:Hx; simpl;
      [by eapply Hr|apply NoDup_nil_2].
  - rewrite lookup_insert_ne by done. apply Hr.
Qed.

Lemma dependents_inv_registered action r :
  actions r !! id action = None →
  dependents_inv r → dependents_inv (registered action r).
Proof.
  intros Hfresh (Hdep & Hnd).
  destruct (registered_fields action r) as (Ha & _ & _).
  split.
  - intros dep j.
    rewrite registered_dependencyGraph, Ha, foldl_link_dependent_mem, Hdep.
    split.
    + intros [(a & Haj & Hd)|[Hin ->]].
      * exists a. split; [|done]. rewrite lookup_insert_ne; [done|].
        intros <-. congruence.
      * exists action. by rewrite lookup_insert_eq.
    + intros (a & Haj & Hd).
      destruct (decide (j = id action)) as [->|Hne].
      * rewrite lookup_insert_eq in Haj. injection Haj as <-. by right.
      * rewrite lookup_insert_ne in Haj by done. left. by exists a.
  - rewrite registered_dependencyGraph. by apply foldl_link_dependent_NoDup.
Qed.

Lemma reachable_dependents_inv r : reachable r → dependents_inv r.
Proof.
  induction 1 as [|r action r' _ IH Hreg|r _ IH].
  - split; simpl.
    + intros dep j. rewrite lookup_empty.
      split; [intros (s & Hs & _)|intros (a & Ha & _)];
        by rewrite lookup_empty in *.
    + intros dep s. by rewrite lookup_empty.
  - apply register_returns in Hreg as ((_ & Hfresh & _) & _ & ->).
    by apply dependents_inv_registered.
  - done.
Qed.

Lemma validateDependencies_all_registered action r :
  (∀ d, d ∈ default [] (dependencies action) → is_Some (actions r !! d)) →
  validateDependencies action r = (Returned tt, r).
Proof.
  unfold validateDependencies.
  induction (default [] (dependencies action)) as [|dep deps IH]; [done|].
  intros Hall. cbn [for_of]. unfold bind at 1.
  rewrite bool_decide_eq_true_2 by (apply Hall; left). cbn.
  apply IH. intros d ?. apply Hall. by right.
Qed.

(** On a registry built by [register], the cycle check lets every
    definition with a fresh identifier pass. *)
Lemma detectCircularDependencies_passes r i deps :
  reachable r → actions r !! i = None →
  detectCircularDependencies i deps r = (Returned tt, r).
Proof.
  intros (rank & bound & Hinv)%reachable_dag_inv Hfresh.
  unfold detectCircularDependencies.
  pose proof (detectCircularDependencies_total i deps r) as Htot.
  destruct (detectCircularDependencies_rec _ _ _ _ _ _) as [[[]|e]|] eqn:Hd;
    [done| |done].
  exfalso. revert Hd. apply (detectCircularDependencies_rec_dag _ rank).
  - intros j a d Hj Hdin. by apply (Hinv _ _ Hj).
  - set_solver.
  - intros d _ _ v Hv. left. assert (v = i) as -> by set_solver. done.
Qed.

(** X1.  After a successful [register], [get] of the new identifier
    returns the registered definition, [get] of every other identifier is
    as before, and the registry is still unlocked. *)
Theorem register_get action r r' :
  register action r = (Returned tt, r') →
  get (id action) r' = Some action ∧
  (∀ j, j ≠ id action → get j r' = get j r) ∧
  isLocked r' = false.
Proof.
  intros (_ & Hlock & ->)%register_returns.
  destruct (registered_fields action r) as (Ha & _ & Hl).
  unfold get, isLocked. rewrite Ha, Hl. split_and!.
  - by rewrite lookup_insert_eq.
  - intros j Hj. by rewrite lookup_insert_ne.
  - done.
Qed.

(** X2.  Once a definition is registered, registering any definition with
    the same identifier fails with the already-registered error and leaves
    the registry unchanged. *)
Theorem register_duplicate action other r r' :
  register action r = (Returned tt, r') →
  id other = id action →
  register other r' =
    (Threw (Error (alreadyRegisteredMessage (id action))), r').
Proof.
  intros ((Hid & _) & Hlock & ->)%register_returns Heq.
  destruct (registered_fields action r) as (Ha & _ & Hl).
  rewrite register_unfold. unfold validateLockState. rewrite Hl, Hlock. cbn.
  unfold validateActionDefinition. rewrite Heq.
  rewrite (bool_decide_eq_false_2 _ Hid).
  rewrite bool_decide_eq_true_2; [done|].
  rewrite Ha, lookup_insert_eq. by eexists.
Qed.

(** X3.  Locking is one-way and final: on a locked registry, whatever
    sequence of [register] and [lock] calls follows, every [register] fails
    with the lock error and the registry stays exactly as it was. *)
Theorem locked_is_final (ops : list (@RegistryOp W Val AppCtx)) r :
  isLocked r = true →
  snd (run_ops ops r) = r ∧
  Forall (λ c, c = Threw (Error lockedMessage)) (fst (run_ops ops r)).
Proof.
  unfold isLocked. intros Hlock.
  assert (lock r = r) as Hlr by (destruct r; simpl in *; by subst).
  induction ops as [|[action|] ops IH]; cbn [run_ops].
  - done.
  - rewrite register_unfold. unfold validateLockState. rewrite Hlock. cbn.
    destruct (run_ops ops r) as [cs r2]. cbn in *. destruct IH as [-> IH].
    split; [done|]. by apply Forall_cons.
  - by rewrite Hlr.
Qed.

(** X4.  On a registry built by [register] and [lock], [register] succeeds
    exactly when the registry is unlocked, the definition is structurally
    valid (non-empty identifier not yet registered, description and
    argsSchema present) and every declared dependency is registered. *)
Theorem register_succeeds_iff action r :
  reachable r →
  (∃ r', register action r = (Returned tt, r')) ↔
  locked r = false ∧ valid_definition action r ∧
  ∀ d, d ∈ default [] (dependencies action) → is_Some (actions r !! d).
Proof.
  intros Hreach. split.
  - intros [r' Hreg]. pose proof Hreg as (Hv & Hl & _)%register_returns.
    split_and!; [done|done|].
    rewrite register_unfold in Hreg.
    destruct (validateLockState r) as [[[]|?] ?]; [|done].
    destruct (validateActionDefinition action r) as [[[]|?] ?]; [|done].
    destruct (validateDependencies action r) as [[[]|?] ?] eqn:Hd; [|done].
    by eapply validateDependencies_returns.
  - intros (Hl & Hv & Hdeps). exists (registered action r).
    rewrite register_unfold. unfold validateLockState. rewrite Hl. cbn.
    rewrite (validateActionDefinition_valid _ _ Hv).
    rewrite (validateDependencies_all_registered _ _ Hdeps).
    rewrite detectCircularDependencies_passes; [done|done|].
    by destruct Hv as (_ & ? & _).
Qed.

Lemma dag_inv_rank_tc r (rank : string → nat) i j :
  (∀ i a d, actions r !! i = Some a → d ∈ default [] (dependencies a) →
            (rank d < rank i)%nat) →
  tc (action_depends r) i j → (rank j < rank i)%nat.
Proof.
  intros Hrank Htc. induction Htc as [i j (a & Ha & Hd)|i k j (a & Ha & Hd) _ IH].
  - by eapply Hrank.
  - assert (rank k < rank i)%nat by by eapply Hrank. lia.
Qed.

(** X5.  A registry built by [register] and [lock] is always structurally
    executable: every dependency of a registered action is itself
    registered, and no registered action depends on itself, directly or
    through other actions. *)
Theorem reachable_registry_is_dag r :
  reachable r →
  (∀ i d, action_depends r i d → is_Some (get d r)) ∧
  (∀ i, ¬ tc (action_depends r) i i).
Proof.
  intros (rank & bound & Hinv)%reachable_dag_inv. split.
  - intros i d (a & Ha & Hd). by apply (Hinv _ _ Ha).
  - intros i Htc.
    apply (dag_inv_rank_tc r rank) in Htc; [lia|].
    intros j a d Hj Hd. by apply (Hinv _ _ Hj).
Qed.

(** X6.  On a registry built by [register] and [lock], [getDependents]
    returns, without repetition, exactly the identifiers of the registered
    actions that declare the given identifier as a dependency. *)
Theorem getDependents_spec r i :
  reachable r →
  NoDup (getDependents i r) ∧
  ∀ j, j ∈ getDependents i r ↔
       ∃ a, get j r = Some a ∧ i ∈ default [] (dependencies a).
Proof.
  intros (Hdep & Hnd)%reachable_dependents_inv. unfold getDependents, get.
  split.
  - destruct (dependencyGraph r !! i) as [s|] eqn:Hs; simpl;
      [by eapply Hnd|apply NoDup_nil_2].
  - intros j. rewrite <-Hdep.
    destruct (dependencyGraph r !! i) as [s|]; simpl.
    + naive_solver.
    + rewrite elem_of_nil. naive_solver.
Qed.

(** X7.  On a registry built by [register] and [lock], [getByTag] returns,
    without repetition and without undefined elements, exactly the
    registered actions that carry the tag; it agrees with [getByTags] on
    the one-element tag list. *)
Theorem getByTag_spec r tag :
  reachable r →
  NoDup (getByTag tag r) ∧
  (∀ oa, oa ∈ getByTag tag r ↔
         ∃ a, oa = Some a ∧ get (id a) r = Some a ∧
              tag ∈ default [] (tags a)) ∧
  getByTags [tag] r = getByTag tag r.
Proof.
  intros (Hid & Htag & Hnd)%reachable_registry_inv. unfold getByTag, get.
  assert (∀ i, i ∈ default OrdSet.empty (actionsByTag r !! tag) ↔
               ∃ a, actions r !! i = Some a ∧ tag ∈ default [] (tags a))
    as Hmem.
  { intros i. rewrite <-Htag.
    destruct (actionsByTag r !! tag) as [s|]; simpl.
    - naive_solver.
    - unfold OrdSet.empty. rewrite elem_of_nil. naive_solver. }
  assert (getByTags [tag] r =
          (λ i, actions r !! i) <$> default OrdSet.empty (actionsByTag r !! tag))
    as Hone by done.
  assert ((match actionsByTag r !! tag with
           | Some ids => (λ i, actions r !! i) <$> ids
           | None => []
           end) =
          (λ i, actions r !! i) <$> default OrdSet.empty (actionsByTag r !! tag))
    as -> by by destruct (actionsByTag r !! tag).
  split_and!; [| |done].
  - apply NoDup_fmap_2_strong.
    + intros i j (a & Ha & _)%Hmem (b & Hb & _)%Hmem Heq.
      rewrite Ha, Hb in Heq. injection Heq as ->.
      by rewrite <-(Hid _ _ Ha), <-(Hid _ _ Hb).
    + destruct (actionsByTag r !! tag) as [s|] eqn:Hs; simpl;
        [by eapply Hnd|apply NoDup_nil_2].
  - intros oa. rewrite list_elem_of_fmap. split.
    + intros (i & -> & (a & Ha & Ht)%Hmem). exists a.
      by rewrite (Hid _ _ Ha).
    + intros (a & -> & Ha & Ht). exists (id a). split; [done|].
      apply Hmem. by exists a.
Qed.

Lemma validateDependencies_threw action r e r' :
  validateDependencies action r = (Threw e, r') →
  ∃ dep, dep ∈ default [] (dependencies action) ∧ actions r !! dep = None ∧
         e = Error (unknownDependencyMessage (id action) dep).
Proof.
  unfold validateDependencies.
  induction (default [] (dependencies action)) as [|dep deps IH]; [done|].
  cbn [for_of]. unfold bind at 1. case_bool_decide as Hdep.
  - cbn. intros (d & ? & ? & ?)%IH. exists d. split; [by right|done].
  - intros [= <- <-]. exists dep. split_and!; [by left| |done].
    destruct (actions r !! dep) eqn:Hl; [|done]. destruct Hdep. by eexists.
Qed.

(** X8.  On a registry built by [register] and [lock], a failing
    [register] leaves the registry as it was, and its error is the lock
    error if the registry is locked, else one of the four structural
    errors if the definition is not valid, else the unknown-dependency
    error for a declared dependency that is not registered.  It is never a
    [CircularDependencyError]. *)
Theorem register_failure_cases action r e r' :
  reachable r →
  register action r = (Threw e, r') →
  r' = r ∧ ¬ is_CircularDependencyError e ∧
  ((locked r = true ∧ e = Error lockedMessage) ∨
   (locked r = false ∧ ¬ valid_definition action r ∧
    e ∈ [Error noIdMessage;
         Error (alreadyRegisteredMessage (id action));
         Error (noDescriptionMessage (id action));
         Error (noArgsSchemaMessage (id action))]) ∨
   (locked r = false ∧ valid_definition action r ∧
    ∃ dep, dep ∈ default [] (dependencies action) ∧
           actions r !! dep = None ∧
           e = Error (unknownDependencyMessage (id action) dep))).
Proof.
  intros Hreach Hreg.
  split; [by eapply register_failure_unchanged|].
  assert ((locked r = true ∧ e = Error lockedMessage) ∨
   (locked r = false ∧ ¬ valid_definition action r ∧
    e ∈ [Error noIdMessage;
         Error (alreadyRegisteredMessage (id action));
         Error (noDescriptionMessage (id action));
         Error (noArgsSchemaMessage (id action))]) ∨
   (locked r = false ∧ valid_definition action r ∧
    ∃ dep, dep ∈ default [] (dependencies action) ∧
           actions r !! dep = None ∧
           e = Error (unknownDependencyMessage (id action) dep))) as Hcases.
  { rewrite register_unfold in Hreg. unfold validateLockState in Hreg.
    destruct (locked r) eqn:Hl.
    { left. by injection Hreg as <- _. }
    right. cbn in Hreg.
    destruct (validateActionDefinition action r) as [[[]|e1] r1] eqn:Hv.
    - apply validateActionDefinition_returns in Hv.
      right. split_and!; [done|done|].
      destruct (validateDependencies action r) as [[[]|e2] r2] eqn:Hd.
      + rewrite detectCircularDependencies_passes in Hreg; [done|done|].
        by destruct Hv as (_ & ? & _).
      + injection Hreg as <- _. by eapply validateDependencies_threw.
    - left. injection Hreg as <- _. unfold validateActionDefinition in Hv.
      split; [done|].
      repeat case_bool_decide; try done; injection Hv as <- _.
      + split; [by intros (? & _)|]. set_solver.
      + split; [|set_solver]. intros (_ & Hnone & _).
        match goal with H : is_Some _ |- _ => rewrite Hnone in H; by destruct H end.
      + split; [by intros (_ & _ & ? & _)|]. set_solver.
      + split; [by intros (_ & _ & _ & ?)|]. set_solver. }
  split; [|done].
  intros [cycle ->].
  destruct Hcases as [[_ [=]]|[(_ & _ & Hin)|(_ & _ & dep & _ & _ & [=])]].
  set_solver.
Qed.

End RegistryExtras.

(** * Further facts about the scheduler *)

Section SchedulerExtras.

Context {W Val AppCtx : Type}.

(** The interleaving of the calls of a batch is arbitrary. *)
Context (sched : @DAGExecutor.Interleaving W Val AppCtx).

Local Abbreviation ActionDefinition := (@ActionDefinition W Val AppCtx).
Local Abbreviation ActionCall := (@ActionCall Val).
Local Abbreviation Executor := (@DAGExecutor.t W Val AppCtx).
Local Abbreviation Graph := (@DAGExecutor.Graph Val).
Local Abbreviation World := (@DAGExecutor.World W Val AppCtx).
Local Abbreviation Plan := (@DAGExecutor.Plan Val).

Implicit Types (this : Executor) (g : Graph) (P : gset string)
  (remaining : OrdSet.t) (inDegree : gmap string Z)
  (batch : list ActionCall) (batches : list (list ActionCall))
  (plan : Plan) (context : AppCtx) (w : World).

Lemma elem_of_concat {A} (x : A) (ls : list (list A)) :
  x ∈ concat ls ↔ ∃ l, x ∈ l ∧ l ∈ ls.
Proof.
  induction ls as [|l ls IH]; cbn [concat].
  - split; [by intros ?%elem_of_nil|by intros (? & _ & ?%elem_of_nil)].
  - rewrite elem_of_app, IH. split.
    + intros [?|(l' & ? & ?)]; [exists l; split; [done|by left]|].
      exists l'. split; [done|by right].
    + intros (l' & ? & [->|?]%elem_of_cons); [by left|right; by exists l'].
Qed.

(** A set of identifiers each of which has a dependency that is neither
    processed nor schedulable keeps the loop from emptying [remaining]. *)
Lemma kahn_loop_blocked g (S : string → Prop) fuel P remaining inDegree batches x :
  DAGExecutor.kahn_inv g P remaining inDegree →
  (∀ y, S y → y ∈ remaining ∧
        ∃ z, DAGExecutor.depends_on g y z ∧ (z ∉ P) ∧ (z ∈ remaining → S z)) →
  S x →
  DAGExecutor.kahn_loop fuel g remaining inDegree ≠ Some (Returned batches).
Proof.
  revert P remaining inDegree batches.
  induction fuel as [|fuel IH]; intros P remaining inDegree batches Hinv HS Hx.
  - destruct remaining; [|done].
    destruct (HS _ Hx) as [[]%elem_of_nil _].
  - destruct remaining as [|cid0 rem] eqn:Hrem.
    { destruct (HS _ Hx) as [[]%elem_of_nil _]. }
    rewrite <-Hrem in *.
    cbn [DAGExecutor.kahn_loop]. rewrite Hrem at 1.
    destruct (DAGExecutor.select_batch g remaining inDegree)
      as [|c batch] eqn:Hb; [done|].
    destruct (kahn_round _ _ _ _ Hinv) as [Hfst Hinv'].
    rewrite Hb in Hfst, Hinv'.
    destruct (DAGExecutor.kahn_loop fuel g _ _) as [[rest|]|] eqn:Hloop;
      [|done|done].
    exfalso. eapply (IH _ _ _ rest Hinv'); [|done|done].
    assert (∀ y, S y → y ∉ callId <$> c :: batch) as Hout.
    { intros y Hy (c' & Hcid & Hc')%list_elem_of_fmap. rewrite <-Hb in Hc'.
      destruct (HS _ Hy) as (_ & z & Hyz & HzP & _).
      destruct (select_batch_deps _ _ _ _ _ Hinv Hc')
        as (_ & _ & deps & Hd & Hsub).
      destruct Hyz as (deps' & Hd' & Hzin). rewrite Hcid, Hd in Hd'.
      injection Hd' as <-. set_solver. }
    intros y Hy. destruct (HS _ Hy) as (Hyrem & z & Hyz & HzP & Hz).
    split.
    { rewrite Hfst. apply list_elem_of_filter. split; [by apply Hout|done]. }
    exists z. split; [done|]. split.
    + intros [?|Hzb%elem_of_list_to_set]%elem_of_union; [done|].
      assert (z ∈ remaining) as Hzrem.
      { apply list_elem_of_fmap in Hzb as (c' & -> & Hc'). rewrite <-Hb in Hc'.
        by apply (select_batch_spec _ _ _ _ _ Hinv) in Hc' as (? & _). }
      by apply (Hout z (Hz Hzrem)).
    + rewrite Hfst. intros [_ ?]%list_elem_of_filter. by apply Hz.
Qed.

(** The only error the scheduler throws is the cycle error. *)
Lemma buildExecutionOrder_threw this (calls : list ActionCall) e :
  DAGExecutor.buildExecutionOrder this calls = Threw e →
  e = ThrownError (Error DAGExecutor.cycleMessage).
Proof.
  intros Hres. pose proof (buildExecutionOrder_total this calls) as Hopt.
  rewrite Hres in Hopt. unfold DAGExecutor.buildExecutionOrder_opt in Hopt.
  destruct calls; [done|]. by apply kahn_loop_threw in Hopt.
Qed.

(** Only calls of the plan have dependencies in the graph. *)
Lemma depends_on_source this (calls : list ActionCall) x y :
  DAGExecutor.depends_on (DAGExecutor.build_graph this calls) x y →
  x ∈ callId <$> calls.
Proof.
  intros (deps & Hx & _).
  destruct (decide (x ∈ callId <$> calls)) as [?|Hn]; [done|].
  destruct (build_graph_lookup this calls x) as [_ Hout].
  by rewrite (Hout Hn) in Hx.
Qed.

(** A dependency on an identifier that no call of the plan carries is
    never satisfied. *)
Lemma buildExecutionOrder_dangling this (calls : list ActionCall) x d :
  DAGExecutor.depends_on (DAGExecutor.build_graph this calls) x d →
  d ∉ callId <$> calls →
  DAGExecutor.buildExecutionOrder this calls =
    Threw (ThrownError (Error DAGExecutor.cycleMessage)).
Proof.
  intros Hdep Hd. set (g := DAGExecutor.build_graph this calls) in *.
  pose proof (depends_on_source _ _ _ _ Hdep) as Hx.
  pose proof (buildExecutionOrder_total this calls) as Hopt.
  unfold DAGExecutor.buildExecutionOrder_opt in Hopt.
  destruct calls as [|c calls]; [by apply elem_of_nil in Hx|].
  destruct (DAGExecutor.buildExecutionOrder this (c :: calls))
    as [batches|e] eqn:Hres.
  - exfalso.
    eapply (kahn_loop_blocked g (λ y, y = x)); [| |reflexivity|exact Hopt].
    + apply kahn_inv_initial.
    + intros y ->. split; [by apply OrdSet_elem_of_of_list|].
      exists d. split; [done|]. split; [set_solver|].
      intros Hin. rewrite OrdSet_elem_of_of_list in Hin. by destruct Hd.
  - apply kahn_loop_threw in Hopt. by rewrite Hopt.
Qed.

(** A plan that is scheduled has neither a cycle nor a dangling
    dependency. *)
Lemma buildExecutionOrder_returned_inv this (calls : list ActionCall) batches :
  DAGExecutor.buildExecutionOrder this calls = Returned batches →
  DAGExecutor.acyclic (DAGExecutor.build_graph this calls) ∧
  DAGExecutor.deps_in_plan (DAGExecutor.build_graph this calls) calls.
Proof.
  intros Hres. split.
  - intros x Hcyc. apply buildExecutionOrder_cycle in Hcyc. congruence.
  - intros x y Hdep.
    destruct (decide (y ∈ callId <$> calls)) as [?|Hn]; [done|].
    pose proof (buildExecutionOrder_dangling _ _ _ _ Hdep Hn). congruence.
Qed.

(** X9. [execute] returns a result exactly for the plans whose call graph
    has no cycle and no dependency on an identifier outside the plan; for
    every other plan it throws the cycle error and leaves the world as it
    was: no handler and no compensation has run. *)
Theorem execute_returns_iff this plan context w :
  let g := DAGExecutor.build_graph this (DAGExecutor.calls plan) in
  ((∃ res w', DAGExecutor.execute sched this plan context w = (Returned res, w')) ↔
   DAGExecutor.acyclic g ∧ DAGExecutor.deps_in_plan g (DAGExecutor.calls plan)) ∧
  (¬ (DAGExecutor.acyclic g ∧ DAGExecutor.deps_in_plan g (DAGExecutor.calls plan)) →
   DAGExecutor.execute sched this plan context w =
     (Threw (ThrownError (Error DAGExecutor.cycleMessage)), w)).
Proof.
  intros g.
  assert ((∃ res w', DAGExecutor.execute sched this plan context w = (Returned res, w'))
          → DAGExecutor.acyclic g ∧
            DAGExecutor.deps_in_plan g (DAGExecutor.calls plan)) as Hinv.
  { intros (res & w' & Hex).
    destruct (DAGExecutor.buildExecutionOrder this (DAGExecutor.calls plan))
      as [batches|e] eqn:Hord.
    - by eapply buildExecutionOrder_returned_inv.
    - by rewrite (execute_threw _ _ _ _ _ _ Hord) in Hex. }
  split; [split; [done|]|].
  - intros [Hacyc Hdeps]. by apply execute_acyclic_returns.
  - intros Hnot.
    destruct (DAGExecutor.buildExecutionOrder this (DAGExecutor.calls plan))
      as [batches|e] eqn:Hord.
    + destruct Hnot. by eapply buildExecutionOrder_returned_inv.
    + rewrite (execute_threw _ _ _ _ _ _ Hord).
      by rewrite (buildExecutionOrder_threw _ _ _ Hord).
Qed.

(** The first round of a loop that returns a non-empty schedule. *)
Lemma kahn_loop_cons_inv g fuel remaining inDegree batch batches :
  DAGExecutor.kahn_loop fuel g remaining inDegree =
    Some (Returned (batch :: batches)) →
  ∃ fuel',
    batch = DAGExecutor.select_batch g remaining inDegree ∧
    batch ≠ [] ∧
    DAGExecutor.kahn_loop fuel' g
      (fst (DAGExecutor.remove_processed g batch (remaining, inDegree)))
      (snd (DAGExecutor.remove_processed g batch (remaining, inDegree))) =
      Some (Returned batches).
Proof.
  destruct fuel as [|fuel]; [by destruct remaining|].
  destruct remaining as [|cid0 rem] eqn:Hrem; [done|].
  rewrite <-Hrem. cbn [DAGExecutor.kahn_loop]. rewrite Hrem at 1.
  destruct (DAGExecutor.select_batch g remaining inDegree)
    as [|c b] eqn:Hb; [done|].
  destruct (DAGExecutor.kahn_loop fuel g _ _) as [[rest|]|] eqn:Hloop;
    [|done|done].
  intros [= <- <-]. exists fuel. by rewrite Hloop.
Qed.

(** No batch of a schedule is empty. *)
Lemma kahn_loop_nonempty g fuel remaining inDegree batches :
  DAGExecutor.kahn_loop fuel g remaining inDegree = Some (Returned batches) →
  Forall (λ batch, batch ≠ []) batches.
Proof.
  revert fuel remaining inDegree.
  induction batches as [|batch batches IH]; intros fuel remaining inDegree Hloop;
    [done|].
  apply kahn_loop_cons_inv in Hloop as (fuel' & _ & Hne & Hloop).
  constructor; [done|by eapply IH].
Qed.

(** Every call of a batch after the first has a dependency in the batch
    right before it. *)
Lemma kahn_loop_earliest g fuel P remaining inDegree batch batches :
  DAGExecutor.kahn_inv g P remaining inDegree →
  DAGExecutor.kahn_loop fuel g remaining inDegree =
    Some (Returned (batch :: batches)) →
  earliest g batch batches.
Proof.
  revert fuel P remaining inDegree batch.
  induction batches as [|next batches IH];
    intros fuel P remaining inDegree batch Hinv Hloop; [done|].
  apply kahn_loop_cons_inv in Hloop as (fuel' & Hb & _ & Hloop).
  destruct (kahn_round _ _ _ _ Hinv) as [Hfst Hinv']. rewrite <-Hb in Hfst, Hinv'.
  cbn [earliest]. split; [|by eapply IH].
  intros c Hc.
  apply kahn_loop_cons_inv in Hloop as (_ & Hn & _ & _).
  rewrite Hn in Hc.
  pose proof (select_batch_deps _ _ _ _ _ Hinv' Hc) as (Hmap & _ & deps & Hd & Hsub).
  apply (select_batch_spec _ _ _ _ _ Hinv') in Hc as (Hrem' & _ & _).
  rewrite Hfst in Hrem'. apply list_elem_of_filter in Hrem' as [Hnb Hrem].
  destruct (decide (deps ∖ P = ∅)) as [HP|HP].
  - destruct Hnb. apply list_elem_of_fmap. exists c. split; [done|].
    rewrite Hb. apply (select_batch_spec _ _ _ _ _ Hinv).
    split_and!; [done|done|].
    destruct Hinv as [_ Hinv]. destruct (Hinv _ Hrem) as (_ & c' & deps' & _ & _ & Hd' & Hdeg).
    rewrite Hd in Hd'. injection Hd' as <-. rewrite Hdeg.
    by rewrite HP.
  - apply set_choose_L in HP as (d & [Hdin HdP]%elem_of_difference).
    exists d. split; [by exists deps|].
    apply Hsub in Hdin. apply elem_of_union in Hdin as [?|Hdin]; [done|].
    by apply elem_of_list_to_set in Hdin.
Qed.

(** The dependencies of a call of a schedule are processed before its
    batch. *)
Lemma scheduled_split g P pre batch post c :
  DAGExecutor.scheduled g P (pre ++ batch :: post) → c ∈ batch →
  DAGExecutor.callMap g !! callId c = Some c ∧
  ∃ deps, DAGExecutor.graph g !! callId c = Some deps ∧
          deps ⊆ P ∪ list_to_set (callId <$> concat pre).
Proof.
  revert P. induction pre as [|b pre IH]; intros P Hs Hc.
  - destruct Hs as (_ & Hb & _). destruct (Hb _ Hc) as (? & _ & deps & ? & ?).
    split; [done|]. exists deps. split; [done|]. set_solver.
  - destruct Hs as (_ & _ & Hs). destruct (IH _ Hs Hc) as (? & deps & ? & ?).
    split; [done|]. exists deps. split; [done|].
    rewrite concat_cons, fmap_app. set_solver.
Qed.

(** Every scheduled call is a call of the plan. *)
Lemma buildExecutionOrder_calls this (calls : list ActionCall) batches c :
  DAGExecutor.buildExecutionOrder this calls = Returned batches →
  c ∈ concat batches → c ∈ calls.
Proof.
  intros Hres (batch & Hc & Hb)%elem_of_concat.
  set (g := DAGExecutor.build_graph this calls).
  destruct (buildExecutionOrder_scheduled _ _ _ Hres) as [Hs Hcover].
  fold g in Hs.
  apply list_elem_of_split in Hb as (pre & post & ->).
  destruct (scheduled_split _ _ _ _ _ _ Hs Hc) as (Hmap & _).
  assert (callId c ∈ callId <$> calls) as Hin.
  { apply Hcover, list_elem_of_fmap. exists c. split; [done|].
    apply elem_of_concat. exists batch. split; [done|].
    apply elem_of_app. right. by left. }
  destruct (build_graph_lookup this calls (callId c)) as [Hl _].
  destruct (Hl Hin) as (c' & Hc' & _ & Hmap' & _).
  fold g in Hmap'. rewrite Hmap in Hmap'. by injection Hmap' as <-.
Qed.

(** X10. The batches that [buildExecutionOrder] returns partition the calls
    of the plan by identifier: no batch is empty, no identifier is
    scheduled twice, the scheduled identifiers are those of the plan, and
    each scheduled call is a call of the plan.  Every dependency of a call
    is scheduled in a strictly earlier batch. *)
Theorem buildExecutionOrder_partition this (calls : list ActionCall) batches :
  DAGExecutor.buildExecutionOrder this calls = Returned batches →
  Forall (λ batch, batch ≠ []) batches ∧
  NoDup (callId <$> concat batches) ∧
  (∀ cid, cid ∈ callId <$> calls ↔ cid ∈ callId <$> concat batches) ∧
  (∀ c, c ∈ concat batches → c ∈ calls) ∧
  (∀ pre batch post c d,
     batches = pre ++ batch :: post → c ∈ batch →
     DAGExecutor.depends_on (DAGExecutor.build_graph this calls) (callId c) d →
     d ∈ callId <$> concat pre).
Proof.
  intros Hres. set (g := DAGExecutor.build_graph this calls).
  destruct (buildExecutionOrder_scheduled _ _ _ Hres) as [Hs Hcover].
  fold g in Hs. split_and!.
  - pose proof (buildExecutionOrder_total this calls) as Hopt.
    rewrite Hres in Hopt. unfold DAGExecutor.buildExecutionOrder_opt in Hopt.
    destruct calls; [by injection Hopt as <-|]. by eapply kahn_loop_nonempty.
  - by apply (scheduled_NoDup _ _ _ Hs).
  - done.
  - intros c. by apply (buildExecutionOrder_calls this).
  - intros pre batch post c d -> Hc (deps & Hd & Hdin).
    destruct (scheduled_split _ _ _ _ _ _ Hs Hc) as (_ & deps' & Hd' & Hsub).
    rewrite Hd in Hd'. injection Hd' as <-.
    apply Hsub in Hdin. apply elem_of_union in Hdin as [[]%elem_of_empty|Hdin].
    by apply elem_of_list_to_set in Hdin.
Qed.

(** X11. The schedule is the earliest possible: the calls of the first
    batch have no dependency at all, and every call of a later batch has a
    dependency in the batch right before its own, so that no call could
    run one batch earlier. *)
Theorem buildExecutionOrder_earliest this (calls : list ActionCall)
    batch batches :
  DAGExecutor.buildExecutionOrder this calls = Returned (batch :: batches) →
  (∀ c d, c ∈ batch →
     ¬ DAGExecutor.depends_on (DAGExecutor.build_graph this calls) (callId c) d) ∧
  earliest (DAGExecutor.build_graph this calls) batch batches.
Proof.
  intros Hres. set (g := DAGExecutor.build_graph this calls).
  destruct (buildExecutionOrder_scheduled _ _ _ Hres) as [Hs _]. fold g in Hs.
  split.
  - intros c d Hc (deps & Hd & Hdin).
    destruct Hs as (_ & Hb & _).
    destruct (Hb _ Hc) as (_ & _ & deps' & Hd' & Hsub).
    rewrite Hd in Hd'. injection Hd' as <-. set_solver.
  - pose proof (buildExecutionOrder_total this calls) as Hopt.
    rewrite Hres in Hopt. unfold DAGExecutor.buildExecutionOrder_opt in Hopt.
    destruct calls; [done|].
    eapply kahn_loop_earliest; [apply kahn_inv_initial|exact Hopt].
Qed.

End SchedulerExtras.

(** * Further facts about executions *)

Section ExecutionExtras.

Context {W Val AppCtx : Type}.

(** The interleaving of the calls of a batch is arbitrary. *)
Context (sched : @DAGExecutor.Interleaving W Val AppCtx).

Local Abbreviation ActionDefinition := (@ActionDefinition W Val AppCtx).
Local Abbreviation ActionCall := (@ActionCall Val).
Local Abbreviation ResultEntry := (@ResultEntry Val).
Local Abbreviation ExecutionContext := (@ExecutionContext Val AppCtx).
Local Abbreviation Executor := (@DAGExecutor.t W Val AppCtx).
Local Abbreviation World := (@DAGExecutor.World W Val AppCtx).
Local Abbreviation Event := (@DAGExecutor.Event Val AppCtx).
Local Abbreviation Plan := (@DAGExecutor.Plan Val).
Local Abbreviation State := (@DAGExecutor.State Val).
Local Abbreviation Graph := (@DAGExecutor.Graph Val).
Local Abbreviation ExecutionResult := (@DAGExecutor.ExecutionResult Val).

Implicit Types (this : Executor) (call c : ActionCall) (ctx : ExecutionContext)
  (w : World) (h : @Handler W Val AppCtx) (rc : RetryConfig)
  (batch cs : list ActionCall) (batches : list (list ActionCall))
  (rs : list ResultEntry) (results : gmap string ResultEntry)
  (st : State) (plan : Plan) (context : AppCtx) (g : Graph)
  (P : gset string) (evs : list Event) (res : ExecutionResult).

(** *** Where recorded outcomes come from *)

Lemma executeBatch_outcomes this ctx batch w :
  NoDup (callId <$> batch) →
  ∃ rs evs,
    length rs = length batch ∧
    OrdMap.entries (fst (DAGExecutor.executeBatch sched this batch ctx w)) =
      DAGExecutor.entries_of batch rs ∧
    DAGExecutor.trace (snd (DAGExecutor.executeBatch sched this batch ctx w)) =
      DAGExecutor.trace w ++ evs ∧
    Forall (DAGExecutor.batch_event batch ctx) evs ∧
    Forall2 (outcome_of this) batch rs.
Proof.
  intros Hnd. unfold DAGExecutor.executeBatch.
  destruct (run_calls_outcomes sched this ctx batch w)
    as (rs & evs & Hlen & Hrs & Htr & Hevs & Hout).
  destruct (DAGExecutor.run_calls sched this ctx batch w) as [es w'].
  cbn [fst snd] in *. subst es. exists rs, evs. split_and!; try done.
  unfold OrdMap.entries, OrdMap.empty.
  rewrite OrdMap_of_distinct; [done|].
  by rewrite entries_of_keys.
Qed.

(** One round of [execute]'s loop over the batches. *)
Lemma run_batches_step this plan context batch batches st w :
  NoDup (callId <$> batch) →
  ∃ rs evs w1,
    length rs = length batch ∧
    Forall2 (outcome_of this) batch rs ∧
    DAGExecutor.trace w1 = DAGExecutor.trace w ++ evs ∧
    Forall (DAGExecutor.batch_event batch
              (DAGExecutor.mk_ctx plan context (DAGExecutor.st_results st)))
           evs ∧
    ((Forall (λ r, error r = None) rs ∧
      DAGExecutor.run_batches sched this plan context (batch :: batches) st w =
        DAGExecutor.run_batches sched this plan context batches
          (DAGExecutor.advance st batch rs) w1) ∨
     (∃ cs1 c cs2 rs1 r rs2,
        batch = cs1 ++ c :: cs2 ∧ rs = rs1 ++ r :: rs2 ∧
        length rs1 = length cs1 ∧
        Forall (λ r, error r = None) rs1 ∧ is_Some (error r) ∧
        DAGExecutor.run_batches sched this plan context (batch :: batches) st w =
          (DAGExecutor.fail_result st (cs1 ++ [c]) (rs1 ++ [r]),
           if truthy (enableCompensation (DAGExecutor.config this))
           then DAGExecutor.compensate this
                  (DAGExecutor.st_executedCalls st ++ cs1 ++ [c])
                  (DAGExecutor.results
                     (DAGExecutor.fail_result st (cs1 ++ [c]) (rs1 ++ [r])))
                  (DAGExecutor.mk_ctx plan context
                     (DAGExecutor.results
                        (DAGExecutor.fail_result st (cs1 ++ [c]) (rs1 ++ [r]))))
                  w1
           else w1))).
Proof.
  intros Hnd. cbn [DAGExecutor.run_batches].
  destruct (executeBatch_outcomes this
              (DAGExecutor.mk_ctx plan context (DAGExecutor.st_results st))
              batch w Hnd) as (rs & evs & Hlen & Hes & Htr & Hevs & Hout).
  destruct (DAGExecutor.executeBatch sched this batch _ w) as [batchResults w1].
  cbn [fst snd] in *. rewrite Hes.
  exists rs, evs, w1. split_and!; try done.
  destruct (first_failure batch rs Hlen)
    as [Hall|(cs1 & c & cs2 & rs1 & r & rs2 & -> & -> & Hl & Hall & Hr)].
  - left. split; [done|]. by rewrite merge_all_succeeded.
  - right. exists cs1, c, cs2, rs1, r, rs2. split_and!; try done.
    by rewrite merge_first_failure.
Qed.

Lemma record_all_lookup_entry (es : list (string * ResultEntry)) results k e :
  DAGExecutor.record_all es results !! k = Some e →
  (k, e) ∈ es ∨ results !! k = Some e.
Proof.
  revert results. induction es as [|[k' e'] es IH]; intros results; [by right|].
  cbn. intros [Hin|Hl]%IH; [left; by right|].
  destruct (decide (k' = k)) as [->|Hne].
  - rewrite lookup_insert_eq in Hl. injection Hl as ->. left. by left.
  - rewrite lookup_insert_ne in Hl by done. by right.
Qed.

Lemma entries_of_outcome this cs rs k e :
  Forall2 (outcome_of this) cs rs →
  (k, e) ∈ DAGExecutor.entries_of cs rs →
  ∃ c, c ∈ cs ∧ callId c = k ∧ outcome_of this c e.
Proof.
  induction 1 as [|c r cs rs Hc Hall IH]; cbn.
  - by intros ?%elem_of_nil.
  - intros [[= -> ->]|Hin]%elem_of_cons.
    + exists c. split_and!; [by left|done|done].
    + destruct (IH Hin) as (c' & ? & ? & ?). exists c'. split_and!; [by right|done|done].
Qed.

Lemma invoked_within_app plan context batches batches' (ev : Event) :
  invoked_within plan context batches ev →
  invoked_within plan context (batches ++ batches') ev.
Proof.
  destruct ev as [c ctx| | |]; try done.
  intros (pre & batch & post & -> & ?).
  exists pre, batch, (post ++ batches'). split; [|done].
  by rewrite <-app_assoc.
Qed.

Lemma batch_event_invoked_within plan context pre batch post results (ev : Event) :
  dom results = list_to_set (callId <$> concat pre) →
  DAGExecutor.all_succeeded results →
  DAGExecutor.batch_event batch (DAGExecutor.mk_ctx plan context results) ev →
  invoked_within plan context (pre ++ batch :: post) ev.
Proof.
  intros Hdom Hall [(c & Hc & ->)|(ms & ->)]; [|done].
  exists pre, batch, post. by split_and!.
Qed.

Lemma compensation_event_invoked_within plan context batches (ev : Event) :
  DAGExecutor.compensation_event ev → invoked_within plan context batches ev.
Proof. by destruct ev. Qed.

Lemma batch_event_not_compensation batch ctx (ev : Event) :
  DAGExecutor.batch_event batch ctx ev → ¬ DAGExecutor.compensation_event ev.
Proof. intros [(c & _ & ->)|(ms & ->)]; by intros []. Qed.

(** Recording the outcomes of fresh identifiers keeps what was recorded. *)
Lemma record_all_lookup_ne (es : list (string * ResultEntry)) results k :
  k ∉ es.*1 → DAGExecutor.record_all es results !! k = results !! k.
Proof.
  revert results. induction es as [|[k' e'] es IH]; intros results; [done|].
  rewrite fmap_cons. intros [Hne Hk]%not_elem_of_cons. cbn [fst] in Hne.
  change (DAGExecutor.record_all ((k', e') :: es) results)
    with (DAGExecutor.record_all es (<[k':=e']> results)).
  rewrite IH by done. by rewrite lookup_insert_ne.
Qed.

Lemma record_all_fresh (es : list (string * ResultEntry)) results :
  (∀ k, k ∈ es.*1 → k ∉ dom results) →
  results ⊆ DAGExecutor.record_all es results.
Proof.
  intros Hfresh. apply map_subseteq_spec. intros k e Hl.
  rewrite record_all_lookup_ne; [done|]. intros Hk.
  apply (Hfresh _ Hk). by apply elem_of_dom.
Qed.

(** The results map only grows: what a handler is shown as previous
    results is part of what the execution returns. *)
Lemma run_batches_contexts this plan context g P batches st w :
  DAGExecutor.scheduled g P batches →
  dom (DAGExecutor.st_results st) = P →
  let out := DAGExecutor.run_batches sched this plan context batches st w in
  DAGExecutor.st_results st ⊆ DAGExecutor.results (fst out) ∧
  ∃ evs,
    DAGExecutor.trace (snd out) = DAGExecutor.trace w ++ evs ∧
    ∀ c ctx, DAGExecutor.HandlerInvoked c ctx ∈ evs →
             previousResults ctx ⊆ DAGExecutor.results (fst out).
Proof.
  revert P st w.
  induction batches as [|batch batches IH]; intros P st w Hs Hdom out.
  { subst out. split; [done|]. exists []. rewrite app_nil_r.
    split; [done|]. by intros c ctx ?%elem_of_nil. }
  destruct Hs as (Hnd & Hb & Hs).
  assert (∀ cs rs, length rs = length cs → (∀ c, c ∈ cs → c ∈ batch) →
            DAGExecutor.st_results st ⊆
              DAGExecutor.record_all (DAGExecutor.entries_of cs rs)
                (DAGExecutor.st_results st)) as Hgrow.
  { intros cs rs Hlen Hsub. apply record_all_fresh. intros k.
    rewrite entries_of_keys by done.
    intros (c & -> & Hc)%list_elem_of_fmap. rewrite Hdom.
    by destruct (Hb _ (Hsub _ Hc)) as (_ & ? & _). }
  destruct (run_batches_step this plan context batch batches st w Hnd)
    as (rs & evs1 & w1 & Hlen & _ & Htr1 & Hevs1 &
        [[Hok Heq]|(cs1 & c & cs2 & rs1 & r & rs2 & -> & -> & Hl & Hok & Hr & Heq)]).
  - subst out. rewrite Heq.
    destruct (IH (P ∪ list_to_set (callId <$> batch))
                (DAGExecutor.advance st batch rs) w1 Hs)
      as (Hsub & evs2 & Htr2 & Hctx).
    { cbn. by rewrite dom_record_all, entries_of_keys, Hdom. }
    assert (DAGExecutor.st_results st ⊆
            DAGExecutor.results
              (DAGExecutor.run_batches sched this plan context batches
                 (DAGExecutor.advance st batch rs) w1).1) as Hst.
    { etrans; [|exact Hsub]. cbn. by apply Hgrow. }
    split; [done|]. exists (evs1 ++ evs2).
    split; [by rewrite Htr2, Htr1, app_assoc|].
    intros c ctx [Hin|Hin]%elem_of_app; [|by apply (Hctx c)].
    apply (proj1 (Forall_forall _ _) Hevs1) in Hin
      as [(c' & _ & [= _ ->])|(ms & ?)]; done.
  - subst out. rewrite Heq. cbn [fst snd].
    assert (DAGExecutor.st_results st ⊆
            DAGExecutor.results
              (DAGExecutor.fail_result st (cs1 ++ [c]) (rs1 ++ [r]))) as Hst.
    { cbn. apply Hgrow; [rewrite !length_app; cbn; lia|].
      intros c' [?|Hc']%elem_of_app; apply elem_of_app; [by left|].
      apply list_elem_of_singleton in Hc' as ->. right. left. }
    split; [done|].
    set (w2 := if truthy (enableCompensation (DAGExecutor.config this))
               then _ else w1).
    assert (∃ evs2, DAGExecutor.trace w2 = DAGExecutor.trace w1 ++ evs2 ∧
                    Forall DAGExecutor.compensation_event evs2)
      as (evs2 & Htr2 & Hevs2).
    { subst w2. destruct (truthy _).
      - destruct (compensate_spec this
                    (DAGExecutor.st_executedCalls st ++ cs1 ++ [c])
                    (DAGExecutor.results
                       (DAGExecutor.fail_result st (cs1 ++ [c]) (rs1 ++ [r])))
                    (DAGExecutor.mk_ctx plan context
                       (DAGExecutor.results
                          (DAGExecutor.fail_result st (cs1 ++ [c]) (rs1 ++ [r]))))
                    w1) as (evs2 & ? & ? & _).
        by exists evs2.
      - exists []. by rewrite app_nil_r. }
    exists (evs1 ++ evs2). split; [by rewrite Htr2, Htr1, app_assoc|].
    intros c' ctx [Hin|Hin]%elem_of_app.
    + apply (proj1 (Forall_forall _ _) Hevs1) in Hin
        as [(c'' & _ & [= _ ->])|(ms & ?)]; done.
    + by apply (proj1 (Forall_forall _ _) Hevs2) in Hin.
Qed.

(** What a run of the batches leaves behind: either every batch ran and
    every call succeeded, or the run stopped at the first failed call of
    some batch. *)
Lemma run_batches_outcome this plan context done batches st w :
  Forall (λ batch, NoDup (callId <$> batch)) batches →
  dom (DAGExecutor.st_results st) = list_to_set (callId <$> concat done) →
  DAGExecutor.all_succeeded (DAGExecutor.st_results st) →
  let out := DAGExecutor.run_batches sched this plan context batches st w in
  ∃ evs,
    DAGExecutor.trace (snd out) = DAGExecutor.trace w ++ evs ∧
    (∀ cid e, DAGExecutor.results (fst out) !! cid = Some e →
       DAGExecutor.st_results st !! cid = Some e ∨
       ∃ c, c ∈ concat batches ∧ callId c = cid ∧ outcome_of this c e) ∧
    ((DAGExecutor.failed (fst out) = DAGExecutor.st_failed st ∧
      DAGExecutor.succeeded (fst out) =
        DAGExecutor.st_succeeded st + Z.of_nat (length (concat batches)) ∧
      dom (DAGExecutor.results (fst out)) =
        list_to_set (callId <$> concat (done ++ batches)) ∧
      DAGExecutor.all_succeeded (DAGExecutor.results (fst out)) ∧
      Forall (λ ev, ¬ DAGExecutor.compensation_event ev) evs ∧
      Forall (invoked_within plan context (done ++ batches)) evs) ∨
     (∃ pre batch post cs1 c cs2 e,
        batches = pre ++ batch :: post ∧ batch = cs1 ++ c :: cs2 ∧
        DAGExecutor.failed (fst out) = DAGExecutor.st_failed st + 1 ∧
        DAGExecutor.succeeded (fst out) =
          DAGExecutor.st_succeeded st +
          Z.of_nat (length (concat pre ++ cs1)) ∧
        dom (DAGExecutor.results (fst out)) =
          list_to_set (callId <$> concat done ++ concat pre ++ cs1 ++ [c]) ∧
        DAGExecutor.results (fst out) !! callId c = Some e ∧
        is_Some (error e) ∧
        (∀ cid' e', DAGExecutor.results (fst out) !! cid' = Some e' →
                    cid' ≠ callId c → error e' = None) ∧
        (truthy (enableCompensation (DAGExecutor.config this)) = false →
         Forall (λ ev, ¬ DAGExecutor.compensation_event ev) evs) ∧
        Forall (invoked_within plan context (done ++ pre ++ [batch])) evs)).
Proof.
  revert done st w.
  induction batches as [|batch batches IH]; intros done st w Hnd Hdom Hall out.
  { exists []. subst out. cbn. rewrite !app_nil_r. split_and!; [done|by left|].
    left. by split_and!; [done|lia|done|done|done|]. }
  apply Forall_cons in Hnd as [Hb Hnd].
  destruct (run_batches_step this plan context batch batches st w Hb)
    as (rs & evs1 & w1 & Hlen & Hout & Htr1 & Hevs1 &
        [[Hok Heq]|(cs1 & c & cs2 & rs1 & r & rs2 & -> & -> & Hl & Hok & Hr & Heq)]).
  - subst out. rewrite Heq.
    assert (dom (DAGExecutor.st_results (DAGExecutor.advance st batch rs)) =
            list_to_set (callId <$> concat (done ++ [batch]))) as Hdom'.
    { cbn. rewrite dom_record_all, entries_of_keys, Hdom by done.
      rewrite concat_app, fmap_app, list_to_set_app_L. cbn.
      by rewrite app_nil_r. }
    assert (DAGExecutor.all_succeeded
              (DAGExecutor.st_results (DAGExecutor.advance st batch rs)))
      as Hall' by by apply all_succeeded_record.
    destruct (IH (done ++ [batch]) _ w1 Hnd Hdom' Hall')
      as (evs2 & Htr2 & Hprov & Hcase).
    exists (evs1 ++ evs2). split_and!.
    + by rewrite Htr2, Htr1, app_assoc.
    + intros cid e Hl.
      destruct (Hprov _ _ Hl) as [Hl'|(c & Hc & Hid & Hq)].
      * cbn in Hl'. apply record_all_lookup_entry in Hl' as [Hin|?]; [|by left].
        right. destruct (entries_of_outcome _ _ _ _ _ Hout Hin) as (c & ? & ? & ?).
        exists c. split_and!; [|done|done]. rewrite concat_cons.
        apply elem_of_app. by left.
      * right. exists c. split_and!; [|done|done]. rewrite concat_cons.
        apply elem_of_app. by right.
    + assert (Forall (λ ev, ¬ DAGExecutor.compensation_event ev) evs1) as Hnc1.
      { eapply Forall_impl; [exact Hevs1|]. intros ev.
        apply batch_event_not_compensation. }
      assert (Forall (invoked_within plan context (done ++ batch :: batches))
                evs1) as Hev1.
      { eapply Forall_impl; [exact Hevs1|]. intros ev.
        by apply batch_event_invoked_within. }
      destruct Hcase as [(Hf & Hs & Hd & Ha & Hc & Hev)|
        (pre & b & post & cs1 & c & cs2 & e & -> & -> & Hf & Hs & Hd & Hl & He & Hoth & Hoff & Hev)].
      * left. split_and!.
        -- done.
        -- rewrite Hs. cbn. rewrite length_app. lia.
        -- rewrite Hd. by rewrite <-app_assoc.
        -- done.
        -- by apply Forall_app.
        -- apply Forall_app. split; [done|]. by rewrite <-app_assoc in Hev.
      * right. exists (batch :: pre), (cs1 ++ c :: cs2), post, cs1, c, cs2, e.
        split_and!; try done.
        -- rewrite Hs. cbn. rewrite !length_app. lia.
        -- rewrite Hd. rewrite concat_app. cbn. rewrite app_nil_r.
           by rewrite <-!app_assoc.
        -- intros Hno. apply Forall_app. split; [done|by apply Hoff].
        -- apply Forall_app. split.
           ++ eapply Forall_impl; [exact Hevs1|]. intros ev Hev'.
              cbn. eapply (batch_event_invoked_within _ _ done batch
                             (pre ++ [cs1 ++ c :: cs2])); done.
           ++ by rewrite <-app_assoc in Hev.
  - subst out. rewrite Heq. cbn [fst snd].
    assert (DAGExecutor.results
              (DAGExecutor.fail_result st (cs1 ++ [c]) (rs1 ++ [r])) =
            <[callId c := r]>
              (DAGExecutor.record_all (DAGExecutor.entries_of cs1 rs1)
                 (DAGExecutor.st_results st))) as Hres.
    { cbn. by rewrite entries_of_snoc, record_all_snoc. }
    apply Forall2_app_inv_l in Hout as (rs1' & rs2' & Hout1 & Hout2 & Heqrs).
    apply app_inj_1 in Heqrs as [<- <-];
      [|by rewrite <-(Forall2_length _ _ _ Hout1)].
    apply Forall2_cons in Hout2 as [Hqc Hout2].
    set (w2 := if truthy (enableCompensation (DAGExecutor.config this))
               then _ else w1).
    assert (∃ evs2, DAGExecutor.trace w2 = DAGExecutor.trace w1 ++ evs2 ∧
                    Forall DAGExecutor.compensation_event evs2 ∧
                    (truthy (enableCompensation (DAGExecutor.config this)) = false
                     → evs2 = []))
      as (evs2 & Htr2 & Hevs2 & Hoff2).
    { subst w2. destruct (truthy _).
      - destruct (compensate_spec this
                    (DAGExecutor.st_executedCalls st ++ cs1 ++ [c])
                    (DAGExecutor.results
                       (DAGExecutor.fail_result st (cs1 ++ [c]) (rs1 ++ [r])))
                    (DAGExecutor.mk_ctx plan context
                       (DAGExecutor.results
                          (DAGExecutor.fail_result st (cs1 ++ [c]) (rs1 ++ [r]))))
                    w1) as (evs2 & ? & ? & _).
        by exists evs2.
      - exists []. by rewrite app_nil_r. }
    exists (evs1 ++ evs2). split_and!.
    + by rewrite Htr2, Htr1, app_assoc.
    + intros cid e. rewrite Hres. intros Hlk.
      destruct (decide (cid = callId c)) as [->|Hne].
      * rewrite lookup_insert_eq in Hlk. injection Hlk as <-.
        right. exists c. split_and!; [|done|done].
        rewrite concat_cons. apply elem_of_app. left.
        apply elem_of_app. right. by left.
      * rewrite lookup_insert_ne in Hlk by done.
        apply record_all_lookup_entry in Hlk as [Hin|?]; [|by left].
        right. destruct (entries_of_outcome _ _ _ _ _ Hout1 Hin) as (c' & ? & ? & ?).
        exists c'. split_and!; [|done|done].
        rewrite concat_cons. apply elem_of_app. left.
        apply elem_of_app. by left.
    + right. exists [], (cs1 ++ c :: cs2), batches, cs1, c, cs2, r.
      split_and!; try done.
      * cbn. rewrite length_app. cbn. lia.
      * rewrite Hres, dom_insert_L, dom_record_all, entries_of_keys, Hdom by done.
        cbn. rewrite !fmap_app, !list_to_set_app_L. cbn. set_solver.
      * rewrite Hres. by rewrite lookup_insert_eq.
      * intros cid' e'. rewrite Hres. intros Hlk Hne.
        rewrite lookup_insert_ne in Hlk by done.
        by eapply (all_succeeded_record cs1 rs1).
      * intros Hno. rewrite (Hoff2 Hno), app_nil_r.
        eapply Forall_impl; [exact Hevs1|]. intros ev.
        apply batch_event_not_compensation.
      * cbn. apply Forall_app. split.
        -- eapply Forall_impl; [exact Hevs1|]. intros ev Hev'.
           eapply (batch_event_invoked_within _ _ done _ []); done.
        -- eapply Forall_impl; [exact Hevs2|]. intros ev.
           apply compensation_event_invoked_within.
Qed.


(** The outcome of a returning execution, from the empty state. *)
Lemma execute_outcome this plan context w res w' :
  DAGExecutor.execute sched this plan context w = (Returned res, w') →
  ∃ batches evs,
    DAGExecutor.buildExecutionOrder this (DAGExecutor.calls plan) =
      Returned batches ∧
    DAGExecutor.trace w' = DAGExecutor.trace w ++ evs ∧
    (∀ cid e, DAGExecutor.results res !! cid = Some e →
       ∃ c, c ∈ concat batches ∧ callId c = cid ∧ outcome_of this c e) ∧
    ((DAGExecutor.failed res = 0 ∧
      DAGExecutor.succeeded res = Z.of_nat (length (concat batches)) ∧
      dom (DAGExecutor.results res) =
        list_to_set (callId <$> concat batches) ∧
      DAGExecutor.all_succeeded (DAGExecutor.results res) ∧
      Forall (λ ev, ¬ DAGExecutor.compensation_event ev) evs ∧
      Forall (invoked_within plan context batches) evs) ∨
     (∃ pre batch post cs1 c cs2 e,
        batches = pre ++ batch :: post ∧ batch = cs1 ++ c :: cs2 ∧
        DAGExecutor.failed res = 1 ∧
        DAGExecutor.succeeded res = Z.of_nat (length (concat pre ++ cs1)) ∧
        dom (DAGExecutor.results res) =
          list_to_set (callId <$> concat pre ++ cs1 ++ [c]) ∧
        DAGExecutor.results res !! callId c = Some e ∧
        is_Some (error e) ∧
        (∀ cid' e', DAGExecutor.results res !! cid' = Some e' →
                    cid' ≠ callId c → error e' = None) ∧
        (truthy (enableCompensation (DAGExecutor.config this)) = false →
         Forall (λ ev, ¬ DAGExecutor.compensation_event ev) evs) ∧
        Forall (invoked_within plan context (pre ++ [batch])) evs)).
Proof.
  intros Hex.
  destruct (DAGExecutor.buildExecutionOrder this (DAGExecutor.calls plan))
    as [batches|e] eqn:Hord;
    [|by rewrite (execute_threw _ _ _ _ _ _ Hord) in Hex].
  rewrite (execute_returned _ _ _ _ _ _ Hord) in Hex.
  injection Hex as <- <-.
  destruct (buildExecutionOrder_scheduled _ _ _ Hord) as [Hs _].
  destruct (run_batches_outcome this plan context [] batches
              DAGExecutor.initial_state w
              (scheduled_batches_NoDup _ _ _ Hs))
    as (evs & Htr & Hprov & Hcase).
  { cbn. by rewrite dom_empty_L. }
  { intros cid e Hl. cbn in Hl. by rewrite lookup_empty in Hl. }
  exists batches, evs. split_and!; [done|done| |].
  - intros cid e Hl. destruct (Hprov _ _ Hl) as [Hl'|?]; [|done].
    cbn in Hl'. by rewrite lookup_empty in Hl'.
  - destruct Hcase as [(Hf & Hsu & Hd & Ha & Hc & Hev)|
      (pre & b & post & cs1 & c & cs2 & e & -> & -> & Hf & Hsu & Hd & Hl & He & Hoth & Hoff & Hev)].
    + left. by split_and!.
    + right. exists pre, (cs1 ++ c :: cs2), post, cs1, c, cs2, e.
      by split_and!.
Qed.

Lemma elem_of_invocations (evs : list Event) c :
  c ∈ DAGExecutor.invocations evs ↔
  ∃ ctx, DAGExecutor.HandlerInvoked c ctx ∈ evs.
Proof.
  unfold DAGExecutor.invocations. rewrite list_elem_of_omap. split.
  - intros ([c' ctx| | |] & Hin & [= ->]). by exists ctx.
  - intros (ctx & Hin). by exists (DAGExecutor.HandlerInvoked c ctx).
Qed.

(** X13. Under every interleaving, every handler invocation of an
    execution is of a call of some batch of the schedule, is given the
    application context, conversation identifier and turn number of the
    request unchanged, and sees as previous results exactly the outcomes
    of the batches before its own: the map it is given has an entry for
    an identifier exactly when a call of an earlier batch carries it, the
    entry is the one that the returned results hold for that identifier,
    and it is a success.  Calls of one batch never see each other's
    outcome. *)
Theorem execute_handler_contexts this plan context w :
  ∃ evs,
    DAGExecutor.trace (snd (DAGExecutor.execute sched this plan context w)) =
      DAGExecutor.trace w ++ evs ∧
    ∀ c ctx,
      DAGExecutor.HandlerInvoked c ctx ∈ evs →
      ∃ batches pre batch post res,
        DAGExecutor.buildExecutionOrder this (DAGExecutor.calls plan) =
          Returned batches ∧
        batches = pre ++ batch :: post ∧ c ∈ batch ∧
        appContext ctx = context ∧
        conversationId ctx = DAGExecutor.conversationId plan ∧
        turnNumber ctx = DAGExecutor.turnNumber plan ∧
        dom (previousResults ctx) = list_to_set (callId <$> concat pre) ∧
        DAGExecutor.all_succeeded (previousResults ctx) ∧
        fst (DAGExecutor.execute sched this plan context w) = Returned res ∧
        ∀ d e,
          previousResults ctx !! d = Some e ↔
          d ∈ callId <$> concat pre ∧
          DAGExecutor.results res !! d = Some e.
Proof.
  destruct (DAGExecutor.execute sched this plan context w) as [[res|e] w'] eqn:Hex.
  - destruct (execute_outcome _ _ _ _ _ _ Hex)
      as (batches & evs & Hord & Htr & _ & Hcase).
    exists evs. split; [done|]. intros c ctx Hin.
    assert (invoked_within plan context batches
              (DAGExecutor.HandlerInvoked c ctx)) as Hw.
    { destruct Hcase as [(_ & _ & _ & _ & _ & Hev)|
        (pre & b & post & cs1 & c' & cs2 & e & -> & _ & _ & _ & _ & _ & _ & _ & _ & Hev)].
      - by apply (proj1 (Forall_forall _ _) Hev).
      - replace (pre ++ b :: post) with ((pre ++ [b]) ++ post)
          by by rewrite <-app_assoc.
        apply invoked_within_app. by apply (proj1 (Forall_forall _ _) Hev). }
    assert (previousResults ctx ⊆ DAGExecutor.results res) as Hsub.
    { destruct (buildExecutionOrder_scheduled _ _ _ Hord) as [Hs _].
      destruct (run_batches_contexts this plan context _ ∅ batches
                  DAGExecutor.initial_state w Hs) as (_ & evs' & Htr' & Hctx).
      { cbn. apply dom_empty_L. }
      rewrite (execute_returned _ _ _ _ _ _ Hord) in Hex.
      destruct (DAGExecutor.run_batches sched this plan context batches
                  DAGExecutor.initial_state w) as [res0 w0].
      injection Hex as <- <-. cbn [fst snd] in *.
      rewrite Htr in Htr'. apply app_inv_head in Htr' as <-.
      by apply (Hctx c ctx). }
    destruct Hw as (pre & batch & post & ? & ? & ? & ? & ? & Hdom & ?).
    exists batches, pre, batch, post, res. split_and!; try done.
    intros d e. split.
    + intros Hl. split; [|by eapply lookup_weaken].
      assert (d ∈ dom (previousResults ctx)) as Hd by by apply elem_of_dom.
      rewrite Hdom in Hd. by apply elem_of_list_to_set in Hd.
    + intros [Hd Hl].
      assert (d ∈ dom (previousResults ctx)) as Hd'
        by (rewrite Hdom; by apply elem_of_list_to_set).
      apply elem_of_dom in Hd' as [e' He'].
      pose proof (lookup_weaken _ _ _ _ He' Hsub) as Hl'. congruence.
  - destruct (DAGExecutor.buildExecutionOrder this (DAGExecutor.calls plan))
      as [batches|e'] eqn:Hord.
    + by rewrite (execute_returned _ _ _ _ _ _ Hord) in Hex.
    + rewrite (execute_threw _ _ _ _ _ _ Hord) in Hex. injection Hex as <- <-.
      exists []. rewrite app_nil_r. split; [done|].
      by intros c ctx ?%elem_of_nil.
Qed.

(** X14. An execution that reports a failure stopped at one failed call:
    that call is the only one recorded with an error, and no call of a
    later batch was run: none of them has its handler invoked or an
    outcome recorded. *)
Theorem execute_failure_stops this plan context w res w' :
  DAGExecutor.execute sched this plan context w = (Returned res, w') →
  DAGExecutor.failed res ≠ 0 →
  ∃ batches pre batch post c e evs,
    DAGExecutor.buildExecutionOrder this (DAGExecutor.calls plan) =
      Returned batches ∧
    batches = pre ++ batch :: post ∧ c ∈ batch ∧
    DAGExecutor.results res !! callId c = Some e ∧ is_Some (error e) ∧
    (∀ cid' e', DAGExecutor.results res !! cid' = Some e' →
                cid' ≠ callId c → error e' = None) ∧
    DAGExecutor.trace w' = DAGExecutor.trace w ++ evs ∧
    ∀ c', c' ∈ concat post →
          (c' ∉ DAGExecutor.invocations evs) ∧
          DAGExecutor.results res !! callId c' = None.
Proof.
  intros Hex Hfail.
  destruct (execute_outcome _ _ _ _ _ _ Hex)
    as (batches & evs & Hord & Htr & _ &
        [(? & _)|(pre & b & post & cs1 & c & cs2 & e & -> & -> & Hf & Hsu & Hd & Hl & He & Hoth & _ & Hev)]);
    [done|].
  exists (pre ++ (cs1 ++ c :: cs2) :: post), pre, (cs1 ++ c :: cs2), post, c, e, evs.
  split_and!; try done.
  { apply elem_of_app. right. by left. }
  destruct (buildExecutionOrder_scheduled _ _ _ Hord) as [Hs _].
  apply scheduled_NoDup in Hs as [Hnd _].
  rewrite concat_app, concat_cons, fmap_app, fmap_app in Hnd.
  rewrite app_assoc in Hnd.
  apply NoDup_app in Hnd as (_ & Hdisj & _).
  intros c' Hc'.
  assert (callId c' ∈ callId <$> concat post) as Hid
    by (apply list_elem_of_fmap; by exists c').
  split.
  - intros (ctx & Hin)%elem_of_invocations.
    pose proof (proj1 (Forall_forall _ _) Hev _ Hin)
      as (pre' & b' & post' & Heq & Hcb & _).
    apply (Hdisj (callId c')); [|done].
    rewrite <-fmap_app. apply list_elem_of_fmap. exists c'. split; [done|].
    replace (concat pre ++ cs1 ++ c :: cs2)
      with (concat (pre ++ [cs1 ++ c :: cs2]))
      by (rewrite concat_app; cbn; by rewrite app_nil_r).
    rewrite Heq. apply elem_of_concat. exists b'. split; [done|].
    apply elem_of_app. right. by left.
  - apply not_elem_of_dom. rewrite Hd. intros Hin%elem_of_list_to_set.
    apply (Hdisj (callId c')); [|done].
    rewrite !fmap_app in Hin. rewrite !fmap_app.
    apply elem_of_app in Hin as [?|Hin]; [apply elem_of_app; by left|].
    apply elem_of_app. right.
    apply elem_of_app in Hin as [?|Hin]; [apply elem_of_app; by left|].
    apply elem_of_app. right. cbn in *. apply list_elem_of_singleton in Hin as ->. by left.
Qed.

(** X15. A returned result reports no failure or exactly one.  It reports
    none exactly when every recorded outcome is a success, and then every
    call identifier of the plan has a recorded outcome and [succeeded]
    counts them. *)
Theorem execute_single_failure this plan context w res w' :
  DAGExecutor.execute sched this plan context w = (Returned res, w') →
  (DAGExecutor.failed res = 0 ∨ DAGExecutor.failed res = 1) ∧
  (DAGExecutor.failed res = 0 ↔
   DAGExecutor.all_succeeded (DAGExecutor.results res)) ∧
  (DAGExecutor.failed res = 0 →
   dom (DAGExecutor.results res) =
     list_to_set (callId <$> DAGExecutor.calls plan) ∧
   DAGExecutor.succeeded res = Z.of_nat (size (DAGExecutor.results res))).
Proof.
  intros Hex.
  destruct (execute_outcome _ _ _ _ _ _ Hex)
    as (batches & evs & Hord & Htr & _ & Hcase).
  destruct (buildExecutionOrder_scheduled _ _ _ Hord) as [Hs Hcover].
  destruct Hcase as [(Hf & Hsu & Hd & Ha & _)|
    (pre & b & post & cs1 & c & cs2 & e & -> & -> & Hf & Hsu & Hd & Hl & He & Hoth & _)].
  - split_and!; [by left|done|]. intros _. split.
    + rewrite Hd. apply set_eq. intros cid.
      rewrite !elem_of_list_to_set. by rewrite Hcover.
    + rewrite Hsu. apply scheduled_NoDup in Hs as [Hnd _].
      rewrite <-size_dom, Hd, size_list_to_set by done.
      by rewrite length_fmap.
  - split_and!; [by right| |lia]. split; [lia|].
    intros Hall. destruct He as [err He].
    by rewrite (Hall _ _ Hl) in He.
Qed.

Lemma no_compensation_events evs :
  Forall (λ ev, ¬ DAGExecutor.compensation_event ev) evs →
  DAGExecutor.compensations evs = [].
Proof.
  induction 1 as [|ev evs Hev _ IH]; [done|]. by destruct ev.
Qed.

(** X16. No compensating handler runs, and no compensation error is
    logged, when compensation is disabled or when no call failed. *)
Theorem execute_no_compensation this plan context w res w' :
  DAGExecutor.execute sched this plan context w = (Returned res, w') →
  truthy (enableCompensation (DAGExecutor.config this)) = false ∨
  DAGExecutor.failed res = 0 →
  ∃ evs,
    DAGExecutor.trace w' = DAGExecutor.trace w ++ evs ∧
    Forall (λ ev, ¬ DAGExecutor.compensation_event ev) evs ∧
    DAGExecutor.compensations (DAGExecutor.trace w') =
      DAGExecutor.compensations (DAGExecutor.trace w).
Proof.
  intros Hex Hcond.
  destruct (execute_outcome _ _ _ _ _ _ Hex)
    as (batches & evs & Hord & Htr & _ & Hcase).
  assert (Forall (λ ev, ¬ DAGExecutor.compensation_event ev) evs) as Hnc.
  { destruct Hcase as [(_ & _ & _ & _ & Hnc & _)|
      (pre & b & post & cs1 & c & cs2 & e & _ & _ & Hf & _ & _ & _ & _ & _ & Hoff & _)];
      [done|]. destruct Hcond as [Hoff'|?]; [by apply Hoff|lia]. }
  exists evs. split_and!; [done|done|].
  rewrite Htr, compensations_app.
  by rewrite (no_compensation_events _ Hnc), app_nil_r.
Qed.

(** What is recorded for a call, by the state of its action. *)
Lemma outcome_of_cases this c (e : ResultEntry) :
  outcome_of this c e →
  (get (actionId c) (DAGExecutor.registry this) = None →
   e = not_found_entry c) ∧
  (∀ a, get (actionId c) (DAGExecutor.registry this) = Some a →
        handler a = None → e = no_handler_entry c) ∧
  (error e = None →
   ∃ a h, get (actionId c) (DAGExecutor.registry this) = Some a ∧
          handler a = Some h).
Proof.
  unfold outcome_of.
  destruct (get (actionId c) (DAGExecutor.registry this)) as [a|] eqn:Hget.
  - destruct (handler a) as [h|] eqn:Hh.
    + intros _. split_and!; [done|intros ? [= <-]; congruence|].
      intros _. by exists a, h.
    + intros ->. split_and!; [done|done|done].
  - intros ->. split_and!; [done|done|done].
Qed.

(** X17. Every recorded outcome belongs to a call of the plan with that
    identifier.  If the call's action is not registered the outcome is the
    not-found error, if the action has no handler it is the no-handler
    error, and a success is recorded only for a registered action with a
    handler. *)
Theorem execute_recorded_outcome this plan context w res w' cid
    (e : ResultEntry) :
  DAGExecutor.execute sched this plan context w = (Returned res, w') →
  DAGExecutor.results res !! cid = Some e →
  ∃ c, c ∈ DAGExecutor.calls plan ∧ callId c = cid ∧
    (get (actionId c) (DAGExecutor.registry this) = None →
     e = not_found_entry c) ∧
    (∀ a, get (actionId c) (DAGExecutor.registry this) = Some a →
          handler a = None → e = no_handler_entry c) ∧
    (error e = None →
     ∃ a h, get (actionId c) (DAGExecutor.registry this) = Some a ∧
            handler a = Some h).
Proof.
  intros Hex Hl.
  destruct (execute_outcome _ _ _ _ _ _ Hex)
    as (batches & evs & Hord & _ & Hprov & _).
  destruct (Hprov _ _ Hl) as (c & Hc & Hid & Hout).
  exists c. split; [|split; [done|by apply outcome_of_cases]].
  by apply (buildExecutionOrder_calls _ _ _ _ Hord).
Qed.

(** A call whose handler always resolves is recorded as a success. *)
Lemma outcome_of_succeeds this c (e : ResultEntry) :
  always_succeeds this c →
  outcome_of this c e →
  ∃ v, e = {| result := Some v; error := None |}.
Proof.
  intros (a & h & Hget & Hh & Hok & Hrc). unfold outcome_of.
  rewrite Hget, Hh. intros [(ctx & s & ->)|(_ & rc & Heff & Hmax)].
  - destruct (Hok ctx s) as (v & s' & ->). by exists v.
  - specialize (Hrc _ Heff). lia.
Qed.

(** X18. If the plan can be scheduled and the handler of every call
    always resolves, the execution reports no failure: every call
    identifier of the plan is recorded with a result and without an error,
    [succeeded] counts them all, and no compensating handler runs. *)
Theorem execute_all_succeed this plan context w :
  DAGExecutor.acyclic
    (DAGExecutor.build_graph this (DAGExecutor.calls plan)) →
  DAGExecutor.deps_in_plan
    (DAGExecutor.build_graph this (DAGExecutor.calls plan))
    (DAGExecutor.calls plan) →
  (∀ c, c ∈ DAGExecutor.calls plan → always_succeeds this c) →
  ∃ res w',
    DAGExecutor.execute sched this plan context w = (Returned res, w') ∧
    DAGExecutor.failed res = 0 ∧
    DAGExecutor.succeeded res = Z.of_nat (size (DAGExecutor.results res)) ∧
    dom (DAGExecutor.results res) =
      list_to_set (callId <$> DAGExecutor.calls plan) ∧
    (∀ cid e, DAGExecutor.results res !! cid = Some e →
              error e = None ∧ is_Some (result e)) ∧
    DAGExecutor.compensations (DAGExecutor.trace w') =
      DAGExecutor.compensations (DAGExecutor.trace w).
Proof.
  intros Hacyc Hdeps Hok.
  destruct (execute_acyclic_returns sched this plan context w Hacyc Hdeps)
    as (res & w' & Hex).
  exists res, w'. split; [done|].
  destruct (execute_outcome _ _ _ _ _ _ Hex)
    as (batches & evs & Hord & Htr & Hprov & Hcase).
  destruct (buildExecutionOrder_scheduled _ _ _ Hord) as [Hs Hcover].
  assert (∀ cid e, DAGExecutor.results res !! cid = Some e →
                   error e = None ∧ is_Some (result e)) as Hgood.
  { intros cid e Hl. destruct (Hprov _ _ Hl) as (c & Hc & Hid & Hout).
    assert (c ∈ DAGExecutor.calls plan) as Hin
      by by apply (buildExecutionOrder_calls _ _ _ _ Hord).
    destruct (outcome_of_succeeds this c e (Hok _ Hin) Hout) as (v & ->).
    by split. }
  destruct Hcase as [(Hf & Hsu & Hd & Ha & Hnc & _)|
    (pre & b & post & cs1 & c & cs2 & e & _ & _ & _ & _ & _ & Hl & [err He] & _)].
  - split_and!; [done| | |done|].
    + rewrite Hsu. apply scheduled_NoDup in Hs as [Hnd _].
      rewrite <-size_dom, Hd, size_list_to_set by done.
      by rewrite length_fmap.
    + rewrite Hd. apply set_eq. intros cid.
      rewrite !elem_of_list_to_set. by rewrite Hcover.
    + rewrite Htr, compensations_app.
      by rewrite (no_compensation_events _ Hnc), app_nil_r.
  - destruct (Hgood _ _ Hl) as [Hnone _]. congruence.
Qed.

End ExecutionExtras.

(** * Further facts about retries *)

Section RetryExtras.

Context {W Val AppCtx : Type}.

Local Abbreviation ActionDefinition := (@ActionDefinition W Val AppCtx).
Local Abbreviation ActionCall := (@ActionCall Val).
Local Abbreviation ResultEntry := (@ResultEntry Val).
Local Abbreviation ExecutionContext := (@ExecutionContext Val AppCtx).
Local Abbreviation Executor := (@DAGExecutor.t W Val AppCtx).
Local Abbreviation World := (@DAGExecutor.World W Val AppCtx).
Local Abbreviation Event := (@DAGExecutor.Event Val AppCtx).

Implicit Types (this : Executor) (call c : ActionCall) (ctx : ExecutionContext)
  (w : World) (h : @Handler W Val AppCtx) (cfg rc : RetryConfig)
  (action a : ActionDefinition).

(** X19. A call is settled by a single handler invocation, without any
    sleep, when no retry policy is in effect, when the policy allows one
    attempt only, or when the first attempt succeeds: the recorded entry
    is the outcome of that invocation. *)
Theorem run_call_single_attempt this ctx c w a h :
  get (actionId c) (DAGExecutor.registry this) = Some a →
  handler a = Some h →
  DAGExecutor.retry_in_effect this a = None ∨
  (∃ rc, DAGExecutor.retry_in_effect this a = Some rc ∧
         (maxAttempts rc = 1 ∨
          (1 ≤ maxAttempts rc ∧
           ∃ v, fst (h (args c) ctx (DAGExecutor.app w)) = inl v))) →
  DAGExecutor.run_call this ctx c w =
    ((callId c, entry_of_outcome (fst (h (args c) ctx (DAGExecutor.app w)))),
     {| DAGExecutor.app := snd (h (args c) ctx (DAGExecutor.app w));
        DAGExecutor.trace :=
          DAGExecutor.trace w ++ [DAGExecutor.HandlerInvoked c ctx] |}).
Proof.
  intros Hget Hh Hcase.
  rewrite (run_call_handler _ _ _ _ _ _ Hget Hh).
  destruct Hcase as [Hnone|(rc & Hrc & Hcase)].
  - unfold DAGExecutor.executeWithRetry. rewrite Hh.
    unfold DAGExecutor.retry_in_effect in Hnone. rewrite Hnone.
    rewrite invoke_spec.
    by destruct (h (args c) ctx (DAGExecutor.app w)) as [[v|e] s'].
  - rewrite (executeWithRetry_retrying _ _ _ _ _ _ _ Hh Hrc).
    destruct (Z.to_nat (maxAttempts rc)) as [|n] eqn:Hn; [lia|].
    cbn [DAGExecutor.retry_loop]. rewrite invoke_spec.
    destruct (h (args c) ctx (DAGExecutor.app w)) as [[v|e] s']; [done|].
    destruct Hcase as [Hone|(_ & v & [=])].
    rewrite bool_decide_eq_true_2 by lia. done.
Qed.

(** X20. Under a retry policy whose [maxAttempts] is zero or negative the
    handler is never invoked and nothing is slept, and the call is
    recorded without a result and without an error, that is as a
    success. *)
Theorem run_call_zero_attempts this ctx c w a h rc :
  get (actionId c) (DAGExecutor.registry this) = Some a →
  handler a = Some h →
  DAGExecutor.retry_in_effect this a = Some rc →
  maxAttempts rc ≤ 0 →
  DAGExecutor.run_call this ctx c w =
    ((callId c, {| result := None; error := None |}), w).
Proof.
  intros Hget Hh Hrc Hmax.
  rewrite (run_call_handler _ _ _ _ _ _ Hget Hh).
  rewrite (executeWithRetry_retrying _ _ _ _ _ _ _ Hh Hrc).
  replace (Z.to_nat (maxAttempts rc)) with 0%nat by lia. done.
Qed.

(** A handler that rejects in every state uses up all the attempts. *)
Lemma retry_loop_exhausts cfg h call ctx n attempt last w :
  (∀ s, ∃ e s', h (args call) ctx s = (inr e, s')) →
  Z.of_nat n = maxAttempts cfg - attempt →
  (0 < n)%nat →
  ∃ e s,
    fst (DAGExecutor.retry_loop n attempt cfg h call ctx last w) = Threw e ∧
    h (args call) ctx s =
      (inr e,
       DAGExecutor.app
         (snd (DAGExecutor.retry_loop n attempt cfg h call ctx last w))) ∧
    DAGExecutor.trace
      (snd (DAGExecutor.retry_loop n attempt cfg h call ctx last w)) =
    DAGExecutor.trace w ++
    DAGExecutor.attempts_trace cfg call ctx attempt (n - 1).
Proof.
  intros Hfail. revert attempt last w.
  induction n as [|n IH]; intros attempt last w Hn Hpos; [lia|].
  cbn [DAGExecutor.retry_loop]. rewrite invoke_spec.
  destruct (Hfail (DAGExecutor.app w)) as (e & s' & Hrun). rewrite Hrun.
  cbn [fst snd].
  case_bool_decide as Hlast.
  - exists e, (DAGExecutor.app w).
    replace (S n - 1)%nat with 0%nat by lia. done.
  - destruct (IH (attempt + 1) e
                (DAGExecutor.sleep (DAGExecutor.calculateBackoff attempt cfg)
                   {| DAGExecutor.app := s';
                      DAGExecutor.trace :=
                        DAGExecutor.trace w ++
                        [DAGExecutor.HandlerInvoked call ctx] |}))
      as (e' & s & Hres & Hlastrun & Htr); [lia|lia|].
    exists e', s. split_and!; [done|done|]. rewrite Htr.
    replace (S n - 1)%nat with (S (n - 1)) by lia.
    rewrite attempts_trace_S.
    cbn [DAGExecutor.sleep DAGExecutor.log DAGExecutor.trace].
    by rewrite <-!app_assoc.
Qed.

(** X21. A handler that rejects in every state is invoked exactly
    [maxAttempts] times under a retry policy that allows an attempt, with
    a backoff sleep between consecutive attempts and none after the last.
    The call, run alone, is recorded without a result, and the error of
    its entry is what the last invocation rejected with: an error object,
    or nothing when the handler rejected with a falsy value, and then the
    entry reads as a success. *)
Theorem retry_exhausts this ctx c w a h rc :
  get (actionId c) (DAGExecutor.registry this) = Some a →
  handler a = Some h →
  DAGExecutor.retry_in_effect this a = Some rc →
  1 ≤ maxAttempts rc →
  (∀ s, ∃ e s', h (args c) ctx s = (inr e, s')) →
  ∃ e s w',
    DAGExecutor.run_call this ctx c w =
      ((callId c, {| result := None; error := error_of_thrown e |}), w') ∧
    h (args c) ctx s = (inr e, DAGExecutor.app w') ∧
    DAGExecutor.invocations (DAGExecutor.trace w') =
      DAGExecutor.invocations (DAGExecutor.trace w) ++
      replicate (Z.to_nat (maxAttempts rc)) c ∧
    DAGExecutor.sleeps (DAGExecutor.trace w') =
      DAGExecutor.sleeps (DAGExecutor.trace w) ++
      ((λ k, DAGExecutor.calculateBackoff k rc) <$>
         seqZ 0 (maxAttempts rc - 1)).
Proof.
  intros Hget Hh Hrc Hmax Hfail.
  rewrite (run_call_handler _ _ _ _ _ _ Hget Hh).
  rewrite (executeWithRetry_retrying _ _ _ _ _ _ _ Hh Hrc).
  destruct (retry_loop_exhausts rc h c ctx (Z.to_nat (maxAttempts rc)) 0
              ThrownUndefined w Hfail) as (e & s & Hres & Hlast & Htr);
    [lia|lia|].
  destruct (DAGExecutor.retry_loop _ _ _ _ _ _ _ _) as [r w'].
  cbn [fst snd] in *. subst r. exists e, s, w'. split_and!; [done|done| |].
  - rewrite Htr, invocations_app, invocations_attempts_trace.
    by replace (S (Z.to_nat (maxAttempts rc) - 1))
      with (Z.to_nat (maxAttempts rc)) by lia.
  - rewrite Htr, sleeps_app, sleeps_attempts_trace.
    by replace (Z.of_nat (Z.to_nat (maxAttempts rc) - 1))
      with (maxAttempts rc - 1) by lia.
Qed.

(** A batch of one call is the call run alone, whatever the
    interleaving. *)
Lemma step_finish ctx call (task : @DAGExecutor.Task W Val AppCtx) w :
  DAGExecutor.finish ctx call
    (fst (DAGExecutor.step ctx call task w))
    (snd (DAGExecutor.step ctx call task w)) =
  DAGExecutor.finish ctx call task w.
Proof.
  destruct task as [h|h rc [|n] attempt last|h rc n attempt e|entry];
    cbn [DAGExecutor.step DAGExecutor.finish DAGExecutor.retry_loop].
  - by destruct (DAGExecutor.invoke h call ctx w) as [[v|e] w'].
  - done.
  - destruct (DAGExecutor.invoke h call ctx w) as [[v|e] w']; [done|].
    by case_bool_decide.
  - done.
  - done.
Qed.

Lemma finish_init_task this ctx call w :
  DAGExecutor.finish ctx call (DAGExecutor.init_task this call) w =
    ((fst (DAGExecutor.run_call this ctx call w)).2,
     snd (DAGExecutor.run_call this ctx call w)).
Proof.
  unfold DAGExecutor.init_task, DAGExecutor.run_call,
    DAGExecutor.executeWithRetry.
  destruct (get (actionId call) (DAGExecutor.registry this)) as [a|]; [|done].
  destruct (handler a) as [h|]; [|done].
  destruct (if truthy _ then _ else _) as [rc|]; cbn [DAGExecutor.finish].
  - by destruct (DAGExecutor.retry_loop _ _ _ _ _ _ _ _) as [[v|e] w'].
  - by destruct (DAGExecutor.invoke h call ctx w) as [[v|e] w'].
Qed.

Lemma run_calls_single (sched : @DAGExecutor.Interleaving W Val AppCtx)
    this ctx call w :
  DAGExecutor.run_calls sched this ctx [call] w =
    ([fst (DAGExecutor.run_call this ctx call w)],
     snd (DAGExecutor.run_call this ctx call w)).
Proof.
  unfold DAGExecutor.run_calls. cbn [fmap list_fmap].
  assert (∀ turns (task : @DAGExecutor.Task W Val AppCtx) w0,
    DAGExecutor.finish_all ctx
      (fst (DAGExecutor.interleave ctx turns [(call, task)] w0))
      (snd (DAGExecutor.interleave ctx turns [(call, task)] w0)) =
    ([(callId call, fst (DAGExecutor.finish ctx call task w0))],
     snd (DAGExecutor.finish ctx call task w0))) as Hgen.
  { induction turns as [|i turns IH]; intros task w0.
    - cbn. by destruct (DAGExecutor.finish ctx call task w0).
    - cbn [DAGExecutor.interleave]. destruct i as [|i]; cbn [lookup list_lookup].
      + pose proof (step_finish ctx call task w0) as Hstep.
        destruct (DAGExecutor.step ctx call task w0) as [task' w1].
        cbn [fst snd] in Hstep. cbn [insert list_insert].
        by rewrite IH, Hstep.
      + apply IH. }
  specialize (Hgen (sched [call] ctx w) (DAGExecutor.init_task this call) w).
  destruct (DAGExecutor.interleave _ _ _ _) as [pool' w1].
  cbn [fst snd] in Hgen. rewrite Hgen, finish_init_task. cbn [fst snd].
  pose proof (run_call_events this ctx call w) as [Hid _].
  destruct (DAGExecutor.run_call this ctx call w) as [[cid e] w'].
  cbn [fst snd] in *. by subst cid.
Qed.

(** When no task waits for another, the calls of a batch run one after
    the other, each as if alone. *)
Lemma run_calls_in_batch_order this ctx call batch w :
  DAGExecutor.run_calls DAGExecutor.in_batch_order this ctx (call :: batch) w =
    (fst (DAGExecutor.run_call this ctx call w) ::
       fst (DAGExecutor.run_calls DAGExecutor.in_batch_order this ctx batch
              (snd (DAGExecutor.run_call this ctx call w))),
     snd (DAGExecutor.run_calls DAGExecutor.in_batch_order this ctx batch
            (snd (DAGExecutor.run_call this ctx call w)))).
Proof.
  unfold DAGExecutor.run_calls, DAGExecutor.in_batch_order.
  cbn [DAGExecutor.interleave fmap list_fmap DAGExecutor.finish_all].
  rewrite finish_init_task.
  pose proof (run_call_events this ctx call w) as [Hid _].
  destruct (DAGExecutor.run_call this ctx call w) as [[cid e] w'].
  cbn [fst snd] in *. subst cid.
  by destruct (DAGExecutor.finish_all ctx _ w') as [rs w2].
Qed.

End RetryExtras.

(** * Facts about the conversation memory *)

Section MemoryFacts.

Import ThreeTierMemory.

Implicit Types (this s : ThreeTierMemory.t) (m message : Message)
  (c : ConversationState) (ops : list Op) (cid : string).

Lemma run_config ops s : config (run ops s) = config s.
Proof.
  unfold run. revert s.
  induction ops as [|[cid m now|cid] ops IH]; intros s; [done|..];
    cbn [foldl]; by rewrite IH.
Qed.

(** One [addMessage] moves the window by one message. *)
Lemma window_push (turns : Z) (archival : list Message) m :
  (let working := window turns archival ++ [m] in
   if bool_decide (turns * 2 < Z.of_nat (length working))
   then slice (- (turns * 2)) working else working) =
  window turns (archival ++ [m]).
Proof.
  unfold window, slice, last_n. cbn zeta.
  destruct (decide (0 < turns)) as [Hpos|Hnpos].
  - rewrite !(bool_decide_eq_true_2 (0 < turns)) by done.
    rewrite !length_app, length_drop. cbn [length].
    set (la := length archival). set (k := Z.to_nat (turns * 2)).
    case_bool_decide as Hlen.
    + rewrite bool_decide_eq_true_2 by lia.
      replace (Z.to_nat (Z.max _ 0)) with 1%nat by lia.
      replace (la + 1 - k)%nat with (la - k + 1)%nat by lia.
      rewrite (drop_app_le archival [m]) by (fold la; lia).
      rewrite <-(drop_drop archival 1 (la - k))%nat.
      rewrite drop_app_le; [done|]. rewrite length_drop. fold la. lia.
    + replace (la + 1 - k)%nat with 0%nat by lia.
      by replace (la - k)%nat with 0%nat by lia.
  - rewrite !(bool_decide_eq_false_2 (0 < turns)) by done.
    destruct (decide (turns = 0)) as [->|Hneg].
    + rewrite !(bool_decide_eq_true_2 (0 = 0)) by done.
      rewrite length_app. cbn [length].
      rewrite bool_decide_eq_true_2 by lia.
      rewrite bool_decide_eq_false_2 by lia.
      by replace (Z.to_nat (Z.min _ _)) with 0%nat by lia.
    + rewrite !(bool_decide_eq_false_2 (turns = 0)) by done.
      cbn [app length].
      rewrite bool_decide_eq_true_2 by lia.
      rewrite bool_decide_eq_false_2 by lia.
      by replace (Z.to_nat (Z.min _ _)) with 1%nat by lia.
Qed.

Lemma window_nil (turns : Z) : window turns [] = [].
Proof. unfold window, last_n. by repeat case_bool_decide. Qed.

Lemma window_inv_step s op :
  (∀ cid c, conversations s !! cid = Some c →
            workingMemory c = window (config s) (archivalMemory c)) →
  ∀ cid c, conversations (step s op) !! cid = Some c →
           workingMemory c = window (config s) (archivalMemory c).
Proof.
  intros Hinv cid c. destruct op as [cid' m now|cid']; cbn.
  - destruct (decide (cid' = cid)) as [->|Hne].
    + rewrite lookup_insert_eq. intros [= <-]. cbn.
      destruct (conversations s !! cid) as [c0|] eqn:Hc0; cbn.
      * rewrite (Hinv _ _ Hc0). apply window_push.
      * pose proof (window_push (config s) []
                      {| role := role m; content := content m;
                         timestamp :=
                           Some (default (at_timestamp now) (timestamp m)) |})
          as Hpush.
        by rewrite window_nil in Hpush.
    + rewrite lookup_insert_ne by done. apply Hinv.
  - intros [_ ?]%lookup_delete_Some. by eapply Hinv.
Qed.

(** X22. Whatever messages are added and conversations cleared, the
    working memory of a conversation is determined by its archival
    memory: for a positive [workingMemoryTurns] it is the last
    [2 * workingMemoryTurns] archived messages (all of them while there
    are fewer), [getMessagesForLLM] returning these.  With
    [workingMemoryTurns = 0] the window is never trimmed and the working
    memory is the whole archive; with a negative value it is always
    empty. *)
Theorem working_memory_window (cfg : ThreeTierMemoryConfig) ops cid c :
  conversations (run ops (new cfg)) !! cid = Some c →
  getMessagesForLLM cid (run ops (new cfg)) = workingMemory c ∧
  workingMemory c =
    window (default 5 (workingMemoryTurns cfg)) (archivalMemory c) ∧
  (0 < default 5 (workingMemoryTurns cfg) →
   workingMemory c =
     last_n (Z.to_nat (2 * default 5 (workingMemoryTurns cfg)))
            (archivalMemory c) ∧
   Z.of_nat (length (workingMemory c)) ≤
     2 * default 5 (workingMemoryTurns cfg)) ∧
  (default 5 (workingMemoryTurns cfg) = 0 →
   workingMemory c = archivalMemory c) ∧
  (default 5 (workingMemoryTurns cfg) < 0 → workingMemory c = []).
Proof.
  intros Hc.
  assert (∀ s, (∀ cid c, conversations s !! cid = Some c →
                  workingMemory c = window (config s) (archivalMemory c)) →
               ∀ cid c, conversations (run ops s) !! cid = Some c →
                  workingMemory c = window (config s) (archivalMemory c))
    as Hrun.
  { clear. induction ops as [|op ops IH]; intros s Hinv; [done|].
    cbn. intros cid c Hc.
    assert (config s = config (step s op)) as Hcfg by by destruct op.
    rewrite Hcfg. eapply IH; [|done].
    rewrite <-Hcfg. by apply window_inv_step. }
  assert (workingMemory c =
          window (default 5 (workingMemoryTurns cfg)) (archivalMemory c))
    as Hw.
  { apply (Hrun (new cfg)) in Hc; [done|]. intros ? ?. cbn.
    by rewrite lookup_empty. }
  split_and!.
  - unfold getMessagesForLLM. by rewrite Hc.
  - done.
  - intros Hpos. rewrite Hw. unfold window.
    rewrite bool_decide_eq_true_2 by done.
    replace (default 5 (workingMemoryTurns cfg) * 2)
      with (2 * default 5 (workingMemoryTurns cfg)) by lia.
    split; [done|]. unfold last_n. rewrite length_drop. lia.
  - intros Hz. rewrite Hw. unfold window. rewrite Hz.
    by rewrite bool_decide_eq_false_2, bool_decide_eq_true_2 by lia.
  - intros Hneg. rewrite Hw. unfold window.
    by rewrite !bool_decide_eq_false_2 by lia.
Qed.

(** *** The archive *)

Lemma user_messages_snoc (l : list Message) m :
  user_messages (l ++ [m]) =
    (user_messages l + if bool_decide (role m = user) then 1 else 0)%nat.
Proof.
  unfold user_messages. rewrite filter_app, length_app. f_equal.
  rewrite filter_cons. case_decide.
  - by rewrite bool_decide_eq_true_2.
  - by rewrite bool_decide_eq_false_2.
Qed.

Lemma logged_run cid ops s acc :
  logged cid s acc →
  logged cid (run ops s) (added_since_clear cid ops acc).
Proof.
  revert s acc. induction ops as [|[cid' m now|cid'] ops IH]; intros s acc Hl;
    [done|..]; cbn [run foldl added_since_clear]; apply IH.
  - unfold logged in *. cbn [step addMessage conversations].
    destruct (decide (cid' = cid)) as [->|Hne].
    + rewrite (bool_decide_eq_true_2 (cid = cid)) by done.
      rewrite lookup_insert_eq.
      assert (records
                {| role := role m; content := content m;
                   timestamp := Some (default (at_timestamp now) (timestamp m)) |}
                m) as Hrec.
      { split_and!; [done|done|by eexists|]. cbn. by intros ts ->. }
      destruct (conversations s !! cid) as [c|] eqn:Hc;
        cbn [id archivalMemory turnCount role].
      * destruct Hl as (Hne & Hid & Hall & Hturn).
        split_and!; [by destruct acc|done| |].
        -- apply Forall2_app; [done|]. by constructor.
        -- rewrite user_messages_snoc, Hturn. case_bool_decide; lia.
      * subst acc. split_and!; [done|done| |].
        -- by constructor.
        -- rewrite (user_messages_snoc []). cbn. case_bool_decide; lia.
    + rewrite (bool_decide_eq_false_2 (cid' = cid)) by done.
      by rewrite lookup_insert_ne.
  - unfold logged in *. cbn [step clearConversation conversations].
    destruct (decide (cid' = cid)) as [->|Hne].
    + rewrite (bool_decide_eq_true_2 (cid = cid)) by done.
      by rewrite lookup_delete_eq.
    + rewrite (bool_decide_eq_false_2 (cid' = cid)) by done.
      by rewrite lookup_delete_ne.
Qed.

(** X23. The archival memory is a faithful log.  After any history of
    [addMessage] and [clearConversation] calls, the archive of a
    conversation holds, in order, exactly the messages added to it since
    it was last cleared, each with its role and content, with the
    timestamp given or else one taken from the clock; messages of other
    conversations never show up.  [getState] is undefined exactly when no
    message was added since, and its [turnCount] is the number of user
    messages among them; [messageCount] is their number. *)
Theorem archival_memory_log (cfg : ThreeTierMemoryConfig) ops cid :
  let this := run ops (new cfg) in
  let added := added_since_clear cid ops [] in
  Forall2 records (getArchivalMessages cid this) added ∧
  getState cid this =
    (if decide (added = []) then None
     else Some (Z.of_nat (user_messages added))) ∧
  (messageCount <$> getConversationMetadata cid this) =
    (if decide (added = []) then None
     else Some (Z.of_nat (length added))).
Proof.
  intros this added.
  assert (logged cid this added) as Hl.
  { apply logged_run. unfold logged. cbn. by rewrite lookup_empty. }
  unfold logged, getArchivalMessages, getState, getConversationMetadata in *.
  destruct (conversations this !! cid) as [c|]; cbn.
  - destruct Hl as (Hne & Hid & Hall & Hturn).
    rewrite !decide_False by done. split_and!; [done|by rewrite Hturn|].
    by rewrite (Forall2_length _ _ _ Hall).
  - rewrite Hl. rewrite !decide_True by done. split_and!; [constructor|done|done].
Qed.

End MemoryFacts.

(** * Facts about the validator *)

Section ValidatorFacts.

Context {W Val AppCtx : Type}.

(** The interleaving of the calls of a batch is arbitrary. *)
Context (sched : @DAGExecutor.Interleaving W Val AppCtx).

Local Abbreviation ActionDefinition := (@ActionDefinition W Val AppCtx).
Local Abbreviation ActionRegistry := (@ActionRegistry W Val AppCtx).
Local Abbreviation ActionCall := (@ActionCall Val).
Local Abbreviation Plan := (@DAGExecutor.Plan Val).
Local Abbreviation Executor := (@DAGExecutor.t W Val AppCtx).
Local Abbreviation World := (@DAGExecutor.World W Val AppCtx).
Local Abbreviation ResultEntry := (@ResultEntry Val).

Variable check : ActionDefinition → AppCtx → Val → SchemaOutcome Val.

Implicit Types (plan : Plan) (context : AppCtx) (registry : ActionRegistry)
  (call c : ActionCall) (calls : list ActionCall).

Lemma validate_fold context registry calls
    (es : list ValidationError) (vs : list ActionCall) :
  foldl (Validator.validate_call check context registry) (es, vs) calls =
    (es ++ omap (Validator.call_error check context registry) calls,
     vs ++ omap (Validator.validated_call check context registry) calls).
Proof.
  revert es vs. induction calls as [|c calls IH]; intros es vs; cbn [foldl].
  - by rewrite !app_nil_r.
  - unfold Validator.validate_call at 2. cbn [fst snd]. rewrite IH.
    cbn [omap list_omap].
    destruct (Validator.call_error check context registry c),
             (Validator.validated_call check context registry c);
      cbn [option_list]; by rewrite <-!app_assoc.
Qed.

Lemma call_error_None context registry c :
  Validator.call_error check context registry c = None ↔
  Validator.accepted check context registry c.
Proof.
  unfold Validator.call_error, Validator.accepted.
  destruct (get (actionId c) registry) as [a|].
  - destruct (check a context (args c)) as [v|issues|msg] eqn:Hc.
    + split; [intros _; by exists a, v|done].
    + split; [done|]. intros (a' & v & [= <-] & Hc'). congruence.
    + split; [done|]. intros (a' & v & [= <-] & Hc'). congruence.
  - split; [done|]. by intros (a' & v & [=] & _).
Qed.

Lemma omap_nil_iff {A B} (f : A → option B) (l : list A) :
  omap f l = [] ↔ ∀ x, x ∈ l → f x = None.
Proof.
  induction l as [|x l IH]; cbn.
  - split; [by intros _ ? ?%elem_of_nil|done].
  - destruct (f x) eqn:Hx.
    + split; [done|]. intros Hall. specialize (Hall x (list_elem_of_here _ _)).
      congruence.
    + rewrite IH. split.
      * intros Hall y [->|?]%elem_of_cons; [done|by apply Hall].
      * intros Hall y ?. apply Hall. by right.
Qed.

Lemma validated_calls_shape context registry calls :
  (∀ c, c ∈ calls → Validator.accepted check context registry c) →
  Forall2 (λ c vc,
             callId vc = callId c ∧ actionId vc = actionId c ∧
             dependsOn vc = dependsOn c ∧
             ∃ action, get (actionId c) registry = Some action ∧
                       check action context (args c) = Parsed (args vc))
          calls (omap (Validator.validated_call check context registry) calls).
Proof.
  induction calls as [|c calls IH]; intros Hall; cbn; [constructor|].
  destruct (Hall c (list_elem_of_here _ _)) as (a & v & Hget & Hc).
  unfold Validator.validated_call at 1. rewrite Hget, Hc.
  constructor.
  - split_and!; [done|done|done|]. by exists a.
  - apply IH. intros c' ?. apply Hall. by right.
Qed.

(** X24. [validate] reports, in the order of the calls, one error for
    every call whose action is not registered or whose arguments the
    schema rejects, carrying the identifiers of that call, with code
    ACTION_NOT_FOUND exactly for the unregistered actions.  The plan is
    valid exactly when there is no error, that is when every call names a
    registered action that accepts its arguments; then, and only then,
    [validatedCalls] is defined, and it lists the calls in order with
    their identifiers, action and dependencies unchanged and the parsed
    arguments in place of the given ones. *)
Theorem validate_spec plan context registry :
  let r := Validator.validate check plan context registry in
  Validator.errors r =
    omap (Validator.call_error check context registry)
         (DAGExecutor.calls plan) ∧
  (Validator.valid r = true ↔ Validator.errors r = []) ∧
  (Validator.valid r = true ↔
   ∀ c, c ∈ DAGExecutor.calls plan →
        Validator.accepted check context registry c) ∧
  (Validator.valid r = true ↔ is_Some (Validator.validatedCalls r)) ∧
  (∀ vcs, Validator.validatedCalls r = Some vcs →
     Forall2 (λ c vc,
                callId vc = callId c ∧ actionId vc = actionId c ∧
                dependsOn vc = dependsOn c ∧
                ∃ action, get (actionId c) registry = Some action ∧
                          check action context (args c) = Parsed (args vc))
             (DAGExecutor.calls plan) vcs) ∧
  Forall (λ e, ∃ c, c ∈ DAGExecutor.calls plan ∧
                    error_actionId e = actionId c ∧
                    error_callId e = callId c ∧
                    (code e = ACTION_NOT_FOUND ↔
                     get (actionId c) registry = None))
         (Validator.errors r).
Proof.
  intros r. subst r. unfold Validator.validate.
  rewrite validate_fold. cbn [app Validator.errors Validator.valid
                              Validator.validatedCalls].
  set (es := omap (Validator.call_error check context registry)
                  (DAGExecutor.calls plan)).
  assert (length es = 0%nat ↔ es = []) as Hlen
    by (destruct es; naive_solver).
  assert (es = [] ↔
          ∀ c, c ∈ DAGExecutor.calls plan →
               Validator.accepted check context registry c) as Hacc.
  { unfold es. rewrite omap_nil_iff. apply forall_proper. intros c.
    by rewrite call_error_None. }
  split_and!.
  - done.
  - by rewrite bool_decide_eq_true.
  - by rewrite bool_decide_eq_true, Hlen.
  - rewrite bool_decide_eq_true. case_bool_decide; naive_solver.
  - intros vcs. case_bool_decide as Hz; [|done]. intros [= <-].
    apply validated_calls_shape. by apply Hacc, Hlen.
  - apply Forall_forall. intros e (c & Hc & He)%list_elem_of_omap.
    exists c. split; [done|]. unfold Validator.call_error in He.
    destruct (get (actionId c) registry) as [a|].
    + destruct (check a context (args c)); [done|..];
        injection He as <-; naive_solver.
    + injection He as <-. naive_solver.
Qed.

(** X25. Executing a plan that the validator accepts never meets an
    unregistered action: every recorded outcome belongs to a call of the
    plan whose action is registered, and is the no-handler error if that
    action has no handler. *)
Theorem validated_plan_execution (this : Executor) plan context (w : World)
    res w' cid (e : ResultEntry) :
  Validator.valid
    (Validator.validate check plan context (DAGExecutor.registry this)) = true →
  DAGExecutor.execute sched this plan context w = (Returned res, w') →
  DAGExecutor.results res !! cid = Some e →
  ∃ c a, c ∈ DAGExecutor.calls plan ∧ callId c = cid ∧
    get (actionId c) (DAGExecutor.registry this) = Some a ∧
    (handler a = None → e = no_handler_entry c) ∧
    (error e = None → is_Some (handler a)).
Proof.
  intros Hvalid Hex Hl.
  destruct (execute_outcome _ _ _ _ _ _ _ Hex)
    as (batches & evs & Hord & _ & Hprov & _).
  destruct (Hprov _ _ Hl) as (c & Hc & Hid & Hout).
  apply (buildExecutionOrder_calls _ _ _ _ Hord) in Hc.
  unfold Validator.validate in Hvalid. rewrite validate_fold in Hvalid.
  cbn in Hvalid. apply bool_decide_eq_true in Hvalid.
  assert (Validator.accepted check context (DAGExecutor.registry this) c)
    as (a & _ & Hget & _).
  { apply call_error_None.
    assert (omap (Validator.call_error check context (DAGExecutor.registry this))
                 (DAGExecutor.calls plan) = []) as Hnil
      by by apply nil_length_inv.
    by apply (proj1 (omap_nil_iff _ _) Hnil). }
  destruct (outcome_of_cases _ _ _ Hout) as (_ & Hno & Hok).
  exists c, a. split_and!; [done|done|done|by apply Hno|].
  intros (a' & h & Hget' & Hh)%Hok. rewrite Hget in Hget'.
  injection Hget' as <-. by rewrite Hh.
Qed.

End ValidatorFacts.

(** * Facts about the pipeline *)

Section PipelineFacts.

Context {W Val AppCtx S : Type}.

Local Abbreviation ActionDefinition := (@ActionDefinition W Val AppCtx).
Local Abbreviation ActionCall := (@ActionCall Val).
Local Abbreviation Pipeline := (@Pipeline.t W Val AppCtx).
Local Abbreviation Plan := (@Pipeline.Plan Val AppCtx).
Local Abbreviation World := (@Pipeline.World S).

Variable check : ActionDefinition → AppCtx → Val → SchemaOutcome Val.

Variable repair :
  string → AppCtx → Plan → list ValidationError → list ActionDefinition →
  S → Completion JsError Plan * S.

Local Abbreviation repair_loop := (Pipeline.repair_loop check repair).
Local Abbreviation validateWithRepair := (Pipeline.validateWithRepair check repair).

Implicit Types (this : Pipeline) (plan cur p : Plan) (ctx : AppCtx)
  (w : World).

Lemma validate_no_calls this p ctx :
  Pipeline.calls p = [] →
  Validator.valid
    (Validator.validate check (Pipeline.executor_plan p) ctx
       (Pipeline.registry this)) = true.
Proof.
  intros Hnil. unfold Validator.validate, Pipeline.executor_plan.
  cbn [DAGExecutor.calls]. by rewrite Hnil.
Qed.

Lemma repair_loop_result this remaining attempt plan cur ctx w p w' :
  Z.of_nat remaining =
    default 2 (Pipeline.repairMaxRetries this) - attempt →
  (0 < remaining)%nat →
  repair_loop this remaining attempt plan cur ctx w = (Returned p, w') →
  ∃ last,
    (p = last ∧
     Validator.valid
       (Validator.validate check (Pipeline.executor_plan last) ctx
          (Pipeline.registry this)) = true) ∨
    (p = Pipeline.clarification_plan last
           (Validator.errors
              (Validator.validate check (Pipeline.executor_plan last) ctx
                 (Pipeline.registry this))) ∧
     Validator.valid
       (Validator.validate check (Pipeline.executor_plan last) ctx
          (Pipeline.registry this)) = false).
Proof.
  revert attempt cur w.
  induction remaining as [|r IH]; intros attempt cur w Hrem Hpos; [lia|].
  cbn [Pipeline.repair_loop].
  destruct (Validator.valid
              (Validator.validate check (Pipeline.executor_plan cur) ctx
                 (Pipeline.registry this))) eqn:Hvalid.
  { intros [= <- _]. exists cur. by left. }
  destruct (negb _ || bool_decide _) eqn:Hstop.
  { intros [= <- _]. exists cur. by right. }
  apply orb_false_iff in Hstop as [_ Hlast%bool_decide_eq_false].
  destruct (repair _ _ _ _ _ _) as [[repaired|e] s]; [|done].
  apply IH; lia.
Qed.

(** X26. With [repairMaxRetries] at least 1, a plan that
    [validateWithRepair] returns passes validation: each of its calls
    names a registered action whose schema accepts the arguments.  It is
    either a plan that the validator accepted as it is, or the
    clarification plan made from a plan that the validator rejected: that
    plan without its calls, asking about the actions of its errors. *)
Theorem validateWithRepair_returns_valid this plan ctx w p w' :
  1 ≤ default 2 (Pipeline.repairMaxRetries this) →
  validateWithRepair this plan ctx w = (Returned p, w') →
  Validator.valid
    (Validator.validate check (Pipeline.executor_plan p) ctx
       (Pipeline.registry this)) = true ∧
  (∀ c, c ∈ Pipeline.calls p →
        Validator.accepted check ctx (Pipeline.registry this) c) ∧
  ∃ last,
    (p = last ∧
     Validator.valid
       (Validator.validate check (Pipeline.executor_plan last) ctx
          (Pipeline.registry this)) = true) ∨
    (p = Pipeline.clarification_plan last
           (Validator.errors
              (Validator.validate check (Pipeline.executor_plan last) ctx
                 (Pipeline.registry this))) ∧
     Validator.valid
       (Validator.validate check (Pipeline.executor_plan last) ctx
          (Pipeline.registry this)) = false).
Proof.
  intros Hn Hret.
  destruct (repair_loop_result this
              (Z.to_nat (default 2 (Pipeline.repairMaxRetries this)))
              0 plan plan ctx w p w') as [last Hlast];
    [lia|lia|exact Hret|].
  assert (Validator.valid
            (Validator.validate check (Pipeline.executor_plan p) ctx
               (Pipeline.registry this)) = true) as Hvalid.
  { destruct Hlast as [[-> ?]|[-> _]]; [done|]. by apply validate_no_calls. }
  split_and!; [done| |by exists last].
  unfold Validator.validate in Hvalid. rewrite validate_fold in Hvalid.
  cbn in Hvalid. apply bool_decide_eq_true, nil_length_inv in Hvalid.
  intros c Hc. apply call_error_None.
  by apply (proj1 (omap_nil_iff _ _) Hvalid).
Qed.

Lemma repairs_started_app (tr1 tr2 : list Pipeline.TraceEvent) :
  Pipeline.repairs_started (tr1 ++ tr2) =
    (Pipeline.repairs_started tr1 + Pipeline.repairs_started tr2)%nat.
Proof. unfold Pipeline.repairs_started. by rewrite filter_app, length_app. Qed.

Lemma repairs_started_start (d : option Z) :
  Pipeline.repairs_started
    [{| Pipeline.stage := "repair"; Pipeline.status := "start";
        Pipeline.data_attempt := d |}] = 1%nat.
Proof.
  unfold Pipeline.repairs_started. by rewrite filter_cons, decide_True.
Qed.

Lemma repairs_started_complete (d : option Z) :
  Pipeline.repairs_started
    [{| Pipeline.stage := "repair"; Pipeline.status := "complete";
        Pipeline.data_attempt := d |}] = 0%nat.
Proof.
  unfold Pipeline.repairs_started. rewrite filter_cons, decide_False; [done|].
  by intros [_ [=]].
Qed.

Lemma repair_loop_effort this remaining attempt plan cur ctx w c w' :
  remaining = 0%nat ∨
  Z.of_nat remaining =
    default 2 (Pipeline.repairMaxRetries this) - attempt →
  repair_loop this remaining attempt plan cur ctx w = (c, w') →
  ∃ evs,
    Pipeline.trace w' = Pipeline.trace w ++ evs ∧
    (Pipeline.repairs_started evs ≤ remaining - 1)%nat.
Proof.
  revert attempt cur w.
  induction remaining as [|r IH]; intros attempt cur w Hrem.
  { intros [= <- <-]. exists []. by rewrite app_nil_r. }
  destruct Hrem as [?|Hrem]; [done|].
  cbn [Pipeline.repair_loop].
  destruct (Validator.valid
              (Validator.validate check (Pipeline.executor_plan cur) ctx
                 (Pipeline.registry this))) eqn:Hvalid.
  { intros [= <- <-]. exists []. rewrite app_nil_r. split; [done|]. cbn. lia. }
  destruct (negb _ || bool_decide _) eqn:Hstop.
  { intros [= <- <-]. exists []. rewrite app_nil_r. split; [done|]. cbn. lia. }
  apply orb_false_iff in Hstop as [_ Hlast%bool_decide_eq_false].
  destruct (repair _ _ _ _ _ _) as [[repaired|e] s].
  - intros Hloop. apply IH in Hloop as (evs & Htr & Hcount); [|right; lia].
    cbn [Pipeline.recordEvent Pipeline.trace Pipeline.llm] in Htr.
    exists ([{| Pipeline.stage := "repair"; Pipeline.status := "start";
                Pipeline.data_attempt := Some (attempt + 1) |}] ++
            [{| Pipeline.stage := "repair"; Pipeline.status := "complete";
                Pipeline.data_attempt := None |}] ++ evs).
    split; [by rewrite Htr, <-!app_assoc|].
    rewrite !repairs_started_app, repairs_started_start,
      repairs_started_complete. lia.
  - intros [= <- <-]. cbn [Pipeline.recordEvent Pipeline.trace Pipeline.llm].
    eexists. split; [done|]. rewrite repairs_started_start. lia.
Qed.

(** X27. [validateWithRepair] starts at most [repairMaxRetries - 1]
    repairs.  It starts none and leaves the interpreter untouched when
    automatic repair is disabled, when [repairMaxRetries] is at most 1, or
    when the given plan is valid; and with [repairMaxRetries] zero or
    negative it returns the given plan without validating it. *)
Theorem validateWithRepair_effort this plan ctx w c w' :
  validateWithRepair this plan ctx w = (c, w') →
  ∃ evs,
    Pipeline.trace w' = Pipeline.trace w ++ evs ∧
    Z.of_nat (Pipeline.repairs_started evs) ≤
      Z.max (default 2 (Pipeline.repairMaxRetries this) - 1) 0 ∧
    (truthy (Pipeline.enableAutoRepair this) = false ∨
     default 2 (Pipeline.repairMaxRetries this) ≤ 1 ∨
     Validator.valid
       (Validator.validate check (Pipeline.executor_plan plan) ctx
          (Pipeline.registry this)) = true →
     w' = w) ∧
    (default 2 (Pipeline.repairMaxRetries this) ≤ 0 → c = Returned plan).
Proof.
  unfold Pipeline.validateWithRepair. intros Hloop.
  set (n := default 2 (Pipeline.repairMaxRetries this)) in *.
  destruct (repair_loop_effort this (Z.to_nat n) 0 plan plan ctx w c w')
    as (evs & Htr & Hcount); [|done|].
  { destruct (decide (0 ≤ n)); [right; fold n; lia|left; lia]. }
  exists evs. split_and!; [done|lia| |].
  - intros Hquiet. destruct (Z.to_nat n) as [|r] eqn:Hn.
    { by injection Hloop as _ <-. }
    cbn [Pipeline.repair_loop] in Hloop.
    destruct (Validator.valid
                (Validator.validate check (Pipeline.executor_plan plan) ctx
                   (Pipeline.registry this))) eqn:Hvalid.
    { by injection Hloop as _ <-. }
    destruct (negb _ || bool_decide _) eqn:Hstop.
    { by injection Hloop as _ <-. }
    apply orb_false_iff in Hstop as [Hauto%negb_false_iff Hlast%bool_decide_eq_false].
    fold n in Hlast. destruct Hquiet as [?|[?|?]]; [congruence|lia|done].
  - intros Hz. replace (Z.to_nat n) with 0%nat in Hloop by lia.
    by injection Hloop as <- _.
Qed.

End PipelineFacts.

(** ** Turn numbers *)

Section TurnFacts.

Context {W Val AppCtx : Type}.

Local Abbreviation Pipeline := (@Pipeline.t W Val AppCtx).
Local Abbreviation Plan := (@Pipeline.Plan Val AppCtx).

Implicit Types (this : Pipeline) (plan : Plan) (ctx : AppCtx).

Lemma getState_addMessage cid cid' m now (s : ThreeTierMemory.t) :
  ThreeTierMemory.getState cid' (ThreeTierMemory.addMessage cid m now s) =
    if decide (cid' = cid)
    then Some (default 0 (ThreeTierMemory.getState cid s) +
               if bool_decide (ThreeTierMemory.role m = ThreeTierMemory.user)
               then 1 else 0)
    else ThreeTierMemory.getState cid' s.
Proof.
  unfold ThreeTierMemory.getState, ThreeTierMemory.addMessage.
  cbn [ThreeTierMemory.conversations].
  destruct (decide (cid' = cid)) as [->|Hne].
  - rewrite lookup_insert_eq. cbn.
    destruct (ThreeTierMemory.conversations s !! cid); cbn;
      case_bool_decide; f_equal; lia.
  - by rewrite lookup_insert_ne.
Qed.

Lemma updateMemory_turn this cid cid' input input' ctx plan now1 now2 :
  Pipeline.input_turnNumber
    (Pipeline.normalize (Pipeline.updateMemory this cid input' plan now1 now2)
       input ctx cid') =
  Pipeline.input_turnNumber (Pipeline.normalize this input ctx cid') +
  if bool_decide (is_Some (Pipeline.memory this) ∧ cid' = cid) then 1 else 0.
Proof.
  unfold Pipeline.normalize, Pipeline.updateMemory.
  cbn [Pipeline.input_turnNumber].
  destruct (Pipeline.memory this) as [m|] eqn:Hm; cbn [Pipeline.memory].
  2:{ rewrite Hm. rewrite bool_decide_eq_false_2; [cbn; lia|].
      by intros [[? [=]] _]. }
  cbn [mbind option_bind].
  destruct (Pipeline.clarification plan) as [cl|];
    rewrite !getState_addMessage; cbn [ThreeTierMemory.role].
  - destruct (decide (cid' = cid)) as [->|Hne].
    + rewrite (bool_decide_eq_true_2 (_ ∧ _)) by (split; [by eexists|done]).
      rewrite decide_True by done. cbn [default from_option Datatypes.id].
      rewrite (bool_decide_eq_true_2 (ThreeTierMemory.user = _)) by done.
      rewrite (bool_decide_eq_false_2 (ThreeTierMemory.assistant = _)) by done.
      lia.
    + rewrite (bool_decide_eq_false_2 (_ ∧ _)) by (by intros [_ ?]). lia.
  - destruct (decide (cid' = cid)) as [->|Hne].
    + rewrite (bool_decide_eq_true_2 (_ ∧ _)) by (split; [by eexists|done]).
      cbn [default from_option Datatypes.id].
      rewrite (bool_decide_eq_true_2 (ThreeTierMemory.user = _)) by done.
      lia.
    + rewrite (bool_decide_eq_false_2 (_ ∧ _)) by (by intros [_ ?]). lia.
Qed.

Lemma updateMemory_memory this cid input plan now1 now2 :
  is_Some (Pipeline.memory (Pipeline.updateMemory this cid input plan now1 now2))
  ↔ is_Some (Pipeline.memory this).
Proof.
  unfold Pipeline.updateMemory.
  destruct (Pipeline.memory this) eqn:Hm; cbn; [|by rewrite Hm].
  split; by eexists.
Qed.

(** X28. With a memory configured, the turn number that [normalize]
    assigns in a conversation grows by exactly one with every completed
    turn of that conversation, whether or not the turn asked for
    clarification, and turns of other conversations do not change it:
    starting from a fresh memory, the request after [k] completed turns
    of the conversation gets the number [k + 1].  Without a memory every
    request gets the number 1. *)
Theorem turn_numbers this cid cid' (turns : list (@Pipeline.Turn Val AppCtx))
    input ctx :
  Pipeline.input_turnNumber
    (Pipeline.normalize (Pipeline.run_turns cid turns this) input ctx cid') =
    Pipeline.input_turnNumber (Pipeline.normalize this input ctx cid') +
    (if bool_decide (is_Some (Pipeline.memory this) ∧ cid' = cid)
     then Z.of_nat (length turns) else 0) ∧
  (Pipeline.memory this = None →
   Pipeline.input_turnNumber
     (Pipeline.normalize (Pipeline.run_turns cid turns this) input ctx cid')
   = 1) ∧
  (∀ cfg, Pipeline.memory this = Some (ThreeTierMemory.new cfg) → cid' = cid →
     Pipeline.input_turnNumber
       (Pipeline.normalize (Pipeline.run_turns cid turns this) input ctx cid')
     = Z.of_nat (length turns) + 1).
Proof.
  assert (Pipeline.input_turnNumber
    (Pipeline.normalize (Pipeline.run_turns cid turns this) input ctx cid') =
    Pipeline.input_turnNumber (Pipeline.normalize this input ctx cid') +
    (if bool_decide (is_Some (Pipeline.memory this) ∧ cid' = cid)
     then Z.of_nat (length turns) else 0)) as Hgen.
  { unfold Pipeline.run_turns. revert this.
    induction turns as [|turn turns IH]; intros this; cbn [foldl length].
    - case_bool_decide; lia.
    - rewrite IH, updateMemory_turn.
      pose proof (updateMemory_memory this cid (Pipeline.turn_input turn)
                    (Pipeline.turn_plan turn) (Pipeline.turn_now1 turn)
                    (Pipeline.turn_now2 turn)) as Hiff.
      repeat case_bool_decide; try lia; exfalso; naive_solver. }
  split_and!; [done| |].
  - intros Hnone. rewrite Hgen. unfold Pipeline.normalize.
    cbn [Pipeline.input_turnNumber]. rewrite Hnone.
    rewrite bool_decide_eq_false_2; [done|]. by intros [[? [=]] _].
  - intros cfg Hm ->. rewrite Hgen. unfold Pipeline.normalize.
    cbn [Pipeline.input_turnNumber]. rewrite Hm.
    rewrite bool_decide_eq_true_2 by (split; [by eexists|done]).
    cbn [mbind option_bind]. unfold ThreeTierMemory.getState.
    cbn [ThreeTierMemory.new ThreeTierMemory.conversations].
    rewrite lookup_empty. cbn. lia.
Qed.

End TurnFacts.

(** ** Text normalisation *)

Section TextFacts.

Implicit Types (s t cur w : string) (c : Ascii.ascii) (l : list string).

Lemma string_app_nil_l t : EmptyString +:+ t = t.
Proof. reflexivity. Qed.

Lemma string_app_cons c s t : String c s +:+ t = String c (s +:+ t).
Proof. reflexivity. Qed.

Lemma string_app_nil_r s : s +:+ EmptyString = s.
Proof.
  induction s as [|c s IH]; [done|]. by rewrite string_app_cons, IH.
Qed.

Lemma string_app_assoc s t w : (s +:+ t) +:+ w = s +:+ (t +:+ w).
Proof.
  induction s as [|c s IH]; [done|]. by rewrite !string_app_cons, IH.
Qed.

Lemma string_app_nonempty s c : s +:+ String c EmptyString ≠ EmptyString.
Proof. by destruct s. Qed.

Lemma trimEnd_cons_keep c t :
  Pipeline.is_whitespace c = false →
  Pipeline.trimEnd (String c t) = String c (Pipeline.trimEnd t).
Proof.
  intros Hc. cbn [Pipeline.trimEnd]. rewrite Hc.
  by destruct (Pipeline.trimEnd t).
Qed.

Lemma trimEnd_cons_space c t :
  Pipeline.is_whitespace c = true →
  Pipeline.trimEnd (String c t) =
    match Pipeline.trimEnd t with
    | EmptyString => EmptyString
    | rest => String c rest
    end.
Proof. intros Hc. cbn [Pipeline.trimEnd]. by rewrite Hc. Qed.

Lemma words_from_blank t :
  Pipeline.trimEnd t = EmptyString → Pipeline.words_from EmptyString t = [].
Proof.
  induction t as [|c t IH]; [done|]. cbn [Pipeline.words_from].
  destruct (Pipeline.is_whitespace c) eqn:Hc.
  - rewrite (trimEnd_cons_space _ _ Hc).
    destruct (Pipeline.trimEnd t); [by apply IH|done].
  - by rewrite (trimEnd_cons_keep _ _ Hc).
Qed.

Lemma words_from_nonempty cur t :
  cur ≠ EmptyString → Pipeline.words_from cur t ≠ [].
Proof.
  revert cur. induction t as [|c t IH]; intros cur Hcur;
    cbn [Pipeline.words_from].
  - by destruct cur.
  - destruct (Pipeline.is_whitespace c); [by destruct cur|].
    apply IH, string_app_nonempty.
Qed.

Lemma join_cons w l :
  l ≠ [] →
  Pipeline.join " " (w :: l) = w +:+ " " +:+ Pipeline.join " " l.
Proof. by destruct l. Qed.

(** The words of a text, joined by single spaces, against the collapsed
    text. *)
Lemma collapse_words t :
  (∀ cur, cur ≠ EmptyString →
     Pipeline.join " " (Pipeline.words_from cur t) =
       cur +:+ Pipeline.collapse false (Pipeline.trimEnd t)) ∧
  (match t with
   | String c _ => Pipeline.is_whitespace c = false
   | EmptyString => True
   end →
   Pipeline.join " " (Pipeline.words_from EmptyString t) =
     Pipeline.collapse false (Pipeline.trimEnd t)) ∧
  (Pipeline.trimEnd t ≠ EmptyString →
   Pipeline.join " " (Pipeline.words_from EmptyString t) =
     Pipeline.collapse true (Pipeline.trimEnd t) ∧
   Pipeline.words_from EmptyString t ≠ []).
Proof.
  induction t as [|c t (IH1 & IH2 & IH3)].
  { split_and!; [|done|done]. intros cur Hcur.
    cbn [Pipeline.words_from Pipeline.trimEnd Pipeline.collapse].
    rewrite string_app_nil_r. by destruct cur. }
  destruct (Pipeline.is_whitespace c) eqn:Hc.
  - rewrite (trimEnd_cons_space _ _ Hc). cbn [Pipeline.words_from]. rewrite Hc.
    split_and!.
    + intros cur Hcur.
      replace (match cur with
               | EmptyString => Pipeline.words_from EmptyString t
               | String _ _ => cur :: Pipeline.words_from EmptyString t
               end) with (cur :: Pipeline.words_from EmptyString t)
        by by destruct cur.
      destruct (Pipeline.trimEnd t) as [|c' rest] eqn:Ht.
      * rewrite (words_from_blank _ Ht).
        cbn [Pipeline.join Pipeline.collapse]. by rewrite string_app_nil_r.
      * destruct IH3 as [Hj Hne]; [done|].
        rewrite join_cons, Hj by done.
        cbn [Pipeline.collapse]. by rewrite Hc.
    + intros Hstart. congruence.
    + intros Hne. destruct (Pipeline.trimEnd t) as [|c' rest] eqn:Ht; [done|].
      destruct IH3 as [Hj Hne']; [done|]. split; [|done].
      rewrite Hj. cbn [Pipeline.collapse]. by rewrite Hc.
  - rewrite (trimEnd_cons_keep _ _ Hc). cbn [Pipeline.words_from Pipeline.collapse].
    rewrite Hc.
    split_and!.
    + intros cur Hcur. rewrite IH1 by apply string_app_nonempty.
      by rewrite string_app_assoc, string_app_cons, string_app_nil_l.
    + intros _. rewrite string_app_nil_l, IH1 by done.
      by rewrite string_app_cons, string_app_nil_l.
    + intros _. rewrite string_app_nil_l. split.
      * rewrite IH1 by done. by rewrite string_app_cons, string_app_nil_l.
      * by apply words_from_nonempty.
Qed.

Lemma words_trimStart s :
  Pipeline.words_from EmptyString (Pipeline.trimStart s) =
    Pipeline.words_from EmptyString s.
Proof.
  induction s as [|c s IH]; [done|].
  cbn [Pipeline.trimStart]. destruct (Pipeline.is_whitespace c) eqn:Hc; [|done].
  rewrite IH. cbn [Pipeline.words_from]. by rewrite Hc.
Qed.

Lemma trimStart_starts s :
  match Pipeline.trimStart s with
  | String c _ => Pipeline.is_whitespace c = false
  | EmptyString => True
  end.
Proof.
  induction s as [|c s IH]; [done|]. cbn [Pipeline.trimStart].
  by destruct (Pipeline.is_whitespace c) eqn:Hc.
Qed.

Lemma no_whitespace_snoc cur c :
  Pipeline.no_whitespace cur → Pipeline.is_whitespace c = false →
  Pipeline.no_whitespace (cur +:+ String c EmptyString).
Proof.
  induction cur as [|c' cur IH]; [by cbn|]. rewrite string_app_cons. cbn.
  intros [? ?] ?. split; auto.
Qed.

Lemma words_from_good cur t :
  Pipeline.no_whitespace cur →
  Forall (λ w, w ≠ EmptyString ∧ Pipeline.no_whitespace w)
         (Pipeline.words_from cur t).
Proof.
  revert cur. induction t as [|c t IH]; intros cur Hcur;
    cbn [Pipeline.words_from].
  - destruct cur; [constructor|]. apply Forall_singleton. by split.
  - destruct (Pipeline.is_whitespace c) eqn:Hc.
    + destruct cur; [by apply IH|]. constructor; [done|by apply IH].
    + by apply IH, no_whitespace_snoc.
Qed.

Lemma words_from_app cur w t :
  Pipeline.no_whitespace w →
  Pipeline.words_from cur (w +:+ t) = Pipeline.words_from (cur +:+ w) t.
Proof.
  revert cur. induction w as [|c w IH]; intros cur Hw.
  - by rewrite string_app_nil_l, string_app_nil_r.
  - destruct Hw as [Hc Hw]. rewrite string_app_cons.
    cbn [Pipeline.words_from]. rewrite Hc, IH by done.
    by rewrite string_app_assoc, string_app_cons, string_app_nil_l.
Qed.

Lemma words_join l :
  Forall (λ w, w ≠ EmptyString ∧ Pipeline.no_whitespace w) l →
  Pipeline.words_from EmptyString (Pipeline.join " " l) = l.
Proof.
  induction 1 as [|w l [Hne Hw] Hall IH]; [done|].
  destruct l as [|w2 l].
  - cbn [Pipeline.join]. rewrite <-(string_app_nil_r w) at 1.
    rewrite words_from_app, string_app_nil_l by done.
    cbn [Pipeline.words_from]. by destruct w.
  - rewrite join_cons by done. rewrite words_from_app by done.
    rewrite string_app_nil_l, string_app_cons, string_app_nil_l.
    cbn [Pipeline.words_from].
    replace (Pipeline.is_whitespace Pipeline.space) with true
      by (by vm_compute).
    rewrite IH. by destruct w.
Qed.

(** X29. The normalised text of a request is its words, the maximal runs
    of characters that are not whitespace, joined by single spaces: so it
    has the same words as the request, none of them empty or containing
    whitespace, and normalising it again changes nothing. *)
Theorem normalize_text_spec s :
  Pipeline.normalize_text s = Pipeline.join " " (Pipeline.words s) ∧
  Pipeline.words (Pipeline.normalize_text s) = Pipeline.words s ∧
  Pipeline.normalize_text (Pipeline.normalize_text s) =
    Pipeline.normalize_text s ∧
  Forall (λ w, w ≠ EmptyString ∧ Pipeline.no_whitespace w) (Pipeline.words s).
Proof.
  assert (∀ s, Pipeline.normalize_text s =
               Pipeline.join " " (Pipeline.words s)) as Hnorm.
  { intros s'. unfold Pipeline.normalize_text, Pipeline.trim, Pipeline.words.
    destruct (collapse_words (Pipeline.trimStart s')) as (_ & H2 & _).
    rewrite <-H2 by apply trimStart_starts. by rewrite words_trimStart. }
  assert (∀ s, Forall (λ w, w ≠ EmptyString ∧ Pipeline.no_whitespace w)
                 (Pipeline.words s)) as Hgood
    by (intros s'; by apply words_from_good).
  assert (Pipeline.words (Pipeline.normalize_text s) = Pipeline.words s)
    as Hwords.
  { rewrite Hnorm. unfold Pipeline.words at 1. by rewrite words_join. }
  split_and!; [done|done| |done].
  by rewrite (Hnorm (Pipeline.normalize_text s)), Hwords, <-Hnorm.
Qed.

End TextFacts.

(** ** The further theorems at the sample inputs *)

Lemma reachable_with_base : reachable Samples.with_base.
Proof.
  apply (reachable_register new_ActionRegistry Samples.base);
    [apply reachable_new|vm_compute; reflexivity].
Defined.

Lemma reachable_saga : reachable (DAGExecutor.registry Samples.saga).
Proof.
  apply (reachable_register
           (Samples.registry_of
              [Samples.action "reserve" None (Samples.succeed_with "reserved")
                 (Some Samples.throwing_compensation) None])
           (Samples.action "charge" (Some ["reserve"])
              (Samples.always_fail "card declined")
              (Some Samples.quiet_compensation) None)).
  - apply (reachable_register new_ActionRegistry
             (Samples.action "reserve" None (Samples.succeed_with "reserved")
                (Some Samples.throwing_compensation) None));
      [apply reachable_new|vm_compute; reflexivity].
  - vm_compute. reflexivity.
Defined.

(** Witness of [register_get]. *)
Lemma register_get_witness :
  get (id Samples.base) Samples.with_base = Some Samples.base ∧
  (∀ j, j ≠ id Samples.base →
        get j Samples.with_base =
          get j (new_ActionRegistry : @ActionRegistry nat string unit)) ∧
  isLocked Samples.with_base = false.
Proof.
  apply (register_get Samples.base new_ActionRegistry Samples.with_base).
  vm_compute. reflexivity.
Defined.

(** Witness of [register_duplicate]. *)
Lemma register_duplicate_witness :
  register (Samples.plainAction "base" None (Some ["again"])) Samples.with_base =
    (Threw (Error (alreadyRegisteredMessage (id Samples.base))),
     Samples.with_base).
Proof.
  apply (register_duplicate Samples.base
           (Samples.plainAction "base" None (Some ["again"]))
           new_ActionRegistry Samples.with_base);
    [vm_compute; reflexivity|reflexivity].
Defined.

(** Witness of [locked_is_final]. *)
Lemma locked_is_final_witness :
  snd (run_ops [DoRegister Scenarios.dependent; DoLock; DoRegister Samples.loop]
         (lock Samples.with_base)) = lock Samples.with_base ∧
  Forall (λ c, c = Threw (Error lockedMessage))
    (fst (run_ops [DoRegister Scenarios.dependent; DoLock;
                   DoRegister Samples.loop]
            (lock Samples.with_base))).
Proof.
  apply (locked_is_final
           [DoRegister Scenarios.dependent; DoLock; DoRegister Samples.loop]
           (lock Samples.with_base)).
  reflexivity.
Defined.

(** Witness of [register_succeeds_iff]. *)
Lemma register_succeeds_iff_witness :
  (∃ r', register Scenarios.dependent Samples.with_base = (Returned tt, r')) ↔
  locked Samples.with_base = false ∧
  valid_definition Scenarios.dependent Samples.with_base ∧
  ∀ d, d ∈ default [] (dependencies Scenarios.dependent) →
       is_Some (actions Samples.with_base !! d).
Proof.
  apply (register_succeeds_iff Scenarios.dependent Samples.with_base).
  apply reachable_with_base.
Defined.

(** Witness of [register_failure_cases]. *)
Lemma register_failure_cases_witness :
  ∃ e r',
    register Samples.broken Samples.with_base = (Threw e, r') ∧
    r' = Samples.with_base ∧
    ¬ is_CircularDependencyError e ∧
    ((locked Samples.with_base = true ∧ e = Error lockedMessage) ∨
     (locked Samples.with_base = false ∧
      ¬ valid_definition Samples.broken Samples.with_base ∧
      e ∈ [Error noIdMessage;
           Error (alreadyRegisteredMessage (id Samples.broken));
           Error (noDescriptionMessage (id Samples.broken));
           Error (noArgsSchemaMessage (id Samples.broken))]) ∨
     (locked Samples.with_base = false ∧
      valid_definition Samples.broken Samples.with_base ∧
      ∃ dep, dep ∈ default [] (dependencies Samples.broken) ∧
             actions Samples.with_base !! dep = None ∧
             e = Error (unknownDependencyMessage (id Samples.broken) dep))).
Proof.
  exists (Error (unknownDependencyMessage "broken" "nonexistent")),
         Samples.with_base.
  split; [vm_compute; reflexivity|].
  apply (register_failure_cases Samples.broken Samples.with_base);
    [apply reachable_with_base|vm_compute; reflexivity].
Defined.

(** Witness of [reachable_registry_is_dag]. *)
Lemma reachable_registry_is_dag_witness :
  (∀ i d, action_depends (DAGExecutor.registry Samples.saga) i d →
          is_Some (get d (DAGExecutor.registry Samples.saga))) ∧
  (∀ i, ¬ tc (action_depends (DAGExecutor.registry Samples.saga)) i i).
Proof.
  apply (reachable_registry_is_dag (DAGExecutor.registry Samples.saga)).
  apply reachable_saga.
Defined.

(** Witness of [getDependents_spec]: [charge] is the dependent of
    [reserve]. *)
Lemma getDependents_spec_witness :
  getDependents "reserve" (DAGExecutor.registry Samples.saga) = ["charge"] ∧
  NoDup (getDependents "reserve" (DAGExecutor.registry Samples.saga)) ∧
  ∀ j, j ∈ getDependents "reserve" (DAGExecutor.registry Samples.saga) ↔
       ∃ a, get j (DAGExecutor.registry Samples.saga) = Some a ∧
            "reserve" ∈ default [] (dependencies a).
Proof.
  split; [vm_compute; reflexivity|].
  apply (getDependents_spec (DAGExecutor.registry Samples.saga) "reserve").
  apply reachable_saga.
Defined.

(** Witness of [getByTag_spec]. *)
Lemma getByTag_spec_witness :
  NoDup (getByTag "tag1" Samples.tagged) ∧
  (∀ oa, oa ∈ getByTag "tag1" Samples.tagged ↔
         ∃ a, oa = Some a ∧ get (id a) Samples.tagged = Some a ∧
              "tag1" ∈ default [] (tags a)) ∧
  getByTags ["tag1"] Samples.tagged = getByTag "tag1" Samples.tagged.
Proof.
  apply (getByTag_spec Samples.tagged "tag1"). apply reachable_tagged.
Defined.

(** Witness of [buildExecutionOrder_partition]: the saga is scheduled in
    two batches of one call each. *)
Lemma buildExecutionOrder_partition_witness :
  let batches := [[Samples.call "call1" "reserve" None];
                  [Samples.call "call2" "charge" None]] in
  DAGExecutor.buildExecutionOrder Samples.saga
    (DAGExecutor.calls Samples.saga_plan) = Returned batches ∧
  Forall (λ batch, batch ≠ []) batches ∧
  NoDup (callId <$> concat batches) ∧
  (∀ cid, cid ∈ callId <$> DAGExecutor.calls Samples.saga_plan ↔
          cid ∈ callId <$> concat batches) ∧
  (∀ c, c ∈ concat batches → c ∈ DAGExecutor.calls Samples.saga_plan) ∧
  (∀ pre batch post c d,
     batches = pre ++ batch :: post → c ∈ batch →
     DAGExecutor.depends_on
       (DAGExecutor.build_graph Samples.saga
          (DAGExecutor.calls Samples.saga_plan)) (callId c) d →
     d ∈ callId <$> concat pre).
Proof.
  intros batches. split; [vm_compute; reflexivity|].
  apply (buildExecutionOrder_partition Samples.saga
           (DAGExecutor.calls Samples.saga_plan) batches).
  vm_compute. reflexivity.
Defined.

(** Witness of [buildExecutionOrder_earliest]. *)
Lemma buildExecutionOrder_earliest_witness :
  (∀ c d, c ∈ [Samples.call "call1" "reserve" None] →
     ¬ DAGExecutor.depends_on
         (DAGExecutor.build_graph Samples.saga
            (DAGExecutor.calls Samples.saga_plan)) (callId c) d) ∧
  earliest
    (DAGExecutor.build_graph Samples.saga (DAGExecutor.calls Samples.saga_plan))
    [Samples.call "call1" "reserve" None]
    [[Samples.call "call2" "charge" None]].
Proof.
  apply (buildExecutionOrder_earliest Samples.saga
           (DAGExecutor.calls Samples.saga_plan)
           [Samples.call "call1" "reserve" None]
           [[Samples.call "call2" "charge" None]]).
  vm_compute. reflexivity.
Defined.

(** Witness of [execute_failure_stops]: [parse] fails in the second batch
    and [store], in the third, is never run. *)
Lemma execute_failure_stops_witness :
  ∃ res w',
    DAGExecutor.execute DAGExecutor.in_batch_order Scenarios.chain3 Scenarios.chain3_plan tt
      Samples.world0 = (Returned res, w') ∧
    DAGExecutor.invocations (DAGExecutor.trace w') =
      [Samples.call "c1" "fetch" None; Samples.call "c2" "parse" None] ∧
    ∃ batches pre batch post c e evs,
      DAGExecutor.buildExecutionOrder Scenarios.chain3
        (DAGExecutor.calls Scenarios.chain3_plan) = Returned batches ∧
      batches = pre ++ batch :: post ∧ c ∈ batch ∧
      DAGExecutor.results res !! callId c = Some e ∧ is_Some (error e) ∧
      (∀ cid' e', DAGExecutor.results res !! cid' = Some e' →
                  cid' ≠ callId c → error e' = None) ∧
      DAGExecutor.trace w' = DAGExecutor.trace Samples.world0 ++ evs ∧
      ∀ c', c' ∈ concat post →
            (c' ∉ DAGExecutor.invocations evs) ∧
            DAGExecutor.results res !! callId c' = None.
Proof.
  eexists _, _. split; [vm_compute; reflexivity|].
  split; [vm_compute; reflexivity|].
  eapply (execute_failure_stops DAGExecutor.in_batch_order Scenarios.chain3 Scenarios.chain3_plan tt
            Samples.world0);
    [vm_compute; reflexivity|vm_compute; discriminate].
Defined.

(** Witness of [execute_single_failure]: the saga reports one failure. *)
Lemma execute_single_failure_witness :
  ∃ res w',
    DAGExecutor.execute DAGExecutor.in_batch_order Samples.saga Samples.saga_plan tt Samples.world0 =
      (Returned res, w') ∧
    DAGExecutor.failed res = 1 ∧
    (DAGExecutor.failed res = 0 ∨ DAGExecutor.failed res = 1) ∧
    (DAGExecutor.failed res = 0 ↔
     DAGExecutor.all_succeeded (DAGExecutor.results res)) ∧
    (DAGExecutor.failed res = 0 →
     dom (DAGExecutor.results res) =
       list_to_set (callId <$> DAGExecutor.calls Samples.saga_plan) ∧
     DAGExecutor.succeeded res = Z.of_nat (size (DAGExecutor.results res))).
Proof.
  eexists _, _. split; [vm_compute; reflexivity|].
  split; [reflexivity|].
  eapply (execute_single_failure DAGExecutor.in_batch_order Samples.saga Samples.saga_plan tt
            Samples.world0).
  vm_compute. reflexivity.
Defined.

(** Witness of [execute_no_compensation]: an execution without failure. *)
Lemma execute_no_compensation_witness :
  ∃ res w',
    DAGExecutor.execute DAGExecutor.in_batch_order Scenarios.happy Scenarios.happy_plan tt
      Samples.world0 = (Returned res, w') ∧
    ∃ evs,
      DAGExecutor.trace w' = DAGExecutor.trace Samples.world0 ++ evs ∧
      Forall (λ ev, ¬ DAGExecutor.compensation_event ev) evs ∧
      DAGExecutor.compensations (DAGExecutor.trace w') =
        DAGExecutor.compensations (DAGExecutor.trace Samples.world0).
Proof.
  eexists _, _. split; [vm_compute; reflexivity|].
  eapply (execute_no_compensation DAGExecutor.in_batch_order Scenarios.happy Scenarios.happy_plan tt
            Samples.world0);
    [vm_compute; reflexivity|right; reflexivity].
Defined.

(** Witness of [execute_recorded_outcome]: a call of an unregistered
    action. *)
Lemma execute_recorded_outcome_witness :
  ∃ res w' e,
    DAGExecutor.execute DAGExecutor.in_batch_order Samples.saga Scenarios.ghost_plan tt Samples.world0 =
      (Returned res, w') ∧
    DAGExecutor.results res !! "c1" = Some e ∧
    e = not_found_entry (Samples.call "c1" "ghost" None) ∧
    ∃ c, c ∈ DAGExecutor.calls Scenarios.ghost_plan ∧ callId c = "c1" ∧
      (get (actionId c) (DAGExecutor.registry Samples.saga) = None →
       e = not_found_entry c) ∧
      (∀ a, get (actionId c) (DAGExecutor.registry Samples.saga) = Some a →
            handler a = None → e = no_handler_entry c) ∧
      (error e = None →
       ∃ a h, get (actionId c) (DAGExecutor.registry Samples.saga) = Some a ∧
              handler a = Some h).
Proof.
  eexists _, _, _. split; [vm_compute; reflexivity|].
  split; [vm_compute; reflexivity|].
  split; [reflexivity|].
  eapply (execute_recorded_outcome DAGExecutor.in_batch_order Samples.saga Scenarios.ghost_plan tt
            Samples.world0);
    [vm_compute; reflexivity|vm_compute; reflexivity].
Defined.

Lemma always_succeeds_happy c :
  c ∈ DAGExecutor.calls Scenarios.happy_plan →
  always_succeeds Scenarios.happy c.
Proof.
  intros [->|[->|[]%elem_of_nil]%elem_of_cons]%elem_of_cons.
  - exists Scenarios.reserve, (Samples.succeed_with "reserved").
    split_and!; [vm_compute; reflexivity|reflexivity| |].
    + intros ctx s. by eexists _, _.
    + intros rc Hrc. vm_compute in Hrc. discriminate.
  - exists Scenarios.ship, (Samples.succeed_with "shipped").
    split_and!; [vm_compute; reflexivity|reflexivity| |].
    + intros ctx s. by eexists _, _.
    + intros rc Hrc. vm_compute in Hrc. discriminate.
Defined.

(** Witness of [execute_all_succeed]. *)
Lemma execute_all_succeed_witness :
  ∃ res w',
    DAGExecutor.execute DAGExecutor.in_batch_order Scenarios.happy Scenarios.happy_plan tt
      Samples.world0 = (Returned res, w') ∧
    DAGExecutor.failed res = 0 ∧
    DAGExecutor.succeeded res = Z.of_nat (size (DAGExecutor.results res)) ∧
    dom (DAGExecutor.results res) =
      list_to_set (callId <$> DAGExecutor.calls Scenarios.happy_plan) ∧
    (∀ cid e, DAGExecutor.results res !! cid = Some e →
              error e = None ∧ is_Some (result e)) ∧
    DAGExecutor.compensations (DAGExecutor.trace w') =
      DAGExecutor.compensations (DAGExecutor.trace Samples.world0).
Proof.
  assert (DAGExecutor.buildExecutionOrder Scenarios.happy
            (DAGExecutor.calls Scenarios.happy_plan) =
          Returned [[Samples.call "call1" "reserve" None];
                    [Samples.call "call2" "ship" None]]) as Hord
    by (vm_compute; reflexivity).
  apply buildExecutionOrder_returned_inv in Hord as [Hacyc Hdeps].
  exact (execute_all_succeed DAGExecutor.in_batch_order Scenarios.happy Scenarios.happy_plan tt
           Samples.world0 Hacyc Hdeps always_succeeds_happy).
Defined.

(** Witness of [run_call_single_attempt]: without a retry policy the
    failing handler of [charge] is invoked once. *)
Lemma run_call_single_attempt_witness :
  DAGExecutor.run_call Samples.saga Samples.ctx0
    (Samples.call "call2" "charge" None) Samples.world0 =
    ((callId (Samples.call "call2" "charge" None),
      entry_of_outcome
        (fst (Samples.always_fail "card declined"
                (args (Samples.call "call2" "charge" None)) Samples.ctx0
                (DAGExecutor.app Samples.world0)))),
     {| DAGExecutor.app :=
          snd (Samples.always_fail "card declined"
                 (args (Samples.call "call2" "charge" None)) Samples.ctx0
                 (DAGExecutor.app Samples.world0));
        DAGExecutor.trace :=
          DAGExecutor.trace Samples.world0 ++
          [DAGExecutor.HandlerInvoked (Samples.call "call2" "charge" None)
             Samples.ctx0] |}).
Proof.
  apply (run_call_single_attempt Samples.saga Samples.ctx0
           (Samples.call "call2" "charge" None) Samples.world0
           (Samples.action "charge" (Some ["reserve"])
              (Samples.always_fail "card declined")
              (Some Samples.quiet_compensation) None)
           (Samples.always_fail "card declined"));
    [vm_compute; reflexivity|reflexivity|left; vm_compute; reflexivity].
Defined.

(** Witness of [run_call_zero_attempts]: the always-failing handler under
    a policy with [maxAttempts = 0]. *)
Lemma run_call_zero_attempts_witness :
  DAGExecutor.run_call Scenarios.untried Samples.ctx0 Samples.failing_call
    Samples.world0 =
    ((callId Samples.failing_call, {| result := None; error := None |}),
     Samples.world0).
Proof.
  apply (run_call_zero_attempts Scenarios.untried Samples.ctx0
           Samples.failing_call Samples.world0 Scenarios.untried_action
           (Samples.always_fail "Permanent failure") Scenarios.no_attempts);
    [vm_compute; reflexivity|reflexivity|vm_compute; reflexivity|
     vm_compute; discriminate].
Defined.

(** The whole execution then reports the call as succeeded. *)
Example untried_execution :
  let out := DAGExecutor.execute DAGExecutor.in_batch_order Scenarios.untried
               (Samples.plan_of [Samples.failing_call]) tt Samples.world0 in
  fst out =
    Returned {| DAGExecutor.succeeded := 1; DAGExecutor.failed := 0;
                DAGExecutor.results :=
                  {[ "call1" := {| result := None; error := None |} ]} |} ∧
  snd out = Samples.world0.
Proof. vm_compute. done. Qed.

(** Witness of [retry_exhausts]: three attempts, two sleeps. *)
Lemma retry_exhausts_witness :
  ∃ e s w',
    DAGExecutor.run_call Samples.retrying Samples.ctx0 Samples.failing_call
      Samples.world0 =
      ((callId Samples.failing_call,
        {| result := None; error := error_of_thrown e |}), w') ∧
    Samples.always_fail "Permanent failure" (args Samples.failing_call)
      Samples.ctx0 s = (inr e, DAGExecutor.app w') ∧
    DAGExecutor.invocations (DAGExecutor.trace w') =
      DAGExecutor.invocations (DAGExecutor.trace Samples.world0) ++
      replicate (Z.to_nat (maxAttempts Samples.linear3)) Samples.failing_call ∧
    DAGExecutor.sleeps (DAGExecutor.trace w') =
      DAGExecutor.sleeps (DAGExecutor.trace Samples.world0) ++
      ((λ k, DAGExecutor.calculateBackoff k Samples.linear3) <$>
         seqZ 0 (maxAttempts Samples.linear3 - 1)).
Proof.
  apply (retry_exhausts Samples.retrying Samples.ctx0 Samples.failing_call
           Samples.world0 Samples.failing_action
           (Samples.always_fail "Permanent failure") Samples.linear3);
    [vm_compute; reflexivity|reflexivity|vm_compute; reflexivity|
     vm_compute; discriminate|].
  intros s. by eexists _, _.
Defined.

(** Witness of [depends_on_spec]: the call of [charge] depends on the call
    of [reserve] through the dependency of their actions. *)
Lemma depends_on_spec_witness :
  DAGExecutor.depends_on
    (DAGExecutor.build_graph Samples.saga (DAGExecutor.calls Samples.saga_plan))
    (callId (Samples.call "call2" "charge" None)) "call1" ↔
  "call1" ∈ default [] (dependsOn (Samples.call "call2" "charge" None)) ∨
  ∃ c', c' ∈ DAGExecutor.calls Samples.saga_plan ∧ callId c' = "call1" ∧
        actionId c' ∈ default []
          (get (actionId (Samples.call "call2" "charge" None))
               (DAGExecutor.registry Samples.saga) ≫= dependencies).
Proof.
  apply (depends_on_spec Samples.saga (DAGExecutor.calls Samples.saga_plan)
           (Samples.call "call2" "charge" None) "call1").
  - vm_compute. apply NoDup_cons. split; [|apply NoDup_singleton].
    intros [=]%list_elem_of_singleton.
  - apply elem_of_cons. right. apply elem_of_cons. by left.
Defined.

(** Witness of [working_memory_window]: with one turn of working memory,
    the last two of three messages are kept. *)
Lemma working_memory_window_witness :
  ∃ c,
    ThreeTierMemory.conversations
      (ThreeTierMemory.run PipelineSamples.history
         (ThreeTierMemory.new PipelineSamples.one_turn)) !! "conv1" = Some c ∧
    ThreeTierMemory.content <$> ThreeTierMemory.workingMemory c =
      ["for which day?"; "tomorrow"] ∧
    ThreeTierMemory.getMessagesForLLM "conv1"
      (ThreeTierMemory.run PipelineSamples.history
         (ThreeTierMemory.new PipelineSamples.one_turn)) =
      ThreeTierMemory.workingMemory c ∧
    ThreeTierMemory.workingMemory c =
      ThreeTierMemory.window
        (default 5 (ThreeTierMemory.workingMemoryTurns PipelineSamples.one_turn))
        (ThreeTierMemory.archivalMemory c) ∧
    (0 < default 5 (ThreeTierMemory.workingMemoryTurns PipelineSamples.one_turn) →
     ThreeTierMemory.workingMemory c =
       ThreeTierMemory.last_n
         (Z.to_nat
            (2 * default 5
                   (ThreeTierMemory.workingMemoryTurns PipelineSamples.one_turn)))
         (ThreeTierMemory.archivalMemory c) ∧
     Z.of_nat (length (ThreeTierMemory.workingMemory c)) ≤
       2 * default 5
             (ThreeTierMemory.workingMemoryTurns PipelineSamples.one_turn)) ∧
    (default 5 (ThreeTierMemory.workingMemoryTurns PipelineSamples.one_turn) = 0 →
     ThreeTierMemory.workingMemory c = ThreeTierMemory.archivalMemory c) ∧
    (default 5 (ThreeTierMemory.workingMemoryTurns PipelineSamples.one_turn) < 0 →
     ThreeTierMemory.workingMemory c = []).
Proof.
  eexists. split; [vm_compute; reflexivity|].
  split; [vm_compute; reflexivity|].
  apply (working_memory_window PipelineSamples.one_turn
           PipelineSamples.history "conv1").
  vm_compute. reflexivity.
Defined.

(** With [workingMemoryTurns = 0] nothing is ever dropped from the working
    memory. *)
Example working_memory_zero_turns :
  ThreeTierMemory.content <$>
    ThreeTierMemory.getMessagesForLLM "conv1"
      (ThreeTierMemory.run PipelineSamples.history
         (ThreeTierMemory.new
            {| ThreeTierMemory.workingMemoryTurns := Some 0 |})) =
    ["create a task"; "for which day?"; "tomorrow"].
Proof. vm_compute. reflexivity. Qed.

(** Witness of [validated_plan_execution]. *)
Lemma validated_plan_execution_witness :
  ∃ res w' e,
    DAGExecutor.execute DAGExecutor.in_batch_order Scenarios.happy Scenarios.happy_plan tt
      Samples.world0 = (Returned res, w') ∧
    DAGExecutor.results res !! "call1" = Some e ∧
    ∃ c a, c ∈ DAGExecutor.calls Scenarios.happy_plan ∧ callId c = "call1" ∧
      get (actionId c) (DAGExecutor.registry Scenarios.happy) = Some a ∧
      (handler a = None → e = no_handler_entry c) ∧
      (error e = None → is_Some (handler a)).
Proof.
  eexists _, _, _. split; [vm_compute; reflexivity|].
  split; [vm_compute; reflexivity|].
  eapply (validated_plan_execution DAGExecutor.in_batch_order PipelineSamples.accept_all Scenarios.happy
            Scenarios.happy_plan tt Samples.world0);
    [vm_compute; reflexivity|vm_compute; reflexivity|vm_compute; reflexivity].
Defined.

(** Witness of [validateWithRepair_returns_valid]: the call of the
    unregistered action is repaired into a call of [base]. *)
Lemma validateWithRepair_returns_valid_witness :
  ∃ p w',
    Pipeline.validateWithRepair PipelineSamples.accept_all
      PipelineSamples.repair_to_base PipelineSamples.pipeline
      PipelineSamples.draft tt PipelineSamples.world0 = (Returned p, w') ∧
    Pipeline.calls p = [Samples.call "call_repair_0" "base" None] ∧
    Validator.valid
      (Validator.validate PipelineSamples.accept_all
         (Pipeline.executor_plan p) tt
         (Pipeline.registry PipelineSamples.pipeline)) = true ∧
    (∀ c, c ∈ Pipeline.calls p →
          Validator.accepted PipelineSamples.accept_all tt
            (Pipeline.registry PipelineSamples.pipeline) c) ∧
    ∃ last,
      (p = last ∧
       Validator.valid
         (Validator.validate PipelineSamples.accept_all
            (Pipeline.executor_plan last) tt
            (Pipeline.registry PipelineSamples.pipeline)) = true) ∨
      (p = Pipeline.clarification_plan last
             (Validator.errors
                (Validator.validate PipelineSamples.accept_all
                   (Pipeline.executor_plan last) tt
                   (Pipeline.registry PipelineSamples.pipeline))) ∧
       Validator.valid
         (Validator.validate PipelineSamples.accept_all
            (Pipeline.executor_plan last) tt
            (Pipeline.registry PipelineSamples.pipeline)) = false).
Proof.
  eexists _, _. split; [vm_compute; reflexivity|].
  split; [reflexivity|].
  eapply (validateWithRepair_returns_valid PipelineSamples.accept_all
            PipelineSamples.repair_to_base PipelineSamples.pipeline
            PipelineSamples.draft tt PipelineSamples.world0);
    [vm_compute; discriminate|vm_compute; reflexivity].
Defined.

(** Witness of [validateWithRepair_effort]: one repair under the default
    of two rounds. *)
Lemma validateWithRepair_effort_witness :
  ∃ c w',
    Pipeline.validateWithRepair PipelineSamples.accept_all
      PipelineSamples.repair_to_base PipelineSamples.pipeline
      PipelineSamples.draft tt PipelineSamples.world0 = (c, w') ∧
    Pipeline.llm w' = 1%nat ∧
    ∃ evs,
      Pipeline.trace w' = Pipeline.trace PipelineSamples.world0 ++ evs ∧
      Z.of_nat (Pipeline.repairs_started evs) ≤
        Z.max (default 2 (Pipeline.repairMaxRetries PipelineSamples.pipeline) - 1)
              0 ∧
      (truthy (Pipeline.enableAutoRepair PipelineSamples.pipeline) = false ∨
       default 2 (Pipeline.repairMaxRetries PipelineSamples.pipeline) ≤ 1 ∨
       Validator.valid
         (Validator.validate PipelineSamples.accept_all
            (Pipeline.executor_plan PipelineSamples.draft) tt
            (Pipeline.registry PipelineSamples.pipeline)) = true →
       w' = PipelineSamples.world0) ∧
      (default 2 (Pipeline.repairMaxRetries PipelineSamples.pipeline) ≤ 0 →
       c = Returned PipelineSamples.draft).
Proof.
  eexists _, _. split; [vm_compute; reflexivity|].
  split; [reflexivity|].
  eapply (validateWithRepair_effort PipelineSamples.accept_all
            PipelineSamples.repair_to_base PipelineSamples.pipeline
            PipelineSamples.draft tt PipelineSamples.world0).
  vm_compute. reflexivity.
Defined.

(** Without automatic repair the same request ends in a clarification. *)
Example validateWithRepair_without_repair :
  let this : @Pipeline.t nat string unit :=
    Pipeline.new
      {| Pipeline.registry := Samples.with_base; Pipeline.memory := None;
         Pipeline.repairMaxRetries := None;
         Pipeline.enableAutoRepair := Some false |} in
  let out :=
    Pipeline.validateWithRepair PipelineSamples.accept_all
      PipelineSamples.repair_to_base this PipelineSamples.draft tt
      PipelineSamples.world0 in
  snd out = PipelineSamples.world0 ∧
  ∃ p, fst out = Returned p ∧ Pipeline.calls p = [] ∧
       Pipeline.actionIds <$> Pipeline.clarification p = Some ["ghost"].
Proof. split; [vm_compute; reflexivity|]. eexists. by vm_compute. Qed.

Example normalize_text_sample :
  Pipeline.normalize_text
    ("  create " +:+ Pipeline.newline +:+ "  a   task ") = "create a task".
Proof. vm_compute. reflexivity. Qed.
